(** * Instance runtime of vue-selflearning: events, lifecycle, inject, render

    A shallow embedding of [src/core/instance/events.js],
    [src/core/instance/lifecycle.js], [src/core/instance/inject.js],
    [src/core/instance/render.js] and [src/core/instance/proxy.js], with the
    properties the specification states about them and further properties
    of the code. *)

From stdpp Require Import gmap strings list.
From Stdlib Require Import ZArith Lia.

Set Warnings "-register-all".

(** * Events ([events.js]) *)

Module Events.

(** ** Data *)

(** Identity of a user-written function, of an array object and of a
    closure allocated by [$once] or [createOnceHandler]. *)
Definition fnid := nat.
Definition addr := nat.
Definition closure := nat.

(** A callback as stored in [vm._events[event]].  [OnWrapper w event fn] is
    the closure [on] built by [$once] (its property [on.fn] is [fn]);
    [OnceHandler w event fn] is the closure [onceHandler] built by
    [createOnceHandler] (it has no [fn] property). *)
Inductive cb : Type :=
  | UserFn (f : fnid)
  | OnWrapper (w : closure) (event : string) (fn : cb)
  | OnceHandler (w : closure) (event : string) (fn : cb).

#[global] Instance cb_eq_dec : EqDecision cb.
Proof. solve_decision. Defined.

(** [cb.fn] *)
Definition cb_fn (c : cb) : option cb :=
  match c with
  | OnWrapper _ _ fn => Some fn
  | _ => None
  end.

(** [cb === fn || cb.fn === fn] *)
Definition matches (c fn : cb) : bool :=
  bool_decide (c = fn) || bool_decide (cb_fn c = Some fn).

(** The value held by [vm._events[event]] when the key is present: [null]
    (written by [$off(event)]) or a reference to an array. *)
Inductive slot : Type :=
  | SNull
  | SArr (a : addr).

(** The first argument of [$on] and [$off]: [string | Array<string>]. *)
Inductive evarg : Type :=
  | One (event : string)
  | Many (events : list string).

(** What a function returns, as far as [res !== null] can tell. *)
Inductive retval : Type :=
  | RNull
  | RUndefined
  | RValue (v : Z).

Inductive completion : Type :=
  | Return (r : retval)
  | Throw.

(** The receiver of a call: [fn.apply(vm, ...)] or [fn.apply(null, ...)]. *)
Inductive thisval : Type :=
  | ThisVm
  | ThisNull.

(** A statement of a user function acting on the instance. *)
Inductive action : Type :=
  | AOn (event : evarg) (fn : cb)
  | AOnce (event : string) (fn : cb)
  | AOffAll
  | AOffEvent (event : evarg)
  | AOffFn (event : evarg) (fn : cb)
  | AEmit (event : string) (args : list Z)
  | AThrow.

(** A user function: the statements it runs and the value it returns, both
    of which may depend on the arguments it is called with. *)
Record fn_def : Type := FnDef {
  fn_body : list Z -> list action;
  fn_ret : list Z -> retval
}.

(** Observations.  [Invoked d c args]: the [$emit] loop running at nesting
    depth [d] handed [c] to [invokeWithErrorHandling]; [Called f this args]:
    the body of user function [f] was entered; [Handled info]: an error
    reached [handleError]. *)
Inductive entry : Type :=
  | Invoked (depth : nat) (c : option cb) (args : list Z)
  | Called (f : fnid) (this : thisval) (args : list Z)
  | Handled (info : string).

#[global] Instance retval_eq_dec : EqDecision retval.
Proof. solve_decision. Defined.
#[global] Instance thisval_eq_dec : EqDecision thisval.
Proof. solve_decision. Defined.
#[global] Instance entry_eq_dec : EqDecision entry.
Proof. solve_decision. Defined.

(** The event side of an instance: [vm._events], the array objects it refers
    to, [vm._hasHookEvent], and the observation log (newest entry last). *)
Record bus : Type := Bus {
  _events : gmap string slot;
  heap : gmap addr (list cb);
  next_addr : addr;
  next_closure : closure;
  _hasHookEvent : bool;
  log : list entry
}.

(** [initEvents] without parent listeners. *)
Definition initEvents : bus :=
  {| _events := ∅; heap := ∅; next_addr := 0; next_closure := 0;
     _hasHookEvent := false; log := [] |}.

Definition set_events (m : gmap string slot) (st : bus) : bus :=
  {| _events := m; heap := heap st; next_addr := next_addr st;
     next_closure := next_closure st; _hasHookEvent := _hasHookEvent st;
     log := log st |}.

Definition set_array (a : addr) (l : list cb) (st : bus) : bus :=
  {| _events := _events st; heap := <[a := l]> (heap st);
     next_addr := next_addr st; next_closure := next_closure st;
     _hasHookEvent := _hasHookEvent st; log := log st |}.

Definition add_log (e : entry) (st : bus) : bus :=
  {| _events := _events st; heap := heap st; next_addr := next_addr st;
     next_closure := next_closure st; _hasHookEvent := _hasHookEvent st;
     log := log st ++ [e] |}.

Definition set_hasHookEvent (b : bool) (st : bus) : bus :=
  {| _events := _events st; heap := heap st; next_addr := next_addr st;
     next_closure := next_closure st; _hasHookEvent := b; log := log st |}.

(** The array an event name currently refers to, if any. *)
Definition array_of (event : string) (st : bus) : option addr :=
  match _events st !! event with
  | Some (SArr a) => Some a
  | _ => None
  end.

(** The callbacks registered for [event], in registration order. *)
Definition handlers (event : string) (st : bus) : list cb :=
  match array_of event st with
  | Some a => default [] (heap st !! a)
  | None => []
  end.

(** ** [$on] *)

(** [hookRE = /^hook:/] *)
Definition hookRE_test (event : string) : bool :=
  bool_decide (String.substring 0 5 event = "hook:"%string).

(** The non-array branch of [$on]:
    [(vm._events[event] || (vm._events[event] = [])).push(fn)], then the
    [hookRE] flag. *)
Definition on1 (event : string) (fn : cb) (st : bus) : bus :=
  let st1 :=
    match array_of event st with
    | Some a => set_array a (default [] (heap st !! a) ++ [fn]) st
    | None =>
        let a := next_addr st in
        {| _events := <[event := SArr a]> (_events st);
           heap := <[a := [fn]]> (heap st);
           next_addr := S a; next_closure := next_closure st;
           _hasHookEvent := _hasHookEvent st; log := log st |}
    end in
  if hookRE_test event then set_hasHookEvent true st1 else st1.

Definition on (event : evarg) (fn : cb) (st : bus) : bus :=
  match event with
  | One e => on1 e fn st
  | Many es => fold_left (fun s e => on1 e fn s) es st
  end.

(** ** [$off] *)

(** [cbs.splice(i, 1)] *)
Definition splice1 (i : nat) (cbs : list cb) : list cb :=
  take i cbs ++ drop (S i) cbs.

(** The loop [let i = cbs.length; while (i--) { ... break }] of [$off],
    entered with the counter at [i]. *)
Fixpoint off_scan (fn : cb) (cbs : list cb) (i : nat) : list cb :=
  match i with
  | 0 => cbs
  | S i' =>
      match cbs !! i' with
      | Some c => if matches c fn then splice1 i' cbs
                  else off_scan fn cbs i'
      | None => off_scan fn cbs i'
      end
  end.

(** [$off(event)] and [$off(event, fn)] for a single event name; [fn = None]
    is the [!fn] case. *)
Definition off1 (event : string) (fn : option cb) (st : bus) : bus :=
  match array_of event st with
  | None => st
  | Some a =>
      match fn with
      | None => set_events (<[event := SNull]> (_events st)) st
      | Some f =>
          let cbs := default [] (heap st !! a) in
          set_array a (off_scan f cbs (length cbs)) st
      end
  end.

(** The argument forms of [$off]. *)
Inductive offargs : Type :=
  | OffAll
  | OffEvent (event : evarg)
  | OffFn (event : evarg) (fn : cb).

Definition off_ev (event : evarg) (fn : option cb) (st : bus) : bus :=
  match event with
  | One e => off1 e fn st
  | Many es => fold_left (fun s e => off1 e fn s) es st
  end.

Definition off (args : offargs) (st : bus) : bus :=
  match args with
  | OffAll => set_events ∅ st
  | OffEvent e => off_ev e None st
  | OffFn e fn => off_ev e (Some fn) st
  end.

(** ** [$once] and [createOnceHandler] *)

Definition fresh_closure (st : bus) : closure * bus :=
  (next_closure st,
   {| _events := _events st; heap := heap st; next_addr := next_addr st;
      next_closure := S (next_closure st);
      _hasHookEvent := _hasHookEvent st; log := log st |}).

(** [$once(event, fn)]: allocate [on], set [on.fn = fn], [vm.$on(event, on)]. *)
Definition once (event : string) (fn : cb) (st : bus) : bus :=
  let (w, st1) := fresh_closure st in
  on1 event (OnWrapper w event fn) st1.

(** [createOnceHandler(event, fn)] returns the closure [onceHandler]. *)
Definition createOnceHandler (event : string) (fn : cb) (st : bus) : cb * bus :=
  let (w, st1) := fresh_closure st in
  (OnceHandler w event fn, st1).

(** [add(event, fn)] is [target.$on(event, fn)]; [remove] is [target.$off]. *)
Definition add (event : string) (fn : cb) (st : bus) : bus := on1 event fn st.
Definition remove (event : string) (fn : cb) (st : bus) : bus :=
  off1 event (Some fn) st.

(** ** Running callbacks: [invokeWithErrorHandling] and [$emit] *)

Section Interp.

(** The user functions of the program. *)
Variable fns : fnid -> fn_def.

Section Call.

(** A function call one level down the call stack; [None] when the call
    does not come back. *)
Variable call : nat -> cb -> thisval -> list Z -> bus -> option (bus * completion).

(** Modelled from the spec: [invokeWithErrorHandling] of [core/util/error.js]
    is not among the sources; section 4.4 says of it that invocation errors
    are caught and reported per callback, not aborting the remaining
    callbacks.  The handler is applied to [context] and [args] inside a
    [try]; a throw (also the [TypeError] of applying [undefined]) goes to
    [handleError] and the call returns normally. *)
Definition invokeWithErrorHandling (d : nat) (handler : option cb)
    (context : thisval) (args : list Z) (info : string) (st : bus) : option bus :=
  let st1 := add_log (Invoked d handler args) st in
  match handler with
  | None => Some (add_log (Handled info) st1)
  | Some h =>
      match call d h context args st1 with
      | None => None
      | Some (st2, Return _) => Some st2
      | Some (st2, Throw) => Some (add_log (Handled info) st2)
      end
  end.

(** What the local [cbs] of [$emit] refers to after
    [cbs = cbs.length > 1 ? toArray(cbs) : cbs]: a private copy, or the very
    array object held by [vm._events]. *)
Inductive cbs_ref : Type :=
  | Copy (l : list cb)
  | Live (a : addr).

(** [cbs[i]] *)
Definition cbs_get (r : cbs_ref) (i : nat) (st : bus) : option cb :=
  match r with
  | Copy l => l !! i
  | Live a => default [] (heap st !! a) !! i
  end.

(** [for (let i = 0, l = cbs.length; i < l; i++)
       invokeWithErrorHandling(cbs[i], vm, args, vm, info)],
    with [n = l - i] iterations left. *)
Fixpoint emit_loop (d : nat) (r : cbs_ref) (args : list Z) (info : string)
    (n i : nat) (st : bus) : option bus :=
  match n with
  | 0 => Some st
  | S n' =>
      match invokeWithErrorHandling d (cbs_get r i st) ThisVm args info st with
      | None => None
      | Some st' => emit_loop d r args info n' (S i) st'
      end
  end.

(** The double quote character (code 34). *)
Definition dquote : Ascii.ascii :=
  Ascii.Ascii false true false false false true false false.

(** The text of [`event handler for "${event}"`], the event name between
    double quotes. *)
Definition emit_info (event : string) : string :=
  ("event handler for " ++ String dquote (event ++ String dquote EmptyString))%string.

(** [$emit(event, ...args)].  The development-mode [tip] about lower-cased
    event names only prints and is left out. *)
Definition emit (d : nat) (event : string) (args : list Z) (st : bus) : option bus :=
  match array_of event st with
  | None => Some st
  | Some a =>
      let cbs := default [] (heap st !! a) in
      let r := if bool_decide (1 < length cbs) then Copy cbs else Live a in
      emit_loop d r args (emit_info event) (length cbs) 0 st
  end.

(** The statements of a user function, run in order on the instance; a
    [throw] abandons the rest. *)
Fixpoint run_body (d : nat) (acts : list action) (st : bus) : option (bus * bool) :=
  match acts with
  | [] => Some (st, false)
  | a :: rest =>
      match a with
      | AOn e fn => run_body d rest (on e fn st)
      | AOnce e fn => run_body d rest (once e fn st)
      | AOffAll => run_body d rest (off OffAll st)
      | AOffEvent e => run_body d rest (off (OffEvent e) st)
      | AOffFn e fn => run_body d rest (off (OffFn e fn) st)
      | AEmit e args =>
          match emit d e args st with
          | None => None
          | Some st' => run_body d rest st'
          end
      | AThrow => Some (st, true)
      end
  end.

(** Applying a callback to a receiver and arguments. *)
Definition apply_cb (d : nat) (c : cb) (this : thisval) (args : list Z)
    (st : bus) : option (bus * completion) :=
  match c with
  | UserFn f =>
      match run_body (S d) (fn_body (fns f) args)
              (add_log (Called f this args) st) with
      | None => None
      | Some (st', true) => Some (st', Throw)
      | Some (st', false) => Some (st', Return (fn_ret (fns f) args))
      end
  | OnWrapper w event fn =>
      (* vm.$off(event, on); fn.apply(vm, arguments); *)
      match call d fn ThisVm args (off1 event (Some c) st) with
      | None => None
      | Some (st', Throw) => Some (st', Throw)
      | Some (st', Return _) => Some (st', Return RUndefined)
      end
  | OnceHandler w event fn =>
      (* const res = fn.apply(null, arguments);
         if (res !== null) _target.$off(event, onceHandler); *)
      match call d fn ThisNull args st with
      | None => None
      | Some (st', Throw) => Some (st', Throw)
      | Some (st', Return res) =>
          if bool_decide (res <> RNull)
          then Some (off1 event (Some c) st', Return RUndefined)
          else Some (st', Return RUndefined)
      end
  end.

End Call.

(** Calls nested at most [fuel] deep. *)
Fixpoint call (fuel : nat) (d : nat) (c : cb) (this : thisval) (args : list Z)
    (st : bus) : option (bus * completion) :=
  match fuel with
  | 0 => None
  | S fuel' => apply_cb (call fuel') d c this args st
  end.

(** [vm.$emit(event, ...args)] called from outside any handler. *)
Definition emit_top (fuel : nat) (event : string) (args : list Z) (st : bus) : option bus :=
  emit (call fuel) 0 event args st.

(** A sequence of [$emit] calls. *)
Fixpoint emits (fuel : nat) (es : list (string * list Z)) (st : bus) : option bus :=
  match es with
  | [] => Some st
  | (e, args) :: rest =>
      match emit_top fuel e args st with
      | None => None
      | Some st' => emits fuel rest st'
      end
  end.

End Interp.

(** The log entry is an entry into the body of user function [f]. *)
Definition is_call (f : fnid) (e : entry) : bool :=
  match e with
  | Called g _ _ => bool_decide (g = f)
  | _ => false
  end.

(** How often the body of user function [f] was entered. *)
Definition call_count (f : fnid) (l : list entry) : nat :=
  length (List.filter (is_call f) l).

(** Nesting of once-wrappers around a user function. *)
Fixpoint cb_height (c : cb) : nat :=
  match c with
  | UserFn _ => 1
  | OnWrapper _ _ fn => S (cb_height fn)
  | OnceHandler _ _ fn => S (cb_height fn)
  end.

Definition is_emit (a : action) : bool :=
  match a with
  | AEmit _ _ => true
  | _ => false
  end.

(** No user function of the program calls [$emit]. *)
Definition emit_free (fns : fnid -> fn_def) : Prop :=
  forall f args a, a ∈ fn_body (fns f) args -> is_emit a = false.

(** User function [f] occurs in callback [c], directly or wrapped. *)
Fixpoint mentions (f : fnid) (c : cb) : bool :=
  match c with
  | UserFn g => bool_decide (g = f)
  | OnWrapper _ _ fn => mentions f fn
  | OnceHandler _ _ fn => mentions f fn
  end.

(** The statement subscribes a callback in which [f] occurs. *)
Definition registers (f : fnid) (a : action) : bool :=
  match a with
  | AOn _ c => mentions f c
  | AOnce _ c => mentions f c
  | _ => false
  end.

(** [f] is subscribed to no event of the instance. *)
Definition unregistered (f : fnid) (st : bus) : Prop :=
  forall e c, c ∈ handlers e st -> mentions f c = false.

(** ** Well-formed instances *)

(** Distinct event names never share an array object, and every array in
    use was allocated. *)
Record wf (st : bus) : Prop := Wf {
  wf_bound : forall e a, array_of e st = Some a -> a < next_addr st;
  wf_inj : forall e1 e2 a,
      array_of e1 st = Some a -> array_of e2 st = Some a -> e1 = e2
}.

(** How many registrations of a list [$off(event, fn)] would accept. *)
Definition match_count (fn : cb) (cbs : list cb) : nat :=
  length (List.filter (fun c => matches c fn) cbs).

(** ** Basic facts *)

Lemma wf_initEvents : wf initEvents.
Proof. split; intros *; unfold array_of; simpl; rewrite lookup_empty; done. Qed.

Lemma array_of_set_array e a l st : array_of e (set_array a l st) = array_of e st.
Proof. reflexivity. Qed.

Lemma array_of_add_log e x st : array_of e (add_log x st) = array_of e st.
Proof. reflexivity. Qed.

Lemma handlers_add_log e x st : handlers e (add_log x st) = handlers e st.
Proof. reflexivity. Qed.

Lemma wf_add_log x st : wf st -> wf (add_log x st).
Proof. intros [H1 H2]. split; [exact H1 | exact H2]. Qed.

Lemma wf_set_array a l st : wf st -> wf (set_array a l st).
Proof. intros [H1 H2]. split; [exact H1 | exact H2]. Qed.

Lemma wf_set_hasHookEvent b st : wf st -> wf (set_hasHookEvent b st).
Proof. intros [H1 H2]. split; [exact H1 | exact H2]. Qed.

Lemma handlers_set_hasHookEvent e b st :
  handlers e (set_hasHookEvent b st) = handlers e st.
Proof. reflexivity. Qed.

Lemma handlers_set_array_eq e a l st :
  array_of e st = Some a -> handlers e (set_array a l st) = l.
Proof.
  intros H. unfold handlers. rewrite array_of_set_array, H. simpl.
  by rewrite lookup_insert_eq.
Qed.

Lemma handlers_set_array_ne e e' a l st :
  wf st -> array_of e st = Some a -> e' <> e ->
  handlers e' (set_array a l st) = handlers e' st.
Proof.
  intros Hwf H Hne. unfold handlers. rewrite array_of_set_array.
  destruct (array_of e' st) as [a'|] eqn:E; [|done]. simpl.
  rewrite lookup_insert_ne; [done|].
  intros ->. apply Hne. eapply (wf_inj _ Hwf); eauto.
Qed.

(** *** [$on] *)

Lemma handlers_on1_eq e fn st : handlers e (on1 e fn st) = handlers e st ++ [fn].
Proof.
  unfold on1.
  assert (forall s, handlers e (if hookRE_test e then set_hasHookEvent true s else s)
                    = handlers e s) as -> by (intros; by destruct (hookRE_test e)).
  destruct (array_of e st) as [a|] eqn:E.
  - rewrite (handlers_set_array_eq _ _ _ _ E). unfold handlers. by rewrite E.
  - unfold handlers at 2. rewrite E. unfold handlers, array_of. simpl.
    rewrite lookup_insert_eq. simpl. by rewrite lookup_insert_eq.
Qed.

Lemma handlers_on1_ne e e' fn st :
  wf st -> e' <> e -> handlers e' (on1 e fn st) = handlers e' st.
Proof.
  intros Hwf Hne. unfold on1.
  assert (forall s, handlers e' (if hookRE_test e then set_hasHookEvent true s else s)
                    = handlers e' s) as -> by (intros; by destruct (hookRE_test e)).
  destruct (array_of e st) as [a|] eqn:E.
  - by apply (handlers_set_array_ne e).
  - unfold handlers, array_of. simpl. rewrite lookup_insert_ne by done.
    fold (array_of e' st). destruct (array_of e' st) as [a'|] eqn:E'; [|done].
    simpl. rewrite lookup_insert_ne; [done|].
    apply (wf_bound _ Hwf) in E'. lia.
Qed.

Lemma wf_on1 e fn st : wf st -> wf (on1 e fn st).
Proof.
  intros Hwf. unfold on1.
  assert (forall s, wf s -> wf (if hookRE_test e then set_hasHookEvent true s else s))
    as Hh by (intros; destruct (hookRE_test e); [by apply wf_set_hasHookEvent|done]).
  apply Hh. destruct (array_of e st) as [a|] eqn:E.
  - by apply wf_set_array.
  - assert (forall e' a', array_of e'
        {| _events := <[e:=SArr (next_addr st)]> (_events st);
           heap := <[next_addr st:=[fn]]> (heap st);
           next_addr := S (next_addr st); next_closure := next_closure st;
           _hasHookEvent := _hasHookEvent st; log := log st |} = Some a' ->
        (e' = e /\ a' = next_addr st) \/ (e' <> e /\ array_of e' st = Some a')) as Hc.
    { intros e' a'. unfold array_of. simpl.
      destruct (decide (e = e')) as [->|Hne].
      - rewrite lookup_insert_eq. intros [= <-]. by left.
      - rewrite lookup_insert_ne by done. intros H. right. split; [congruence|done]. }
    split.
    + intros e' a' H. apply Hc in H as [[-> ->]|[_ H]]; simpl; [lia|].
      apply (wf_bound _ Hwf) in H. lia.
    + intros e1 e2 a' H1 H2.
      apply Hc in H1 as [[-> ->]|[Hn1 H1]]; apply Hc in H2 as [[-> Ha]|[Hn2 H2]];
        try done.
      * apply (wf_bound _ Hwf) in H2. lia.
      * apply (wf_bound _ Hwf) in H1. lia.
      * eapply (wf_inj _ Hwf); eauto.
Qed.

(** *** [$off] *)

Lemma match_count_app fn l1 l2 :
  match_count fn (l1 ++ l2) = match_count fn l1 + match_count fn l2.
Proof. unfold match_count. by rewrite List.filter_app, length_app. Qed.

Lemma match_count_zero fn l :
  match_count fn l = 0 <-> (forall c, c ∈ l -> matches c fn = false).
Proof.
  unfold match_count. induction l as [|x l IH]; simpl.
  - split; [|done]. intros _ c Hc. by apply elem_of_nil in Hc.
  - destruct (matches x fn) eqn:E; simpl.
    + split; [done|]. intros H. specialize (H x (list_elem_of_here _ _)). congruence.
    + rewrite IH. split.
      * intros H c Hc. apply elem_of_cons in Hc as [->|Hc]; auto.
      * intros H c Hc. apply H. by apply list_elem_of_further.
Qed.

(** The backward scan of [$off] either finds nothing below [i], or splices
    out the highest matching index below [i]. *)
Lemma off_scan_spec fn cbs i :
  (off_scan fn cbs i = cbs /\
   forall j c, j < i -> cbs !! j = Some c -> matches c fn = false) \/
  (exists k c, k < i /\ cbs !! k = Some c /\ matches c fn = true /\
     (forall j c', k < j < i -> cbs !! j = Some c' -> matches c' fn = false) /\
     off_scan fn cbs i = splice1 k cbs).
Proof.
  induction i as [|i IH]; simpl.
  - left. split; [done|]. intros; lia.
  - destruct (cbs !! i) as [c|] eqn:E.
    + destruct (matches c fn) eqn:M.
      * right. exists i, c. repeat split; auto. intros; lia.
      * destruct IH as [[H1 H2]|(k & c' & Hk & Hc & Hm & Hlt & Heq)].
        -- left. split; [done|]. intros j c0 Hj Hc0.
           destruct (decide (j = i)) as [->|]; [congruence|].
           apply (H2 j); [lia|done].
        -- right. exists k, c'. repeat split; auto.
           intros j c0 Hj Hc0. destruct (decide (j = i)) as [->|]; [congruence|].
           apply (Hlt j); [lia|done].
    + destruct IH as [[H1 H2]|(k & c' & Hk & Hc & Hm & Hlt & Heq)].
      * left. split; [done|]. intros j c0 Hj Hc0.
        destruct (decide (j = i)) as [->|]; [congruence|].
        apply (H2 j); [lia|done].
      * right. exists k, c'. repeat split; auto.
        intros j c0 Hj Hc0. destruct (decide (j = i)) as [->|]; [congruence|].
        apply (Hlt j); [lia|done].
Qed.

(** Started at [cbs.length], the scan removes the last match and nothing
    else. *)
Lemma off_scan_full fn cbs :
  (off_scan fn cbs (length cbs) = cbs /\ match_count fn cbs = 0) \/
  (exists pre c post, cbs = pre ++ c :: post /\ matches c fn = true /\
     match_count fn post = 0 /\ off_scan fn cbs (length cbs) = pre ++ post).
Proof.
  destruct (off_scan_spec fn cbs (length cbs))
    as [[H1 H2]|(k & c & Hk & Hc & Hm & Hlt & Heq)].
  - left. split; [done|]. apply match_count_zero. intros c Hc.
    apply list_elem_of_lookup in Hc as [j Hj].
    apply (H2 j); [by eapply lookup_lt_Some|done].
  - right. exists (take k cbs), c, (drop (S k) cbs). repeat split; auto.
    + by rewrite take_drop_middle.
    + apply match_count_zero. intros c' Hc'.
      apply list_elem_of_lookup in Hc' as [j Hj]. rewrite lookup_drop in Hj.
      apply (Hlt (S k + j)); [|done]. apply lookup_lt_Some in Hj. lia.
Qed.

Lemma handlers_off1_ne e e' fn st :
  wf st -> e' <> e -> handlers e' (off1 e fn st) = handlers e' st.
Proof.
  intros Hwf Hne. unfold off1. destruct (array_of e st) as [a|] eqn:E; [|done].
  destruct fn as [f|].
  - by apply (handlers_set_array_ne e).
  - unfold handlers, array_of. simpl. by rewrite lookup_insert_ne.
Qed.

Lemma handlers_off1_fn e fn st :
  handlers e (off1 e (Some fn) st)
  = off_scan fn (handlers e st) (length (handlers e st)).
Proof.
  unfold off1. destruct (array_of e st) as [a|] eqn:E.
  - rewrite (handlers_set_array_eq _ _ _ _ E). unfold handlers. by rewrite E.
  - unfold handlers. by rewrite E.
Qed.

Lemma handlers_off1_event e st : handlers e (off1 e None st) = [].
Proof.
  unfold off1. destruct (array_of e st) as [a|] eqn:E.
  - unfold handlers, array_of. simpl. by rewrite lookup_insert_eq.
  - unfold handlers. by rewrite E.
Qed.

Lemma wf_off1 e fn st : wf st -> wf (off1 e fn st).
Proof.
  intros Hwf. unfold off1. destruct (array_of e st) as [a|] eqn:E; [|done].
  destruct fn as [f|]; [by apply wf_set_array|].
  assert (forall e' a', array_of e' (set_events (<[e:=SNull]> (_events st)) st)
            = Some a' -> array_of e' st = Some a') as Hc.
  { intros e' a'. unfold array_of. simpl.
    destruct (decide (e = e')) as [->|Hne].
    - by rewrite lookup_insert_eq.
    - by rewrite lookup_insert_ne. }
  split.
  - intros e' a' H. apply Hc in H. by apply (wf_bound _ Hwf) in H.
  - intros e1 e2 a' H1 H2. apply Hc in H1. apply Hc in H2.
    eapply (wf_inj _ Hwf); eauto.
Qed.

(** C4: when [n + 1] registrations for [event] match [fn] (by identity or
    through [cb.fn]), [$off(event, fn)] removes exactly one of them, the one
    registered last: the list splits as [pre ++ c :: post] with [c] matching
    and nothing in [post] matching, and becomes [pre ++ post]; [n] matching
    registrations remain, and the registrations of every other
    event are as before. *)
Theorem off_removes_last_match (st : bus) (event : string) (fn : cb) (n : nat) :
  wf st ->
  match_count fn (handlers event st) = S n ->
  (exists pre c post,
      handlers event st = pre ++ c :: post /\
      matches c fn = true /\
      match_count fn post = 0 /\
      handlers event (off (OffFn (One event) fn) st) = pre ++ post) /\
  match_count fn (handlers event (off (OffFn (One event) fn) st)) = n /\
  (forall e', e' <> event ->
      handlers e' (off (OffFn (One event) fn) st) = handlers e' st).
Proof.
  intros Hwf Hn. simpl.
  destruct (off_scan_full fn (handlers event st))
    as [[_ H0]|(pre & c & post & Hl & Hm & Hp & Heq)]; [congruence|].
  assert (handlers event (off1 event (Some fn) st) = pre ++ post) as Hafter
    by (by rewrite handlers_off1_fn).
  split; [|split].
  - by exists pre, c, post.
  - rewrite Hafter. rewrite Hl in Hn.
    rewrite match_count_app in Hn. rewrite match_count_app.
    change (c :: post) with ([c] ++ post) in Hn. rewrite match_count_app in Hn.
    unfold match_count at 2 in Hn. simpl in Hn. rewrite Hm in Hn. simpl in Hn. lia.
  - intros e' Hne. by apply handlers_off1_ne.
Qed.

(** ** What one emission invokes *)

(** The entry records a hand-over to [invokeWithErrorHandling] by the
    [$emit] loop running at depth [d]. *)
Definition at_depth (d : nat) (e : entry) : bool :=
  match e with
  | Invoked d' _ _ => bool_decide (d' = d)
  | _ => false
  end.

(** The entry was not written by an [$emit] loop at depth [d] or above it. *)
Definition deeper (d : nat) (e : entry) : Prop :=
  match e with
  | Invoked d' _ _ => d < d'
  | _ => True
  end.

(** The entries a run appended to the log. *)
Definition appended (st st' : bus) (new : list entry) : Prop :=
  log st' = log st ++ new.

Lemma appended_refl st : appended st st [].
Proof. unfold appended. by rewrite app_nil_r. Qed.

Lemma appended_trans st1 st2 st3 l1 l2 :
  appended st1 st2 l1 -> appended st2 st3 l2 -> appended st1 st3 (l1 ++ l2).
Proof. unfold appended. intros H1 H2. by rewrite H2, H1, app_assoc. Qed.

Lemma appended_add_log x st : appended st (add_log x st) [x].
Proof. reflexivity. Qed.

Lemma filter_deeper_nil d l :
  Forall (deeper d) l -> List.filter (at_depth d) l = [].
Proof.
  induction 1 as [|x l Hx _ IH]; [done|]. simpl. rewrite IH.
  destruct x; simpl in *; try done. rewrite bool_decide_eq_false_2; [done|lia].
Qed.

Lemma deeper_weaken d d' l : d <= d' -> Forall (deeper d') l -> Forall (deeper d) l.
Proof.
  intros Hd H. eapply Forall_impl; [exact H|].
  intros [] Hx; simpl in *; try done. lia.
Qed.

Lemma log_on1 e fn st : log (on1 e fn st) = log st.
Proof.
  unfold on1. destruct (hookRE_test e), (array_of e st); reflexivity.
Qed.

Lemma log_off1 e fn st : log (off1 e fn st) = log st.
Proof.
  unfold off1. destruct (array_of e st); [|done]. by destruct fn.
Qed.

Lemma log_on e fn st : log (on e fn st) = log st.
Proof.
  destruct e as [e|es]; simpl; [apply log_on1|].
  revert st. induction es as [|e es IH]; intros st; simpl; [done|].
  by rewrite IH, log_on1.
Qed.

Lemma log_off_ev e fn st : log (off_ev e fn st) = log st.
Proof.
  destruct e as [e|es]; simpl; [apply log_off1|].
  revert st. induction es as [|e es IH]; intros st; simpl; [done|].
  by rewrite IH, log_off1.
Qed.

Lemma log_off a st : log (off a st) = log st.
Proof. destruct a; simpl; [done|apply log_off_ev..]. Qed.

Lemma log_once e fn st : log (once e fn st) = log st.
Proof. unfold once. simpl. by rewrite log_on1. Qed.

Section EmitFacts.

Variable fns : fnid -> fn_def.

Section Step.

Variable call_rec : nat -> cb -> thisval -> list Z -> bus -> option (bus * completion).

(** What the calls one level down write lies strictly below the depth
    they were made at. *)
Hypothesis call_rec_deeper : forall d c this args st st' r,
  call_rec d c this args st = Some (st', r) ->
  exists new, appended st st' new /\ Forall (deeper d) new.

Lemma invoke_log d h this args info st st' :
  invokeWithErrorHandling call_rec d h this args info st = Some st' ->
  exists new, appended st st' (Invoked d h args :: new) /\ Forall (deeper d) new.
Proof.
  unfold invokeWithErrorHandling. destruct h as [c|].
  - destruct (call_rec d c this args _) as [[st2 r]|] eqn:E; [|done].
    apply call_rec_deeper in E as (new & Ha & Hd).
    destruct r; intros [= <-].
    + exists new. split; [|done].
      apply (appended_trans _ _ _ [_] new (appended_add_log _ st) Ha).
    + exists (new ++ [Handled info]). split.
      * apply (appended_trans _ _ _ [_] _ (appended_add_log _ st)).
        apply (appended_trans _ _ _ _ [_] Ha). apply appended_add_log.
      * apply Forall_app. split; [done|]. by repeat constructor.
  - intros [= <-]. exists [Handled info]. split.
    + apply (appended_trans _ _ _ [_] [_] (appended_add_log _ st)).
      apply appended_add_log.
    + by repeat constructor.
Qed.

(** Iterating over a private copy hands over the elements of the copy, in
    order, whatever the handlers do to the instance meanwhile. *)
Lemma emit_loop_copy d l args info n i st st' :
  i + n = length l ->
  emit_loop call_rec d (Copy l) args info n i st = Some st' ->
  exists new, appended st st' new /\
    List.filter (at_depth d) new = map (fun c => Invoked d (Some c) args) (drop i l).
Proof.
  revert i st. induction n as [|n IH]; intros i st Hlen; simpl.
  - intros [= <-]. exists []. split; [apply appended_refl|].
    rewrite drop_ge by lia. done.
  - destruct (invokeWithErrorHandling _ _ _ _ _ _ _) as [st1|] eqn:E; [|done].
    intros Hloop. apply invoke_log in E as (new1 & Ha1 & Hd1).
    apply IH in Hloop as (new2 & Ha2 & Hf2); [|lia].
    eexists. split; [exact (appended_trans _ _ _ _ _ Ha1 Ha2)|].
    simpl. rewrite bool_decide_eq_true_2 by done.
    rewrite List.filter_app, (filter_deeper_nil _ _ Hd1), Hf2. simpl.
    destruct (lookup_lt_is_Some_2 l i) as [c Hc]; [lia|].
    simpl in *. rewrite Hc. by rewrite (drop_S _ _ _ Hc).
Qed.

(** C3 for one level of the call stack. *)
Lemma emit_step d event args st st' :
  emit call_rec d event args st = Some st' ->
  exists new, appended st st' new /\
    List.filter (at_depth d) new
    = map (fun c => Invoked d (Some c) args) (handlers event st).
Proof.
  unfold emit, handlers. destruct (array_of event st) as [a|] eqn:E.
  - remember (default [] (heap st !! a)) as cbs eqn:Ecbs.
    case_bool_decide as Hlen.
    + intros H. by apply emit_loop_copy in H.
    + destruct cbs as [|c [|c' cbs']]; simpl in Hlen; [| |lia].
      * simpl. intros [= <-]. exists []. split; [apply appended_refl|done].
      * cbn [emit_loop length]. unfold cbs_get. rewrite <- Ecbs.
        change ([c] !! 0) with (Some c).
        destruct (invokeWithErrorHandling _ _ _ _ _ _ _) as [st1|] eqn:E1; [|done].
        intros [= <-]. apply invoke_log in E1 as (new1 & Ha1 & Hd1).
        eexists. split; [exact Ha1|]. simpl.
        rewrite bool_decide_eq_true_2 by done.
        by rewrite (filter_deeper_nil _ _ Hd1).
  - intros [= <-]. exists []. split; [apply appended_refl|done].
Qed.

Lemma emit_deeper d event args st st' :
  emit call_rec (S d) event args st = Some st' ->
  exists new, appended st st' new /\ Forall (deeper d) new.
Proof.
  assert (forall r n i st st',
    emit_loop call_rec (S d) r args (emit_info event) n i st = Some st' ->
    exists new, appended st st' new /\ Forall (deeper d) new) as Hloop.
  { intros r n. induction n as [|n IH]; intros i s s'; simpl.
    - intros [= <-]. exists []. split; [apply appended_refl|done].
    - destruct (invokeWithErrorHandling _ _ _ _ _ _ _) as [s1|] eqn:E1; [|done].
      intros H. apply invoke_log in E1 as (new1 & Ha1 & Hd1).
      apply IH in H as (new2 & Ha2 & Hd2).
      eexists. split; [exact (appended_trans _ _ _ _ _ Ha1 Ha2)|].
      constructor; [simpl; lia|]. apply Forall_app. split; [|done].
      eapply deeper_weaken; [|exact Hd1]. lia. }
  unfold emit. destruct (array_of event st); [apply Hloop|].
  intros [= <-]. exists []. split; [apply appended_refl|done].
Qed.

Lemma run_body_deeper d acts st st' b :
  run_body call_rec (S d) acts st = Some (st', b) ->
  exists new, appended st st' new /\ Forall (deeper d) new.
Proof.
  revert st. induction acts as [|a acts IH]; intros st; simpl.
  - intros [= <- <-]. exists []. split; [apply appended_refl|done].
  - assert (forall s, log s = log st ->
      run_body call_rec (S d) acts s = Some (st', b) ->
      exists new, appended st st' new /\ Forall (deeper d) new) as Hsame.
    { intros s Hs H. apply IH in H as (new & Ha & Hd). exists new.
      split; [|done]. unfold appended in *. by rewrite <- Hs. }
    destruct a.
    + apply Hsame, log_on.
    + apply Hsame, log_once.
    + apply Hsame. done.
    + apply Hsame, log_off_ev.
    + apply Hsame, log_off_ev.
    + destruct (emit _ _ _ _ _) as [s1|] eqn:E1; [|done].
      intros H. apply emit_deeper in E1 as (new1 & Ha1 & Hd1).
      apply IH in H as (new2 & Ha2 & Hd2).
      eexists. split; [exact (appended_trans _ _ _ _ _ Ha1 Ha2)|].
      by apply Forall_app.
    + intros [= <- <-]. exists []. split; [apply appended_refl|done].
Qed.

Lemma apply_cb_deeper d c this args st st' r :
  apply_cb fns call_rec d c this args st = Some (st', r) ->
  exists new, appended st st' new /\ Forall (deeper d) new.
Proof.
  destruct c as [f|w e fn|w e fn]; simpl.
  - destruct (run_body _ _ _ _) as [[s1 b]|] eqn:E1; [|done].
    apply run_body_deeper in E1 as (new1 & Ha1 & Hd1).
    intros H. assert (st' = s1) as -> by (destruct b; congruence).
    eexists. split.
    + exact (appended_trans _ _ _ [_] _ (appended_add_log _ st) Ha1).
    + by constructor.
  - destruct (call_rec d fn ThisVm args _) as [[s1 r1]|] eqn:E1; [|done].
    apply call_rec_deeper in E1 as (new1 & Ha1 & Hd1).
    intros H. assert (st' = s1) as -> by (destruct r1; congruence).
    exists new1. split; [|done]. unfold appended in *. by rewrite Ha1, log_off1.
  - destruct (call_rec d fn ThisNull args _) as [[s1 r1]|] eqn:E1; [|done].
    apply call_rec_deeper in E1 as (new1 & Ha1 & Hd1).
    intros H. exists new1. split; [|done]. unfold appended in *.
    destruct r1 as [res|]; [|by injection H as <- _].
    case_bool_decide; injection H as <- _; [by rewrite log_off1|done].
Qed.

End Step.

Lemma call_deeper fuel d c this args st st' r :
  call fns fuel d c this args st = Some (st', r) ->
  exists new, appended st st' new /\ Forall (deeper d) new.
Proof.
  revert d c this args st st' r. induction fuel as [|fuel IH]; [done|].
  intros *. simpl. by apply apply_cb_deeper.
Qed.

End EmitFacts.

(** ** Termination of programs that do not re-emit *)

Section Total.

Variable fns : fnid -> fn_def.
Hypothesis fns_emit_free : emit_free fns.

Lemma run_body_total call_rec d acts st :
  (forall a, a ∈ acts -> is_emit a = false) ->
  is_Some (run_body call_rec d acts st).
Proof.
  revert st. induction acts as [|a acts IH]; intros st Hfree; simpl; [by eexists|].
  assert (forall s, is_Some (run_body call_rec d acts s)) as Hrest.
  { intros s. apply IH. intros b Hb. apply Hfree. by apply list_elem_of_further. }
  specialize (Hfree a (list_elem_of_here _ _)).
  destruct a; simpl in Hfree; try done; by eexists.
Qed.

Lemma call_total fuel d c this args st :
  cb_height c <= fuel -> is_Some (call fns fuel d c this args st).
Proof.
  revert d c this args st. induction fuel as [|fuel IH]; intros d c this args st Hh.
  - destruct c; simpl in Hh; lia.
  - destruct c as [f|w e fn|w e fn]; simpl in *.
    + destruct (run_body_total (call fns fuel) (S d) (fn_body (fns f) args)
                  (add_log (Called f this args) st)) as [[s b] ->].
      { intros a. apply fns_emit_free. }
      destruct b; by eexists.
    + destruct (IH d fn ThisVm args (off1 e (Some (OnWrapper w e fn)) st))
        as [[s r] ->]; [lia|]. destruct r; by eexists.
    + destruct (IH d fn ThisNull args st) as [[s r] ->]; [lia|].
      destruct r; [case_bool_decide|]; by eexists.
Qed.

Lemma invoke_total fuel d h this args info st :
  (forall c, h = Some c -> cb_height c <= fuel) ->
  is_Some (invokeWithErrorHandling (call fns fuel) d h this args info st).
Proof.
  intros Hh. unfold invokeWithErrorHandling. destruct h as [c|]; [|by eexists].
  destruct (call_total fuel d c this args (add_log (Invoked d (Some c) args) st))
    as [[s r] ->]; [by apply Hh|]. destruct r; by eexists.
Qed.

Lemma emit_loop_copy_total fuel d l args info n i st :
  (forall c, c ∈ l -> cb_height c <= fuel) ->
  is_Some (emit_loop (call fns fuel) d (Copy l) args info n i st).
Proof.
  intros Hl. revert i st. induction n as [|n IH]; intros i st; simpl; [by eexists|].
  destruct (invoke_total fuel d (l !! i) ThisVm args info st) as [s Hs].
  { intros c Hc. apply Hl. by eapply list_elem_of_lookup_2. }
  simpl in Hs. rewrite Hs. apply IH.
Qed.

Lemma emit_total fuel d event args st :
  (forall c, c ∈ handlers event st -> cb_height c <= fuel) ->
  is_Some (emit (call fns fuel) d event args st).
Proof.
  unfold emit, handlers. destruct (array_of event st) as [a|]; [|by eexists].
  remember (default [] (heap st !! a)) as cbs eqn:Ecbs. intros Hl.
  case_bool_decide as Hlen; [by apply emit_loop_copy_total|].
  destruct cbs as [|c [|c' cbs']]; simpl in Hlen; [by eexists| |lia].
  cbn [emit_loop length]. unfold cbs_get. rewrite <- Ecbs.
  change ([c] !! 0) with (Some c).
  destruct (invoke_total fuel d (Some c) ThisVm args (emit_info event) st) as [s ->].
  { intros c0 [= <-]. apply Hl. apply list_elem_of_here. }
  by eexists.
Qed.

End Total.

(** C3: [$emit(event, args...)] run at depth [d] hands to
    [invokeWithErrorHandling] exactly the callbacks registered for [event]
    when it was called, in registration order, each with the emit
    arguments; this holds for every program, so neither handlers that
    subscribe or unsubscribe meanwhile nor handlers that throw change it.
    When no user function re-emits, the emission returns as soon as the
    fuel covers the wrapper nesting of the registered callbacks. *)
Theorem emit_invokes_registered (fns : fnid -> fn_def) (fuel d : nat)
    (event : string) (args : list Z) (st : bus) :
  (forall st', emit (call fns fuel) d event args st = Some st' ->
     exists new, log st' = log st ++ new /\
       List.filter (at_depth d) new
       = map (fun c => Invoked d (Some c) args) (handlers event st)) /\
  (emit_free fns ->
   (forall c, c ∈ handlers event st -> cb_height c <= fuel) ->
   is_Some (emit (call fns fuel) d event args st)).
Proof.
  split.
  - intros st' H. eapply emit_step; [|exact H].
    intros *. apply call_deeper.
  - intros Hfree Hh. by apply emit_total.
Qed.

(** ** [$once] *)

Lemma off_scan_subset fn cbs i c : c ∈ off_scan fn cbs i -> c ∈ cbs.
Proof.
  destruct (off_scan_spec fn cbs i) as [[-> _]|(k & c' & _ & _ & _ & _ & ->)]; [done|].
  unfold splice1. rewrite elem_of_app. intros [H|H].
  - by apply (subseteq_take k cbs).
  - by apply (subseteq_drop (S k) cbs).
Qed.

Lemma wf_fresh_closure st : wf st -> wf (fresh_closure st).2.
Proof. intros [H1 H2]. split; [exact H1 | exact H2]. Qed.

Lemma wf_once e fn st : wf st -> wf (once e fn st).
Proof. intros H. unfold once. simpl. by apply wf_on1, (wf_fresh_closure st). Qed.

Lemma wf_on e fn st : wf st -> wf (on e fn st).
Proof.
  destruct e as [e|es]; simpl; [apply wf_on1|].
  revert st. induction es as [|e es IH]; intros st H; simpl; [done|].
  by apply IH, wf_on1.
Qed.

Lemma wf_off_ev e fn st : wf st -> wf (off_ev e fn st).
Proof.
  destruct e as [e|es]; simpl; [apply wf_off1|].
  revert st. induction es as [|e es IH]; intros st H; simpl; [done|].
  by apply IH, wf_off1.
Qed.

Lemma wf_off a st : wf st -> wf (off a st).
Proof.
  destruct a; simpl; [|apply wf_off_ev..].
  intros _. split; intros *; unfold array_of; simpl; by rewrite lookup_empty.
Qed.

Lemma off_scan_sublist fn cbs i : off_scan fn cbs i `sublist_of` cbs.
Proof.
  destruct (off_scan_spec fn cbs i) as [[-> _]|(k & c' & _ & Hc & _ & _ & ->)]; [done|].
  unfold splice1. rewrite <- (take_drop_middle cbs k c' Hc) at 3.
  apply sublist_app; [done|]. by apply sublist_cons.
Qed.

Section Kept.

Variable f : fnid.

(** [good e l]: the list [l] is acceptable as the subscribers of event [e];
    [quiet e]: an acceptable list under [e] does not involve [f]. *)
Variable good : string -> list cb -> Prop.
Variable quiet : string -> Prop.

Hypothesis good_nil : forall e, good e [].
Hypothesis good_snoc :
  forall e l c, good e l -> mentions f c = false -> good e (l ++ [c]).
Hypothesis good_sublist :
  forall e l l', good e l -> l' `sublist_of` l -> good e l'.
Hypothesis good_quiet :
  forall e l c, quiet e -> good e l -> c ∈ l -> mentions f c = false.

(** A well-formed instance all of whose subscriber lists are acceptable. *)
Definition kept (st : bus) : Prop := wf st /\ forall e, good e (handlers e st).

Lemma kept_add_log x st : kept st -> kept (add_log x st).
Proof. intros [H1 H2]. split; [by apply wf_add_log|exact H2]. Qed.

Lemma kept_on1 e c st : mentions f c = false -> kept st -> kept (on1 e c st).
Proof.
  intros Hc [Hwf Hu]. split; [by apply wf_on1|]. intros e'.
  destruct (decide (e' = e)) as [->|Hne].
  - rewrite handlers_on1_eq. by apply good_snoc.
  - rewrite handlers_on1_ne by done. apply Hu.
Qed.

Lemma kept_off1 e fn st : kept st -> kept (off1 e fn st).
Proof.
  intros [Hwf Hu]. split; [by apply wf_off1|]. intros e'.
  destruct (decide (e' = e)) as [->|Hne].
  - destruct fn as [fn|].
    + rewrite handlers_off1_fn. eapply good_sublist; [apply Hu|].
      apply off_scan_sublist.
    + rewrite handlers_off1_event. apply good_nil.
  - rewrite handlers_off1_ne by done. apply Hu.
Qed.

Lemma kept_on e c st : mentions f c = false -> kept st -> kept (on e c st).
Proof.
  intros Hc. destruct e as [e|es]; simpl; [by apply kept_on1|].
  revert st. induction es as [|e es IH]; intros st H; simpl; [done|].
  by apply IH, kept_on1.
Qed.

Lemma kept_off_ev e fn st : kept st -> kept (off_ev e fn st).
Proof.
  destruct e as [e|es]; simpl; [apply kept_off1|].
  revert st. induction es as [|e es IH]; intros st H; simpl; [done|].
  by apply IH, kept_off1.
Qed.

Lemma kept_off a st : kept st -> kept (off a st).
Proof.
  destruct a; simpl; [|apply kept_off_ev..].
  intros [Hwf _]. split; [exact (wf_off OffAll st Hwf)|].
  intros e. unfold handlers, array_of. simpl. rewrite lookup_empty. apply good_nil.
Qed.

Lemma kept_once e c st : mentions f c = false -> kept st -> kept (once e c st).
Proof.
  intros Hc [Hwf Hu]. unfold once. simpl. apply kept_on1; [done|].
  split; [exact (wf_fresh_closure st Hwf)|exact Hu].
Qed.

Variable fns : fnid -> fn_def.

(** A statement that subscribes nothing involving [f] and emits quiet
    events only. *)
Definition harmless (a : action) : Prop :=
  registers f a = false /\ forall e args, a = AEmit e args -> quiet e.

(** The functions other than [f] are made of harmless statements. *)
Hypothesis others_harmless :
  forall g args a, g <> f -> a ∈ fn_body (fns g) args -> harmless a.

(** A call of a callback free of [f], from a kept state, ends in a kept
    state and never enters [f]. *)
Definition keeps_kept
    (call_rec : nat -> cb -> thisval -> list Z -> bus -> option (bus * completion))
    : Prop :=
  forall d c this args st st' r,
    mentions f c = false -> kept st ->
    call_rec d c this args st = Some (st', r) ->
    kept st' /\ call_count f (log st') = call_count f (log st).

Section Step.

Variable call_rec : nat -> cb -> thisval -> list Z -> bus -> option (bus * completion).
Hypothesis call_rec_kept : keeps_kept call_rec.

Lemma call_count_add_log_other x st :
  is_call f x = false -> call_count f (log (add_log x st)) = call_count f (log st).
Proof.
  intros H. unfold call_count. simpl. rewrite List.filter_app, length_app.
  simpl. rewrite H. simpl. lia.
Qed.

Lemma invoke_kept d h this args info st st' :
  (forall c, h = Some c -> mentions f c = false) -> kept st ->
  invokeWithErrorHandling call_rec d h this args info st = Some st' ->
  kept st' /\ call_count f (log st') = call_count f (log st).
Proof.
  intros Hh Hc. unfold invokeWithErrorHandling. destruct h as [c|].
  - destruct (call_rec d c this args _) as [[s r]|] eqn:E; [|done].
    apply call_rec_kept in E as [Hs Hn]; [|by apply Hh|by apply kept_add_log].
    rewrite call_count_add_log_other in Hn by done.
    destruct r; intros [= <-]; [done|]. split; [by apply kept_add_log|].
    by rewrite call_count_add_log_other.
  - intros [= <-]. split; [by do 2 apply kept_add_log|].
    by rewrite !call_count_add_log_other.
Qed.

(** Iterations [i] to [i + n - 1] over a copy whose elements in that range
    are free of [f]. *)
Lemma emit_loop_copy_kept d l args info n i st st' :
  (forall j c, i <= j < i + n -> l !! j = Some c -> mentions f c = false) ->
  kept st ->
  emit_loop call_rec d (Copy l) args info n i st = Some st' ->
  kept st' /\ call_count f (log st') = call_count f (log st).
Proof.
  revert i st. induction n as [|n IH]; intros i st Hl Hc; simpl.
  - by intros [= <-].
  - destruct (invokeWithErrorHandling _ _ _ _ _ _ _) as [s|] eqn:E; [|done].
    apply invoke_kept in E as [Hs Hn]; [|
      intros c Hi; apply (Hl i); [lia|done]|done].
    intros H. apply IH in H as [Hs' Hn']; [|intros j c Hj; apply Hl; lia|done].
    split; [done|congruence].
Qed.

Lemma emit_kept d event args st st' :
  quiet event -> kept st -> emit call_rec d event args st = Some st' ->
  kept st' /\ call_count f (log st') = call_count f (log st).
Proof.
  intros Hq Hc.
  assert (forall c, c ∈ handlers event st -> mentions f c = false) as Hh'
    by (intros c; apply (good_quiet event _ c Hq (proj2 Hc event))).
  revert Hh'.
  unfold emit, handlers. destruct (array_of event st) as [a|]; [|by intros _ [= <-]].
  remember (default [] (heap st !! a)) as cbs eqn:Ecbs. intros Hl.
  case_bool_decide as Hlen.
  { apply emit_loop_copy_kept; [|done]. intros j c _ Hj. apply Hl.
    by eapply list_elem_of_lookup_2. }
  destruct cbs as [|c [|c' cbs']]; simpl in Hlen; [by intros [= <-]| |lia].
  cbn [emit_loop length]. unfold cbs_get. rewrite <- Ecbs.
  change ([c] !! 0) with (Some c).
  destruct (invokeWithErrorHandling _ _ _ _ _ _ _) as [s|] eqn:E; [|done].
  intros [= <-]. apply invoke_kept in E; [done| |done].
  intros c0 [= <-]. apply Hl, list_elem_of_here.
Qed.

Lemma run_body_kept d acts st st' b :
  (forall a, a ∈ acts -> harmless a) -> kept st ->
  run_body call_rec d acts st = Some (st', b) ->
  kept st' /\ call_count f (log st') = call_count f (log st).
Proof.
  revert st. induction acts as [|a acts IH]; intros st Hr Hc; simpl.
  - by intros [= <- <-].
  - assert (forall s, kept s -> log s = log st ->
      run_body call_rec d acts s = Some (st', b) ->
      kept st' /\ call_count f (log st') = call_count f (log st)) as Hsame.
    { intros s Hs Hl H. apply IH in H as [H1 H2]; [|
        intros x Hx; apply Hr; by apply list_elem_of_further|done].
      split; [done|]. by rewrite <- Hl. }
    destruct (Hr a (list_elem_of_here _ _)) as [Ha Hq].
    destruct a; simpl in Ha.
    + apply Hsame; [by apply kept_on|apply log_on].
    + apply Hsame; [by apply kept_once|apply log_once].
    + apply Hsame; [exact (kept_off OffAll st Hc)|done].
    + apply Hsame; [by apply kept_off_ev|apply log_off_ev].
    + apply Hsame; [by apply kept_off_ev|apply log_off_ev].
    + destruct (emit _ _ _ _ _) as [s|] eqn:E; [|done].
      apply emit_kept in E as [Hs Hn]; [|by eapply Hq|done].
      intros H. apply IH in H as [H1 H2]; [|
        intros x Hx; apply Hr; by apply list_elem_of_further|done].
      split; [done|congruence].
    + by intros [= <- <-].
Qed.

Lemma apply_cb_kept : keeps_kept (apply_cb fns call_rec).
Proof.
  intros d c this args st st' r Hm Hc.
  destruct c as [g|w e fn|w e fn]; simpl in *.
  - destruct (run_body _ _ _ _) as [[s b]|] eqn:E; [|done].
    apply bool_decide_eq_false in Hm as Hg.
    apply run_body_kept in E as [Hs Hn];
      [|intros a; by apply others_harmless|by apply kept_add_log].
    rewrite call_count_add_log_other in Hn by (simpl; exact Hm).
    intros H. assert (st' = s) as -> by (destruct b; congruence). done.
  - destruct (call_rec d fn ThisVm args _) as [[s r1]|] eqn:E; [|done].
    apply call_rec_kept in E as [Hs Hn]; [|done|by apply kept_off1].
    rewrite log_off1 in Hn.
    intros H. assert (st' = s) as -> by (destruct r1; congruence). done.
  - destruct (call_rec d fn ThisNull args st) as [[s r1]|] eqn:E; [|done].
    apply call_rec_kept in E as [Hs Hn]; [|done..].
    destruct r1 as [res|]; [|by intros [= <- _]].
    case_bool_decide; intros [= <- _]; [|done].
    split; [by apply kept_off1|by rewrite log_off1].
Qed.

End Step.

Lemma call_kept fuel : keeps_kept (call fns fuel).
Proof.
  induction fuel as [|fuel IH]; [by intros ? ? ? ? ? ? ? ? ? ?|].
  simpl. by apply apply_cb_kept.
Qed.

Lemma emits_kept fuel es st st' :
  (forall x, x ∈ es -> quiet x.1) ->
  kept st -> emits fns fuel es st = Some st' ->
  kept st' /\ call_count f (log st') = call_count f (log st).
Proof.
  revert st. induction es as [|[e args] es IH]; intros st Hq Hc; simpl.
  - by intros [= <-].
  - unfold emit_top. destruct (emit _ _ _ _ _) as [s|] eqn:E; [|done].
    apply emit_kept in E as [Hs Hn];
      [|apply call_kept|apply (Hq (e, args)), list_elem_of_here|done].
    intros H. apply IH in H as [H1 H2];
      [|intros x Hx; apply Hq; by apply list_elem_of_further|done].
    split; [done|congruence].
Qed.

End Kept.

Lemma emit_none call_rec d event args st :
  handlers event st = [] -> emit call_rec d event args st = Some st.
Proof.
  unfold emit, handlers. destruct (array_of event st) as [a|]; [|done].
  intros ->. done.
Qed.

Lemma emit_single call_rec d event args st c :
  handlers event st = [c] ->
  emit call_rec d event args st
  = invokeWithErrorHandling call_rec d (Some c) ThisVm args (emit_info event) st.
Proof.
  unfold emit, handlers. destruct (array_of event st) as [a|]; [|done].
  intros H. rewrite H. cbn [length emit_loop]. rewrite bool_decide_eq_false_2 by lia.
  unfold cbs_get. rewrite H. change ([c] !! 0) with (Some c).
  by destruct (invokeWithErrorHandling _ _ _ _ _ _ _).
Qed.

Lemma matches_refl c : matches c c = true.
Proof. unfold matches. by rewrite bool_decide_eq_true_2. Qed.

Lemma handlers_off1_single e c st :
  handlers e st = [c] -> handlers e (off1 e (Some c) st) = [].
Proof.
  intros H. rewrite handlers_off1_fn, H. simpl. by rewrite matches_refl.
Qed.

Lemma handlers_once_eq e fn st :
  handlers e (once e fn st) = handlers e st ++ [OnWrapper (next_closure st) e fn].
Proof. unfold once. simpl. by rewrite handlers_on1_eq. Qed.

Lemma handlers_once_ne e e' fn st :
  wf st -> e' <> e -> handlers e' (once e fn st) = handlers e' st.
Proof.
  intros Hwf Hne. unfold once. simpl.
  by rewrite handlers_on1_ne; [|apply (wf_fresh_closure st)|].
Qed.

(** *** Two instances of acceptable subscriber lists *)

(** No element of the list involves [f]. *)
Definition free_of (f : fnid) (e : string) (l : list cb) : Prop :=
  forall c, c ∈ l -> mentions f c = false.

(** [f] is subscribed nowhere. *)
Definition clean (f : fnid) (st : bus) : Prop := kept (free_of f) st.

(** Under [event] at most one element involves [f], and it is the wrapper
    [W]; under any other name none does. *)
Definition one_wrapper (f : fnid) (event : string) (W : cb) (e : string)
    (l : list cb) : Prop :=
  if decide (e = event)
  then length (List.filter (mentions f) l) <= 1 /\
       forall c, c ∈ l -> mentions f c = true -> c = W
  else free_of f e l.

Lemma filter_length_sublist {A} (p : A -> bool) (l' l : list A) :
  l' `sublist_of` l -> length (List.filter p l') <= length (List.filter p l).
Proof.
  induction 1 as [|x l1 l2 _ IH|x l1 l2 _ IH]; simpl; [done| |].
  - destruct (p x); simpl; lia.
  - destruct (p x); simpl; lia.
Qed.

Lemma filter_length_zero {A} (p : A -> bool) (l : list A) :
  length (List.filter p l) = 0 <-> forall x, x ∈ l -> p x = false.
Proof.
  induction l as [|x l IH]; simpl.
  - split; [|done]. intros _ y Hy. by apply elem_of_nil in Hy.
  - destruct (p x) eqn:E; simpl.
    + split; [done|]. intros H. specialize (H x (list_elem_of_here _ _)). congruence.
    + rewrite IH. split.
      * intros H y Hy. apply elem_of_cons in Hy as [->|Hy]; auto.
      * intros H y Hy. apply H. by apply list_elem_of_further.
Qed.

Section Instances.

Variable f : fnid.

Lemma free_nil e : free_of f e [].
Proof. intros c Hc. by apply elem_of_nil in Hc. Qed.

Lemma free_snoc e l c : free_of f e l -> mentions f c = false -> free_of f e (l ++ [c]).
Proof.
  intros Hl Hc x. rewrite elem_of_app, list_elem_of_singleton.
  intros [Hx| ->]; [by apply Hl|done].
Qed.

Lemma free_sublist e l l' : free_of f e l -> l' `sublist_of` l -> free_of f e l'.
Proof. intros Hl Hs c Hc. apply Hl. by apply (sublist_subseteq _ _ Hs). Qed.

Lemma free_quiet e l c : True -> free_of f e l -> c ∈ l -> mentions f c = false.
Proof. intros _ Hl. apply Hl. Qed.

Variables (event : string) (W : cb).

Lemma one_nil e : one_wrapper f event W e [].
Proof.
  unfold one_wrapper. case_decide; [|apply free_nil]. simpl. split; [lia|].
  intros c Hc. by apply elem_of_nil in Hc.
Qed.

Lemma one_snoc e l c :
  one_wrapper f event W e l -> mentions f c = false ->
  one_wrapper f event W e (l ++ [c]).
Proof.
  unfold one_wrapper. case_decide; [|apply free_snoc].
  intros [Hn Hw] Hc. split.
  - rewrite List.filter_app, length_app. simpl. rewrite Hc. simpl. lia.
  - intros x. rewrite elem_of_app, list_elem_of_singleton.
    intros [Hx| ->]; [by apply Hw|congruence].
Qed.

Lemma one_sublist e l l' :
  one_wrapper f event W e l -> l' `sublist_of` l -> one_wrapper f event W e l'.
Proof.
  unfold one_wrapper. case_decide; [|apply free_sublist].
  intros [Hn Hw] Hs. split.
  - pose proof (filter_length_sublist (mentions f) l' l Hs). lia.
  - intros c Hc. apply Hw. by apply (sublist_subseteq _ _ Hs).
Qed.

Lemma one_quiet e l c :
  e <> event -> one_wrapper f event W e l -> c ∈ l -> mentions f c = false.
Proof. unfold one_wrapper. intros He. rewrite decide_False by done. intros Hl. apply Hl. Qed.

(** A list acceptable under [event] without [W] in it involves [f]
    nowhere. *)
Lemma one_without l :
  one_wrapper f event W event l -> W ∉ l -> free_of f event l.
Proof.
  unfold one_wrapper. rewrite decide_True by done. intros [_ Hw] Hn c Hc.
  destruct (mentions f c) eqn:E; [|done]. by rewrite (Hw c Hc E) in Hc.
Qed.

(** Around [W], an acceptable list involves [f] nowhere. *)
Lemma one_around pre post :
  mentions f W = true ->
  one_wrapper f event W event (pre ++ W :: post) ->
  free_of f event (pre ++ post).
Proof.
  unfold one_wrapper. rewrite decide_True by done. intros HW [Hn _].
  rewrite List.filter_app, length_app in Hn. simpl in Hn. rewrite HW in Hn.
  simpl in Hn. intros c. rewrite elem_of_app. intros [Hc|Hc].
  - apply (proj1 (filter_length_zero (mentions f) pre)); [lia|done].
  - apply (proj1 (filter_length_zero (mentions f) post)); [lia|done].
Qed.

End Instances.

Section Once.

Variables (f : fnid) (fns : fnid -> fn_def).

(** No user function subscribes [f], directly or wrapped. *)
Hypothesis never_registers :
  forall g args a, a ∈ fn_body (fns g) args -> registers f a = false.

Lemma registers_harmless g args a :
  a ∈ fn_body (fns g) args -> harmless f (fun _ => True) a.
Proof. intros Ha. split; [by eapply never_registers|done]. Qed.

Lemma call_clean fuel : keeps_kept f (free_of f) (call fns fuel).
Proof.
  apply (call_kept f (free_of f) (fun _ => True)); try done.
  - apply free_nil.
  - apply free_snoc.
  - apply free_sublist.
  - intros e l c _. apply free_quiet. done.
  - intros g args a _. apply registers_harmless.
Qed.

Lemma run_body_clean fuel d g args st st' b :
  clean f st ->
  run_body (call fns fuel) d (fn_body (fns g) args) st = Some (st', b) ->
  clean f st' /\ call_count f (log st') = call_count f (log st).
Proof.
  intros Hc. apply (run_body_kept f (free_of f) (fun _ => True)); try done.
  - apply free_nil.
  - apply free_snoc.
  - apply free_sublist.
  - intros e l c _. apply free_quiet. done.
  - apply call_clean.
  - intros a. apply registers_harmless.
Qed.

Lemma emits_clean fuel es st st' :
  clean f st -> emits fns fuel es st = Some st' ->
  clean f st' /\ call_count f (log st') = call_count f (log st).
Proof.
  apply (emits_kept f (free_of f) (fun _ => True)); try done.
  - apply free_nil.
  - apply free_snoc.
  - apply free_sublist.
  - intros e l c _. apply free_quiet. done.
  - intros g args a _. apply registers_harmless.
Qed.

Variables (event : string) (w : closure).

(** Running the wrapper: it unsubscribes itself, which leaves [f]
    subscribed nowhere, and then enters [f] once. *)
Lemma invoke_wrapper fuel d args info st st' :
  kept (one_wrapper f event (OnWrapper w event (UserFn f))) st ->
  invokeWithErrorHandling (call fns fuel) d
    (Some (OnWrapper w event (UserFn f))) ThisVm args info st = Some st' ->
  clean f st' /\ call_count f (log st') = S (call_count f (log st)).
Proof.
  intros [Hwf Hg]. unfold invokeWithErrorHandling.
  set (s1 := add_log (Invoked d (Some (OnWrapper w event (UserFn f))) args) st).
  destruct fuel as [|[|fuel]]; [done..|]. cbn [call apply_cb].
  set (s2 := off1 event (Some (OnWrapper w event (UserFn f))) s1).
  assert (mentions f (OnWrapper w event (UserFn f)) = true) as HW
    by (simpl; by apply bool_decide_eq_true_2).
  assert (clean f s2) as Hc2.
  { split; [by apply wf_off1, wf_add_log|]. intros e.
    destruct (decide (e = event)) as [->|Hne].
    - unfold s2. rewrite handlers_off1_fn.
      change (handlers event s1) with (handlers event st).
      specialize (Hg event).
      destruct (off_scan_full (OnWrapper w event (UserFn f)) (handlers event st))
        as [[-> H0]|(pre & c & post & Hl & Hm & _ & ->)].
      + apply (one_without f event _ _ Hg). intros Hin.
        apply (proj1 (match_count_zero _ _) H0) in Hin.
        by rewrite matches_refl in Hin.
      + rewrite Hl in Hg. assert (c = OnWrapper w event (UserFn f)) as ->.
        { unfold matches in Hm. apply orb_prop in Hm as [Hm|Hm].
          - by apply bool_decide_eq_true in Hm.
          - apply bool_decide_eq_true in Hm.
            unfold one_wrapper in Hg. rewrite decide_True in Hg by done.
            destruct Hg as [_ Hg]. apply Hg.
            + rewrite elem_of_app. right. apply list_elem_of_here.
            + destruct c; simpl in Hm; try done. injection Hm as ->. exact HW. }
        by apply (one_around f event _ pre post HW).
    - unfold s2. rewrite handlers_off1_ne; [| by apply wf_add_log|done].
      specialize (Hg e). unfold one_wrapper in Hg. by rewrite decide_False in Hg. }
  destruct (run_body _ _ _ _) as [[s3 b]|] eqn:E; [|done].
  apply run_body_clean in E as [Hc3 Hn3]; [|by apply kept_add_log].
  assert (call_count f (log s3) = S (call_count f (log st))) as Hn.
  { rewrite Hn3. unfold call_count, s2, s1.
    cbn [log add_log]. rewrite log_off1. cbn [log add_log].
    rewrite !List.filter_app, !length_app. simpl.
    rewrite bool_decide_eq_true_2 by done. simpl. lia. }
  destruct b; intros [= <-]; (split; [|by rewrite ?call_count_add_log_other]).
  - by apply kept_add_log.
  - done.
Qed.

(** The other functions never emit [event]. *)
Definition others_silent : Prop :=
  forall g args a, g <> f -> a ∈ fn_body (fns g) args ->
    forall args', a <> AEmit event args'.

Lemma emit_loop_app call_rec d r args info n1 n2 i st :
  emit_loop call_rec d r args info (n1 + n2) i st
  = match emit_loop call_rec d r args info n1 i st with
    | Some s => emit_loop call_rec d r args info n2 (i + n1) s
    | None => None
    end.
Proof.
  revert i st. induction n1 as [|n1 IH]; intros i st; simpl.
  - by rewrite Nat.add_0_r.
  - destruct (invokeWithErrorHandling _ _ _ _ _ _ _) as [s|]; [|done].
    rewrite IH. by rewrite Nat.add_succ_r.
Qed.

(** The first emission after [$once]: the subscribers before the wrapper
    run first, without emitting [event]; then the wrapper runs. *)
Lemma once_first_emit fuel args hs st st' :
  hs = [] \/ others_silent ->
  kept (one_wrapper f event (OnWrapper w event (UserFn f))) st ->
  handlers event st = hs ++ [OnWrapper w event (UserFn f)] ->
  emit (call fns fuel) 0 event args st = Some st' ->
  clean f st' /\ call_count f (log st') = S (call_count f (log st)).
Proof.
  intros Hphase Hk Hh.
  destruct hs as [|h hs].
  { rewrite (emit_single _ _ _ _ _ _ Hh). by apply invoke_wrapper. }
  destruct Hphase as [?|Hsilent]; [done|].
  set (W := OnWrapper w event (UserFn f)) in *.
  assert (mentions f W = true) as HW by (simpl; by apply bool_decide_eq_true_2).
  assert (free_of f event (h :: hs)) as Hfree.
  { pose proof (proj2 Hk event) as Hg. rewrite Hh in Hg.
    rewrite <- (app_nil_r (h :: hs)). by apply (one_around f event W _ [] HW). }
  revert Hh. unfold emit, handlers.
  destruct (array_of event st) as [a|]; [|by destruct hs].
  intros Hh. rewrite Hh. rewrite bool_decide_eq_true_2
    by (rewrite length_app; simpl; lia).
  rewrite length_app. rewrite emit_loop_app.
  destruct (emit_loop _ _ _ _ _ (length (h :: hs)) 0 st) as [s1|] eqn:E1; [|done].
  assert (keeps_kept f (one_wrapper f event W) (call fns fuel)) as Hcall.
  { apply (call_kept f (one_wrapper f event W) (fun e => e <> event));
      [apply one_nil|apply one_snoc|apply one_sublist|apply one_quiet|].
    intros g args' x Hg Hx. split; [by eapply never_registers|].
    intros e args'' -> ->. by apply (Hsilent g args' _ Hg Hx args''). }
  apply (emit_loop_copy_kept f _ _ Hcall) in E1 as [Hk1 Hn1]; [| |done].
  - cbn [length emit_loop Nat.add cbs_get].
    rewrite (lookup_app_r (h :: hs) [W]) by (simpl; lia).
    rewrite Nat.sub_diag. change ([W] !! 0) with (Some W).
    destruct (invokeWithErrorHandling _ _ _ _ _ _ _) as [s2|] eqn:E2; [|done].
    intros [= <-]. apply invoke_wrapper in E2 as [Hc2 Hn2]; [|done].
    split; [done|congruence].
  - intros j c Hj Hc. apply Hfree. rewrite lookup_app_l in Hc by lia.
    by eapply list_elem_of_lookup_2.
Qed.

End Once.

(** A body made of re-emissions of [event] runs to completion, and changes
    nothing, while nothing is subscribed to [event]. *)
Lemma run_body_reemit call_rec d event acts st :
  (forall a, a ∈ acts -> exists args, a = AEmit event args) ->
  handlers event st = [] ->
  run_body call_rec d acts st = Some (st, false).
Proof.
  intros Hacts Hh. induction acts as [|a acts IH]; simpl; [done|].
  destruct (Hacts a (list_elem_of_here _ _)) as [args ->].
  rewrite emit_none by done. apply IH. intros x Hx. apply Hacts.
  by apply list_elem_of_further.
Qed.

Lemma emits_none fns fuel event es st :
  (forall x, x ∈ es -> x.1 = event) -> handlers event st = [] ->
  emits fns fuel es st = Some st.
Proof.
  intros Hes Hh. induction es as [|[e args] es IH]; simpl; [done|].
  pose proof (Hes _ (list_elem_of_here _ _)) as He. simpl in He. subst e.
  unfold emit_top. rewrite emit_none by done. apply IH.
  intros x Hx. apply Hes. by apply list_elem_of_further.
Qed.

Lemma kept_once_wrapper f event st :
  wf st -> unregistered f st ->
  kept (one_wrapper f event (OnWrapper (next_closure st) event (UserFn f)))
    (once event (UserFn f) st).
Proof.
  intros Hwf Hu. split; [by apply wf_once|]. intros e. unfold one_wrapper.
  case_decide as He.
  - subst e. rewrite handlers_once_eq. split.
    + rewrite List.filter_app, length_app. simpl.
      rewrite bool_decide_eq_true_2 by done. simpl.
      rewrite (proj2 (filter_length_zero (mentions f) (handlers event st)));
        [lia|apply Hu].
    + intros c. rewrite elem_of_app, list_elem_of_singleton.
      intros [Hc| ->]; [|done]. rewrite (Hu event c Hc). done.
  - rewrite handlers_once_ne by done. exact (Hu e).
Qed.

(** Where [$once] does keep its promise: on an instance where [fn] is
    subscribed to no event, no user function subscribes it, and either
    nothing else is subscribed to [event] or no function other than [fn]
    emits [event], every returning run of [$once(event, fn)] followed by one
    or more [$emit(event)] calls has entered [fn] exactly once; [fn] may
    re-emit [event] from within itself, and when nothing else is subscribed
    and that is all [fn] does, the calls return with any fuel of 2 or
    more. *)
Lemma once_invokes_once (fns : fnid -> fn_def) (st0 : bus) (event : string)
    (f : fnid) (es : list (string * list Z)) (fuel : nat) :
  wf st0 ->
  unregistered f st0 ->
  (forall g args a, a ∈ fn_body (fns g) args -> registers f a = false) ->
  handlers event st0 = [] \/ others_silent f fns event ->
  es <> [] ->
  (forall x, x ∈ es -> x.1 = event) ->
  (forall st', emits fns fuel es (once event (UserFn f) st0) = Some st' ->
     call_count f (log st') = S (call_count f (log st0))) /\
  (handlers event st0 = [] ->
   (forall args a, a ∈ fn_body (fns f) args -> exists args', a = AEmit event args') ->
   2 <= fuel ->
   is_Some (emits fns fuel es (once event (UserFn f) st0))).
Proof.
  intros Hwf Hu Hreg Hphase Hne Hes.
  destruct es as [|[e args] es]; [done|].
  pose proof (Hes _ (list_elem_of_here _ _)) as He. simpl in He. subst e.
  assert (forall x, x ∈ es -> x.1 = event) as Hes'
    by (intros x Hx; apply Hes; by apply list_elem_of_further).
  split.
  - intros st'. simpl. unfold emit_top.
    destruct (emit _ _ _ _ _) as [s|] eqn:E; [|done].
    apply (once_first_emit f fns Hreg event (next_closure st0) fuel args
             (handlers event st0)) in E as [Hc Hn].
    + intros H. apply (emits_clean f fns Hreg) in H as [_ H]; [|done].
      rewrite H, Hn. by rewrite log_once.
    + destruct Hphase as [->|?]; [by left|by right].
    + by apply kept_once_wrapper.
    + apply handlers_once_eq.
  - intros Hh Hbody Hfuel.
    set (W := OnWrapper (next_closure st0) event (UserFn f)).
    assert (handlers event (once event (UserFn f) st0) = [W]) as Hh1
      by (by rewrite handlers_once_eq, Hh).
    destruct fuel as [|[|fuel]]; [lia..|].
    simpl. unfold emit_top. rewrite (emit_single _ _ _ _ _ _ Hh1).
    unfold invokeWithErrorHandling. subst W. cbn [call apply_cb].
    set (W := OnWrapper (next_closure st0) event (UserFn f)) in *.
    set (s1 := add_log (Invoked 0 (Some W) args) (once event (UserFn f) st0)).
    set (s2 := add_log (Called f ThisVm args) (off1 event (Some W) s1)).
    assert (handlers event s2 = []) as Hh2
      by (unfold s2; rewrite handlers_add_log; by apply handlers_off1_single).
    rewrite (run_body_reemit _ _ event _ s2) by (done || apply Hbody).
    by rewrite (emits_none fns _ event es s2 Hes' Hh2).
Qed.

(** ** [createOnceHandler] *)

(** The log of [st'] extends the log of [st]. *)
Definition log_ext (st st' : bus) : Prop := exists new, appended st st' new.

Lemma log_ext_refl st : log_ext st st.
Proof. exists []. apply appended_refl. Qed.

Lemma log_ext_trans s1 s2 s3 : log_ext s1 s2 -> log_ext s2 s3 -> log_ext s1 s3.
Proof. intros [l1 H1] [l2 H2]. exists (l1 ++ l2). by eapply appended_trans. Qed.

Lemma log_ext_same s1 s2 : log s2 = log s1 -> log_ext s1 s2.
Proof. intros H. exists []. unfold appended. by rewrite H, app_nil_r. Qed.

Lemma log_ext_add_log x st : log_ext st (add_log x st).
Proof. exists [x]. apply appended_add_log. Qed.

Section Inversion.

Variable fns : fnid -> fn_def.

Lemma call_log_ext fuel d c this args st st' r :
  call fns fuel d c this args st = Some (st', r) -> log_ext st st'.
Proof. intros H. apply call_deeper in H as (new & H & _). by exists new. Qed.

Lemma run_body_log_ext fuel d acts st st' b :
  run_body (call fns fuel) (S d) acts st = Some (st', b) -> log_ext st st'.
Proof.
  intros H. apply run_body_deeper in H as (new & H & _); [by exists new|].
  intros *. apply call_deeper.
Qed.

Lemma invoke_inv fuel d c this args info st st' :
  invokeWithErrorHandling (call fns fuel) d (Some c) this args info st = Some st' ->
  exists s r, call fns fuel d c this args (add_log (Invoked d (Some c) args) st)
              = Some (s, r) /\ log_ext s st'.
Proof.
  unfold invokeWithErrorHandling.
  destruct (call fns fuel d c this args _) as [[s r]|]; [|done].
  intros H. exists s, r. split; [done|].
  destruct r; injection H as <-; [apply log_ext_refl|apply log_ext_add_log].
Qed.

Lemma call_OnceHandler_inv fuel d w e fn this args st st' r :
  call fns fuel d (OnceHandler w e fn) this args st = Some (st', r) ->
  exists n s r', fuel = S n /\
    call fns n d fn ThisNull args st = Some (s, r') /\ log_ext s st'.
Proof.
  destruct fuel as [|n]; [done|]. simpl.
  destruct (call fns n d fn ThisNull args st) as [[s r']|] eqn:E; [|done].
  intros H. exists n, s, r'. split; [done|]. split; [done|].
  destruct r' as [res|]; [|injection H as <- _; apply log_ext_refl].
  case_bool_decide; injection H as <- _; [|apply log_ext_refl].
  apply log_ext_same, log_off1.
Qed.

Lemma call_UserFn_inv fuel d f this args st st' r :
  call fns fuel d (UserFn f) this args st = Some (st', r) ->
  exists n b, fuel = S n /\
    run_body (call fns n) (S d) (fn_body (fns f) args)
      (add_log (Called f this args) st) = Some (st', b).
Proof.
  destruct fuel as [|n]; [done|]. simpl.
  destruct (run_body _ _ _ _) as [[s b]|] eqn:E; [|done].
  intros H. exists n, b. split; [done|]. rewrite E.
  destruct b; by injection H as <- _.
Qed.

(** A once-handler alone on its event: the emission enters the wrapped
    function while the handler is still subscribed. *)
Lemma emit_OnceHandler_inv fuel d w event f args st st' :
  handlers event st = [OnceHandler w event (UserFn f)] ->
  emit (call fns fuel) d event args st = Some st' ->
  exists n s b,
    run_body (call fns n) (S d) (fn_body (fns f) args)
      (add_log (Called f ThisNull args)
         (add_log (Invoked d (Some (OnceHandler w event (UserFn f))) args) st))
    = Some (s, b) /\ log_ext s st'.
Proof.
  intros Hh. rewrite (emit_single _ _ _ _ _ _ Hh). intros H.
  apply invoke_inv in H as (s1 & r1 & H & Hext1).
  apply call_OnceHandler_inv in H as (n1 & s2 & r2 & -> & H & Hext2).
  apply call_UserFn_inv in H as (n2 & b & -> & H).
  exists n2, s2, b. split; [done|]. by eapply log_ext_trans.
Qed.

End Inversion.

(** C10: a once-handler made by [createOnceHandler] and attached with [add]
    calls the original function first and unsubscribes only afterwards, and
    only when the result is not [null].  So a function that returns [null]
    stays subscribed and is entered on every later emission, while one that
    returns anything else is unsubscribed after its first call; and a
    function that begins by re-emitting its event is entered again, through
    the same handler, during that re-emission. *)
Theorem createOnceHandler_calls_then_unsubscribes (fns : fnid -> fn_def)
    (st0 : bus) (event : string) (f : fnid) :
  handlers event st0 = [] ->
  let h := (createOnceHandler event (UserFn f) st0).1 in
  let st := add event h (createOnceHandler event (UserFn f) st0).2 in
  (forall es fuel,
     (forall x, x ∈ es ->
        x.1 = event /\ fn_body (fns f) x.2 = [] /\ fn_ret (fns f) x.2 = RNull) ->
     2 <= fuel ->
     exists st', emits fns fuel es st = Some st' /\
       call_count f (log st') = call_count f (log st0) + length es /\
       handlers event st' = [h]) /\
  (forall args fuel,
     fn_body (fns f) args = [] -> fn_ret (fns f) args <> RNull ->
     2 <= fuel ->
     exists st', emit_top fns fuel event args st = Some st' /\
       call_count f (log st') = S (call_count f (log st0)) /\
       handlers event st' = []) /\
  (forall args1 args2 rest fuel st',
     fn_body (fns f) args1 = AEmit event args2 :: rest ->
     emit_top fns fuel event args1 st = Some st' ->
     exists tail,
       log st' = log st0 ++
         [Invoked 0 (Some h) args1; Called f ThisNull args1;
          Invoked 1 (Some h) args2; Called f ThisNull args2] ++ tail).
Proof.
  intros Hh h st.
  assert (handlers event st = [h]) as Hst.
  { unfold st, add. rewrite handlers_on1_eq. simpl.
    unfold handlers, array_of in *. simpl. by rewrite Hh. }
  assert (log st = log st0) as Hlog by (unfold st, add; by rewrite log_on1).
  split; [|split].
  - intros es fuel Hes Hfuel. rewrite <- Hlog. clear Hlog.
    generalize dependent st. intros st. clear Hh. revert st.
    induction es as [|[e args] es IH]; intros st Hst; simpl.
    + exists st. split; [done|]. split; [lia|done].
    + destruct (Hes _ (list_elem_of_here _ _)) as (He & Hb & Hr). simpl in *. subst e.
      destruct fuel as [|[|fuel]]; [lia..|].
      unfold emit_top. rewrite (emit_single _ _ _ _ _ _ Hst).
      unfold invokeWithErrorHandling, h. cbn [createOnceHandler fresh_closure fst].
      cbn [call apply_cb]. rewrite Hb, Hr. cbn [run_body].
      rewrite bool_decide_eq_false_2 by (intros H; by apply H).
      match goal with |- context [emits _ _ _ ?s] => set (s1 := s) end.
      destruct (IH (fun x Hx => Hes x (list_elem_of_further _ _ _ Hx)) s1)
        as (st' & Hrun & Hn & Hh'); [exact Hst|].
      exists st'. split; [done|]. split; [|done].
      rewrite Hn. unfold s1, call_count. cbn [log add_log].
      rewrite !List.filter_app, !length_app. simpl.
      rewrite bool_decide_eq_true_2 by done. simpl. lia.
  - intros args fuel Hb Hr Hfuel. destruct fuel as [|[|fuel]]; [lia..|].
    unfold emit_top. rewrite (emit_single _ _ _ _ _ _ Hst).
    unfold invokeWithErrorHandling, h. cbn [createOnceHandler fresh_closure fst].
    cbn [call apply_cb]. rewrite Hb. cbn [run_body].
    rewrite bool_decide_eq_true_2 by done.
    eexists. split; [reflexivity|]. split.
    + rewrite log_off1. unfold call_count. cbn [log add_log]. rewrite Hlog.
      rewrite !List.filter_app, !length_app. simpl.
      rewrite bool_decide_eq_true_2 by done. simpl. lia.
    + apply handlers_off1_single. exact Hst.
  - intros args1 args2 rest fuel st' Hbody H. unfold emit_top in H.
    unfold h in Hst. cbn [createOnceHandler fresh_closure fst] in Hst.
    apply (emit_OnceHandler_inv fns fuel 0 _ event f args1 st st' Hst) in H
      as (n1 & s1 & b1 & H & Hext1).
    rewrite Hbody in H. cbn [run_body] in H.
    destruct (emit _ _ _ _ _) as [s2|] eqn:E; [|done].
    apply run_body_log_ext in H as Hext2.
    apply (emit_OnceHandler_inv fns n1 1 (next_closure st0) event f args2) in E
      as (n2 & s3 & b3 & E & Hext3); [|exact Hst].
    apply run_body_log_ext in E as Hext4.
    destruct (log_ext_trans _ _ _ Hext4
               (log_ext_trans _ _ _ Hext3 (log_ext_trans _ _ _ Hext2 Hext1)))
      as [tail Htail].
    exists tail. unfold appended in Htail. rewrite Htail. cbn [log add_log].
    rewrite Hlog. unfold h. cbn [createOnceHandler fresh_closure fst].
    by rewrite <- !app_assoc.
Qed.

(** ** Worked instances *)

Lemma unregistered_initEvents f : unregistered f initEvents.
Proof.
  intros e c. unfold handlers, array_of. simpl. rewrite lookup_empty.
  intros H. by apply elem_of_nil in H.
Qed.

(** Function 0 re-emits ["e"]; function 1 unsubscribes itself from ["e"]
    and then re-emits it; the others do nothing. *)
Definition nested_fns (f : fnid) : fn_def :=
  match f with
  | 0 => FnDef (fun _ => [AEmit "e" []]) (fun _ => RUndefined)
  | 1 => FnDef (fun _ => [AOffFn (One "e") (UserFn 1); AEmit "e" []])
           (fun _ => RUndefined)
  | _ => FnDef (fun _ => []) (fun _ => RUndefined)
  end.

(** Function 0 returns [null]; function 1 re-emits ["e"] with argument 0
    when called with argument 1; function 2 throws; function 3 subscribes
    function 0 to ["e"]. *)
Definition handler_fns (f : fnid) : fn_def :=
  match f with
  | 0 => FnDef (fun _ => []) (fun _ => RNull)
  | 1 => FnDef (fun args => match args with
                            | [1%Z] => [AEmit "e" [0%Z]]
                            | _ => []
                            end) (fun _ => RUndefined)
  | 2 => FnDef (fun _ => [AThrow]) (fun _ => RUndefined)
  | 3 => FnDef (fun _ => [AOn (One "e") (UserFn 0)]) (fun _ => RUndefined)
  | _ => FnDef (fun _ => []) (fun _ => RUndefined)
  end.

Lemma off_removes_last_match_witness :
  match_count (UserFn 7)
    (handlers "click"
       (off (OffFn (One "click") (UserFn 7))
          (once "click" (UserFn 7)
             (on (One "click") (UserFn 7)
                (on (One "click") (UserFn 3) initEvents))))) = 1.
Proof.
  refine (proj1 (proj2 (off_removes_last_match _ "click" (UserFn 7) 1 _ _))).
  - apply wf_once, wf_on, wf_on, wf_initEvents.
  - vm_compute. reflexivity.
Defined.

(** With a throwing handler first and a subscribing handler second, one
    emission still hands over the three callbacks registered at the call,
    and not the one subscribed meanwhile. *)
Lemma emit_invokes_registered_witness :
  exists st' new,
    emit (call handler_fns 2) 0 "e" [5%Z]
      (on (One "e") (UserFn 0)
         (on (One "e") (UserFn 3) (on (One "e") (UserFn 2) initEvents)))
    = Some st' /\
    log st' = [] ++ new /\
    List.filter (at_depth 0) new
    = [Invoked 0 (Some (UserFn 2)) [5%Z]; Invoked 0 (Some (UserFn 3)) [5%Z];
       Invoked 0 (Some (UserFn 0)) [5%Z]] /\
    handlers "e" st' = [UserFn 2; UserFn 3; UserFn 0; UserFn 0].
Proof.
  destruct (emit (call handler_fns 2) 0 "e" [5%Z]
              (on (One "e") (UserFn 0)
                 (on (One "e") (UserFn 3) (on (One "e") (UserFn 2) initEvents))))
    as [st'|] eqn:E; [|vm_compute in E; discriminate].
  destruct (proj1 (emit_invokes_registered handler_fns 2 0 "e" [5%Z] _) st' E)
    as (new & Hlog & Hnew).
  exists st', new. split; [done|]. split; [exact Hlog|]. split; [exact Hnew|].
  vm_compute in E. injection E as <-. vm_compute. reflexivity.
Defined.

(** C2 does not hold of the code, although [$once] means it to (its
    wrapper unsubscribes itself before it calls [fn]): with a handler
    subscribed to ["e"] before [$once("e", fn)], one that unsubscribes
    itself and re-emits ["e"], a single [$emit("e")] enters [fn] twice,
    once from the nested emission and once more from the copy of the
    subscriber list the outer emission iterates over, which still holds
    the wrapper. *)
Lemma once_entered_twice :
  option_map (fun st => call_count 0 (log st))
    (emits nested_fns 4 [("e"%string, [])]
       (once "e" (UserFn 0) (on (One "e") (UserFn 1) initEvents)))
  = Some 2.
Proof. vm_compute. reflexivity. Qed.

Lemma createOnceHandler_calls_then_unsubscribes_witness :
  (exists st',
     emits handler_fns 2 [("e"%string, []); ("e"%string, [])]
       (add "e" (OnceHandler 0 "e" (UserFn 0))
          (createOnceHandler "e" (UserFn 0) initEvents).2) = Some st' /\
     call_count 0 (log st') = 2 /\
     handlers "e" st' = [OnceHandler 0 "e" (UserFn 0)]) /\
  (exists tail,
     option_map log
       (emit_top handler_fns 4 "e" [1%Z]
          (add "e" (OnceHandler 0 "e" (UserFn 1))
             (createOnceHandler "e" (UserFn 1) initEvents).2))
     = Some ([Invoked 0 (Some (OnceHandler 0 "e" (UserFn 1))) [1%Z];
              Called 1 ThisNull [1%Z];
              Invoked 1 (Some (OnceHandler 0 "e" (UserFn 1))) [0%Z];
              Called 1 ThisNull [0%Z]] ++ tail)).
Proof.
  split.
  - apply (proj1 (createOnceHandler_calls_then_unsubscribes handler_fns
                    initEvents "e" 0 eq_refl)
             [("e"%string, []); ("e"%string, [])] 2); [|lia].
    intros x Hx. repeat (apply elem_of_cons in Hx as [->|Hx]; [done|]).
    by apply elem_of_nil in Hx.
  - destruct (emit_top handler_fns 4 "e" [1%Z]
                (add "e" (OnceHandler 0 "e" (UserFn 1))
                   (createOnceHandler "e" (UserFn 1) initEvents).2))
      as [st'|] eqn:E; [|vm_compute in E; discriminate].
    destruct (proj2 (proj2 (createOnceHandler_calls_then_unsubscribes handler_fns
                       initEvents "e" 1 eq_refl)) [1%Z] [0%Z] [] 4 st' eq_refl E)
      as [tail Ht].
    exists tail. simpl. by rewrite Ht.
Defined.

(** ** Further properties of the event methods *)

Lemma off_scan_snoc fn l c :
  matches c fn = true -> off_scan fn (l ++ [c]) (length (l ++ [c])) = l.
Proof.
  intros Hm. rewrite length_app, Nat.add_1_r. cbn [off_scan].
  rewrite list_lookup_middle by done. rewrite Hm.
  unfold splice1. rewrite take_app_length.
  rewrite drop_ge by (rewrite length_app; simpl; lia).
  by rewrite app_nil_r.
Qed.

Lemma matches_wrapper w e fn : matches (OnWrapper w e fn) fn = true.
Proof.
  unfold matches. simpl. rewrite (bool_decide_eq_true_2 (Some fn = Some fn)) by done.
  apply orb_true_r.
Qed.

(** X1: subscribing a callback with [$on] and unsubscribing it with
    [$off(event, fn)] right after leaves the handler list of every event as
    it was, also when the callback was already subscribed before. *)
Theorem on_then_off_restores (st : bus) (event e : string) (fn : cb) :
  wf st ->
  handlers e (off (OffFn (One event) fn) (on (One event) fn st)) = handlers e st.
Proof.
  intros Hwf. simpl. destruct (decide (e = event)) as [->|Hne].
  - rewrite handlers_off1_fn, handlers_on1_eq. apply off_scan_snoc, matches_refl.
  - rewrite handlers_off1_ne; [|by apply wf_on1|done]. by apply handlers_on1_ne.
Qed.

(** X2: a callback subscribed with [$once] is unsubscribed by
    [$off(event, fn)] with the original function, since the wrapper carries
    it as [on.fn]; the handler lists are then as before. *)
Theorem once_then_off_restores (st : bus) (event e : string) (fn : cb) :
  wf st ->
  handlers e (off (OffFn (One event) fn) (once event fn st)) = handlers e st.
Proof.
  intros Hwf. simpl. destruct (decide (e = event)) as [->|Hne].
  - rewrite handlers_off1_fn, handlers_once_eq. apply off_scan_snoc, matches_wrapper.
  - rewrite handlers_off1_ne; [|by apply wf_once|done]. by apply handlers_once_ne.
Qed.

Lemma off_scan_no_match fn l :
  match_count fn l = 0 -> off_scan fn l (length l) = l.
Proof.
  intros H0. destruct (off_scan_full fn l) as [[H _]|(pre & c & post & -> & Hm & _)];
    [done|].
  rewrite match_count_app in H0. unfold match_count in H0. simpl in H0.
  rewrite Hm in H0. simpl in H0. lia.
Qed.

Lemma OnceHandler_ne w e fn : OnceHandler w e fn <> fn.
Proof. intros H. apply (f_equal cb_height) in H. simpl in H. lia. Qed.

Lemma matches_OnceHandler w e fn : matches (OnceHandler w e fn) fn = false.
Proof.
  unfold matches. simpl. rewrite orb_false_r. apply bool_decide_eq_false_2.
  apply OnceHandler_ne.
Qed.

(** X3: the handler made by [createOnceHandler] has no [fn] property, so
    [remove(event, fn)] with the original function leaves it subscribed;
    only the handler itself unsubscribes it. *)
Theorem onceHandler_needs_its_own_reference (st : bus) (event : string) (fn : cb) :
  match_count fn (handlers event st) = 0 ->
  let h := (createOnceHandler event fn st).1 in
  let st1 := add event h (createOnceHandler event fn st).2 in
  handlers event (remove event fn st1) = handlers event st ++ [h] /\
  handlers event (remove event h st1) = handlers event st.
Proof.
  intros H0 h st1.
  assert (handlers event st1 = handlers event st ++ [h]) as Hh.
  { unfold st1, add. by rewrite handlers_on1_eq. }
  unfold remove. rewrite !handlers_off1_fn, Hh. split.
  - apply off_scan_no_match. rewrite match_count_app, H0.
    unfold match_count. simpl. unfold h. simpl.
    by rewrite matches_OnceHandler.
  - apply off_scan_snoc, matches_refl.
Qed.

(** X4: [$off(event, fn)] with a function that is not subscribed to the
    event (or an event that was never subscribed to) changes no handler
    list and not the [_hasHookEvent] flag. *)
Theorem off_unregistered_is_noop (st : bus) (event e : string) (fn : cb) :
  wf st ->
  match_count fn (handlers event st) = 0 ->
  handlers e (off (OffFn (One event) fn) st) = handlers e st /\
  _hasHookEvent (off (OffFn (One event) fn) st) = _hasHookEvent st.
Proof.
  intros Hwf H0. simpl. split.
  - destruct (decide (e = event)) as [->|Hne].
    + rewrite handlers_off1_fn. by apply off_scan_no_match.
    + by apply handlers_off1_ne.
  - unfold off1. by destruct (array_of event st).
Qed.

(** X5: [$off(event)] leaves no handler for the event and the other events
    as they were; a later [$on] for the event starts a list of its own, and
    [$off()] leaves no handler for any event. *)
Theorem off_event_forgets_the_list (st : bus) (event e : string) (fn : cb) :
  wf st ->
  handlers event (off (OffEvent (One event)) st) = [] /\
  (e <> event -> handlers e (off (OffEvent (One event)) st) = handlers e st) /\
  handlers event (on (One event) fn (off (OffEvent (One event)) st)) = [fn] /\
  (forall e', handlers e' (off OffAll st) = []).
Proof.
  intros Hwf. simpl. split; [apply handlers_off1_event|]. split.
  { intros Hne. by apply handlers_off1_ne. }
  split; [by rewrite handlers_on1_eq, handlers_off1_event|].
  intros e'. unfold handlers, array_of. simpl. by rewrite lookup_empty.
Qed.

(** How often [e] occurs in a list of event names. *)
Definition occurrences (e : string) (es : list string) : nat :=
  length (List.filter (fun x => bool_decide (x = e)) es).

(** X6: [$on] with an array of event names appends the callback to the
    handlers of each name once per occurrence, and to no other event. *)
Theorem on_array_subscribes_each (st : bus) (es : list string) (fn : cb) (e : string) :
  wf st ->
  handlers e (on (Many es) fn st) = handlers e st ++ replicate (occurrences e es) fn.
Proof.
  simpl. revert st. induction es as [|x es IH]; intros st Hwf; simpl.
  { by rewrite app_nil_r. }
  rewrite IH by by apply wf_on1. unfold occurrences. simpl.
  case_bool_decide as Hx.
  - subst x. rewrite handlers_on1_eq. simpl. by rewrite <- app_assoc.
  - by rewrite handlers_on1_ne.
Qed.

Section Preserved.

(** A relation between the instance before and after, holding across
    every method; it then holds across whatever the handlers of a program
    do. *)
Variable R : bus -> bus -> Prop.

Hypothesis R_refl : forall st, R st st.
Hypothesis R_trans : forall s1 s2 s3, R s1 s2 -> R s2 s3 -> R s1 s3.
Hypothesis R_add_log : forall x st, R st (add_log x st).
Hypothesis R_on1 : forall e fn st, R st (on1 e fn st).
Hypothesis R_off1 : forall e fn st, R st (off1 e fn st).
Hypothesis R_fresh_closure : forall st, R st (fresh_closure st).2.
Hypothesis R_off_all : forall st, R st (off OffAll st).

Lemma R_on e fn st : R st (on e fn st).
Proof.
  destruct e as [e|es]; simpl; [apply R_on1|].
  revert st. induction es as [|e es IH]; intros st; simpl; [apply R_refl|].
  eapply R_trans; [apply (R_on1 e fn)|apply IH].
Qed.

Lemma R_off_ev e fn st : R st (off_ev e fn st).
Proof.
  destruct e as [e|es]; simpl; [apply R_off1|].
  revert st. induction es as [|e es IH]; intros st; simpl; [apply R_refl|].
  eapply R_trans; [apply (R_off1 e fn)|apply IH].
Qed.

Lemma R_off a st : R st (off a st).
Proof. destruct a; [apply R_off_all|apply R_off_ev..]. Qed.

Lemma R_once e fn st : R st (once e fn st).
Proof.
  unfold once. eapply R_trans; [apply R_fresh_closure|]. apply R_on1.
Qed.

Variable fns : fnid -> fn_def.

Section Step.

Variable call_rec : nat -> cb -> thisval -> list Z -> bus -> option (bus * completion).

Hypothesis call_rec_R : forall d c this args st st' r,
  call_rec d c this args st = Some (st', r) -> R st st'.

Lemma invoke_R d h this args info st st' :
  invokeWithErrorHandling call_rec d h this args info st = Some st' -> R st st'.
Proof.
  unfold invokeWithErrorHandling. destruct h as [c|].
  - destruct (call_rec d c this args _) as [[s2 r]|] eqn:E; [|done].
    apply call_rec_R in E. intros H.
    eapply R_trans; [apply R_add_log|]. eapply R_trans; [exact E|].
    destruct r; injection H as <-; [apply R_refl|apply R_add_log].
  - intros [= <-]. eapply R_trans; apply R_add_log.
Qed.

Lemma emit_loop_R d r args info n : forall i st st',
  emit_loop call_rec d r args info n i st = Some st' -> R st st'.
Proof.
  induction n as [|n IH]; intros i st st'; simpl.
  - intros [= <-]. apply R_refl.
  - destruct (invokeWithErrorHandling _ _ _ _ _ _ _) as [s1|] eqn:E; [|done].
    intros H. eapply R_trans; [exact (invoke_R _ _ _ _ _ _ _ E)|exact (IH _ _ _ H)].
Qed.

Lemma emit_R d event args st st' :
  emit call_rec d event args st = Some st' -> R st st'.
Proof.
  unfold emit. destruct (array_of event st); [apply emit_loop_R|].
  intros [= <-]. apply R_refl.
Qed.

Lemma run_body_R d acts : forall st st' b,
  run_body call_rec d acts st = Some (st', b) -> R st st'.
Proof.
  induction acts as [|a acts IH]; intros st st' b; simpl.
  - intros [= <- <-]. apply R_refl.
  - destruct a.
    + intros H. eapply R_trans; [apply R_on|exact (IH _ _ _ H)].
    + intros H. eapply R_trans; [apply R_once|exact (IH _ _ _ H)].
    + intros H. eapply R_trans; [apply (R_off OffAll)|exact (IH _ _ _ H)].
    + intros H. eapply R_trans; [apply R_off_ev|exact (IH _ _ _ H)].
    + intros H. eapply R_trans; [apply R_off_ev|exact (IH _ _ _ H)].
    + destruct (emit _ _ _ _ _) as [s1|] eqn:E; [|done].
      intros H. eapply R_trans; [exact (emit_R _ _ _ _ _ E)|exact (IH _ _ _ H)].
    + intros [= <- <-]. apply R_refl.
Qed.

Lemma apply_cb_R d c this args st st' r :
  apply_cb fns call_rec d c this args st = Some (st', r) -> R st st'.
Proof.
  destruct c as [f|w e fn|w e fn]; simpl.
  - destruct (run_body _ _ _ _) as [[s1 b]|] eqn:E; [|done].
    apply run_body_R in E. intros H.
    assert (st' = s1) as -> by (destruct b; congruence).
    eapply R_trans; [apply R_add_log|exact E].
  - destruct (call_rec d fn ThisVm args _) as [[s1 r1]|] eqn:E; [|done].
    apply call_rec_R in E. intros H.
    assert (st' = s1) as -> by (destruct r1; congruence).
    eapply R_trans; [apply R_off1|exact E].
  - destruct (call_rec d fn ThisNull args _) as [[s1 r1]|] eqn:E; [|done].
    apply call_rec_R in E. intros H.
    destruct r1 as [res|]; [|by injection H as <- _].
    case_bool_decide; injection H as <- _; [|done].
    eapply R_trans; [exact E|apply R_off1].
Qed.

End Step.

Lemma call_R fuel : forall d c this args st st' r,
  call fns fuel d c this args st = Some (st', r) -> R st st'.
Proof.
  induction fuel as [|fuel IH]; [done|]. intros *. simpl.
  by apply apply_cb_R.
Qed.

Lemma emits_R fuel es : forall st st',
  emits fns fuel es st = Some st' -> R st st'.
Proof.
  induction es as [|[e args] es IH]; intros st st'; simpl.
  - intros [= <-]. apply R_refl.
  - destruct (emit_top fns fuel e args st) as [s1|] eqn:E; [|done].
    intros H. eapply R_trans; [|exact (IH _ _ H)].
    exact (emit_R _ (call_R fuel) _ _ _ _ _ E).
Qed.

End Preserved.

(** [_hasHookEvent] is not cleared between the two states. *)
Definition hooked (st st' : bus) : Prop :=
  _hasHookEvent st = true -> _hasHookEvent st' = true.

Lemma hookRE_test_prefix rest : hookRE_test ("hook:" ++ rest) = true.
Proof. unfold hookRE_test. apply bool_decide_eq_true_2. by destruct rest. Qed.

Lemma hasHookEvent_on1 e fn st :
  _hasHookEvent (on1 e fn st) = _hasHookEvent st || hookRE_test e.
Proof.
  unfold on1. destruct (hookRE_test e), (array_of e st); simpl;
    by rewrite ?orb_true_r, ?orb_false_r.
Qed.

Lemma hasHookEvent_off1 e fn st : _hasHookEvent (off1 e fn st) = _hasHookEvent st.
Proof. unfold off1. destruct (array_of e st); [|done]. by destruct fn. Qed.

Lemma hasHookEvent_off a st : _hasHookEvent (off a st) = _hasHookEvent st.
Proof.
  assert (forall es fn s,
    _hasHookEvent (fold_left (fun s e => off1 e fn s) es s) = _hasHookEvent s) as Hf.
  { induction es as [|e es IH]; intros fn s; simpl; [done|].
    by rewrite IH, hasHookEvent_off1. }
  destruct a as [|[e|es]|[e|es] fn]; simpl; auto using hasHookEvent_off1.
Qed.

(** X7: [$on] sets [_hasHookEvent] for an event name that starts with
    [hook:], no form of [$off] changes the flag, and once it is set it stays
    set across every emission, whatever the handlers do. *)
Theorem hasHookEvent_is_sticky (fns : fnid -> fn_def) (fuel : nat)
    (es : list (string * list Z)) (st : bus) :
  (forall rest fn, _hasHookEvent (on (One ("hook:" ++ rest)) fn st) = true) /\
  (forall a, _hasHookEvent (off a st) = _hasHookEvent st) /\
  (forall st', _hasHookEvent st = true -> emits fns fuel es st = Some st' ->
     _hasHookEvent st' = true).
Proof.
  split; [|split].
  - intros rest fn. simpl. rewrite hasHookEvent_on1, hookRE_test_prefix.
    apply orb_true_r.
  - intros a. apply hasHookEvent_off.
  - intros st' Hst Hrun.
    refine (emits_R hooked _ _ _ _ _ _ _ fns fuel es st st' Hrun Hst);
      unfold hooked.
    + done.
    + intros s1 s2 s3 H1 H2 H. by apply H2, H1.
    + done.
    + intros e fn s H. by rewrite hasHookEvent_on1, H.
    + intros e fn s H. by rewrite hasHookEvent_off1.
    + done.
    + done.
Qed.

(** X8: whatever the handlers of a sequence of emissions do, distinct events
    never come to share an array object, so that unsubscribing from one
    event afterwards leaves the handlers of every other event alone. *)
Theorem events_never_share_arrays (fns : fnid -> fn_def) (fuel : nat)
    (es : list (string * list Z)) (st st' : bus) :
  wf st ->
  emits fns fuel es st = Some st' ->
  wf st' /\
  forall e e' fn, e' <> e ->
    handlers e' (off (OffFn (One e) fn) st') = handlers e' st'.
Proof.
  intros Hwf Hrun.
  assert (wf st') as Hwf'.
  { refine (emits_R (fun s s' => wf s -> wf s') _ _ _ _ _ _ _
              fns fuel es st st' Hrun Hwf).
    - done.
    - intros s1 s2 s3 H1 H2 H. by apply H2, H1.
    - intros x s. apply wf_add_log.
    - intros e fn s. apply wf_on1.
    - intros e fn s. apply wf_off1.
    - intros s. apply wf_fresh_closure.
    - intros s. apply (wf_off OffAll). }
  split; [done|]. intros e e' fn Hne. simpl. by apply handlers_off1_ne.
Qed.

(** X9: when the function throws, the handler of [createOnceHandler] stays
    subscribed, the [$off] after the call being skipped, while the wrapper
    of [$once], which unsubscribes first, is gone; both errors are caught
    and reported by the emission. *)
Theorem throwing_once_handler_stays (fns : fnid -> fn_def) (st0 : bus)
    (event : string) (f : fnid) (args : list Z) (rest : list action) (fuel : nat) :
  handlers event st0 = [] ->
  fn_body (fns f) args = AThrow :: rest ->
  2 <= fuel ->
  (let h := (createOnceHandler event (UserFn f) st0).1 in
   let st := add event h (createOnceHandler event (UserFn f) st0).2 in
   exists st', emit_top fns fuel event args st = Some st' /\
     handlers event st' = [h] /\
     log st' = log st0 ++ [Invoked 0 (Some h) args; Called f ThisNull args;
                           Handled (emit_info event)]) /\
  (let w := OnWrapper (next_closure st0) event (UserFn f) in
   exists st', emit_top fns fuel event args (once event (UserFn f) st0) = Some st' /\
     handlers event st' = [] /\
     log st' = log st0 ++ [Invoked 0 (Some w) args; Called f ThisVm args;
                           Handled (emit_info event)]).
Proof.
  intros Hh Hb Hfuel. destruct fuel as [|[|fuel]]; [lia..|]. split.
  - intros h st.
    assert (handlers event st = [h]) as Hst.
    { unfold st, add. rewrite handlers_on1_eq. simpl.
      unfold handlers, array_of in *. simpl. by rewrite Hh. }
    assert (log st = log st0) as Hlog by (unfold st, add; by rewrite log_on1).
    unfold emit_top. rewrite (emit_single _ _ _ _ _ _ Hst).
    unfold invokeWithErrorHandling, h. cbn [createOnceHandler fresh_closure fst].
    cbn [call apply_cb]. rewrite Hb. cbn [run_body].
    eexists. split; [reflexivity|]. split.
    + by rewrite !handlers_add_log.
    + cbn [log add_log]. rewrite Hlog. by rewrite <- !app_assoc.
  - intros w.
    assert (handlers event (once event (UserFn f) st0) = [w]) as Hst.
    { by rewrite handlers_once_eq, Hh. }
    unfold emit_top. rewrite (emit_single _ _ _ _ _ _ Hst).
    unfold invokeWithErrorHandling, w.
    cbn [call apply_cb]. rewrite Hb. cbn [run_body].
    eexists. split; [reflexivity|]. split.
    + rewrite !handlers_add_log. apply handlers_off1_single.
      by rewrite handlers_add_log.
    + cbn [log add_log]. rewrite log_off1. cbn [log add_log].
      rewrite log_once. by rewrite <- !app_assoc.
Qed.

(** *** Worked instances *)

Lemma on_then_off_restores_witness :
  handlers "e"
    (off (OffFn (One "e") (UserFn 1))
       (on (One "e") (UserFn 1) (on (One "e") (UserFn 1) initEvents)))
  = handlers "e" (on (One "e") (UserFn 1) initEvents).
Proof.
  apply (on_then_off_restores (on (One "e") (UserFn 1) initEvents) "e" "e").
  apply wf_on, wf_initEvents.
Defined.

Lemma once_then_off_restores_witness :
  handlers "e"
    (off (OffFn (One "e") (UserFn 1))
       (once "e" (UserFn 1) (on (One "e") (UserFn 2) initEvents)))
  = handlers "e" (on (One "e") (UserFn 2) initEvents).
Proof.
  apply (once_then_off_restores (on (One "e") (UserFn 2) initEvents) "e" "e").
  apply wf_on, wf_initEvents.
Defined.

Lemma onceHandler_needs_its_own_reference_witness :
  handlers "e"
    (remove "e" (UserFn 1)
       (add "e" (OnceHandler 0 "e" (UserFn 1))
          (createOnceHandler "e" (UserFn 1) initEvents).2))
  = [OnceHandler 0 "e" (UserFn 1)] /\
  handlers "e"
    (remove "e" (OnceHandler 0 "e" (UserFn 1))
       (add "e" (OnceHandler 0 "e" (UserFn 1))
          (createOnceHandler "e" (UserFn 1) initEvents).2))
  = [].
Proof.
  exact (onceHandler_needs_its_own_reference initEvents "e" (UserFn 1) eq_refl).
Defined.

Lemma off_unregistered_is_noop_witness :
  handlers "e"
    (off (OffFn (One "e") (UserFn 9)) (on (One "e") (UserFn 1) initEvents))
  = handlers "e" (on (One "e") (UserFn 1) initEvents) /\
  _hasHookEvent
    (off (OffFn (One "e") (UserFn 9)) (on (One "e") (UserFn 1) initEvents))
  = _hasHookEvent (on (One "e") (UserFn 1) initEvents).
Proof.
  apply (off_unregistered_is_noop (on (One "e") (UserFn 1) initEvents) "e" "e").
  - apply wf_on, wf_initEvents.
  - vm_compute. reflexivity.
Defined.

Lemma off_event_forgets_the_list_witness :
  handlers "e"
    (on (One "e") (UserFn 2)
       (off (OffEvent (One "e")) (on (One "e") (UserFn 1) initEvents)))
  = [UserFn 2].
Proof.
  refine (proj1 (proj2 (proj2
    (off_event_forgets_the_list (on (One "e") (UserFn 1) initEvents)
       "e" "e" (UserFn 2) _)))).
  apply wf_on, wf_initEvents.
Defined.

Lemma on_array_subscribes_each_witness :
  handlers "a" (on (Many ["a"; "b"; "a"]%string) (UserFn 1) initEvents)
  = handlers "a" initEvents
    ++ replicate (occurrences "a" ["a"; "b"; "a"]%string) (UserFn 1).
Proof.
  apply (on_array_subscribes_each initEvents ["a"; "b"; "a"]%string (UserFn 1) "a").
  apply wf_initEvents.
Defined.

Lemma events_never_share_arrays_witness :
  wf (default initEvents
        (emits handler_fns 3 [("e"%string, [])]
           (on (One "e") (UserFn 3) initEvents))).
Proof.
  refine (proj1 (events_never_share_arrays handler_fns 3 [("e"%string, [])]
                   (on (One "e") (UserFn 3) initEvents) _ _ _)).
  - apply wf_on, wf_initEvents.
  - vm_compute. reflexivity.
Defined.

Lemma throwing_once_handler_stays_witness :
  exists st',
    emit_top handler_fns 2 "e" []
      (add "e" (OnceHandler 0 "e" (UserFn 2))
         (createOnceHandler "e" (UserFn 2) initEvents).2) = Some st' /\
    handlers "e" st' = [OnceHandler 0 "e" (UserFn 2)] /\
    log st' = log initEvents ++
      [Invoked 0 (Some (OnceHandler 0 "e" (UserFn 2))) [];
       Called 2 ThisNull []; Handled (emit_info "e")].
Proof.
  refine (proj1 (throwing_once_handler_stays handler_fns initEvents "e" 2 [] []
                   2 eq_refl eq_refl _)).
  lia.
Defined.

End Events.

(** * Lifecycle ([lifecycle.js]) *)

Module Lifecycle.

(** ** Data *)

(** Identities of instances, watchers, reactive cells, host elements and
    tree nodes. *)
Abbreviation vmid := nat (only parsing).
Abbreviation wid := nat (only parsing).
Abbreviation cellid := nat (only parsing).
Abbreviation elid := nat (only parsing).
Abbreviation vnid := nat (only parsing).
Abbreviation obid := nat (only parsing).

(** The values of [vm._inactive]: [null] after [initLifecycle], then
    [false] or [true]. *)
Inductive tri : Type :=
  | TNull
  | TFalse
  | TTrue.

(** [if (vm._inactive)] *)
Definition truthy (t : tri) : bool :=
  match t with
  | TTrue => true
  | _ => false
  end.

(** A component instance.  A field [$x] of the source is written [S_x];
    [opt_abstract] and [opt_hooks] are [$options.abstract] and
    [$options[hook]]; [data_ob] is the observer [vm._data.__ob__], absent
    when the data object has none; [events] holds [_events] and
    [_hasHookEvent]. *)
Record instance : Type := Instance {
  S_parent : option vmid;
  S_children : list vmid;
  S_el : option elid;
  S_vnode : option vnid;
  _vnode : option vnid;
  _watcher : option wid;
  _watchers : list wid;
  _inactive : tri;
  _directInactive : bool;
  _isMounted : bool;
  _isDestroyed : bool;
  _isBeingDestroyed : bool;
  opt_abstract : bool;
  opt_hooks : gmap string (list Events.fnid);
  data_ob : option obid;
  events : Events.bus
}.

(** Modelled from the spec: the watcher of [core/observer/watcher.js] is not
    among the sources; section 3 describes a computation as holding its
    registered cell subscriptions and being torn down by unsubscribing from
    all cells. *)
Record watcher : Type := Watcher {
  w_active : bool;
  w_deps : list cellid
}.

(** The arguments of a [vm.__patch__] call. *)
Inductive patch_args : Type :=
  | PatchInit (el : option elid) (vnode : vnid) (hydrating : bool)
  | Patch2 (old : option vnid) (new : option vnid).

(** Ghost observations of the lifecycle, newest last. *)
Inductive tentry : Type :=
  | THook (vm : vmid) (hook : string)
  | TPatch (vm : vmid) (args : patch_args)
  | TTeardown (w : wid).

(** The process: the instances, the two process-wide slots
    ([activeInstance]; [Dep.target] with its stack of saved values), the
    dependency graph, the [__vue__] back-references of host elements, the
    [parent] fields of tree nodes, the [vmCount] of observers, and the ghost
    trace. *)
Record world : Type := World {
  instances : gmap vmid instance;
  activeInstance : option vmid;
  Dep_target : option wid;
  targetStack : list (option wid);
  watchers : gmap wid watcher;
  subs : gmap cellid (list wid);
  el_vue : gmap elid (option vmid);
  vnode_parent : gmap vnid (option vnid);
  vmCount : gmap obid Z;
  trace : list tentry
}.

Definition set_instances (m : gmap vmid instance) (st : world) : world :=
  {| instances := m; activeInstance := activeInstance st;
     Dep_target := Dep_target st; targetStack := targetStack st;
     watchers := watchers st; subs := subs st; el_vue := el_vue st;
     vnode_parent := vnode_parent st; vmCount := vmCount st;
     trace := trace st |}.

Definition set_activeInstance (a : option vmid) (st : world) : world :=
  {| instances := instances st; activeInstance := a;
     Dep_target := Dep_target st; targetStack := targetStack st;
     watchers := watchers st; subs := subs st; el_vue := el_vue st;
     vnode_parent := vnode_parent st; vmCount := vmCount st;
     trace := trace st |}.

Definition set_targets (t : option wid) (stack : list (option wid))
    (st : world) : world :=
  {| instances := instances st; activeInstance := activeInstance st;
     Dep_target := t; targetStack := stack;
     watchers := watchers st; subs := subs st; el_vue := el_vue st;
     vnode_parent := vnode_parent st; vmCount := vmCount st;
     trace := trace st |}.

Definition set_graph (ws : gmap wid watcher) (ss : gmap cellid (list wid))
    (st : world) : world :=
  {| instances := instances st; activeInstance := activeInstance st;
     Dep_target := Dep_target st; targetStack := targetStack st;
     watchers := ws; subs := ss; el_vue := el_vue st;
     vnode_parent := vnode_parent st; vmCount := vmCount st;
     trace := trace st |}.

Definition set_el_vue (m : gmap elid (option vmid)) (st : world) : world :=
  {| instances := instances st; activeInstance := activeInstance st;
     Dep_target := Dep_target st; targetStack := targetStack st;
     watchers := watchers st; subs := subs st; el_vue := m;
     vnode_parent := vnode_parent st; vmCount := vmCount st;
     trace := trace st |}.

Definition set_vnode_parent (m : gmap vnid (option vnid)) (st : world) : world :=
  {| instances := instances st; activeInstance := activeInstance st;
     Dep_target := Dep_target st; targetStack := targetStack st;
     watchers := watchers st; subs := subs st; el_vue := el_vue st;
     vnode_parent := m; vmCount := vmCount st; trace := trace st |}.

Definition set_vmCount (m : gmap obid Z) (st : world) : world :=
  {| instances := instances st; activeInstance := activeInstance st;
     Dep_target := Dep_target st; targetStack := targetStack st;
     watchers := watchers st; subs := subs st; el_vue := el_vue st;
     vnode_parent := vnode_parent st; vmCount := m; trace := trace st |}.

Definition add_trace (e : tentry) (st : world) : world :=
  {| instances := instances st; activeInstance := activeInstance st;
     Dep_target := Dep_target st; targetStack := targetStack st;
     watchers := watchers st; subs := subs st; el_vue := el_vue st;
     vnode_parent := vnode_parent st; vmCount := vmCount st;
     trace := trace st ++ [e] |}.

(** Field updates of an instance. *)
Definition with_children (l : list vmid) (i : instance) : instance :=
  Instance (S_parent i) l (S_el i) (S_vnode i) (_vnode i) (_watcher i)
    (_watchers i) (_inactive i) (_directInactive i) (_isMounted i)
    (_isDestroyed i) (_isBeingDestroyed i) (opt_abstract i) (opt_hooks i)
    (data_ob i) (events i).

Definition with_el (e : option elid) (i : instance) : instance :=
  Instance (S_parent i) (S_children i) e (S_vnode i) (_vnode i) (_watcher i)
    (_watchers i) (_inactive i) (_directInactive i) (_isMounted i)
    (_isDestroyed i) (_isBeingDestroyed i) (opt_abstract i) (opt_hooks i)
    (data_ob i) (events i).

Definition with_vnode (v : option vnid) (i : instance) : instance :=
  Instance (S_parent i) (S_children i) (S_el i) (S_vnode i) v (_watcher i)
    (_watchers i) (_inactive i) (_directInactive i) (_isMounted i)
    (_isDestroyed i) (_isBeingDestroyed i) (opt_abstract i) (opt_hooks i)
    (data_ob i) (events i).

Definition with_inactive (t : tri) (i : instance) : instance :=
  Instance (S_parent i) (S_children i) (S_el i) (S_vnode i) (_vnode i)
    (_watcher i) (_watchers i) t (_directInactive i) (_isMounted i)
    (_isDestroyed i) (_isBeingDestroyed i) (opt_abstract i) (opt_hooks i)
    (data_ob i) (events i).

Definition with_directInactive (b : bool) (i : instance) : instance :=
  Instance (S_parent i) (S_children i) (S_el i) (S_vnode i) (_vnode i)
    (_watcher i) (_watchers i) (_inactive i) b (_isMounted i)
    (_isDestroyed i) (_isBeingDestroyed i) (opt_abstract i) (opt_hooks i)
    (data_ob i) (events i).

Definition with_isDestroyed (b : bool) (i : instance) : instance :=
  Instance (S_parent i) (S_children i) (S_el i) (S_vnode i) (_vnode i)
    (_watcher i) (_watchers i) (_inactive i) (_directInactive i) (_isMounted i)
    b (_isBeingDestroyed i) (opt_abstract i) (opt_hooks i)
    (data_ob i) (events i).

Definition with_isBeingDestroyed (b : bool) (i : instance) : instance :=
  Instance (S_parent i) (S_children i) (S_el i) (S_vnode i) (_vnode i)
    (_watcher i) (_watchers i) (_inactive i) (_directInactive i) (_isMounted i)
    (_isDestroyed i) b (opt_abstract i) (opt_hooks i)
    (data_ob i) (events i).

Definition with_events (b : Events.bus) (i : instance) : instance :=
  Instance (S_parent i) (S_children i) (S_el i) (S_vnode i) (_vnode i)
    (_watcher i) (_watchers i) (_inactive i) (_directInactive i) (_isMounted i)
    (_isDestroyed i) (_isBeingDestroyed i) (opt_abstract i) (opt_hooks i)
    (data_ob i) b.

(** ** Computations on the process *)

(** How a computation ends: normally with a value, by a thrown exception,
    or not at all ([Stuck]: out of fuel, or a reference to an instance that
    does not exist). *)
Inductive res (A : Type) : Type :=
  | Ok (a : A) (st : world)
  | Exn (st : world)
  | Stuck.

Arguments Ok {A} a st.
Arguments Exn {A} st.
Arguments Stuck {A}.

Definition M (A : Type) : Type := world -> res A.

Definition ret {A} (a : A) : M A := fun st => Ok a st.

Definition bind {A B} (c : M A) (k : A -> M B) : M B :=
  fun st =>
    match c st with
    | Ok a st' => k a st'
    | Exn st' => Exn st'
    | Stuck => Stuck
    end.

Notation "'do' x <- c ; k" := (bind c (fun x => k))
  (at level 10, x name, c at level 100, k at level 200).
Notation "'run' c ; k" := (bind c (fun _ => k))
  (at level 10, c at level 100, k at level 200).

Definition modify (f : world -> world) : M unit := fun st => Ok tt (f st).

Definition read {A} (f : world -> A) : M A := fun st => Ok (f st) st.

(** The instance behind a reference. *)
Definition the (vm : vmid) : M instance :=
  fun st =>
    match instances st !! vm with
    | Some i => Ok i st
    | None => Stuck
    end.

(** Assignment to fields of [vm]. *)
Definition update (vm : vmid) (f : instance -> instance) : M unit :=
  modify (fun st => set_instances (alter f vm (instances st)) st).

(** [when c then body] *)
Definition when (c : bool) (body : M unit) : M unit :=
  if c then body else ret tt.

(** A [for] loop over the elements of an array. *)
Fixpoint for_each {A} (l : list A) (body : A -> M unit) : M unit :=
  match l with
  | [] => ret tt
  | x :: rest => run body x; for_each rest body
  end.

(** [for (let i = 0; i < vm.$children.length; i++) body(vm.$children[i])],
    entered with the counter at [i]: the array and its length are read anew
    at every turn, so what [body] does to [vm.$children] decides which
    children the later turns see.  At most [k] turns. *)
Fixpoint children_loop (body : vmid -> M unit) (k : nat) (vm : vmid) (i : nat)
    : M unit :=
  match k with
  | 0 => fun _ => Stuck
  | S k' =>
      do x <- the vm;
      match S_children x !! i with
      | Some c => run body c; children_loop body k' vm (S i)
      | None => ret tt
      end
  end.

(** ** User code *)

(** What the body of a user function does to the process besides
    subscribing, unsubscribing and emitting on its own instance, when it is
    entered with the instance [vm] as [this]: the process it leaves, or
    nothing when it does not come back.  It may call any method of any
    instance, [$destroy] for one.  (A body that throws is written with
    [Events.AThrow].) *)
Class UserCode : Type :=
  user_code : Events.fnid -> vmid -> world -> option world.

(** User functions that do nothing but what their event statements say. *)
#[global] Instance events_only : UserCode := fun _ _ st => Some st.

(** The user functions whose bodies the log entries show entered, oldest
    first. *)
Definition entered (l : list Events.entry) : list Events.fnid :=
  omap (fun e => match e with
                 | Events.Called f _ _ => Some f
                 | _ => None
                 end) l.

(** ** The two process-wide slots *)

(** [setActiveInstance(vm)]: the closure it returns is represented by the
    value it captured, [prevActiveInstance]. *)
Definition setActiveInstance (vm : vmid) : M (option vmid) :=
  do prevActiveInstance <- read activeInstance;
  run modify (set_activeInstance (Some vm));
  ret prevActiveInstance.

(** Calling the closure returned by [setActiveInstance]. *)
Definition restoreActiveInstance (prevActiveInstance : option vmid) : M unit :=
  modify (set_activeInstance prevActiveInstance).

(** Modelled from the spec: [pushTarget] and [popTarget] of
    [core/observer/dep.js] are not among the sources; section 4.1 says that
    [pushTarget(computation)] saves and replaces the context of the
    computation currently collecting dependencies, and that [popTarget()]
    restores the prior context. *)
Definition pushTarget (target : option wid) : M unit :=
  modify (fun st => set_targets target (Dep_target st :: targetStack st) st).

Definition popTarget : M unit :=
  modify (fun st =>
    match targetStack st with
    | [] => set_targets None [] st
    | t :: rest => set_targets t rest st
    end).

(** ** The dependency graph *)

(** Modelled from the spec: [Watcher.prototype.teardown] is not among the
    sources; by section 3 a torn-down computation unsubscribes from all the
    cells it registered with. *)
Definition teardown (w : wid) : M unit :=
  modify (fun st =>
    match watchers st !! w with
    | Some x =>
        if w_active x
        then add_trace (TTeardown w)
               (set_graph (<[w := Watcher false (w_deps x)]> (watchers st))
                  (foldr (fun c ss => alter (List.filter (fun v => negb (v =? w))) c ss)
                     (subs st) (w_deps x)) st)
        else st
    | None => st
    end).

(** Modelled from the spec: by section 4.1 a cell write hands every
    computation subscribed to the cell to the scheduler. *)
Definition notified (c : cellid) (st : world) : list wid :=
  default [] (subs st !! c).

(** Modelled from the spec: [remove(arr, item)] of [shared/util.js] is not
    among the sources; [$destroy] uses it to detach the instance from its
    parent's children.  It is taken to splice out the first occurrence. *)
Fixpoint remove (arr : list vmid) (item : vmid) : list vmid :=
  match arr with
  | [] => []
  | x :: rest => if x =? item then rest else x :: remove rest item
  end.

(** ** Hooks, updates and destruction *)

Inductive presult : Type :=
  | PReturn (el : option elid)
  | PThrow.

Section Ops.

(** The user functions: their event statements [fns] and what else their
    bodies do; and the patch collaborator [vm.__patch__], which may do
    anything to the process before it returns or throws. *)
Context {U : UserCode}.
Variable fns : Events.fnid -> Events.fn_def.
Variable patch : vmid -> patch_args -> world -> world * presult.

(** Fuel for the calls made by event handlers and hooks. *)
Variable efuel : nat.

Definition call_patch (vm : vmid) (args : patch_args) : M (option elid) :=
  fun st =>
    match patch vm args (add_trace (TPatch vm args) st) with
    | (st', PReturn el) => Ok el st'
    | (st', PThrow) => Exn st'
    end.

(** A method of the event side of [vm]. *)
Definition on_bus (vm : vmid) (f : Events.bus -> option Events.bus) : M unit :=
  do i <- the vm;
  match f (events i) with
  | Some b => update vm (with_events b)
  | None => fun _ => Stuck
  end.

(** What else the body of user function [f], entered on [vm], does. *)
Definition run_user (vm : vmid) (f : Events.fnid) : M unit :=
  fun st =>
    match user_code f vm st with
    | Some st' => Ok tt st'
    | None => Stuck
    end.

(** A step that runs user functions on [vm]: their event statements act
    on the event side of [vm]; what else their bodies do follows, function
    by function in the order the bodies were entered. *)
Definition on_bus_user (vm : vmid) (step : Events.bus -> option Events.bus)
    : M unit :=
  do i <- the vm;
  match step (events i) with
  | Some b =>
      run update vm (with_events b);
      for_each (entered (drop (length (Events.log (events i))) (Events.log b)))
        (run_user vm)
  | None => fun _ => Stuck
  end.

Definition hook_info (hook : string) : string := (hook ++ " hook")%string.

(** [callHook(vm, hook)] *)
Definition callHook (vm : vmid) (hook : string) : M unit :=
  run modify (add_trace (THook vm hook));
  run pushTarget None;
  do i <- the vm;
  run match opt_hooks i !! hook with
      | Some handlers =>
          for_each handlers (fun h =>
            on_bus_user vm
              (Events.invokeWithErrorHandling (Events.call fns efuel) 0
                 (Some (Events.UserFn h)) Events.ThisVm [] (hook_info hook)))
      | None => ret tt
      end;
  do i' <- the vm;
  run when (Events._hasHookEvent (events i'))
        (on_bus_user vm
           (Events.emit (Events.call fns efuel) 0 ("hook:" ++ hook) []));
  popTarget.

(** [Vue.prototype._update] *)
Definition _update (vm : vmid) (vnode : vnid) (hydrating : bool) : M unit :=
  do i <- the vm;
  let prevEl := S_el i in
  let prevVnode := _vnode i in
  do restore <- setActiveInstance vm;
  run update vm (with_vnode (Some vnode));
  do el <- match prevVnode with
           | None => call_patch vm (PatchInit (S_el i) vnode hydrating)
           | Some pv => call_patch vm (Patch2 (Some pv) (Some vnode))
           end;
  run update vm (with_el el);
  run restoreActiveInstance restore;
  run match prevEl with
      | Some e => modify (fun st => set_el_vue (<[e := None]> (el_vue st)) st)
      | None => ret tt
      end;
  do i1 <- the vm;
  run match S_el i1 with
      | Some e => modify (fun st => set_el_vue (<[e := Some vm]> (el_vue st)) st)
      | None => ret tt
      end;
  match S_vnode i1, S_parent i1 with
  | Some v, Some p =>
      do pi <- the p;
      when (bool_decide (Some v = _vnode pi)) (update p (with_el (S_el i1)))
  | _, _ => ret tt
  end.

(** [Vue.prototype.$destroy] *)
Definition S_destroy (vm : vmid) : M unit :=
  do i <- the vm;
  if _isBeingDestroyed i then ret tt else
  run callHook vm "beforeDestroy";
  run update vm (with_isBeingDestroyed true);
  do i1 <- the vm;
  run match S_parent i1 with
      | Some p =>
          do pi <- the p;
          when (negb (_isBeingDestroyed pi) && negb (opt_abstract i1))
            (update p (fun x => with_children (remove (S_children x) vm) x))
      | None => ret tt
      end;
  run match _watcher i1 with
      | Some w => teardown w
      | None => ret tt
      end;
  run for_each (rev (_watchers i1)) teardown;
  run match data_ob i1 with
      | Some o =>
          modify (fun st => set_vmCount (alter (fun n => n - 1)%Z o (vmCount st)) st)
      | None => ret tt
      end;
  run update vm (with_isDestroyed true);
  do i2 <- the vm;
  do _ <- call_patch vm (Patch2 (_vnode i2) None);
  run callHook vm "destroyed";
  run on_bus vm (fun b => Some (Events.off Events.OffAll b));
  do i3 <- the vm;
  run match S_el i3 with
      | Some e => modify (fun st => set_el_vue (<[e := None]> (el_vue st)) st)
      | None => ret tt
      end;
  match S_vnode i3 with
  | Some v => modify (fun st => set_vnode_parent (<[v := None]> (vnode_parent st)) st)
  | None => ret tt
  end.

(** ** Activation of cached subtrees *)

(** [isInInactiveTree(vm)], following at most [n] parent links. *)
Fixpoint isInInactiveTree (n : nat) (vm : vmid) : M bool :=
  match n with
  | 0 => fun _ => Stuck
  | S n' =>
      do i <- the vm;
      match S_parent i with
      | None => ret false
      | Some p =>
          do pi <- the p;
          if truthy (_inactive pi) then ret true else isInInactiveTree n' p
      end
  end.

(** [activateChildComponent(vm, direct)], nested at most [n] deep; the loop
    over [vm.$children] makes at most [n] turns more than the array is long
    when it is entered. *)
Fixpoint activateChildComponent (n : nat) (vm : vmid) (direct : bool) : M unit :=
  match n with
  | 0 => fun _ => Stuck
  | S n' =>
      do stop <- (if direct
                  then run update vm (with_directInactive false);
                       isInInactiveTree (S n') vm
                  else do i <- the vm; ret (_directInactive i));
      if stop then ret tt else
      do i <- the vm;
      when (match _inactive i with TFalse => false | _ => true end)
        (run update vm (with_inactive TFalse);
         run children_loop (fun c => activateChildComponent n' c false)
               (S (length (S_children i) + n')) vm 0;
         callHook vm "activated")
  end.

(** [deactivateChildComponent(vm, direct)], nested at most [n] deep, with
    the same bound on the turns of its loop. *)
Fixpoint deactivateChildComponent (n : nat) (vm : vmid) (direct : bool) : M unit :=
  match n with
  | 0 => fun _ => Stuck
  | S n' =>
      do stop <- (if direct
                  then run update vm (with_directInactive true);
                       isInInactiveTree (S n') vm
                  else ret false);
      if stop then ret tt else
      do i <- the vm;
      when (negb (truthy (_inactive i)))
        (run update vm (with_inactive TTrue);
         run children_loop (fun c => deactivateChildComponent n' c false)
               (S (length (S_children i) + n')) vm 0;
         callHook vm "deactivated")
  end.

End Ops.

(** ** Reasoning about computations *)

(** From a state satisfying [P], the computation ends normally in a state
    satisfying [Q], or by an exception in a state satisfying [E], or not at
    all. *)
Definition hoare {A} (P : world -> Prop) (m : M A)
    (Q : A -> world -> Prop) (E : world -> Prop) : Prop :=
  forall st, P st ->
    match m st with
    | Ok a st' => Q a st'
    | Exn st' => E st'
    | Stuck => True
    end.

(** [I] is kept up to a normal exit, and an exception can only happen in a
    state satisfying [E]. *)
Definition keeps {A} (I E : world -> Prop) (m : M A) : Prop :=
  hoare I m (fun _ => I) E.

Lemma hoare_bind {A B} P (c : M A) (k : A -> M B) Q1 Q E :
  hoare P c Q1 E -> (forall a, hoare (Q1 a) (k a) Q E) -> hoare P (bind c k) Q E.
Proof.
  intros Hc Hk st HP. unfold bind. specialize (Hc st HP).
  destruct (c st) as [a st'| |]; [|done..]. by apply Hk.
Qed.

Lemma hoare_ret {A} (P : world -> Prop) (a : A) (Q : A -> world -> Prop) E :
  (forall st, P st -> Q a st) -> hoare P (ret a) Q E.
Proof. intros H st HP. by apply H. Qed.

Lemma hoare_modify (P : world -> Prop) f (Q : unit -> world -> Prop) E :
  (forall st, P st -> Q tt (f st)) -> hoare P (modify f) Q E.
Proof. intros H st HP. by apply H. Qed.

Lemma hoare_read {A} (P : world -> Prop) (f : world -> A) (Q : A -> world -> Prop) E :
  (forall st, P st -> Q (f st) st) -> hoare P (read f) Q E.
Proof. intros H st HP. by apply H. Qed.

Lemma hoare_the (P : world -> Prop) vm (Q : instance -> world -> Prop) E :
  (forall st i, P st -> instances st !! vm = Some i -> Q i st) ->
  hoare P (the vm) Q E.
Proof.
  intros H st HP. unfold the. destruct (instances st !! vm) eqn:Ei; [|done].
  by apply H.
Qed.

Lemma hoare_conseq {A} (P P' : world -> Prop) (m : M A)
    (Q Q' : A -> world -> Prop) (E E' : world -> Prop) :
  hoare P' m Q' E' ->
  (forall st, P st -> P' st) ->
  (forall a st, Q' a st -> Q a st) ->
  (forall st, E' st -> E st) ->
  hoare P m Q E.
Proof.
  intros H HP HQ HE st Hst. specialize (H st (HP st Hst)).
  destruct (m st); auto.
Qed.

Lemma keeps_bind {A B} I E (c : M A) (k : A -> M B) :
  keeps I E c -> (forall a, keeps I E (k a)) -> keeps I E (bind c k).
Proof. intros Hc Hk. by apply (hoare_bind I c k (fun _ => I)). Qed.

Lemma keeps_ret {A} I E (a : A) : keeps I E (ret a).
Proof. by apply hoare_ret. Qed.

Lemma keeps_modify I E f : (forall st, I st -> I (f st)) -> keeps I E (modify f).
Proof. intros H. by apply hoare_modify. Qed.

Lemma keeps_read {A} I E (f : world -> A) : keeps I E (read f).
Proof. by apply hoare_read. Qed.

Lemma keeps_the I E vm : keeps I E (the vm).
Proof. by apply hoare_the. Qed.

Lemma keeps_when I E c body : keeps I E body -> keeps I E (when c body).
Proof. intros H. destruct c; [exact H|apply keeps_ret]. Qed.

Lemma keeps_for_each {A} I E (l : list A) body :
  (forall x, x ∈ l -> keeps I E (body x)) -> keeps I E (for_each l body).
Proof.
  induction l as [|x l IH]; intros H; simpl; [apply keeps_ret|].
  apply keeps_bind; [apply H, list_elem_of_here|]. intros _. apply IH.
  intros y Hy. apply H. by apply list_elem_of_further.
Qed.

Lemma keeps_stuck {A} I E : keeps I E (fun _ => @Stuck A).
Proof. by intros st _. Qed.

(** [I] does not look at the instances. *)
Definition ignores_instances (I : world -> Prop) : Prop :=
  forall st m, I st -> I (set_instances m st).

Lemma keeps_update I E vm f : ignores_instances I -> keeps I E (update vm f).
Proof. intros H. apply keeps_modify. intros st. apply H. Qed.

(** From a state satisfying [P], the computation ends normally, in a state
    satisfying [Q]. *)
Definition returns {A} (P : world -> Prop) (m : M A) (Q : A -> world -> Prop)
    : Prop :=
  forall st, P st -> exists a st', m st = Ok a st' /\ Q a st'.

Lemma returns_bind {A B} P (c : M A) (k : A -> M B) Q1 Q :
  returns P c Q1 -> (forall a, returns (Q1 a) (k a) Q) -> returns P (bind c k) Q.
Proof.
  intros Hc Hk st HP. destruct (Hc st HP) as (a & st1 & Ha & HQ1).
  destruct (Hk a st1 HQ1) as (b & st2 & Hb & HQ). exists b, st2.
  unfold bind. by rewrite Ha.
Qed.

Lemma returns_ret {A} (P : world -> Prop) (a : A) (Q : A -> world -> Prop) :
  (forall st, P st -> Q a st) -> returns P (ret a) Q.
Proof. intros H st HP. exists a, st. split; [done|by apply H]. Qed.

Lemma returns_modify (P : world -> Prop) f (Q : unit -> world -> Prop) :
  (forall st, P st -> Q tt (f st)) -> returns P (modify f) Q.
Proof. intros H st HP. exists tt, (f st). split; [done|by apply H]. Qed.

Lemma returns_the (P : world -> Prop) vm (Q : instance -> world -> Prop) :
  (forall st, P st -> exists i, instances st !! vm = Some i /\ Q i st) ->
  returns P (the vm) Q.
Proof.
  intros H st HP. destruct (H st HP) as (i & Hi & HQ). exists i, st.
  unfold the. by rewrite Hi.
Qed.

Lemma returns_for_each {A} (I : world -> Prop) (l : list A) body :
  (forall x, x ∈ l -> returns I (body x) (fun _ => I)) ->
  returns I (for_each l body) (fun _ => I).
Proof.
  induction l as [|x l IH]; intros H; simpl; [by apply returns_ret|].
  apply returns_bind with (Q1 := fun _ => I); [apply H, list_elem_of_here|].
  intros _. apply IH. intros y Hy. apply H. by apply list_elem_of_further.
Qed.

Lemma returns_conseq {A} (P P' : world -> Prop) (m : M A)
    (Q Q' : A -> world -> Prop) :
  returns P' m Q' -> (forall st, P st -> P' st) ->
  (forall a st, Q' a st -> Q a st) -> returns P m Q.
Proof.
  intros H HP HQ st Hst. destruct (H st (HP st Hst)) as (a & st' & Hm & Hq).
  exists a, st'. split; [done|by apply HQ].
Qed.

(** ** The loop over the children *)

(** An assertion every turn keeps is kept by the loop. *)
Lemma keeps_children_loop I E body vm k : forall i,
  (forall c, keeps I E (body c)) -> keeps I E (children_loop body k vm i).
Proof.
  induction k as [|k IH]; intros i H; simpl; [apply keeps_stuck|].
  apply keeps_bind; [apply keeps_the|]. intros x.
  destruct (S_children x !! i); [|apply keeps_ret].
  apply keeps_bind; [apply H|]. intros _. by apply IH.
Qed.

(** The loop over an array that no turn changes: [J rest] holds when the
    children [rest] are left to be visited. *)
Lemma hoare_children_loop (J : list vmid -> world -> Prop) E body vm l :
  (forall rest s, J rest s ->
     exists x, instances s !! vm = Some x /\ S_children x = l) ->
  (forall done c rest, l = done ++ c :: rest ->
     hoare (J (c :: rest)) (body c) (fun _ => J rest) E) ->
  forall k, hoare (J l) (children_loop body k vm 0) (fun _ => J []) E.
Proof.
  intros Hfix Hstep k.
  assert (forall done rest, l = done ++ rest ->
            hoare (J rest) (children_loop body k vm (length done))
              (fun _ => J []) E) as H.
  { induction k as [|k IH]; intros done rest Hl; [by intros s _|].
    simpl. intros s Hs. destruct (Hfix rest s Hs) as (x & Hx & Hc).
    unfold bind at 1. unfold the at 1. rewrite Hx, Hc, Hl.
    destruct rest as [|c rest].
    - rewrite lookup_ge_None_2 by (rewrite length_app; simpl; lia). done.
    - rewrite list_lookup_middle by done.
      pose proof (Hstep done c rest Hl s Hs) as Hb. unfold bind.
      destruct (body c s) as [u s1| |]; [|done..].
      specialize (IH (done ++ [c]) rest).
      rewrite length_app, Nat.add_1_r in IH. apply IH; [|done].
      by rewrite <- app_assoc. }
  by apply (H [] l).
Qed.

(** The same loop returns when every turn does and the turns allowed
    outnumber the children. *)
Lemma returns_children_loop (J : list vmid -> world -> Prop) body vm l :
  (forall rest s, J rest s ->
     exists x, instances s !! vm = Some x /\ S_children x = l) ->
  (forall done c rest, l = done ++ c :: rest ->
     returns (J (c :: rest)) (body c) (fun _ => J rest)) ->
  forall k, length l < k ->
    returns (J l) (children_loop body k vm 0) (fun _ => J []).
Proof.
  intros Hfix Hstep k.
  assert (forall done rest, l = done ++ rest -> length rest < k ->
            returns (J rest) (children_loop body k vm (length done))
              (fun _ => J [])) as H.
  { induction k as [|k IH]; intros done rest Hl Hk; [lia|].
    simpl. intros s Hs. destruct (Hfix rest s Hs) as (x & Hx & Hc).
    unfold bind at 1. unfold the at 1. rewrite Hx, Hc, Hl.
    destruct rest as [|c rest].
    - rewrite lookup_ge_None_2 by (rewrite length_app; simpl; lia).
      by exists tt, s.
    - rewrite list_lookup_middle by done.
      destruct (Hstep done c rest Hl s Hs) as (u & s1 & Hb & Hs1). unfold bind.
      rewrite Hb. specialize (IH (done ++ [c]) rest).
      rewrite length_app, Nat.add_1_r in IH. apply IH; [|simpl in Hk; lia|done].
      by rewrite <- app_assoc. }
  intros Hk. by apply (H [] l).
Qed.

Lemma hoare_conj {A} (P1 P2 : world -> Prop) (m : M A)
    (Q1 Q2 : A -> world -> Prop) (E : world -> Prop) :
  hoare P1 m Q1 E -> hoare P2 m Q2 E ->
  hoare (fun s => P1 s /\ P2 s) m (fun a s => Q1 a s /\ Q2 a s) E.
Proof.
  intros H1 H2 s [Hs1 Hs2]. specialize (H1 s Hs1). specialize (H2 s Hs2).
  by destruct (m s).
Qed.

(** The record of [u] satisfies [phi]. *)
Definition holds_at (phi : instance -> Prop) (u : vmid) (s : world) : Prop :=
  exists x, instances s !! u = Some x /\ phi x.

Lemma holds_at_update phi f v u s :
  (forall x, phi x -> phi (f x)) ->
  holds_at phi u s -> holds_at phi u (set_instances (alter f v (instances s)) s).
Proof.
  intros Hf (y & Hy & Hphi). unfold holds_at. simpl.
  destruct (decide (v = u)) as [->|Hne].
  - exists (f y). rewrite lookup_alter_eq, Hy. split; [done|]. by apply Hf.
  - exists y. by rewrite lookup_alter_ne.
Qed.

(** A field update that neither establishes nor breaks [phi]. *)
Lemma holds_at_update_inv phi f v u s :
  (forall x, phi (f x) -> phi x) ->
  holds_at phi u (set_instances (alter f v (instances s)) s) -> holds_at phi u s.
Proof.
  intros Hf (y & Hy & Hphi). simpl in Hy. destruct (decide (v = u)) as [->|Hne].
  - rewrite lookup_alter_eq in Hy. destruct (instances s !! u) as [x|] eqn:Ex; [|done].
    injection Hy as <-. exists x. split; [done|]. by apply Hf.
  - rewrite lookup_alter_ne in Hy by done. by exists y.
Qed.

(** The children of [vm] are [l]. *)
Definition kin (vm : vmid) (l : list vmid) (s : world) : Prop :=
  holds_at (fun x => S_children x = l) vm s.

(** ** What user code may be assumed to leave alone *)

(** The fields that decide which instances a walk over the tree visits and
    what it does there. *)
Definition tree_fields (x : instance) : option vmid * list vmid * tri * bool :=
  (S_parent x, S_children x, _inactive x, _directInactive x).

(** The two processes have the same instances, with the same
    [tree_fields]. *)
Definition same_tree (s s' : world) : Prop :=
  forall v, tree_fields <$> instances s' !! v = tree_fields <$> instances s !! v.

(** No user function changes [$parent], [$children], [_inactive] or
    [_directInactive] of any instance, or creates or removes one. *)
Definition keeps_tree (U : UserCode) : Prop :=
  forall f v s s', user_code f v s = Some s' -> same_tree s s'.

(** No user function changes an instance or calls something that the
    trace records. *)
Definition gentle (U : UserCode) : Prop :=
  forall f v s s', user_code f v s = Some s' ->
    instances s' = instances s /\ trace s' = trace s.

Lemma keeps_tree_events_only : keeps_tree events_only.
Proof. by intros f v s s' [= <-] u. Qed.

Lemma gentle_events_only : gentle events_only.
Proof. by intros f v s s' [= <-]. Qed.

Lemma gentle_keeps_tree U : gentle U -> keeps_tree U.
Proof. intros H f v s s' Hu u. by rewrite (proj1 (H f v s s' Hu)). Qed.

(** A property of an instance that its [tree_fields] decide. *)
Definition tree_pred (phi : instance -> Prop) : Prop :=
  forall x x', tree_fields x' = tree_fields x -> phi x -> phi x'.

Lemma same_tree_lookup s s' v x :
  same_tree s s' -> instances s !! v = Some x ->
  exists x', instances s' !! v = Some x' /\ tree_fields x' = tree_fields x.
Proof.
  intros H Hx. specialize (H v). rewrite Hx in H.
  destruct (instances s' !! v) as [x'|]; [|done]. exists x'. split; [done|].
  simpl in H. congruence.
Qed.

Lemma same_tree_lookup_inv s s' v x' :
  same_tree s s' -> instances s' !! v = Some x' ->
  exists x, instances s !! v = Some x /\ tree_fields x' = tree_fields x.
Proof.
  intros H Hx. specialize (H v). rewrite Hx in H.
  destruct (instances s !! v) as [x|]; [|done]. exists x. split; [done|].
  simpl in H. congruence.
Qed.

Lemma same_tree_refl s : same_tree s s.
Proof. by intros v. Qed.

Lemma same_tree_instances s s' : instances s' = instances s -> same_tree s s'.
Proof. intros Heq v. by rewrite Heq. Qed.

Lemma same_tree_alter f v s :
  (forall x, tree_fields (f x) = tree_fields x) ->
  same_tree s (set_instances (alter f v (instances s)) s).
Proof.
  intros Hf u. simpl. destruct (decide (v = u)) as [->|Hne].
  - rewrite lookup_alter_eq. destruct (instances s !! u); simpl; [|done].
    by rewrite Hf.
  - by rewrite lookup_alter_ne.
Qed.

(** An assertion that only the [tree_fields] of the instances decide. *)
Definition tree_inv (I : world -> Prop) : Prop :=
  forall s s', same_tree s s' -> I s -> I s'.

Lemma tree_inv_and (I J : world -> Prop) :
  tree_inv I -> tree_inv J -> tree_inv (fun s => I s /\ J s).
Proof. intros HI HJ s s' Ht [? ?]. split; [by apply (HI s)|by apply (HJ s)]. Qed.

Lemma tree_inv_holds_at phi u : tree_pred phi -> tree_inv (holds_at phi u).
Proof.
  intros Hphi s s' Ht (x & Hx & Hp).
  destruct (same_tree_lookup s s' u x Ht Hx) as (x' & Hx' & Hf).
  exists x'. split; [done|]. by apply (Hphi x).
Qed.

Section UserHooks.

Context {U : UserCode}.
Variable fns : Events.fnid -> Events.fn_def.
Variable efuel : nat.

(** An assertion that changes of the event side of [vm] and the user
    functions entered on [vm] keep is kept by a step on [vm]. *)
Lemma hoare_on_bus_user (I : world -> Prop) E vm step :
  (forall s b, I s ->
     I (set_instances (alter (with_events b) vm (instances s)) s)) ->
  (forall g s s', user_code g vm s = Some s' -> I s -> I s') ->
  keeps I E (on_bus_user vm step).
Proof.
  intros Hev Hu. unfold on_bus_user.
  apply keeps_bind; [apply keeps_the|]. intros i.
  destruct (step (events i)); [|apply keeps_stuck].
  apply keeps_bind; [apply keeps_modify; intros s; apply Hev|]. intros _.
  apply keeps_for_each. intros g _ s Hs. unfold run_user.
  destruct (user_code g vm s) as [s'|] eqn:Eg; [|done]. by apply (Hu g s).
Qed.

(** [callHook] appends its trace entry, saves and restores the tracking
    slot, rewrites the event side of [vm] and runs user functions on [vm];
    an assertion closed under these four is carried across it. *)
Lemma hoare_callHook_user (I I' : world -> Prop) vm hook E :
  (forall s, I s -> I' (add_trace (THook vm hook) s)) ->
  (forall s t k, I' s -> I' (set_targets t k s)) ->
  (forall s b, I' s ->
     I' (set_instances (alter (with_events b) vm (instances s)) s)) ->
  (forall g s s', user_code g vm s = Some s' -> I' s -> I' s') ->
  hoare I (callHook fns efuel vm hook) (fun _ => I') E.
Proof.
  intros Htr Htg Hev Hu.
  assert (forall f, keeps I' E (on_bus_user vm f)) as Hbus.
  { intros f. by apply hoare_on_bus_user. }
  unfold callHook.
  apply hoare_bind with (Q1 := fun _ => I'); [by apply hoare_modify|]. intros _.
  apply hoare_bind with (Q1 := fun _ => I').
  { apply hoare_modify. intros s. apply Htg. }
  intros _. apply hoare_bind with (Q1 := fun _ => I'); [apply keeps_the|].
  intros i. apply hoare_bind with (Q1 := fun _ => I').
  { destruct (opt_hooks i !! hook); [|apply keeps_ret].
    apply keeps_for_each. intros h _. apply Hbus. }
  intros _. apply hoare_bind with (Q1 := fun _ => I'); [apply keeps_the|].
  intros i'. apply hoare_bind with (Q1 := fun _ => I').
  { apply keeps_when, Hbus. }
  intros _. apply hoare_modify. intros s H.
  destruct (targetStack s); by apply Htg.
Qed.

(** [callHook] returns on an instance without hook handlers and without
    [hook:] listeners; an assertion on the instances alone is carried
    across. *)
Lemma callHook_returns (I : world -> Prop) vm hook :
  (forall s s', instances s' = instances s -> I s -> I s') ->
  (forall s, I s -> exists x, instances s !! vm = Some x /\ opt_hooks x = ∅ /\
                              Events._hasHookEvent (events x) = false) ->
  returns I (callHook fns efuel vm hook) (fun _ => I).
Proof.
  intros Hsame Hvm.
  assert (returns I (the vm) (fun x s => I s /\ opt_hooks x = ∅ /\
                                Events._hasHookEvent (events x) = false)) as Hthe.
  { apply returns_the. intros s H. destruct (Hvm s H) as (x & Hx & Hh).
    by exists x. }
  unfold callHook.
  apply returns_bind with (Q1 := fun _ => I);
    [apply returns_modify; intros s; by apply Hsame|]. intros _.
  apply returns_bind with (Q1 := fun _ => I);
    [apply returns_modify; intros s; by apply Hsame|]. intros _.
  eapply returns_bind; [apply Hthe|]. intros x.
  intros s (H & Hho & _). revert s H. rewrite Hho, lookup_empty.
  apply returns_bind with (Q1 := fun _ => I); [by apply returns_ret|].
  intros _. eapply returns_bind; [apply Hthe|]. intros x'.
  intros s (H & _ & Hev). revert s H. rewrite Hev.
  apply returns_bind with (Q1 := fun _ => I); [by apply returns_ret|].
  intros _. apply returns_modify. intros s H.
  destruct (targetStack s); by apply (Hsame s).
Qed.

(** With user code that keeps the tree, [callHook] keeps every assertion
    that only the [tree_fields] decide. *)
Lemma tree_callHook (I : world -> Prop) vm hook E :
  keeps_tree U -> tree_inv I -> keeps I E (callHook fns efuel vm hook).
Proof.
  intros HU HI. apply hoare_callHook_user.
  - intros s. apply HI. by apply same_tree_instances.
  - intros s t k. apply HI. by apply same_tree_instances.
  - intros s b. apply HI. by apply same_tree_alter.
  - intros g s s' Hg. apply HI. by apply (HU g vm).
Qed.

(** *** What one run of a hook makes of the event side *)

(** The event side of an instance after [invokeWithErrorHandling] was
    called on each handler of [hs] in turn; nothing when one of the calls
    does not come back. *)
Fixpoint hand_over (info : string) (hs : list Events.fnid) (b : Events.bus)
    : option Events.bus :=
  match hs with
  | [] => Some b
  | h :: rest =>
      match Events.invokeWithErrorHandling (Events.call fns efuel) 0
              (Some (Events.UserFn h)) Events.ThisVm [] info b with
      | Some b' => hand_over info rest b'
      | None => None
      end
  end.

(** The event side after the handlers [hs] of [hook] were handed over and
    then, if [_hasHookEvent] is set by then, ["hook:" ++ hook] was
    emitted. *)
Definition hook_run (hook : string) (hs : list Events.fnid) (b : Events.bus)
    : option Events.bus :=
  match hand_over (hook_info hook) hs b with
  | Some b1 =>
      if Events._hasHookEvent b1
      then Events.emit (Events.call fns efuel) 0 ("hook:" ++ hook) [] b1
      else Some b1
  | None => None
  end.

(** The hand-overs are logged in the order of [hs], whatever the handlers
    do. *)
Lemma hand_over_log info hs : forall b b1,
  hand_over info hs b = Some b1 ->
  exists new, Events.log b1 = Events.log b ++ new /\
    List.filter (Events.at_depth 0) new
    = map (fun h => Events.Invoked 0 (Some (Events.UserFn h)) []) hs.
Proof.
  induction hs as [|h hs IH]; intros b b1; cbn [hand_over].
  { intros [= <-]. exists []. by rewrite app_nil_r. }
  destruct (Events.invokeWithErrorHandling (Events.call fns efuel) 0
              (Some (Events.UserFn h)) Events.ThisVm [] info b) as [b'|] eqn:E;
    [|done].
  intros H. destruct (IH b' b1 H) as (new & Hl & Hf).
  apply (Events.invoke_log (Events.call fns efuel) (Events.call_deeper fns efuel)) in E
    as (newh & Ha & Hd).
  exists ((Events.Invoked 0 (Some (Events.UserFn h)) [] :: newh) ++ new). split.
  - unfold Events.appended in Ha. by rewrite Hl, Ha, <- app_assoc.
  - rewrite List.filter_app, Hf. simpl.
    by rewrite (Events.filter_deeper_nil _ _ Hd).
Qed.

(** [vm] is [x] with the event side [b], the other instances are those of
    [s0], and the trace is [t]. *)
Definition bus_is (vm : vmid) (x : instance) (s0 : world) (t : list tentry)
    (b : Events.bus) (st : world) : Prop :=
  instances st !! vm = Some (with_events b x) /\
  (forall j, j <> vm -> instances st !! j = instances s0 !! j) /\
  trace st = t.

Lemma with_events_id x : with_events (events x) x = x.
Proof. by destruct x. Qed.

Lemma on_bus_user_spec vm x s0 t b step :
  gentle U ->
  hoare (bus_is vm x s0 t b) (on_bus_user vm step)
    (fun _ st => exists b', step b = Some b' /\ bus_is vm x s0 t b' st)
    (fun _ => False).
Proof.
  intros HU. unfold on_bus_user.
  apply hoare_bind with
    (Q1 := fun i st => i = with_events b x /\ bus_is vm x s0 t b st).
  { apply hoare_the. intros st i HI Hi. split; [|done].
    destruct HI as (Hv & _). congruence. }
  intros i st [-> HI]. revert st HI. cbn [events with_events].
  destruct (step b) as [b'|] eqn:Es; [|by intros st _].
  apply hoare_bind with (Q1 := fun _ => bus_is vm x s0 t b').
  { apply hoare_modify. intros st (Hv & Ho & Ht). split; [|split; [|done]].
    - simpl. rewrite lookup_alter_eq, Hv. reflexivity.
    - intros j Hj. simpl. rewrite lookup_alter_ne by done. by apply Ho. }
  intros _.
  apply hoare_conseq with (P' := bus_is vm x s0 t b')
    (Q' := fun _ => bus_is vm x s0 t b') (E' := fun _ => False);
    [|done|intros _ st HI; by exists b'|done].
  apply keeps_for_each. intros g _ st HI. unfold run_user.
  destruct (user_code g vm st) as [st'|] eqn:Eg; [|done].
  destruct (HU g vm st st' Eg) as [Hi Htr]. unfold bus_is. by rewrite Hi, Htr.
Qed.

Lemma hand_over_spec vm x s0 t info hs : forall b,
  gentle U ->
  hoare (bus_is vm x s0 t b)
    (for_each hs (fun h =>
       on_bus_user vm
         (Events.invokeWithErrorHandling (Events.call fns efuel) 0
            (Some (Events.UserFn h)) Events.ThisVm [] info)))
    (fun _ st => exists b', hand_over info hs b = Some b' /\
                            bus_is vm x s0 t b' st)
    (fun _ => False).
Proof.
  induction hs as [|h hs IH]; intros b HU; cbn [for_each hand_over].
  { apply hoare_ret. intros st HI. by exists b. }
  apply hoare_bind with
    (Q1 := fun _ st => exists b',
       Events.invokeWithErrorHandling (Events.call fns efuel) 0
         (Some (Events.UserFn h)) Events.ThisVm [] info b = Some b' /\
       bus_is vm x s0 t b' st).
  { by apply on_bus_user_spec. }
  intros _ st (b' & Hb' & HI). rewrite Hb'. by apply (IH b' HU st).
Qed.

(** What [callHook] does, when the user functions leave the instances and
    the trace alone: one entry more in the trace, and one run of the hook
    on the event side of [vm]; no other instance is touched. *)
Lemma callHook_spec vm hook x s :
  gentle U ->
  instances s !! vm = Some x ->
  match callHook fns efuel vm hook s with
  | Ok _ s' =>
      exists b',
        hook_run hook (default [] (opt_hooks x !! hook)) (events x) = Some b' /\
        instances s' !! vm = Some (with_events b' x) /\
        (forall j, j <> vm -> instances s' !! j = instances s !! j) /\
        trace s' = trace s ++ [THook vm hook]
  | Exn _ => False
  | Stuck => True
  end.
Proof.
  intros HU Hx.
  set (t := trace s ++ [THook vm hook]).
  set (Inv := bus_is vm x s t).
  assert (hoare (fun st => st = s) (callHook fns efuel vm hook)
            (fun _ st => exists b',
               hook_run hook (default [] (opt_hooks x !! hook)) (events x)
               = Some b' /\ Inv b' st)
            (fun _ => False)) as H.
  { unfold callHook.
    apply hoare_bind with (Q1 := fun _ => Inv (events x)).
    { apply hoare_modify. intros st ->. split; [|by split].
      simpl. by rewrite with_events_id. }
    intros _. apply hoare_bind with (Q1 := fun _ => Inv (events x)).
    { apply hoare_modify. by intros st (? & ? & ?). }
    intros _. apply hoare_bind with
      (Q1 := fun i st => i = x /\ Inv (events x) st).
    { apply hoare_the. intros st i HI Hi. split; [|done].
      destruct HI as (Hv & _). rewrite with_events_id in Hv. congruence. }
    intros i. apply hoare_bind with
      (Q1 := fun _ st => exists b1,
         hand_over (hook_info hook) (default [] (opt_hooks x !! hook)) (events x)
         = Some b1 /\ Inv b1 st).
    { intros st [-> HI]. revert st HI.
      destruct (opt_hooks x !! hook) as [hs|]; simpl.
      - by apply hand_over_spec.
      - intros st HI. by exists (events x). }
    intros _. apply hoare_bind with
      (Q1 := fun i' st => exists b1,
         hand_over (hook_info hook) (default [] (opt_hooks x !! hook)) (events x)
         = Some b1 /\ Inv b1 st /\ i' = with_events b1 x).
    { apply hoare_the. intros st i' (b1 & Hb1 & HI) Hi'. exists b1.
      split; [done|]. split; [done|]. destruct HI as (Hv & _). congruence. }
    intros i'. apply hoare_bind with
      (Q1 := fun _ st => exists b',
         hook_run hook (default [] (opt_hooks x !! hook)) (events x) = Some b' /\
         Inv b' st).
    { intros st (b1 & Hb1 & HI & ->). revert st HI. unfold hook_run. rewrite Hb1.
      cbn [events with_events]. unfold when.
      destruct (Events._hasHookEvent b1); [by apply on_bus_user_spec|].
      intros st HI. by exists b1. }
    intros _. apply hoare_modify. intros st (b' & Hb' & Hv & Ho & Ht).
    exists b'. split; [done|]. by destruct (targetStack st). }
  specialize (H s eq_refl).
  destruct (callHook fns efuel vm hook s) as [u s'| |]; [|done..].
  destruct H as (b' & Hb' & Hv & Ho & Ht). by exists b'.
Qed.

End UserHooks.

Section OpsFacts.

Variable fns : Events.fnid -> Events.fn_def.
Variable patch : vmid -> patch_args -> world -> world * presult.
Variable efuel : nat.

Lemma keeps_on_bus I E vm f : ignores_instances I -> keeps I E (on_bus vm f).
Proof.
  intros H. apply keeps_bind; [apply keeps_the|]. intros i.
  destruct (f (events i)); [by apply keeps_update|apply keeps_stuck].
Qed.

Lemma keeps_on_bus_user I E vm f :
  ignores_instances I -> keeps I E (on_bus_user vm f).
Proof.
  intros H. apply hoare_on_bus_user.
  - intros s b. apply H.
  - by intros g s s' [= <-].
Qed.

(** [callHook] leaves the tracking slot and its stack of saved values as it
    found them, and never throws. *)
Lemma callHook_targets vm hook t0 s0 :
  hoare (fun st => Dep_target st = t0 /\ targetStack st = s0)
    (callHook fns efuel vm hook)
    (fun _ st => Dep_target st = t0 /\ targetStack st = s0)
    (fun _ => False).
Proof.
  set (J := fun st => Dep_target st = None /\ targetStack st = t0 :: s0).
  assert (ignores_instances J) as HJ by (by intros st m).
  unfold callHook.
  apply hoare_bind
    with (Q1 := fun _ st => Dep_target st = t0 /\ targetStack st = s0).
  { by apply hoare_modify. }
  intros _. apply hoare_bind with (Q1 := fun _ => J).
  { apply hoare_modify. intros st [<- <-]. done. }
  intros _. apply hoare_bind with (Q1 := fun _ => J); [apply keeps_the|].
  intros i. apply hoare_bind with (Q1 := fun _ => J).
  { destruct (opt_hooks i !! hook); [|apply keeps_ret].
    apply keeps_for_each. intros h _. by apply keeps_on_bus_user. }
  intros _. apply hoare_bind with (Q1 := fun _ => J); [apply keeps_the|].
  intros i'. apply hoare_bind with (Q1 := fun _ => J).
  { apply keeps_when. by apply keeps_on_bus_user. }
  intros _. apply hoare_modify. intros st [H1 H2]. by rewrite H2.
Qed.

Lemma hoare_any {A} P (m : M A) : hoare P m (fun _ _ => True) (fun _ => True).
Proof. intros st _. by destruct (m st). Qed.

Lemma hoare_pure {A} (phi : Prop) (m : M A) Q E :
  (phi -> hoare (fun _ => True) m Q E) -> hoare (fun _ => phi) m Q E.
Proof. intros H st Hphi. by apply H. Qed.

(** Whatever [patch] does, a normal exit of [_update] finds
    [activeInstance] as it was at entry. *)
Lemma update_restores vm vnode hydrating a0 :
  hoare (fun st => activeInstance st = a0)
    (_update patch vm vnode hydrating)
    (fun _ st => activeInstance st = a0)
    (fun _ => True).
Proof.
  set (J := fun st => activeInstance st = a0).
  assert (ignores_instances J) as HJ by (by intros st m).
  unfold _update.
  apply hoare_bind with (Q1 := fun _ => J); [apply keeps_the|]. intros i.
  apply hoare_bind with (Q1 := fun r _ => r = a0).
  { unfold setActiveInstance.
    apply hoare_bind with (Q1 := fun r _ => r = a0); [by apply hoare_read|].
    intros r. apply hoare_bind with (Q1 := fun _ _ => r = a0).
    - by apply hoare_modify.
    - intros _. by apply hoare_ret. }
  intros restore. apply hoare_pure. intros ->.
  apply hoare_bind with (Q1 := fun _ _ => True); [apply hoare_any|]. intros _.
  apply hoare_bind with (Q1 := fun _ _ => True); [apply hoare_any|]. intros el.
  apply hoare_bind with (Q1 := fun _ _ => True); [apply hoare_any|]. intros _.
  apply hoare_bind with (Q1 := fun _ => J); [by apply hoare_modify|]. intros _.
  apply hoare_bind with (Q1 := fun _ => J).
  { destruct (S_el i); [by apply keeps_modify|apply keeps_ret]. }
  intros _. apply hoare_bind with (Q1 := fun _ => J); [apply keeps_the|].
  intros i1. apply hoare_bind with (Q1 := fun _ => J).
  { destruct (S_el i1); [by apply keeps_modify|apply keeps_ret]. }
  intros _. destruct (S_vnode i1), (S_parent i1); try apply keeps_ret.
  apply hoare_bind with (Q1 := fun _ => J); [apply keeps_the|]. intros pi.
  apply keeps_when. by apply keeps_update.
Qed.

(** [_update] throws only out of [patch], which was entered with the
    updating instance in [activeInstance]; the state is then the one
    [patch] left. *)
Lemma update_throws vm vnode hydrating :
  hoare (fun _ => True)
    (_update patch vm vnode hydrating)
    (fun _ _ => True)
    (fun st' => exists args st1,
       activeInstance st1 = Some vm /\ patch vm args st1 = (st', PThrow)).
Proof.
  set (J := fun st => activeInstance st = Some vm).
  set (E := fun st' => exists args st1,
              activeInstance st1 = Some vm /\ patch vm args st1 = (st', PThrow)).
  assert (ignores_instances J) as HJ by (by intros st m).
  assert (forall args, hoare J (call_patch patch vm args) (fun _ _ => True) E) as Hp.
  { intros args st Hst. unfold call_patch.
    destruct (patch vm args (add_trace (TPatch vm args) st)) as [st' [el|]] eqn:Ep;
      [done|]. by exists args, (add_trace (TPatch vm args) st). }
  set (T := fun _ : world => True).
  assert (ignores_instances T) as HT by done.
  unfold _update.
  apply hoare_bind with (Q1 := fun _ _ => True); [by apply hoare_the|]. intros i.
  apply hoare_bind with (Q1 := fun _ => J).
  { unfold setActiveInstance.
    apply hoare_bind with (Q1 := fun _ _ => True); [by apply hoare_read|].
    intros r. apply hoare_bind with (Q1 := fun _ => J); [by apply hoare_modify|].
    intros _. by apply hoare_ret. }
  intros restore.
  apply hoare_bind with (Q1 := fun _ => J); [by apply keeps_update|]. intros _.
  apply hoare_bind with (Q1 := fun _ _ => True).
  { destruct (_vnode i); apply Hp. }
  intros el.
  apply hoare_bind with (Q1 := fun _ => T); [by apply keeps_update|]. intros _.
  apply hoare_bind with (Q1 := fun _ => T); [by apply keeps_modify|]. intros _.
  apply hoare_bind with (Q1 := fun _ => T).
  { destruct (S_el i); [by apply keeps_modify|apply keeps_ret]. }
  intros _. apply hoare_bind with (Q1 := fun _ => T); [apply keeps_the|].
  intros i1. apply hoare_bind with (Q1 := fun _ => T).
  { destruct (S_el i1); [by apply keeps_modify|apply keeps_ret]. }
  intros _. destruct (S_vnode i1), (S_parent i1); try apply keeps_ret.
  apply hoare_bind with (Q1 := fun _ => T); [apply keeps_the|]. intros pi.
  apply keeps_when. by apply keeps_update.
Qed.

(** C1, as the code has it: [_update] puts [activeInstance] back whenever
    [patch] returns, whatever [patch] did to it meanwhile, and when [patch]
    throws it leaves the process as [patch] left it; [callHook] puts the
    tracking slot and its saved values back on every exit, never throwing
    itself, since a throwing hook handler is caught where it is invoked. *)
Theorem slots_restored (vm : vmid) (st : world) :
  (forall vnode hydrating st',
     _update patch vm vnode hydrating st = Ok tt st' ->
     activeInstance st' = activeInstance st) /\
  (forall vnode hydrating st',
     _update patch vm vnode hydrating st = Exn st' ->
     exists args st1,
       activeInstance st1 = Some vm /\ patch vm args st1 = (st', PThrow)) /\
  (forall hook,
     match callHook fns efuel vm hook st with
     | Ok _ st' =>
         Dep_target st' = Dep_target st /\ targetStack st' = targetStack st
     | Exn _ => False
     | Stuck => True
     end).
Proof.
  split; [|split].
  - intros vnode hydrating st' H.
    pose proof (update_restores vm vnode hydrating (activeInstance st) st eq_refl) as Hr.
    by rewrite H in Hr.
  - intros vnode hydrating st' H.
    pose proof (update_throws vm vnode hydrating st I) as Hr.
    by rewrite H in Hr.
  - intros hook.
    pose proof (callHook_targets vm hook (Dep_target st) (targetStack st) st
                  (conj eq_refl eq_refl)) as Hr.
    by destruct (callHook fns efuel vm hook st).
Qed.

(** ** Activation and deactivation *)

(** A tree of instances without hook handlers and [hook:] listeners:
    children are there and lower, parents are there and less deep. *)
Definition shaped (height depth : vmid -> nat) (s : world) : Prop :=
  forall v x, instances s !! v = Some x ->
    opt_hooks x = ∅ /\ Events._hasHookEvent (events x) = false /\
    (forall c, c ∈ S_children x -> height c < height v /\ is_Some (instances s !! c)) /\
    (forall q, S_parent x = Some q -> depth q < depth v /\ is_Some (instances s !! q)).

Lemma shaped_update height depth v f s :
  (forall x, opt_hooks (f x) = opt_hooks x) ->
  (forall x, Events._hasHookEvent (events (f x)) = Events._hasHookEvent (events x)) ->
  (forall x, S_children (f x) = S_children x) ->
  (forall x, S_parent (f x) = S_parent x) ->
  shaped height depth s ->
  shaped height depth (set_instances (alter f v (instances s)) s).
Proof.
  intros Hh He Hc Hp Hs.
  assert (forall k, is_Some (instances s !! k) ->
            is_Some (alter f v (instances s) !! k)) as Hdom.
  { intros k [y Hy]. destruct (decide (v = k)) as [->|Hne].
    - rewrite lookup_alter_eq, Hy. by eexists.
    - rewrite lookup_alter_ne by done. by eexists. }
  intros u x. simpl. destruct (decide (v = u)) as [->|Hne].
  - rewrite lookup_alter_eq. destruct (instances s !! u) as [y|] eqn:Ey; [|done].
    intros [= <-]. destruct (Hs u y Ey) as (H1 & H2 & H3 & H4).
    rewrite Hh, He, Hc, Hp. split; [done|]. split; [done|]. split.
    + intros c Hin. destruct (H3 c Hin). split; [done|by apply Hdom].
    + intros q Hq. destruct (H4 q Hq). split; [done|by apply Hdom].
  - rewrite lookup_alter_ne by done. intros Hx.
    destruct (Hs u x Hx) as (H1 & H2 & H3 & H4).
    split; [done|]. split; [done|]. split.
    + intros c Hin. destruct (H3 c Hin). split; [done|by apply Hdom].
    + intros q Hq. destruct (H4 q Hq). split; [done|by apply Hdom].
Qed.

Section Shaped.
Variables height depth : vmid -> nat.

(** The tree is [shaped] and the instances of [D] are there. *)
Definition standing (D : vmid -> Prop) (s : world) : Prop :=
  shaped height depth s /\ forall k, D k -> is_Some (instances s !! k).

Lemma standing_same D s s' :
  instances s' = instances s -> standing D s -> standing D s'.
Proof.
  intros Heq [Hs Hd]. split.
  - intros v x. rewrite Heq. intros Hx.
    by destruct (Hs v x Hx) as (H1 & H2 & H3 & H4).
  - intros k Hk. rewrite Heq. by apply Hd.
Qed.

Lemma standing_alter D v f s :
  (forall x, opt_hooks (f x) = opt_hooks x) ->
  (forall x, Events._hasHookEvent (events (f x)) = Events._hasHookEvent (events x)) ->
  (forall x, S_children (f x) = S_children x) ->
  (forall x, S_parent (f x) = S_parent x) ->
  standing D s -> standing D (set_instances (alter f v (instances s)) s).
Proof.
  intros Hh He Hc Hp [Hs Hd]. split.
  - by apply shaped_update.
  - intros k Hk. destruct (Hd k Hk) as [y Hy]. simpl.
    destruct (decide (v = k)) as [->|Hne].
    + rewrite lookup_alter_eq, Hy. by eexists.
    + rewrite lookup_alter_ne by done. by eexists.
Qed.

(** An assertion on the instances that writes to fields other than
    [$children] keep. *)
Definition children_only (I : world -> Prop) : Prop :=
  (forall s s', instances s' = instances s -> I s -> I s') /\
  (forall s v f, (forall x, S_children (f x) = S_children x) -> I s ->
     I (set_instances (alter f v (instances s)) s)).

Lemma children_only_true : children_only (fun _ => True).
Proof. by split. Qed.

Lemma children_only_kin I vm l :
  children_only I -> children_only (fun s => I s /\ kin vm l s).
Proof.
  intros [H1 H2]. split.
  - intros s s' Heq [HI Hk]. split; [by apply (H1 s)|].
    unfold kin, holds_at. by rewrite Heq.
  - intros s v f Hf [HI (x & Hx & Hc)]. split; [by apply H2|].
    unfold kin, holds_at. simpl. destruct (decide (v = vm)) as [->|Hne].
    + exists (f x). rewrite lookup_alter_eq, Hx. split; [done|]. by rewrite Hf.
    + exists x. by rewrite lookup_alter_ne.
Qed.

(** The walk up the parents ends within [depth vm] links. *)
Lemma isInInactiveTree_returns (P : world -> Prop) D n vm :
  (forall s, P s -> standing D s) -> D vm -> depth vm < n ->
  returns P (isInInactiveTree n vm) (fun _ => P).
Proof.
  intros HP Hvm Hn s Hs. destruct (HP s Hs) as [Hsh Hd].
  assert (exists b, isInInactiveTree n vm s = Ok b s) as [b Hb].
  { destruct (Hd vm Hvm) as [x Hx]. clear Hvm Hd.
    revert vm x Hx Hn. induction n as [|n IH]; intros vm x Hx Hn; [lia|].
    simpl. unfold bind, the. rewrite Hx.
    destruct (S_parent x) as [p|] eqn:Ep; [|by eexists].
    destruct (Hsh vm x Hx) as (_ & _ & _ & Hp).
    destruct (Hp p Ep) as [Hlt [y Hy]]. rewrite Hy.
    destruct (truthy (_inactive y)); [by eexists|].
    apply (IH p y Hy). lia. }
  exists b, s. by rewrite Hb.
Qed.

(** Activation returns on a tree without hooks, given fuel above the
    height of [vm] and, for a direct call, above its depth. *)
Lemma activate_returns n : forall (I : world -> Prop) D vm direct,
  children_only I ->
  D vm -> height vm < n -> (direct = true -> depth vm < n) ->
  returns (fun s => standing D s /\ I s)
    (activateChildComponent fns efuel n vm direct)
    (fun _ s => standing D s /\ I s).
Proof.
  induction n as [|n IH]; intros I D vm direct HI Hvm Hh Hdp; [lia|].
  cbn [activateChildComponent].
  set (P := fun s => standing D s /\ I s).
  assert (forall v f,
    (forall x, opt_hooks (f x) = opt_hooks x) ->
    (forall x, Events._hasHookEvent (events (f x))
               = Events._hasHookEvent (events x)) ->
    (forall x, S_children (f x) = S_children x) ->
    (forall x, S_parent (f x) = S_parent x) ->
    forall s, P s -> P (set_instances (alter f v (instances s)) s)) as Hupd.
  { intros v f H1 H2 H3 H4 s [HS HIs]. split; [by apply standing_alter|].
    by apply (proj2 HI). }
  apply returns_bind with (Q1 := fun _ => P).
  { destruct direct.
    - apply returns_bind with (Q1 := fun _ => P).
      + apply returns_modify. intros s. by apply Hupd.
      + intros _. apply (isInInactiveTree_returns P D); [by intros s []|done|].
        by apply Hdp.
    - apply returns_bind with (Q1 := fun _ => P).
      + apply returns_the. intros s Hs. destruct (proj2 (proj1 Hs) vm Hvm) as [x Hx].
        by exists x.
      + intros x. by apply returns_ret. }
  intros [|]; [by apply returns_ret|].
  apply returns_bind with (Q1 := fun i s => P s /\ instances s !! vm = Some i).
  { apply returns_the. intros s Hs. destruct (proj2 (proj1 Hs) vm Hvm) as [x Hx].
    by exists x. }
  intros i.
  set (D' := fun k => D k \/ k ∈ S_children i).
  set (J := fun s => standing D' s /\ I s /\ kin vm (S_children i) s).
  unfold when. destruct (match _inactive i with TFalse => false | _ => true end);
    [|apply returns_ret; by intros s [H _]].
  apply returns_bind with (Q1 := fun _ => J).
  { apply returns_modify. intros s [[HS HIs] Hi].
    pose proof (Hupd vm (with_inactive TFalse) (fun _ => eq_refl) (fun _ => eq_refl)
                  (fun _ => eq_refl) (fun _ => eq_refl) s (conj HS HIs))
      as [[Hs' Hd'] HI'].
    assert (alter (with_inactive TFalse) vm (instances s) !! vm
            = Some (with_inactive TFalse i)) as Hi'.
    { by rewrite lookup_alter_eq, Hi. }
    split; [|split; [done|by eexists]]. split; [done|].
    intros k [Hk|Hk]; [by apply Hd'|].
    destruct (Hs' vm _ Hi') as (_ & _ & Hc & _). by apply Hc. }
  intros _. apply returns_bind with (Q1 := fun _ => P).
  - apply returns_conseq with (P' := J) (Q' := fun _ => J); [|done|].
    + apply (returns_children_loop (fun _ => J) _ vm (S_children i));
        [by intros rest s (_ & _ & Hk)| |lia].
      intros done c rest Hl s Hs.
      assert (c ∈ S_children i) as Hin.
      { rewrite Hl, elem_of_app, elem_of_cons. by right; left. }
      assert (height c < n) as Hlow.
      { destruct Hs as ([Hsh _] & _ & x & Hx & Hc).
        destruct (Hsh vm x Hx) as (_ & _ & H3 & _). rewrite Hc in H3.
        destruct (H3 c Hin). lia. }
      destruct (IH (fun s => I s /\ kin vm (S_children i) s) D' c false
                  (children_only_kin I vm _ HI) (or_intror Hin) Hlow
                  ltac:(done) s) as (u & s' & Hrun & Hs').
      * destruct Hs as (? & ? & ?). split; [done|by split].
      * exists u, s'. split; [done|]. destruct Hs' as (? & ? & ?). by split.
    + intros _ s ([Hs Hd] & HIs & _). split; [|done]. split; [done|].
      intros k Hk. apply Hd. by left.
  - intros _. apply callHook_returns.
    + intros s s' Heq [HS HIs]. split; [by apply (standing_same D s)|].
      by apply (proj1 HI s).
    + intros s [[Hs Hd] _]. destruct (Hd vm Hvm) as [x Hx]. exists x.
      destruct (Hs vm x Hx) as (H1 & H2 & _). done.
Qed.

End Shaped.

Lemma keeps_isInInactiveTree I E n vm : keeps I E (isInInactiveTree n vm).
Proof.
  revert vm. induction n as [|n IH]; intros vm; simpl; [apply keeps_stuck|].
  apply keeps_bind; [apply keeps_the|]. intros i.
  destruct (S_parent i) as [p|]; [|apply keeps_ret].
  apply keeps_bind; [apply keeps_the|]. intros pi.
  destruct (truthy (_inactive pi)); [apply keeps_ret|apply IH].
Qed.

Section Sticky.

(** The instance that was deactivated on its own. *)
Variable c : vmid.

(** [c] is flagged as directly deactivated. *)
Definition flagged (st : world) : Prop :=
  exists i, instances st !! c = Some i /\ _directInactive i = true.

(** [c] is exactly [ic], and since [st0] no [activated] hook of [c] has
    fired. *)
Definition untouched (ic : instance) (st0 st : world) : Prop :=
  instances st !! c = Some ic /\
  exists new, trace st = trace st0 ++ new /\ THook c "activated" ∉ new.

Lemma flagged_update vm f st :
  (forall i, _directInactive (f i) = _directInactive i) ->
  flagged st -> flagged (set_instances (alter f vm (instances st)) st).
Proof.
  intros Hf (i & Hi & Hd). unfold flagged. simpl.
  destruct (decide (vm = c)) as [->|Hne].
  - exists (f i). rewrite lookup_alter_eq, Hi. split; [done|]. by rewrite Hf.
  - exists i. by rewrite lookup_alter_ne.
Qed.

Lemma flagged_update_other vm f st :
  vm <> c -> flagged st -> flagged (set_instances (alter f vm (instances st)) st).
Proof.
  intros Hne (i & Hi & Hd). exists i. simpl. by rewrite lookup_alter_ne.
Qed.

Lemma keeps_flagged_on_bus E vm f : keeps flagged E (on_bus_user vm f).
Proof.
  apply hoare_on_bus_user.
  - intros st b. by apply flagged_update.
  - by intros g s s' [= <-].
Qed.

Lemma keeps_flagged_callHook E vm hook : keeps flagged E (callHook fns efuel vm hook).
Proof.
  unfold callHook.
  apply keeps_bind; [by apply keeps_modify|]. intros _.
  apply keeps_bind; [by apply keeps_modify|]. intros _.
  apply keeps_bind; [apply keeps_the|]. intros i.
  apply keeps_bind.
  { destruct (opt_hooks i !! hook); [|apply keeps_ret].
    apply keeps_for_each. intros h _. apply keeps_flagged_on_bus. }
  intros _. apply keeps_bind; [apply keeps_the|]. intros i'.
  apply keeps_bind; [apply keeps_when, keeps_flagged_on_bus|]. intros _.
  apply keeps_modify. intros st H. by destruct (targetStack st).
Qed.

(** Deactivating through an ancestor, or directly another instance, leaves
    the flag of [c] set. *)
Lemma keeps_flagged_deactivate E n vm direct :
  (direct = true -> vm <> c) ->
  keeps flagged E (deactivateChildComponent fns efuel n vm direct).
Proof.
  revert vm direct. induction n as [|n IH]; intros vm direct Hd;
    cbn [deactivateChildComponent activateChildComponent]; [apply keeps_stuck|].
  apply keeps_bind.
  { destruct direct; [|apply keeps_ret].
    apply keeps_bind; [|intros _; apply (keeps_isInInactiveTree _ _ (S n))].
    apply keeps_modify. intros st. apply flagged_update_other. by apply Hd. }
  intros [|]; [apply keeps_ret|].
  apply keeps_bind; [apply keeps_the|]. intros i. apply keeps_when.
  apply keeps_bind; [apply keeps_modify; intros st; by apply flagged_update|].
  intros _. apply keeps_bind; [|intros _; apply keeps_flagged_callHook].
  apply keeps_children_loop. intros x. by apply IH.
Qed.

(** Deactivating [c] directly sets its flag. *)
Lemma deactivate_direct_flags n :
  hoare (fun _ => True) (deactivateChildComponent fns efuel n c true)
    (fun _ => flagged) (fun _ => False).
Proof.
  destruct n as [|n]; cbn [deactivateChildComponent]; [by intros st _|].
  apply hoare_bind with (Q1 := fun _ => flagged).
  { apply hoare_bind with (Q1 := fun _ st =>
      forall i, instances st !! c = Some i -> _directInactive i = true).
    - apply hoare_modify. intros st _ i. simpl. rewrite lookup_alter_eq.
      destruct (instances st !! c); [|done]. by intros [= <-].
    - intros _. change (isInInactiveTree (S n) c) with
        (do i <- the c;
         match S_parent i with
         | None => ret false
         | Some p =>
             do pi <- the p;
             if truthy (_inactive pi) then ret true else isInInactiveTree n p
         end).
      apply hoare_bind with (Q1 := fun _ => flagged).
      + apply hoare_the. intros st i H Hi. exists i. split; [done|]. by apply H.
      + intros i. destruct (S_parent i); [|apply keeps_ret].
        apply keeps_bind; [apply keeps_the|]. intros pi.
        destruct (truthy (_inactive pi)); [apply keeps_ret|].
        apply keeps_isInInactiveTree. }
  intros [|]; [apply keeps_ret|].
  apply keeps_bind; [apply keeps_the|]. intros i. apply keeps_when.
  apply keeps_bind; [apply keeps_modify; intros st; by apply flagged_update|].
  intros _. apply keeps_bind; [|intros _; apply keeps_flagged_callHook].
  apply keeps_children_loop. intros x. by apply keeps_flagged_deactivate.
Qed.

Variable ic : instance.
Variable st0 : world.

Lemma untouched_update vm f st :
  vm <> c -> untouched ic st0 st ->
  untouched ic st0 (set_instances (alter f vm (instances st)) st).
Proof.
  intros Hne [Hi Ht]. split; [|exact Ht]. simpl. by rewrite lookup_alter_ne.
Qed.

Lemma untouched_add_trace e st :
  e <> THook c "activated" -> untouched ic st0 st ->
  untouched ic st0 (add_trace e st).
Proof.
  intros He [Hi (new & Ht & Hn)]. split; [exact Hi|].
  exists (new ++ [e]). simpl. rewrite Ht, app_assoc. split; [done|].
  rewrite elem_of_app, list_elem_of_singleton. intros [H|H]; [done|congruence].
Qed.

Lemma keeps_untouched_on_bus E vm f :
  vm <> c -> keeps (untouched ic st0) E (on_bus_user vm f).
Proof.
  intros Hne. apply hoare_on_bus_user.
  - intros st b. by apply untouched_update.
  - by intros g s s' [= <-].
Qed.

Lemma keeps_untouched_callHook E vm hook :
  vm <> c -> keeps (untouched ic st0) E (callHook fns efuel vm hook).
Proof.
  intros Hne. unfold callHook.
  apply keeps_bind.
  { apply keeps_modify. intros st. apply untouched_add_trace. congruence. }
  intros _. apply keeps_bind; [by apply keeps_modify|]. intros _.
  apply keeps_bind; [apply keeps_the|]. intros i.
  apply keeps_bind.
  { destruct (opt_hooks i !! hook); [|apply keeps_ret].
    apply keeps_for_each. intros h _. by apply keeps_untouched_on_bus. }
  intros _. apply keeps_bind; [apply keeps_the|]. intros i'.
  apply keeps_bind; [by apply keeps_when, keeps_untouched_on_bus|]. intros _.
  apply keeps_modify. intros st H. by destruct (targetStack st).
Qed.

Hypothesis ic_flagged : _directInactive ic = true.

(** Activation stops at [c] when it arrives there from an ancestor. *)
Lemma keeps_untouched_activate E n vm direct :
  (direct = true -> vm <> c) ->
  keeps (untouched ic st0) E (activateChildComponent fns efuel n vm direct).
Proof.
  revert vm direct. induction n as [|n IH]; intros vm direct Hd;
    cbn [deactivateChildComponent activateChildComponent]; [apply keeps_stuck|].
  apply hoare_bind
    with (Q1 := fun stop st => untouched ic st0 st /\ (stop = false -> vm <> c)).
  { destruct direct.
    - apply hoare_bind with (Q1 := fun _ => untouched ic st0).
      + apply keeps_modify. intros st. apply untouched_update. by apply Hd.
      + intros _. eapply hoare_conseq;
          [apply (keeps_isInInactiveTree (untouched ic st0) E (S n))|done| |done].
        intros a st H. split; [done|]. intros _. by apply Hd.
    - apply hoare_bind
        with (Q1 := fun i st => untouched ic st0 st /\ (vm = c -> i = ic)).
      + apply hoare_the. intros st i H Hi. split; [done|].
        intros ->. destruct H as [H _]. congruence.
      + intros i. apply hoare_ret. intros st [H Hi]. split; [done|].
        intros Hs ->. rewrite (Hi eq_refl) in Hs. congruence. }
  intros [|].
  - apply hoare_ret. by intros st [H _].
  - apply hoare_conseq with (P' := fun st => untouched ic st0 st /\ vm <> c)
      (Q' := fun _ => untouched ic st0) (E' := E);
      [|intros st [Hu Hn]; split; [done|by apply Hn]|done|done].
    apply hoare_bind with (Q1 := fun _ st => untouched ic st0 st /\ vm <> c).
    { apply hoare_the. by intros st i H _. }
    intros i st [Hst Hne]. revert st Hst.
    change (keeps (untouched ic st0) E
      (when (match _inactive i with TFalse => false | _ => true end)
         (run update vm (with_inactive TFalse);
          run children_loop
                (fun c0 => activateChildComponent fns efuel n c0 false)
                (S (length (S_children i) + n)) vm 0;
          callHook fns efuel vm "activated"))).
    apply keeps_when.
    apply keeps_bind; [apply keeps_modify; intros st; by apply untouched_update|].
    intros _. apply keeps_bind; [|intros _; by apply keeps_untouched_callHook].
    apply keeps_children_loop. intros x. by apply IH.
Qed.

End Sticky.

(** C6: an instance [c] deactivated directly, and then again through the
    deactivation of another instance [a], carries [_directInactive]; when
    it is inactive at that point, reactivating [a] directly leaves [c]
    exactly as it was, [_inactive] still true, and fires no [activated]
    hook of [c].  The reactivation returns when the tree carries no hook
    handlers and the nesting bound exceeds the height and depth of [a]. *)
Theorem direct_deactivation_is_sticky (n1 n2 n3 : nat) (a c : vmid)
    (st0 st1 st2 : world) (ic : instance) :
  a <> c ->
  deactivateChildComponent fns efuel n1 c true st0 = Ok tt st1 ->
  deactivateChildComponent fns efuel n2 a true st1 = Ok tt st2 ->
  instances st2 !! c = Some ic ->
  _inactive ic = TTrue ->
  _directInactive ic = true /\
  match activateChildComponent fns efuel n3 a true st2 with
  | Ok _ st3 =>
      instances st3 !! c = Some ic /\
      exists new, trace st3 = trace st2 ++ new /\ THook c "activated" ∉ new
  | Exn _ => False
  | Stuck => True
  end /\
  (forall height depth,
     shaped height depth st2 -> is_Some (instances st2 !! a) ->
     height a < n3 -> depth a < n3 ->
     exists st3, activateChildComponent fns efuel n3 a true st2 = Ok tt st3).
Proof.
  intros Hne H1 H2 Hic Hin.
  assert (_directInactive ic = true) as Hfl.
  { pose proof (deactivate_direct_flags c n1 st0 I) as Hf1. rewrite H1 in Hf1.
    pose proof (keeps_flagged_deactivate c (fun _ => False) n2 a true
                  (fun _ => Hne) st1 Hf1) as Hf2.
    rewrite H2 in Hf2. destruct Hf2 as (i & Hi & Hd). congruence. }
  split; [exact Hfl|]. split; cycle 1.
  { intros height depth Hsh Ha Hh Hd.
    destruct (activate_returns height depth n3 (fun _ => True) (fun k => k = a)
                a true (children_only_true) eq_refl Hh (fun _ => Hd) st2)
      as ([] & st3 & H & _).
    - split; [|done]. split; [done|]. by intros k ->.
    - by exists st3. }
  assert (untouched c ic st2 st2) as Hu.
  { split; [done|]. exists []. split; [by rewrite app_nil_r|].
    intros H. by apply elem_of_nil in H. }
  pose proof (keeps_untouched_activate c ic st2 Hfl (fun _ => False) n3 a true
                (fun _ => Hne) st2 Hu) as H3.
  by destruct (activateChildComponent fns efuel n3 a true st2).
Qed.

(** ** Destruction *)

(** The dependency graph links both ways: a computation subscribed to a
    cell is active and lists the cell among its dependencies. *)
Definition graph_wf (st : world) : Prop :=
  forall c w, w ∈ notified c st ->
    exists x, watchers st !! w = Some x /\ w_active x = true /\ c ∈ w_deps x.

(** No cell write reaches [w]. *)
Definition unsubscribed (w : wid) (st : world) : Prop :=
  forall c, w ∉ notified c st.

Lemma filter_idem {A} (f : A -> bool) (l : list A) :
  List.filter f (List.filter f l) = List.filter f l.
Proof.
  induction l as [|x l IH]; [done|]. cbn [List.filter].
  destruct (f x) eqn:E; [|done]. cbn [List.filter]. by rewrite E, IH.
Qed.

Lemma lookup_unsubscribe w (ds : list cellid) (ss : gmap cellid (list wid)) c :
  foldr (fun d m => alter (List.filter (fun v => negb (v =? w))) d m) ss ds !! c
  = if bool_decide (c ∈ ds)
    then List.filter (fun v => negb (v =? w)) <$> ss !! c
    else ss !! c.
Proof.
  induction ds as [|d ds IH]; cbn [foldr]; [done|].
  destruct (decide (d = c)) as [->|Hne].
  - rewrite lookup_alter_eq, IH. rewrite (bool_decide_eq_true_2 (c ∈ c :: ds))
      by apply list_elem_of_here.
    case_bool_decide; [|done]. destruct (ss !! c) as [l|]; simpl; [|done].
    f_equal. apply filter_idem.
  - rewrite lookup_alter_ne, IH by done.
    assert (c ∈ d :: ds <-> c ∈ ds) as Hiff.
    { rewrite elem_of_cons. split; [intros [?|?]; [congruence|done]|by right]. }
    by rewrite (bool_decide_ext _ _ Hiff).
Qed.

Lemma elem_of_filter_neq (w v : wid) (l : list wid) :
  v ∈ List.filter (fun u => negb (u =? w)) l <-> v ∈ l /\ v <> w.
Proof.
  rewrite !list_elem_of_In, List.filter_In, Bool.negb_true_iff, Nat.eqb_neq.
  done.
Qed.

(** What [teardown] does to the subscriptions. *)
Lemma teardown_effect w st :
  graph_wf st ->
  match teardown w st with
  | Ok _ st' =>
      graph_wf st' /\ unsubscribed w st' /\
      (forall c v, v ∈ notified c st' -> v ∈ notified c st) /\
      instances st' = instances st /\
      (trace st' = trace st \/ trace st' = trace st ++ [TTeardown w])
  | _ => False
  end.
Proof.
  intros Hwf. unfold teardown, modify.
  destruct (watchers st !! w) as [x|] eqn:Ew.
  - destruct (w_active x) eqn:Ea.
    + assert (forall c v, v ∈ notified c
               (add_trace (TTeardown w)
                  (set_graph (<[w:=Watcher false (w_deps x)]> (watchers st))
                     (foldr (fun d m => alter (List.filter (fun v => negb (v =? w))) d m)
                        (subs st) (w_deps x)) st)) ->
               v ∈ notified c st /\ (c ∈ w_deps x -> v <> w)) as Hsub.
      { intros c v. unfold notified. simpl. rewrite lookup_unsubscribe.
        case_bool_decide as Hc.
        - destruct (subs st !! c) as [l|]; simpl; [|by intros H; apply elem_of_nil in H].
          rewrite elem_of_filter_neq. intros [Hv Hne]. split; [done|]. by intros _.
        - intros Hv. split; [done|]. intros Hd. by destruct Hc. }
      split; [|split; [|split; [|split]]].
      * intros c v Hv. apply Hsub in Hv as [Hv Hne].
        destruct (Hwf c v Hv) as (y & Hy & Hact & Hdep). simpl.
        destruct (decide (v = w)) as [->|Hvw].
        -- exfalso. apply Hne; [|done]. congruence.
        -- exists y. by rewrite lookup_insert_ne.
      * intros c Hv. apply Hsub in Hv as [Hv Hne].
        destruct (Hwf c w Hv) as (y & Hy & Hact & Hdep).
        apply Hne; [congruence|done].
      * intros c v Hv. by apply Hsub in Hv as [Hv _].
      * done.
      * by right.
    + split; [done|]. split; [|by auto].
      intros c Hc. destruct (Hwf c w Hc) as (y & Hy & Hact & _). congruence.
  - split; [done|]. split; [|by auto].
    intros c Hc. destruct (Hwf c w Hc) as (y & Hy & _). congruence.
Qed.

Lemma remove_not_in (l : list vmid) (v : vmid) : NoDup l -> v ∉ remove l v.
Proof.
  induction 1 as [|x l Hx Hnd IH]; simpl; [by intros H; apply elem_of_nil in H|].
  destruct (x =? v) eqn:E.
  - apply Nat.eqb_eq in E as ->. done.
  - apply Nat.eqb_neq in E. rewrite elem_of_cons. intros [?|?]; [congruence|done].
Qed.

(** [callHook] appends its trace entry, saves and restores the tracking
    slot, and rewrites the event side of [vm]; an assertion closed under
    these three is carried across it. *)
Lemma hoare_callHook (I I' : world -> Prop) vm hook E :
  (forall s, I s -> I' (add_trace (THook vm hook) s)) ->
  (forall s t k, I' s -> I' (set_targets t k s)) ->
  (forall s b, I' s ->
     I' (set_instances (alter (with_events b) vm (instances s)) s)) ->
  hoare I (callHook fns efuel vm hook) (fun _ => I') E.
Proof.
  intros Htr Htg Hev. apply hoare_callHook_user; [done..|].
  by intros g s s' [= <-].
Qed.

Definition is_teardown (e : tentry) : Prop :=
  match e with
  | TTeardown _ => True
  | _ => False
  end.

(** The fields of an instance that [$destroy] reads and nothing in it
    writes. *)
Definition static (i x : instance) : Prop :=
  S_parent x = S_parent i /\ opt_abstract x = opt_abstract i /\
  _watcher x = _watcher i /\ _watchers x = _watchers i /\
  _vnode x = _vnode i /\ data_ob x = data_ob i.

(** The computations an instance owns: its render watcher and those in
    [_watchers]. *)
Definition owns (i : instance) (w : wid) : Prop :=
  _watcher i = Some w \/ w ∈ _watchers i.

(** [vm] is not among the children of [p]. *)
Definition detached (vm p : vmid) (st : world) : Prop :=
  forall x, instances st !! p = Some x -> vm ∉ S_children x.

(** What [patch] may do when it is handed an empty target tree: it attaches
    no instance to a parent, subscribes no computation, and only adds to
    the trace. *)
Definition tears_down_only : Prop :=
  forall vm old st st' r,
    patch vm (Patch2 old None) st = (st', r) ->
    (forall j x', instances st' !! j = Some x' ->
       exists x, instances st !! j = Some x /\
                 forall k, k ∈ S_children x' -> k ∈ S_children x) /\
    (forall c w, w ∈ notified c st' -> w ∈ notified c st) /\
    (exists new, trace st' = trace st ++ new).

Section Destroy.

Variables (vm p : vmid) (i pi : instance) (st0 : world).

Hypothesis p_not_vm : p <> vm.

(** Up to the final patch: [vm] keeps its static fields, [p] is as it was
    or (once that step is done) no longer has [vm] among its children, the
    graph is well formed, the watchers in [ws] are unsubscribed, and the
    trace grew by [t]. *)
Definition tearing (det : bool) (ws : list wid) (t : list tentry) (s : world) : Prop :=
  (exists x, instances s !! vm = Some x /\ static i x) /\
  (if det then detached vm p s else instances s !! p = Some pi) /\
  graph_wf s /\
  (forall w, w ∈ ws -> unsubscribed w s) /\
  trace s = trace st0 ++ t.

(** The same once watchers are being torn down: the trace grew by [t] and
    then by teardown entries. *)
Definition torn (ws : list wid) (t : list tentry) (s : world) : Prop :=
  exists t', Forall is_teardown t' /\ tearing true ws (t ++ t') s.

Lemma tearing_update_vm det ws t s f :
  (forall x, static i x -> static i (f x)) ->
  tearing det ws t s ->
  tearing det ws t (set_instances (alter f vm (instances s)) s).
Proof.
  intros Hf ((x & Hx & Hs) & Hd & Hg & Hw & Ht).
  split; [|split; [|by split]].
  - simpl. exists (f x). rewrite lookup_alter_eq, Hx. split; [done|by apply Hf].
  - destruct det.
    + intros y. simpl. rewrite lookup_alter_ne by done. apply Hd.
    + simpl. by rewrite lookup_alter_ne.
Qed.

Lemma tearing_callHook det ws t hook E :
  hoare (tearing det ws t) (callHook fns efuel vm hook)
    (fun _ => tearing det ws (t ++ [THook vm hook])) E.
Proof.
  apply hoare_callHook.
  - intros s (Hx & Hd & Hg & Hw & Ht).
    split; [done|]. split; [by destruct det|]. split; [done|]. split; [done|].
    simpl. by rewrite Ht, app_assoc.
  - intros s tg k (Hx & Hd & Hg & Hw & Ht). split; [done|].
    split; [by destruct det|]. by split.
  - intros s b. by apply tearing_update_vm.
Qed.

Lemma torn_update_vm ws t s f :
  (forall x, static i x -> static i (f x)) ->
  torn ws t s -> torn ws t (set_instances (alter f vm (instances s)) s).
Proof. intros Hf (t' & Ht' & H). exists t'. split; [done|]. by apply tearing_update_vm. Qed.

Lemma torn_teardown ws t w E :
  hoare (torn ws t) (teardown w) (fun _ => torn (w :: ws) t) E.
Proof.
  intros s (t' & Ht' & Hx & Hd & Hg & Hw & Ht).
  pose proof (teardown_effect w s Hg) as He.
  destruct (teardown w s) as [u s'| |]; [|by destruct He|exact I].
  destruct He as (Hg' & Hu & Hsub & Hi & Htr).
  destruct Htr as [Htr|Htr].
  - exists t'. split; [done|]. split; [by rewrite Hi|].
    split; [intros y; rewrite Hi; apply Hd|]. split; [done|]. split; [|congruence].
    intros v Hv c Hc. apply elem_of_cons in Hv as [->|Hv]; [by apply (Hu c)|].
    apply (Hw v Hv c). by apply Hsub.
  - exists (t' ++ [TTeardown w]). split.
    { apply Forall_app. split; [done|]. by repeat constructor. }
    split; [by rewrite Hi|].
    split; [intros y; rewrite Hi; apply Hd|]. split; [done|]. split.
    + intros v Hv c Hc. apply elem_of_cons in Hv as [->|Hv]; [by apply (Hu c)|].
      apply (Hw v Hv c). by apply Hsub.
    + rewrite Htr, Ht. by rewrite <- !app_assoc.
Qed.

Lemma torn_for_each ws t l E :
  hoare (torn ws t) (for_each l teardown) (fun _ => torn (rev l ++ ws) t) E.
Proof.
  revert ws. induction l as [|w l IH]; intros ws; simpl.
  - by apply hoare_ret.
  - apply hoare_bind with (Q1 := fun _ => torn (w :: ws) t);
      [apply torn_teardown|]. intros _.
    eapply hoare_conseq; [apply IH|done| |done].
    intros u s. by rewrite <- app_assoc.
Qed.

(** After the final patch: [vm] is detached, the watchers in [ws] are
    unsubscribed, and the trace shows [beforeDestroy], teardowns, the patch
    call with an empty target, what [patch] added, and then [u]. *)
Definition patched (ws : list wid) (u : list tentry) (s : world) : Prop :=
  detached vm p s /\
  (forall w, w ∈ ws -> unsubscribed w s) /\
  exists t1 t2, Forall is_teardown t1 /\
    trace s = trace st0 ++ [THook vm "beforeDestroy"] ++ t1 ++
              [TPatch vm (Patch2 (_vnode i) None)] ++ t2 ++ u.

(** [vm] has no event subscription left. *)
Definition cleared (s : world) : Prop :=
  exists x, instances s !! vm = Some x /\ Events._events (events x) = ∅.

Lemma static_refl : static i i.
Proof. by repeat split. Qed.

Lemma tearing_torn ws t s : tearing true ws t s -> torn ws t s.
Proof. intros H. exists []. split; [done|]. by rewrite app_nil_r. Qed.

Lemma patched_instances ws u s f :
  patched ws u s -> patched ws u (set_instances (alter f vm (instances s)) s).
Proof.
  intros (Hd & Hw & Ht). split; [|by split].
  intros y. simpl. rewrite lookup_alter_ne by done. apply Hd.
Qed.

Hypothesis vm_there : instances st0 !! vm = Some i.
Hypothesis vm_parent : S_parent i = Some p.
Hypothesis p_there : instances st0 !! p = Some pi.
Hypothesis p_children : NoDup (S_children pi).
Hypothesis vm_concrete : opt_abstract i = false.
Hypothesis p_alive : _isBeingDestroyed pi = false.
Hypothesis vm_alive : _isBeingDestroyed i = false.
Hypothesis graph_ok : graph_wf st0.
Hypothesis patch_ok : tears_down_only.

Lemma destroy_detaches t E :
  hoare (fun s => tearing false [] t s)
    (do pi' <- the p;
     when (negb (_isBeingDestroyed pi') && negb (opt_abstract i))
       (update p (fun x => with_children (remove (S_children x) vm) x)))
    (fun _ => tearing true [] t) E.
Proof.
  apply hoare_bind with (Q1 := fun x s => tearing false [] t s /\ x = pi).
  { apply hoare_the. intros s x H Hx. split; [done|].
    destruct H as (_ & Hp & _). congruence. }
  intros x'. apply hoare_conseq with (P' := fun s => x' = pi /\ tearing false [] t s)
    (Q' := fun _ => tearing true [] t) (E' := E); [|by intros s [? ?]|done..].
  intros s [-> H]. revert s H.
  rewrite p_alive, vm_concrete.
  change (hoare (tearing false [] t)
            (update p (fun x => with_children (remove (S_children x) vm) x))
            (fun _ => tearing true [] t) E).
  apply hoare_modify. intros s ((x & Hx & Hs) & Hp & Hg & Hw & Ht).
  split; [|split; [|by split]].
  - exists x. simpl. by rewrite lookup_alter_ne.
  - intros y. simpl. rewrite lookup_alter_eq, Hp. simpl. intros [= <-].
    simpl. by apply remove_not_in.
Qed.

Lemma destroy_patch ws :
  hoare (torn ws [THook vm "beforeDestroy"])
    (call_patch patch vm (Patch2 (_vnode i) None))
    (fun _ => patched ws []) (fun _ => True).
Proof.
  intros s (t' & Ht' & Hx & Hd & Hg & Hw & Ht). unfold call_patch.
  destruct (patch vm (Patch2 (_vnode i) None)
              (add_trace (TPatch vm (Patch2 (_vnode i) None)) s))
    as [s' r] eqn:Ep.
  destruct (patch_ok _ _ _ _ _ Ep) as (Hch & Hsub & new & Hnew).
  assert (patched ws [] s') as Hpd.
  { split; [|split].
    - intros y Hy k. destruct (Hch p y Hy) as (z & Hz & Hzy).
      simpl in Hz. apply (Hd z Hz). by apply Hzy.
    - intros w Hin c Hc. apply (Hw w Hin c). by apply Hsub in Hc.
    - exists t', new. split; [done|]. rewrite Hnew. simpl. rewrite Ht.
      by rewrite app_nil_r, <- !app_assoc. }
  by destruct r.
Qed.

(** [$destroy] on a live instance with a live parent. *)
Lemma destroy_effect :
  hoare (fun s => s = st0) (S_destroy fns patch efuel vm)
    (fun _ s =>
       patched (_watchers i ++ from_option (fun w => [w]) [] (_watcher i))
         [THook vm "destroyed"] s /\ cleared s)
    (fun _ => True).
Proof.
  set (T := [THook vm "beforeDestroy"]).
  set (W := _watchers i ++ from_option (fun w => [w]) [] (_watcher i)).
  set (ET := fun _ : world => True).
  assert (tearing false [] [] st0) as H0.
  { split; [exists i; split; [done|apply static_refl]|]. split; [done|].
    split; [done|]. split; [by intros w Hw; apply elem_of_nil in Hw|].
    by rewrite app_nil_r. }
  unfold S_destroy.
  apply hoare_bind with (Q1 := fun x s => x = i /\ tearing false [] [] s).
  { apply hoare_the. intros s x -> Hx. split; [congruence|done]. }
  intros x. apply hoare_conseq with (P' := fun s => x = i /\ tearing false [] [] s)
    (Q' := fun _ s => patched W [THook vm "destroyed"] s /\ cleared s) (E' := ET);
    [|done..].
  intros s [-> H]. revert s H. rewrite vm_alive.
  apply hoare_bind with (Q1 := fun _ => tearing false [] T);
    [apply (tearing_callHook false [] [] "beforeDestroy")|]. intros _.
  apply hoare_bind with (Q1 := fun _ => tearing false [] T).
  { apply keeps_modify. intros s. by apply tearing_update_vm. }
  intros _.
  apply hoare_bind with (Q1 := fun x s => static i x /\ tearing false [] T s).
  { apply hoare_the. intros s x H Hx. split; [|done].
    destruct H as ((y & Hy & Hs) & _). congruence. }
  intros i1. apply hoare_conseq
    with (P' := fun s => static i i1 /\ tearing false [] T s)
         (Q' := fun _ s => patched W [THook vm "destroyed"] s /\ cleared s)
         (E' := ET); [|done..].
  intros s [(Hpar & Habs & Hw1 & Hws & Hvn & Hob) H]. revert s H.
  rewrite Hpar, vm_parent, Habs, Hw1, Hws, Hob.
  apply hoare_bind with (Q1 := fun _ => torn [] T).
  { eapply hoare_conseq; [apply (destroy_detaches T ET)|done| |done].
    intros u s. apply tearing_torn. }
  intros _.
  apply hoare_bind
    with (Q1 := fun _ => torn (from_option (fun w => [w]) [] (_watcher i)) T).
  { destruct (_watcher i) as [w|]; [apply torn_teardown|apply keeps_ret]. }
  intros _. apply hoare_bind with (Q1 := fun _ => torn W T).
  { eapply hoare_conseq;
      [apply (torn_for_each (from_option (fun w => [w]) [] (_watcher i)) T
                (rev (_watchers i)) ET)|done| |done].
    intros u s. by rewrite rev_involutive. }
  intros _. apply hoare_bind with (Q1 := fun _ => torn W T).
  { destruct (data_ob i); [|apply keeps_ret]. by apply keeps_modify. }
  intros _. apply hoare_bind with (Q1 := fun _ => torn W T).
  { apply keeps_modify. intros s. by apply torn_update_vm. }
  intros _. apply hoare_bind with (Q1 := fun x s => static i x /\ torn W T s).
  { apply hoare_the. intros s x H Hx. split; [|done].
    destruct H as (t' & _ & (y & Hy & Hs) & _). congruence. }
  intros i2. apply hoare_conseq
    with (P' := fun s => static i i2 /\ torn W T s)
         (Q' := fun _ s => patched W [THook vm "destroyed"] s /\ cleared s)
         (E' := ET); [|done..].
  intros s [(_ & _ & _ & _ & Hvn2 & _) H]. revert s H. rewrite Hvn2.
  apply hoare_bind with (Q1 := fun _ => patched W []); [apply destroy_patch|].
  intros _. apply hoare_bind with (Q1 := fun _ => patched W [THook vm "destroyed"]).
  { apply hoare_callHook.
    - intros s (Hd & Hw & t1 & t2 & Ht1 & Ht). split; [done|]. split; [done|].
      exists t1, t2. split; [done|]. simpl. rewrite Ht.
      by rewrite app_nil_r, <- !app_assoc.
    - by intros s tg k (Hd & Hw & Ht).
    - intros s b. apply patched_instances. }
  intros _.
  apply hoare_bind
    with (Q1 := fun _ s => patched W [THook vm "destroyed"] s /\ cleared s).
  { unfold on_bus.
    apply hoare_bind with (Q1 := fun x s =>
      patched W [THook vm "destroyed"] s /\ instances s !! vm = Some x).
    { by apply hoare_the. }
    intros x. apply hoare_modify. intros s [H Hx].
    split; [by apply patched_instances|].
    exists (with_events (Events.off Events.OffAll (events x)) x).
    simpl. by rewrite lookup_alter_eq, Hx. }
  intros _.
  set (Fin := fun s => patched W [THook vm "destroyed"] s /\ cleared s).
  apply hoare_bind with (Q1 := fun _ => Fin); [apply keeps_the|].
  intros i3. apply hoare_bind with (Q1 := fun _ => Fin).
  { destruct (S_el i3); [by apply keeps_modify|apply keeps_ret]. }
  intros _. destruct (S_vnode i3); [by apply keeps_modify|apply keeps_ret].
Qed.

(** *** [$destroy] returns *)

(** [vm] is there with its static fields, without hook handlers and
    without [hook:] listeners, and [p] is there. *)
Definition hookless (s : world) : Prop :=
  (exists x, instances s !! vm = Some x /\ static i x /\
             opt_hooks x = ∅ /\ Events._hasHookEvent (events x) = false) /\
  is_Some (instances s !! p).

Lemma hookless_instances s s' :
  instances s' = instances s -> hookless s -> hookless s'.
Proof. unfold hookless. by intros ->. Qed.

Lemma hookless_update v f s :
  (forall x, static i x -> static i (f x)) ->
  (forall x, opt_hooks (f x) = opt_hooks x) ->
  (forall x, Events._hasHookEvent (events (f x)) = Events._hasHookEvent (events x)) ->
  hookless s -> hookless (set_instances (alter f v (instances s)) s).
Proof.
  intros Hs Hh He [(x & Hx & Hst & Hho & Hev) Hp]. split.
  - simpl. destruct (decide (v = vm)) as [->|Hv].
    + exists (f x). rewrite lookup_alter_eq, Hx. split; [done|].
      split; [by apply Hs|]. by rewrite Hh, He.
    + exists x. by rewrite lookup_alter_ne.
  - simpl. destruct (decide (v = p)) as [->|Hv].
    + rewrite lookup_alter_eq. destruct Hp as [y ->]. by eexists.
    + by rewrite lookup_alter_ne.
Qed.

Lemma returns_modify_instances I f :
  (forall s, I s -> I (f s)) -> returns I (modify f) (fun _ => I).
Proof. intros H. by apply returns_modify. Qed.

Lemma hookless_the :
  returns hookless (the vm)
    (fun x s => hookless s /\ static i x /\ opt_hooks x = ∅ /\
                Events._hasHookEvent (events x) = false).
Proof.
  apply returns_the. intros s H. destruct H as [(x & Hx & Hst & Hho & Hev) Hp].
  exists x. split; [done|]. split; [|done]. split; [|done]. by exists x.
Qed.

Lemma hookless_callHook hook :
  returns hookless (callHook fns efuel vm hook) (fun _ => hookless).
Proof.
  unfold callHook.
  apply returns_bind with (Q1 := fun _ => hookless);
    [apply returns_modify; intros s; by apply hookless_instances|]. intros _.
  apply returns_bind with (Q1 := fun _ => hookless);
    [apply returns_modify; intros s; by apply hookless_instances|]. intros _.
  eapply returns_bind; [apply hookless_the|]. intros x.
  intros s (H & _ & Hho & _). revert s H. rewrite Hho, lookup_empty.
  apply returns_bind with (Q1 := fun _ => hookless); [by apply returns_ret|].
  intros _. eapply returns_bind; [apply hookless_the|]. intros x'.
  intros s (H & _ & _ & Hev). revert s H. rewrite Hev.
  apply returns_bind with (Q1 := fun _ => hookless); [by apply returns_ret|].
  intros _. apply returns_modify. intros s H.
  destruct (targetStack s); by apply (hookless_instances s).
Qed.

Lemma hookless_teardown w : returns hookless (teardown w) (fun _ => hookless).
Proof.
  apply returns_modify. intros s. apply hookless_instances.
  destruct (watchers s !! w) as [x|]; [|done]. by destruct (w_active x).
Qed.

(** Without hook handlers and [hook:] listeners, and with a patch
    collaborator that returns and leaves the instances alone, [$destroy]
    returns. *)
Lemma destroy_returns :
  opt_hooks i = ∅ ->
  Events._hasHookEvent (events i) = false ->
  (forall s, exists s' el,
     patch vm (Patch2 (_vnode i) None) s = (s', PReturn el) /\
     instances s' = instances s) ->
  exists st', S_destroy fns patch efuel vm st0 = Ok tt st'.
Proof.
  intros Hho Hev Hpatch.
  assert (hookless st0) as H0.
  { split; [|by rewrite p_there]. exists i. split; [done|].
    split; [apply static_refl|done]. }
  assert (forall v f,
    (forall x, static i x -> static i (f x)) ->
    (forall x, opt_hooks (f x) = opt_hooks x) ->
    (forall x, Events._hasHookEvent (events (f x))
               = Events._hasHookEvent (events x)) ->
    returns hookless (update v f) (fun _ => hookless)) as Hupd.
  { intros v f H1 H2 H3. apply returns_modify. intros s.
    by apply hookless_update. }
  assert (forall f, (forall s, instances (f s) = instances s) ->
            returns hookless (modify f) (fun _ => hookless)) as Hmod.
  { intros f Hf. apply returns_modify. intros s. apply hookless_instances, Hf. }
  assert (returns (fun s => s = st0) (S_destroy fns patch efuel vm)
            (fun _ _ => True)) as Hr.
  { unfold S_destroy.
    apply returns_bind with (Q1 := fun x s => x = i /\ hookless s).
    { apply returns_the. intros s ->. by exists i. }
    intros x s [-> H]. revert s H. rewrite vm_alive.
    apply returns_bind with (Q1 := fun _ => hookless);
      [apply hookless_callHook|]. intros _.
    apply returns_bind with (Q1 := fun _ => hookless); [by apply Hupd|].
    intros _. eapply returns_bind; [apply hookless_the|]. intros i1.
    intros s (H & (Hpar & Habs & Hw1 & Hws & Hvn & Hob) & _). revert s H.
    rewrite Hpar, vm_parent, Hw1, Hws, Hob.
    apply returns_bind with (Q1 := fun _ => hookless).
    { apply returns_bind with (Q1 := fun _ => hookless).
      - apply returns_the. intros s H. destruct (proj2 H) as [y Hy]. by exists y.
      - intros y. destruct (negb (_isBeingDestroyed y) && negb (opt_abstract i1));
          [by apply Hupd|by apply returns_ret]. }
    intros _. apply returns_bind with (Q1 := fun _ => hookless).
    { destruct (_watcher i); [apply hookless_teardown|by apply returns_ret]. }
    intros _. apply returns_bind with (Q1 := fun _ => hookless).
    { apply returns_for_each. intros w _. apply hookless_teardown. }
    intros _. apply returns_bind with (Q1 := fun _ => hookless).
    { destruct (data_ob i); [by apply Hmod|by apply returns_ret]. }
    intros _. apply returns_bind with (Q1 := fun _ => hookless); [by apply Hupd|].
    intros _. eapply returns_bind; [apply hookless_the|]. intros i2.
    intros s (H & (_ & _ & _ & _ & Hvn2 & _) & _). revert s H. rewrite Hvn2.
    apply returns_bind with (Q1 := fun _ => hookless).
    { intros s H. unfold call_patch.
      destruct (Hpatch (add_trace (TPatch vm (Patch2 (_vnode i) None)) s))
        as (s' & el & -> & Hi).
      exists el, s'. split; [done|]. by apply (hookless_instances s). }
    intros _. apply returns_bind with (Q1 := fun _ => hookless);
      [apply hookless_callHook|]. intros _.
    apply returns_bind with (Q1 := fun _ => hookless).
    { unfold on_bus. eapply returns_bind; [apply hookless_the|]. intros y.
      intros s ([(x & Hx & Hst & Hho' & _) Hp] & _ & _ & Hev').
      eexists tt, _. split; [reflexivity|]. split.
      - exists (with_events (Events.off Events.OffAll (events y)) x).
        simpl. by rewrite lookup_alter_eq, Hx.
      - simpl. by rewrite lookup_alter_ne. }
    intros _. eapply returns_bind; [apply hookless_the|]. intros i3.
    apply returns_bind with (Q1 := fun _ _ => True).
    { destruct (S_el i3); [by apply returns_modify|by apply returns_ret]. }
    intros _. destruct (S_vnode i3); [by apply returns_modify|by apply returns_ret]. }
  destruct (Hr st0 eq_refl) as ([] & st' & Hrun & _). by exists st'.
Qed.

End Destroy.

(** *** The hooks [$destroy] runs *)

Section DestroyHooks.

Variables (vm : vmid) (i : instance) (st0 : world).

Hypothesis vm_there : instances st0 !! vm = Some i.
Hypothesis vm_alive : _isBeingDestroyed i = false.

(** [vm] is there with the event side [b] and the last rendered tree of
    [i]. *)
Definition bus_at (b : Events.bus) (s : world) : Prop :=
  exists x, instances s !! vm = Some x /\ events x = b /\ _vnode x = _vnode i.

Lemma bus_at_instances b s s' :
  instances s' = instances s -> bus_at b s -> bus_at b s'.
Proof. unfold bus_at. by intros ->. Qed.

Lemma bus_at_update b v f s :
  (forall x, events (f x) = events x /\ _vnode (f x) = _vnode x) ->
  bus_at b s -> bus_at b (set_instances (alter f v (instances s)) s).
Proof.
  intros Hf (x & Hx & He & Hv). unfold bus_at. simpl.
  destruct (decide (v = vm)) as [->|Hne].
  - exists (f x). rewrite lookup_alter_eq, Hx. destruct (Hf x) as [-> ->]. done.
  - exists x. by rewrite lookup_alter_ne.
Qed.

(** Both hooks ran, around the final patch: the [beforeDestroy] hook on
    the event side [vm] came with, which gave the event side [vm] had when
    [patch] was called; the [destroyed] hook on the event side [vm] had
    when [patch] returned; [$off()] on what that gave. *)
Definition hooks_ran (s' : world) : Prop :=
  exists b1 s1 s2 el x2 b3,
    hook_run fns efuel "beforeDestroy"
      (default [] (opt_hooks i !! "beforeDestroy")) (events i) = Some b1 /\
    (events <$> instances s1 !! vm) = Some b1 /\
    patch vm (Patch2 (_vnode i) None) s1 = (s2, PReturn el) /\
    instances s2 !! vm = Some x2 /\
    hook_run fns efuel "destroyed"
      (default [] (opt_hooks x2 !! "destroyed")) (events x2) = Some b3 /\
    (events <$> instances s' !! vm) = Some (Events.off Events.OffAll b3).

Lemma hooks_ran_instances s s' :
  instances s' = instances s -> hooks_ran s -> hooks_ran s'.
Proof. unfold hooks_ran. by intros ->. Qed.

Lemma destroy_runs_hooks :
  hoare (fun s => s = st0) (S_destroy fns patch efuel vm)
    (fun _ => hooks_ran) (fun _ => True).
Proof.
  set (ET := fun _ : world => True).
  unfold S_destroy.
  apply hoare_bind with (Q1 := fun x s => x = i /\ s = st0).
  { apply hoare_the. intros s x -> Hx. split; [congruence|done]. }
  intros x. apply hoare_conseq with (P' := fun s => x = i /\ s = st0)
    (Q' := fun _ => hooks_ran) (E' := ET); [|done..].
  intros s [-> H]. revert s H. rewrite vm_alive.
  apply hoare_bind with
    (Q1 := fun _ s => exists b1,
       hook_run fns efuel "beforeDestroy"
         (default [] (opt_hooks i !! "beforeDestroy")) (events i) = Some b1 /\
       bus_at b1 s).
  { intros s ->.
    pose proof (callHook_spec fns efuel vm "beforeDestroy" i st0
                  gentle_events_only vm_there) as H.
    destruct (callHook fns efuel vm "beforeDestroy" st0) as [u s'| |]; [|done..].
    destruct H as (b1 & Hb1 & Hv & _). exists b1. split; [done|].
    by exists (with_events b1 i). }
  intros _. apply hoare_conseq with
    (P' := fun s => exists b1,
       hook_run fns efuel "beforeDestroy"
         (default [] (opt_hooks i !! "beforeDestroy")) (events i) = Some b1 /\
       bus_at b1 s)
    (Q' := fun _ => hooks_ran) (E' := ET); [|done..].
  intros s (b1 & Hb1 & H). revert s H.
  set (K := bus_at b1).
  assert (forall v f,
            (forall x, events (f x) = events x /\ _vnode (f x) = _vnode x) ->
            keeps K ET (update v f)) as Hupd.
  { intros v f Hf. apply keeps_modify. intros s. by apply bus_at_update. }
  assert (forall w, keeps K ET (teardown w)) as Htd.
  { intros w. apply keeps_modify. intros s. apply bus_at_instances.
    destruct (watchers s !! w) as [y|]; [|done]. by destruct (w_active y). }
  apply hoare_bind with (Q1 := fun _ => K); [by apply Hupd|]. intros _.
  apply hoare_bind with (Q1 := fun _ => K); [apply keeps_the|]. intros i1.
  apply hoare_bind with (Q1 := fun _ => K).
  { destruct (S_parent i1) as [q|]; [|apply keeps_ret].
    apply keeps_bind; [apply keeps_the|]. intros y. by apply keeps_when, Hupd. }
  intros _. apply hoare_bind with (Q1 := fun _ => K).
  { destruct (_watcher i1); [apply Htd|apply keeps_ret]. }
  intros _. apply hoare_bind with (Q1 := fun _ => K).
  { apply keeps_for_each. intros w _. apply Htd. }
  intros _. apply hoare_bind with (Q1 := fun _ => K).
  { destruct (data_ob i1); [|apply keeps_ret]. apply keeps_modify.
    intros s. by apply bus_at_instances. }
  intros _. apply hoare_bind with (Q1 := fun _ => K); [by apply Hupd|].
  intros _. apply hoare_bind with
    (Q1 := fun y s => _vnode y = _vnode i /\ K s).
  { apply hoare_the. intros s y H Hy. split; [|done].
    destruct H as (z & Hz & _ & Hvn). congruence. }
  intros i2. apply hoare_conseq with
    (P' := fun s => _vnode i2 = _vnode i /\ K s)
    (Q' := fun _ => hooks_ran) (E' := ET); [|done..].
  intros s [Hvn H]. revert s H. rewrite Hvn.
  apply hoare_bind with
    (Q1 := fun el s2 => exists s1,
       (events <$> instances s1 !! vm) = Some b1 /\
       patch vm (Patch2 (_vnode i) None) s1 = (s2, PReturn el)).
  { intros s (y & Hy & He & _). unfold call_patch.
    destruct (patch vm (Patch2 (_vnode i) None)
                (add_trace (TPatch vm (Patch2 (_vnode i) None)) s))
      as [s2 r] eqn:Ep.
    destruct r as [el|]; [|done].
    exists (add_trace (TPatch vm (Patch2 (_vnode i) None)) s).
    split; [|done]. simpl. rewrite Hy. simpl. by rewrite He. }
  intros el. apply hoare_bind with
    (Q1 := fun _ s3 => exists s1 s2 x2 b3,
       (events <$> instances s1 !! vm) = Some b1 /\
       patch vm (Patch2 (_vnode i) None) s1 = (s2, PReturn el) /\
       instances s2 !! vm = Some x2 /\
       hook_run fns efuel "destroyed"
         (default [] (opt_hooks x2 !! "destroyed")) (events x2) = Some b3 /\
       instances s3 !! vm = Some (with_events b3 x2)).
  { intros s2 (s1 & Hs1 & Hp).
    destruct (instances s2 !! vm) as [x2|] eqn:Hx2.
    - pose proof (callHook_spec fns efuel vm "destroyed" x2 s2
                    gentle_events_only Hx2) as H.
      destruct (callHook fns efuel vm "destroyed" s2) as [u s3| |]; [|done..].
      destruct H as (b3 & Hb3 & Hv & _). by exists s1, s2, x2, b3.
    - unfold callHook, bind, modify, pushTarget, the. simpl. by rewrite Hx2. }
  intros _. apply hoare_bind with (Q1 := fun _ => hooks_ran).
  { intros s3 (s1 & s2 & x2 & b3 & Hs1 & Hp & Hx2 & Hb3 & Hv).
    unfold on_bus, bind, the. rewrite Hv. simpl.
    exists b1, s1, s2, el, x2, b3. do 5 (split; [done|]).
    cbn [instances set_instances]. by rewrite lookup_alter_eq, Hv. }
  intros _.
  apply hoare_bind with (Q1 := fun _ => hooks_ran); [apply keeps_the|].
  intros i3. apply hoare_bind with (Q1 := fun _ => hooks_ran).
  { destruct (S_el i3); [|apply keeps_ret]. apply keeps_modify.
    intros s. by apply hooks_ran_instances. }
  intros _. destruct (S_vnode i3); [|apply keeps_ret]. apply keeps_modify.
  intros s. by apply hooks_ran_instances.
Qed.

End DestroyHooks.


End OpsFacts.

(** ** Worked instances *)

(** A mounted, active instance with the given tree edges, watchers, hooks
    and event side, whose last rendered tree is node 5. *)
Definition mounted (parent : option vmid) (children : list vmid)
    (w : option wid) (ws : list wid) (hooks : gmap string (list Events.fnid))
    (b : Events.bus) : instance :=
  Instance parent children None None (Some 5) w ws TFalse false true false
    false false hooks None b.

(** Instance 0 has children 1 and 2, instance 1 has child 3.  Instance 1
    owns watchers 10 and 11, subscribed to cells 100 and 101, has two
    [beforeDestroy] handlers (the first throws), a listener on ["e"] and a
    throwing listener on ["hook:destroyed"]. *)
Definition family : world :=
  World
    (<[0 := mounted None [1; 2] None [] ∅ Events.initEvents]>
       (<[1 := mounted (Some 0) [3] (Some 10) [10; 11]
                 (<["beforeDestroy"%string := [2; 0]]> ∅)
                 (Events.on (Events.One "hook:destroyed") (Events.UserFn 2)
                    (Events.on (Events.One "e") (Events.UserFn 0)
                       Events.initEvents))]>
          (<[2 := mounted (Some 0) [] None [] ∅ Events.initEvents]>
             (<[3 := mounted (Some 1) [] None []
                       (<["activated"%string := [0]]> ∅) Events.initEvents]> ∅))))
    None (Some 10) []
    (<[10 := Watcher true [100]]> (<[11 := Watcher true [100; 101]]> ∅))
    (<[100 := [10; 11]]> (<[101 := [11]]> ∅))
    ∅ ∅ ∅ [].

(** A patch collaborator that returns without touching the process, and
    one that throws at once. *)
Definition quiet_patch (vm : vmid) (args : patch_args) (st : world)
    : world * presult := (st, PReturn None).

Definition throwing_patch (vm : vmid) (args : patch_args) (st : world)
    : world * presult := (st, PThrow).

(** The state a computation ends in. *)
Definition final (r : res unit) (otherwise : world) : world :=
  match r with
  | Ok _ s => s
  | Exn s => s
  | Stuck => otherwise
  end.

(** C1 fails as stated: when [patch] throws, [_update] exits by the
    exception with [activeInstance] still naming the updating instance,
    not the value it held before. *)
Lemma update_leaves_activeInstance :
  match _update throwing_patch 1 7 false family with
  | Exn st' => activeInstance st' = Some 1 /\ activeInstance family = None
  | _ => False
  end.
Proof. vm_compute. split; reflexivity. Qed.

Lemma graph_wf_family : graph_wf family.
Proof.
  intros c w. unfold notified, family. simpl.
  destruct (decide (c = 100)) as [->|H100].
  - rewrite lookup_insert_eq. simpl. intros H.
    apply elem_of_cons in H as [->|H].
    + eexists. split; [reflexivity|]. split; [done|]. apply list_elem_of_here.
    + apply list_elem_of_singleton in H as ->.
      eexists. split; [reflexivity|]. split; [done|]. apply list_elem_of_here.
  - rewrite lookup_insert_ne by done.
    destruct (decide (c = 101)) as [->|H101].
    + rewrite lookup_insert_eq. simpl. intros H.
      apply list_elem_of_singleton in H as ->.
      eexists. split; [reflexivity|]. split; [done|].
      apply list_elem_of_further, list_elem_of_here.
    + rewrite lookup_insert_ne, lookup_empty by done. simpl.
      intros H. by apply elem_of_nil in H.
Qed.

Lemma tears_down_only_quiet : tears_down_only quiet_patch.
Proof.
  intros vm old st st' r [= <- <-]. split; [|split].
  - intros j x Hx. by exists x.
  - done.
  - exists []. by rewrite app_nil_r.
Qed.


(** After deactivating instance 3 directly and then instance 0,
    reactivating instance 0 leaves instance 3 inactive. *)
(** A parent 0 and its child 1, without hook handlers. *)
Definition parent_child : world :=
  World
    (<[0 := mounted None [1] None [] ∅ Events.initEvents]>
       (<[1 := mounted (Some 0) [] None [] ∅ Events.initEvents]> ∅))
    None None [] ∅ ∅ ∅ ∅ ∅ [].

Lemma shaped_parent_child : shaped (fun v => 1 - v) (fun v => v) parent_child.
Proof.
  intros v x. unfold parent_child. simpl.
  destruct (decide (v = 0)) as [->|H0].
  { rewrite lookup_insert_eq. intros [= <-]. simpl.
    split; [done|]. split; [done|]. split; [|done].
    intros c Hc. apply list_elem_of_singleton in Hc as ->. split; [lia|].
    by eexists. }
  rewrite lookup_insert_ne by done.
  destruct (decide (v = 1)) as [->|H1].
  { rewrite lookup_insert_eq. intros [= <-]. simpl.
    split; [done|]. split; [done|]. split.
    - intros c Hc. by apply elem_of_nil in Hc.
    - intros q [= <-]. split; [lia|]. by eexists. }
  rewrite lookup_insert_ne by done. by rewrite lookup_empty.
Qed.

Lemma direct_deactivation_is_sticky_witness :
  let st1 := final (deactivateChildComponent Events.handler_fns 2 3 3 true family)
               family in
  let st2 := final (deactivateChildComponent Events.handler_fns 2 3 0 true st1)
               family in
  match activateChildComponent Events.handler_fns 2 3 0 true st2 with
  | Ok _ st3 =>
      (_inactive <$> instances st3 !! 3) = Some TTrue /\
      THook 3 "activated" ∉ trace st3
  | _ => False
  end.
Proof.
  intros st1 st2.
  assert (deactivateChildComponent Events.handler_fns 2 3 3 true family = Ok tt st1)
    as H1 by (vm_compute; reflexivity).
  assert (deactivateChildComponent Events.handler_fns 2 3 0 true st1 = Ok tt st2)
    as H2 by (vm_compute; reflexivity).
  assert (instances st2 !! 3
          = Some (with_inactive TTrue
                    (with_directInactive true
                       (mounted (Some 1) [] None []
                          (<["activated"%string := [0]]> ∅) Events.initEvents))))
    as H3 by (vm_compute; reflexivity).
  assert (trace st2 = [THook 3 "deactivated"; THook 1 "deactivated";
                       THook 2 "deactivated"; THook 0 "deactivated"])
    as Ht2 by (vm_compute; reflexivity).
  pose proof (direct_deactivation_is_sticky Events.handler_fns 2 3 3 3 0 3
                family st1 st2 _ ltac:(discriminate) H1 H2 H3 eq_refl)
    as (_ & H & _).
  destruct (activateChildComponent Events.handler_fns 2 3 0 true st2)
    as [u st3| |] eqn:E; [|done|vm_compute in E; discriminate].
  destruct H as (Hi & new & Ht & Hn). split; [by rewrite Hi|].
  rewrite Ht, Ht2, elem_of_app. intros [H|H]; [|done].
  repeat (apply elem_of_cons in H as [H|H]; [discriminate|]).
  by apply elem_of_nil in H.
Defined.

(** * More of the lifecycle *)

(** ** Ancestors and inactive subtrees *)

(** [a] is reached from [v] by one or more [$parent] links. *)
Inductive ancestor (s : world) : vmid -> vmid -> Prop :=
  | ancestor_parent v x p :
      instances s !! v = Some x -> S_parent x = Some p -> ancestor s v p
  | ancestor_further v x p a :
      instances s !! v = Some x -> S_parent x = Some p -> ancestor s p a ->
      ancestor s v a.

(** [if (vm._inactive)] holds of instance [v]. *)
Definition inactive_at (s : world) (v : vmid) : Prop :=
  exists x, instances s !! v = Some x /\ truthy (_inactive x) = true.

(** Every [$parent] link leads to an instance that is there and less deep:
    the parent chains are finite. *)
Definition chained (depth : vmid -> nat) (s : world) : Prop :=
  forall v x q, instances s !! v = Some x -> S_parent x = Some q ->
    depth q < depth v /\ is_Some (instances s !! q).

Lemma isInInactiveTree_walk depth n : forall vm s,
  chained depth s -> is_Some (instances s !! vm) -> depth vm < n ->
  exists b, isInInactiveTree n vm s = Ok b s /\
    (b = true <-> exists a, ancestor s vm a /\ inactive_at s a).
Proof.
  induction n as [|n IH]; intros vm s Hch [x Hx] Hn; [lia|].
  simpl. unfold bind, the. rewrite Hx.
  destruct (S_parent x) as [p|] eqn:Ep.
  - destruct (Hch vm x p Hx Ep) as [Hlt [y Hy]]. rewrite Hy.
    destruct (truthy (_inactive y)) eqn:Et.
    + exists true. split; [done|]. split; [|done]. intros _. exists p.
      split; [by eapply ancestor_parent|]. by exists y.
    + destruct (IH p s Hch) as (b & Hb & Hiff); [by exists y|lia|].
      exists b. split; [done|]. rewrite Hiff. split.
      * intros (a & Ha & Hin). exists a. split; [|done].
        by eapply ancestor_further.
      * intros (a & Ha & Hin). inversion Ha as [v x' p' Hx' Hp'|v x' p' a' Hx' Hp' Ha'];
          subst; rewrite Hx in Hx'; injection Hx' as <-;
          rewrite Ep in Hp'; injection Hp' as <-.
        -- destruct Hin as (y' & Hy' & Ht'). rewrite Hy in Hy'.
           injection Hy' as <-. congruence.
        -- by exists a.
  - exists false. split; [done|]. split; [done|].
    intros (a & Ha & _). inversion Ha; subst; congruence.
Qed.

(** What the walk up the parents answers, when it answers. *)
Lemma isInInactiveTree_sound n : forall vm s,
  match isInInactiveTree n vm s with
  | Ok b s' =>
      s' = s /\
      (b = true -> exists a, ancestor s vm a /\ inactive_at s a) /\
      (b = false -> forall a, ancestor s vm a -> ~ inactive_at s a)
  | Exn _ => False
  | Stuck => True
  end.
Proof.
  induction n as [|n IH]; intros vm s; [done|]. simpl. unfold bind, the.
  destruct (instances s !! vm) as [x|] eqn:Ex; [|done].
  destruct (S_parent x) as [p|] eqn:Ep.
  - destruct (instances s !! p) as [y|] eqn:Ey; [|done].
    destruct (truthy (_inactive y)) eqn:Et.
    + split; [done|]. split; [|done]. intros _. exists p.
      split; [by eapply ancestor_parent|]. by exists y.
    + specialize (IH p s). destruct (isInInactiveTree n p s) as [b s'| |]; [|done..].
      destruct IH as (-> & IHt & IHf). split; [done|]. split.
      * intros Hb. destruct (IHt Hb) as (a & Ha & Hin). exists a.
        split; [|done]. by eapply ancestor_further.
      * intros Hb a Ha Hin. specialize (IHf Hb).
        inversion Ha as [v x' p' Hx' Hp'|v x' p' a' Hx' Hp' Ha']; subst;
          rewrite Ex in Hx'; injection Hx' as <-;
          rewrite Ep in Hp'; injection Hp' as <-.
        -- destruct Hin as (y' & Hy' & Ht'). rewrite Ey in Hy'.
           injection Hy' as <-. congruence.
        -- by apply (IHf a).
  - split; [done|]. split; [done|]. intros _ a Ha _.
    inversion Ha; subst; congruence.
Qed.

Section Alter.

Variables (f : instance -> instance) (v : vmid).
Hypothesis f_parent : forall x, S_parent (f x) = S_parent x.
Hypothesis f_inactive : forall x, _inactive (f x) = _inactive x.

Let upd (s : world) : world := set_instances (alter f v (instances s)) s.

Lemma lookup_upd s k x :
  instances s !! k = Some x ->
  exists x', instances (upd s) !! k = Some x' /\
    S_parent x' = S_parent x /\ _inactive x' = _inactive x /\
    (k <> v -> x' = x) /\ (k = v -> x' = f x).
Proof.
  intros Hk. unfold upd. simpl. destruct (decide (v = k)) as [->|Hne].
  - exists (f x). rewrite lookup_alter_eq, Hk. by repeat split.
  - exists x. rewrite lookup_alter_ne by done. repeat split; [done|].
    intros ->. done.
Qed.

Lemma chained_upd depth s : chained depth s -> chained depth (upd s).
Proof.
  intros Hch k x' q Hk Hq.
  assert (exists x, instances s !! k = Some x /\ S_parent x = S_parent x') as (x & Hx & Hp).
  { unfold upd in Hk. simpl in Hk. destruct (decide (v = k)) as [->|Hne].
    - rewrite lookup_alter_eq in Hk. destruct (instances s !! k) as [x|]; [|done].
      injection Hk as <-. exists x. by rewrite f_parent.
    - rewrite lookup_alter_ne in Hk by done. by exists x'. }
  destruct (Hch k x q Hx) as [Hlt [y Hy]]; [by rewrite Hp|].
  split; [done|]. destruct (lookup_upd s q y Hy) as (y' & Hy' & _). by exists y'.
Qed.

Lemma ancestor_upd s u a : ancestor s u a -> ancestor (upd s) u a.
Proof.
  induction 1 as [u x p Hx Hp|u x p a Hx Hp _ IH];
    destruct (lookup_upd s u x Hx) as (x' & Hx' & Hp' & _).
  - apply (ancestor_parent _ u x' p); [exact Hx'|by rewrite Hp'].
  - apply (ancestor_further _ u x' p a); [exact Hx'|by rewrite Hp'|exact IH].
Qed.

Lemma inactive_upd s a : inactive_at s a -> inactive_at (upd s) a.
Proof.
  intros (x & Hx & Ht). destruct (lookup_upd s a x Hx) as (x' & Hx' & _ & Hi & _).
  exists x'. split; [done|]. by rewrite Hi.
Qed.

Lemma lookup_upd_inv s k x' :
  instances (upd s) !! k = Some x' ->
  exists x, instances s !! k = Some x /\
    S_parent x' = S_parent x /\ _inactive x' = _inactive x /\
    (k <> v -> x' = x) /\ (k = v -> x' = f x).
Proof.
  unfold upd. simpl. destruct (decide (v = k)) as [->|Hne].
  - rewrite lookup_alter_eq. destruct (instances s !! k) as [x|]; [|done].
    intros [= <-]. exists x. by repeat split.
  - rewrite lookup_alter_ne by done. intros Hk. exists x'.
    repeat split; [done|]. by intros ->.
Qed.

Lemma ancestor_upd_inv s u a : ancestor (upd s) u a -> ancestor s u a.
Proof.
  induction 1 as [u x' p Hx' Hp|u x' p a Hx' Hp _ IH];
    destruct (lookup_upd_inv s u x' Hx') as (x & Hx & Hp' & _).
  - apply (ancestor_parent _ u x p); [exact Hx|by rewrite <- Hp'].
  - apply (ancestor_further _ u x p a); [exact Hx|by rewrite <- Hp'|exact IH].
Qed.

Lemma inactive_upd_inv s a : inactive_at (upd s) a -> inactive_at s a.
Proof.
  intros (x' & Hx' & Ht).
  destruct (lookup_upd_inv s a x' Hx') as (x & Hx & _ & Hi & _).
  exists x. split; [done|]. by rewrite <- Hi.
Qed.

End Alter.

(** X10: whenever [isInInactiveTree] returns, it has changed nothing and
    answers [true] exactly when some instance above [vm] on its parent
    chain is inactive, the instance itself not being looked at; it never
    throws, and on finite parent chains it returns. *)
Theorem isInInactiveTree_finds_inactive_ancestor (n : nat) (vm : vmid) (s : world) :
  match isInInactiveTree n vm s with
  | Ok b s' =>
      s' = s /\ (b = true <-> exists a, ancestor s vm a /\ inactive_at s a)
  | Exn _ => False
  | Stuck => True
  end /\
  (forall depth,
     chained depth s -> is_Some (instances s !! vm) -> depth vm < n ->
     exists b, isInInactiveTree n vm s = Ok b s).
Proof.
  split.
  - pose proof (isInInactiveTree_sound n vm s) as H.
    destruct (isInInactiveTree n vm s) as [b s'| |]; [|done..].
    destruct H as (-> & Ht & Hf). split; [done|]. split; [exact Ht|].
    intros (a & Ha & Hin). destruct b; [done|]. by destruct (Hf eq_refl a Ha).
  - intros depth Hch Hvm Hn.
    destruct (isInInactiveTree_walk depth n vm s Hch Hvm Hn) as (b & Hb & _).
    by exists b.
Qed.

Section More.

Variable fns : Events.fnid -> Events.fn_def.
Variable efuel : nat.

(** X11: under an inactive ancestor, a direct activation or deactivation
    of [vm] only records the request in [_directInactive]: no [_inactive]
    is written and no hook runs. *)
Theorem direct_call_under_inactive_ancestor (depth : vmid -> nat) (n : nat)
    (vm a : vmid) (s : world) :
  chained depth s ->
  is_Some (instances s !! vm) ->
  depth vm < n ->
  ancestor s vm a ->
  inactive_at s a ->
  activateChildComponent fns efuel n vm true s
  = Ok tt (set_instances (alter (with_directInactive false) vm (instances s)) s) /\
  deactivateChildComponent fns efuel n vm true s
  = Ok tt (set_instances (alter (with_directInactive true) vm (instances s)) s).
Proof.
  intros Hch [x Hx] Hn Ha Hin. destruct n as [|n]; [lia|].
  assert (forall b,
    isInInactiveTree (S n) vm
      (set_instances (alter (with_directInactive b) vm (instances s)) s)
    = Ok true (set_instances (alter (with_directInactive b) vm (instances s)) s)) as Hstop.
  { intros b.
    destruct (isInInactiveTree_walk depth (S n) vm
                (set_instances (alter (with_directInactive b) vm (instances s)) s))
      as (r & Hr & Hiff).
    - by apply chained_upd.
    - destruct (lookup_upd (with_directInactive b) vm (fun _ => eq_refl)
                  (fun _ => eq_refl) s vm x Hx)
        as (x' & Hx' & _). by exists x'.
    - done.
    - rewrite Hr. f_equal. apply Hiff. exists a. split.
      + by apply ancestor_upd.
      + by apply inactive_upd. }
  split.
  - cbn [activateChildComponent]. unfold bind at 1. unfold bind at 1.
    unfold update at 1, modify at 1. by rewrite Hstop.
  - cbn [deactivateChildComponent]. unfold bind at 1. unfold bind at 1.
    unfold update at 1, modify at 1. by rewrite Hstop.
Qed.

End More.

(** ** Deactivation reaches the whole subtree *)

(** Every child of an inactive instance is inactive, except possibly the
    children in [P]. *)
Definition closed_except (P : vmid -> Prop) (s : world) : Prop :=
  forall v x c, instances s !! v = Some x -> truthy (_inactive x) = true ->
    c ∈ S_children x -> inactive_at s c \/ P c.

(** Inactivity is closed under [$children]. *)
Definition closed (s : world) : Prop := closed_except (fun _ => False) s.

(** [d] is [v] or reached from it through [$children] lists. *)
Inductive descendant (s : world) : vmid -> vmid -> Prop :=
  | descendant_self v : descendant s v v
  | descendant_child v x c d :
      instances s !! v = Some x -> c ∈ S_children x -> descendant s c d ->
      descendant s v d.

Lemma closed_except_weaken (P Q : vmid -> Prop) s :
  (forall u, P u -> Q u) -> closed_except P s -> closed_except Q s.
Proof.
  intros HPQ H v x c Hv Ht Hc. destruct (H v x c Hv Ht Hc); [by left|right; auto].
Qed.

Lemma closed_except_same P s s' :
  instances s' = instances s -> closed_except P s -> closed_except P s'.
Proof.
  intros Heq H v x c. unfold inactive_at. rewrite Heq. apply H.
Qed.

Lemma closed_except_inactive P vm s :
  inactive_at s vm -> closed_except (fun u => P u \/ u = vm) s -> closed_except P s.
Proof.
  intros Hin H v x c Hv Ht Hc. destruct (H v x c Hv Ht Hc) as [?|[?| ->]]; auto.
Qed.

Lemma closed_descendants s vm d :
  closed s -> inactive_at s vm -> descendant s vm d -> inactive_at s d.
Proof.
  intros Hcl Hin Hd. induction Hd as [v|v x c d Hx Hc _ IH]; [done|].
  apply IH. destruct Hin as (x' & Hx' & Ht). rewrite Hx in Hx'. injection Hx' as <-.
  by destruct (Hcl v x c Hx Ht Hc).
Qed.

(** Field updates that keep [_inactive] and [$children]. *)
Lemma closed_except_update P f v s :
  (forall x, _inactive (f x) = _inactive x) ->
  (forall x, S_children (f x) = S_children x) ->
  closed_except P s ->
  closed_except P (set_instances (alter f v (instances s)) s).
Proof.
  intros Hi Hc H k x' c. simpl. intros Hk Ht Hin.
  assert (exists x, instances s !! k = Some x /\ _inactive x' = _inactive x /\
            S_children x' = S_children x) as (x & Hx & Hix & Hcx).
  { destruct (decide (v = k)) as [->|Hne].
    - rewrite lookup_alter_eq in Hk. destruct (instances s !! k) as [x|]; [|done].
      injection Hk as <-. exists x. by rewrite Hi, Hc.
    - rewrite lookup_alter_ne in Hk by done. by exists x'. }
  rewrite Hix in Ht. rewrite Hcx in Hin.
  destruct (H k x c Hx Ht Hin) as [(y & Hy & Hty)|HP]; [left|by right].
  unfold inactive_at. simpl. destruct (decide (v = c)) as [->|Hne].
  - exists (f y). rewrite lookup_alter_eq, Hy. split; [done|]. by rewrite Hi.
  - exists y. by rewrite lookup_alter_ne.
Qed.

Lemma inactive_at_update f v u s :
  (forall x, truthy (_inactive x) = true -> truthy (_inactive (f x)) = true) ->
  inactive_at s u -> inactive_at (set_instances (alter f v (instances s)) s) u.
Proof.
  intros Hf (y & Hy & Ht). unfold inactive_at. simpl.
  destruct (decide (v = u)) as [->|Hne].
  - exists (f y). rewrite lookup_alter_eq, Hy. split; [done|]. by apply Hf.
  - exists y. by rewrite lookup_alter_ne.
Qed.

(** [vm._inactive = true] leaves only the children of [vm] to be done. *)
Lemma closed_except_mark P vm i s :
  instances s !! vm = Some i ->
  closed_except (fun u => P u \/ u = vm) s ->
  closed_except (fun u => P u \/ u ∈ S_children i)
    (set_instances (alter (with_inactive TTrue) vm (instances s)) s).
Proof.
  intros Hi H k x' c. simpl. intros Hk Ht Hin.
  assert (inactive_at (set_instances (alter (with_inactive TTrue) vm (instances s)) s) vm)
    as Hvm.
  { exists (with_inactive TTrue i). simpl. by rewrite lookup_alter_eq, Hi. }
  destruct (decide (vm = k)) as [->|Hne].
  - rewrite lookup_alter_eq, Hi in Hk. injection Hk as <-. right. by right.
  - rewrite lookup_alter_ne in Hk by done.
    destruct (H k x' c Hk Ht Hin) as [Hc|[HP| ->]]; [left|by right; left|by left].
    by apply inactive_at_update.
Qed.

Lemma tree_inv_inactive_at u : tree_inv (fun s => inactive_at s u).
Proof.
  apply (tree_inv_holds_at (fun x => truthy (_inactive x) = true)).
  intros x x' Hf. unfold tree_fields in Hf. congruence.
Qed.

Lemma tree_inv_closed_except P : tree_inv (closed_except P).
Proof.
  intros s s' Ht H v x' c Hv Hi Hc.
  destruct (same_tree_lookup_inv s s' v x' Ht Hv) as (x & Hx & Hf).
  unfold tree_fields in Hf.
  assert (truthy (_inactive x) = true) as Hi' by congruence.
  assert (c ∈ S_children x) as Hc' by congruence.
  destruct (H v x c Hx Hi' Hc') as [Hin|HP]; [left|by right].
  by apply (tree_inv_inactive_at c s).
Qed.

(** ** Walks over the tree under user code that keeps it *)

Section TreeWalks.

Context {U : UserCode}.
Variable fns : Events.fnid -> Events.fn_def.
Variable efuel : nat.

(** No hook handler and no listener of a [hook:] event changes
    [$parent], [$children], [_inactive] or [_directInactive] of an
    instance: one that calls [$destroy], or activates or deactivates a
    component, is not covered by this section (what such a handler does
    to the walk is shown at the end of this module). *)
Hypothesis user_keeps_tree : keeps_tree U.

Lemma closed_except_callHook P vm hook :
  hoare (closed_except P) (callHook fns efuel vm hook) (fun _ => closed_except P)
    (fun _ => False).
Proof. apply tree_callHook; [done|apply tree_inv_closed_except]. Qed.

Lemma inactive_at_callHook u vm hook :
  hoare (fun s => inactive_at s u) (callHook fns efuel vm hook)
    (fun _ s => inactive_at s u) (fun _ => False).
Proof. apply tree_callHook; [done|apply tree_inv_inactive_at]. Qed.

Lemma holds_at_callHook phi u vm hook :
  tree_pred phi ->
  hoare (holds_at phi u) (callHook fns efuel vm hook)
    (fun _ => holds_at phi u) (fun _ => False).
Proof. intros Hphi. apply tree_callHook; [done|by apply tree_inv_holds_at]. Qed.

Lemma holds_at_deactivate phi u n : forall vm direct,
  tree_pred phi ->
  (forall x, phi x -> phi (with_directInactive true x)) ->
  (forall x, phi x -> phi (with_inactive TTrue x)) ->
  hoare (holds_at phi u) (deactivateChildComponent fns efuel n vm direct)
    (fun _ => holds_at phi u) (fun _ => False).
Proof.
  intros vm direct He Hd Hi. revert vm direct.
  induction n as [|n IH]; intros vm direct; [by intros s _|].
  cbn [deactivateChildComponent].
  apply keeps_bind.
  { destruct direct; [|apply keeps_ret].
    apply keeps_bind; [|intros _; apply (keeps_isInInactiveTree _ _ (S n))].
    apply keeps_modify. intros s. by apply holds_at_update. }
  intros [|]; [apply keeps_ret|].
  apply keeps_bind; [apply keeps_the|]. intros i. apply keeps_when.
  apply keeps_bind.
  { apply keeps_modify. intros s. by apply holds_at_update. }
  intros _. apply keeps_bind; [|intros _; by apply holds_at_callHook].
  apply keeps_children_loop. intros c. apply IH.
Qed.

Lemma holds_at_activate phi u n : forall vm direct,
  tree_pred phi ->
  (forall x, phi x -> phi (with_directInactive false x)) ->
  (forall x, phi x -> phi (with_inactive TFalse x)) ->
  hoare (holds_at phi u) (activateChildComponent fns efuel n vm direct)
    (fun _ => holds_at phi u) (fun _ => False).
Proof.
  intros vm direct He Hd Hi. revert vm direct.
  induction n as [|n IH]; intros vm direct; [by intros s _|].
  cbn [activateChildComponent].
  apply keeps_bind.
  { destruct direct.
    - apply keeps_bind; [|intros _; apply (keeps_isInInactiveTree _ _ (S n))].
      apply keeps_modify. intros s. by apply holds_at_update.
    - apply keeps_bind; [apply keeps_the|]. intros i. apply keeps_ret. }
  intros [|]; [apply keeps_ret|].
  apply keeps_bind; [apply keeps_the|]. intros i. apply keeps_when.
  apply keeps_bind.
  { apply keeps_modify. intros s. by apply holds_at_update. }
  intros _. apply keeps_bind; [|intros _; by apply holds_at_callHook].
  apply keeps_children_loop. intros c. apply IH.
Qed.

(** The recursive calls leave the children of [vm] as they are. *)
Lemma kin_deactivate vm l n c direct :
  hoare (kin vm l) (deactivateChildComponent fns efuel n c direct)
    (fun _ => kin vm l) (fun _ => False).
Proof.
  apply holds_at_deactivate; [|done..].
  intros x x' Hf. unfold tree_fields in Hf. congruence.
Qed.

Lemma kin_activate vm l n c direct :
  hoare (kin vm l) (activateChildComponent fns efuel n c direct)
    (fun _ => kin vm l) (fun _ => False).
Proof.
  apply holds_at_activate; [|done..].
  intros x x' Hf. unfold tree_fields in Hf. congruence.
Qed.

(** The recursive call: entered with [vm] possibly left to be done, it
    leaves nothing to be done. *)
Lemma deactivate_closes n : forall vm P,
  hoare (closed_except (fun u => P u \/ u = vm))
    (deactivateChildComponent fns efuel n vm false)
    (fun _ => closed_except P) (fun _ => False).
Proof.
  induction n as [|n IH]; intros vm P; [by intros s _|].
  cbn [deactivateChildComponent].
  apply hoare_bind with
    (Q1 := fun stop s => stop = false /\ closed_except (fun u => P u \/ u = vm) s).
  { by apply hoare_ret. }
  intros stop. apply hoare_conseq with
    (P' := fun s => closed_except (fun u => P u \/ u = vm) s /\ stop = false)
    (Q' := fun _ => closed_except P) (E' := fun _ => False); [|by intros s []|done..].
  intros s [Hs ->]. revert s Hs.
  apply hoare_bind with
    (Q1 := fun i s => closed_except (fun u => P u \/ u = vm) s /\
                      instances s !! vm = Some i).
  { by apply hoare_the. }
  intros i. unfold when. destruct (truthy (_inactive i)) eqn:Et; cbn [negb].
  { apply hoare_ret. intros s [H Hi]. apply (closed_except_inactive P vm); [|done].
    by exists i. }
  set (J := fun (rest : list vmid) s =>
              closed_except (fun u => P u \/ u ∈ rest) s /\
              kin vm (S_children i) s).
  apply hoare_bind with (Q1 := fun _ => J (S_children i)).
  { apply hoare_modify. intros s [H Hi]. split; [by apply closed_except_mark|].
    exists (with_inactive TTrue i). simpl. by rewrite lookup_alter_eq, Hi. }
  intros _. apply hoare_bind with (Q1 := fun _ => closed_except P);
    [|intros _; apply closed_except_callHook].
  apply hoare_conseq with (P' := J (S_children i)) (Q' := fun _ => J [])
    (E' := fun _ => False); [|done| |done].
  - apply (hoare_children_loop J); [by intros rest s [_ Hk]|].
    intros done c rest Hl.
    apply hoare_conseq with
      (P' := fun s => closed_except (fun u => (P u \/ u ∈ rest) \/ u = c) s /\
                      kin vm (S_children i) s)
      (Q' := fun _ => J rest) (E' := fun _ => False); [| |done|done].
    + apply hoare_conj; [apply IH|apply kin_deactivate].
    + intros s [H Hk]. split; [|done]. revert H. apply closed_except_weaken.
      intros u [?|Hu]; [by left; left|].
      apply elem_of_cons in Hu as [->|?]; [by right|by left; right].
  - intros _ s [H _]. revert H. apply closed_except_weaken.
    intros u [?|Hu]; [done|by apply elem_of_nil in Hu].
Qed.

Lemma inactive_at_deactivate u n : forall vm direct,
  hoare (fun s => inactive_at s u)
    (deactivateChildComponent fns efuel n vm direct)
    (fun _ s => inactive_at s u) (fun _ => False).
Proof.
  induction n as [|n IH]; intros vm direct; [by intros s _|].
  cbn [deactivateChildComponent].
  apply keeps_bind.
  { destruct direct; [|apply keeps_ret].
    apply keeps_bind; [|intros _; apply (keeps_isInInactiveTree _ _ (S n))].
    apply keeps_modify. intros s. by apply inactive_at_update. }
  intros [|]; [apply keeps_ret|].
  apply keeps_bind; [apply keeps_the|]. intros i. apply keeps_when.
  apply keeps_bind.
  { apply keeps_modify. intros s. by apply inactive_at_update. }
  intros _. apply keeps_bind; [|intros _; apply inactive_at_callHook].
  apply keeps_children_loop. intros c. apply IH.
Qed.

(** Past the check of the ancestors, [vm] ends up inactive. *)
Lemma deactivate_marks n vm direct :
  hoare (fun _ => True)
    (deactivateChildComponent fns efuel n vm direct)
    (fun _ s => inactive_at s vm \/
                (direct = true /\ exists a, ancestor s vm a /\ inactive_at s a))
    (fun _ => False).
Proof.
  destruct n as [|n]; [by intros s _|]. cbn [deactivateChildComponent].
  apply hoare_bind with
    (Q1 := fun stop s => stop = true ->
             direct = true /\ exists a, ancestor s vm a /\ inactive_at s a).
  { destruct direct; [|by apply hoare_ret].
    apply hoare_bind with (Q1 := fun _ _ => True); [by apply hoare_modify|].
    intros _ s _. pose proof (isInInactiveTree_sound (S n) vm s) as Hwalk.
    destruct (isInInactiveTree (S n) vm s) as [b s'| |]; [|done..].
    destruct Hwalk as (-> & Hwalk & _). intros Hb. split; [done|]. by apply Hwalk. }
  intros [|].
  { apply hoare_ret. intros s H. right. by apply H. }
  apply hoare_bind with (Q1 := fun i s => instances s !! vm = Some i).
  { by apply hoare_the. }
  intros i. unfold when. destruct (truthy (_inactive i)) eqn:Et; cbn [negb].
  { apply hoare_ret. intros s Hi. left. by exists i. }
  apply hoare_conseq with (P' := fun s => instances s !! vm = Some i)
    (Q' := fun _ s => inactive_at s vm) (E' := fun _ => False); [|done| |done].
  2:{ intros _ s H. by left. }
  apply hoare_bind with (Q1 := fun _ s => inactive_at s vm).
  { apply hoare_modify. intros s Hi. exists (with_inactive TTrue i).
    simpl. by rewrite lookup_alter_eq, Hi. }
  intros _. apply keeps_bind; [|intros _; apply inactive_at_callHook].
  apply keeps_children_loop. intros c. apply inactive_at_deactivate.
Qed.

Lemma deactivate_closes_direct n vm P :
  hoare (closed_except P) (deactivateChildComponent fns efuel n vm true)
    (fun _ => closed_except P) (fun _ => False).
Proof.
  destruct n as [|n]; [by intros s _|]. cbn [deactivateChildComponent].
  apply hoare_bind with (Q1 := fun _ => closed_except P).
  { apply keeps_bind; [|intros _; apply (keeps_isInInactiveTree _ _ (S n))].
    apply keeps_modify. intros s. by apply closed_except_update. }
  intros [|]; [apply keeps_ret|].
  intros s Hs.
  apply (deactivate_closes (S n) vm P s).
  revert Hs. apply closed_except_weaken. by left.
Qed.

(** Deactivation returns on a tree without hooks, given fuel above the
    height of [vm] and, for a direct call, above its depth. *)
Lemma deactivate_returns height depth n : forall (I : world -> Prop) D vm direct,
  children_only I ->
  D vm -> height vm < n -> (direct = true -> depth vm < n) ->
  returns (fun s => standing height depth D s /\ I s)
    (deactivateChildComponent fns efuel n vm direct)
    (fun _ s => standing height depth D s /\ I s).
Proof.
  induction n as [|n IH]; intros I D vm direct HI Hvm Hh Hdp; [lia|].
  cbn [deactivateChildComponent].
  set (P := fun s => standing height depth D s /\ I s).
  assert (forall v f,
    (forall x, opt_hooks (f x) = opt_hooks x) ->
    (forall x, Events._hasHookEvent (events (f x))
               = Events._hasHookEvent (events x)) ->
    (forall x, S_children (f x) = S_children x) ->
    (forall x, S_parent (f x) = S_parent x) ->
    forall s, P s -> P (set_instances (alter f v (instances s)) s)) as Hupd.
  { intros v f H1 H2 H3 H4 s [HS HIs]. split; [by apply standing_alter|].
    by apply (proj2 HI). }
  apply returns_bind with (Q1 := fun _ => P).
  { destruct direct; [|by apply returns_ret].
    apply returns_bind with (Q1 := fun _ => P).
    - apply returns_modify. intros s. by apply Hupd.
    - intros _. apply (isInInactiveTree_returns height depth P D);
        [by intros s []|done|]. by apply Hdp. }
  intros [|]; [by apply returns_ret|].
  apply returns_bind with (Q1 := fun i s => P s /\ instances s !! vm = Some i).
  { apply returns_the. intros s Hs. destruct (proj2 (proj1 Hs) vm Hvm) as [x Hx].
    by exists x. }
  intros i.
  set (D' := fun k => D k \/ k ∈ S_children i).
  set (J := fun s => standing height depth D' s /\ I s /\ kin vm (S_children i) s).
  unfold when. destruct (negb (truthy (_inactive i)));
    [|apply returns_ret; by intros s [H _]].
  apply returns_bind with (Q1 := fun _ => J).
  { apply returns_modify. intros s [[HS HIs] Hi].
    pose proof (Hupd vm (with_inactive TTrue) (fun _ => eq_refl) (fun _ => eq_refl)
                  (fun _ => eq_refl) (fun _ => eq_refl) s (conj HS HIs))
      as [[Hs' Hd'] HI'].
    assert (alter (with_inactive TTrue) vm (instances s) !! vm
            = Some (with_inactive TTrue i)) as Hi'.
    { by rewrite lookup_alter_eq, Hi. }
    split; [|split; [done|by eexists]]. split; [done|].
    intros k [Hk|Hk]; [by apply Hd'|].
    destruct (Hs' vm _ Hi') as (_ & _ & Hc & _). by apply Hc. }
  intros _. apply returns_bind with (Q1 := fun _ => P).
  - apply returns_conseq with (P' := J) (Q' := fun _ => J); [|done|].
    + apply (returns_children_loop (fun _ => J) _ vm (S_children i));
        [by intros rest s (_ & _ & Hk)| |lia].
      intros done c rest Hl s Hs.
      assert (c ∈ S_children i) as Hin.
      { rewrite Hl, elem_of_app, elem_of_cons. by right; left. }
      assert (height c < n) as Hlow.
      { destruct Hs as ([Hsh _] & _ & x & Hx & Hc).
        destruct (Hsh vm x Hx) as (_ & _ & H3 & _). rewrite Hc in H3.
        destruct (H3 c Hin). lia. }
      destruct (IH (fun s => I s /\ kin vm (S_children i) s) D' c false
                  (children_only_kin I vm _ HI) (or_intror Hin) Hlow
                  ltac:(done) s) as (u & s' & Hrun & Hs').
      * destruct Hs as (? & ? & ?). split; [done|by split].
      * exists u, s'. split; [done|]. destruct Hs' as (? & ? & ?). by split.
    + intros _ s ([Hs Hd] & HIs & _). split; [|done]. split; [done|].
      intros k Hk. apply Hd. by left.
  - intros _. apply callHook_returns.
    + intros s s' Heq [HS HIs]. split; [by apply (standing_same height depth D s)|].
      by apply (proj1 HI s).
    + intros s [[Hs Hd] _]. destruct (Hd vm Hvm) as [x Hx]. exists x.
      destruct (Hs vm x Hx) as (H1 & H2 & _). done.
Qed.

(** X12: with hook handlers and [hook:] listeners that leave the tree
    fields alone ([user_keeps_tree]), deactivation keeps inactivity closed
    under [$children] and never reactivates anything; unless a direct call
    was stopped by an inactive ancestor, [vm] and everything below it is
    inactive afterwards.  It never throws, and on a tree without hook
    handlers it returns. *)
Theorem deactivation_closes_the_subtree (n : nat) (vm : vmid) (direct : bool)
    (s : world) :
  closed s ->
  match deactivateChildComponent fns efuel n vm direct s with
  | Ok _ s' =>
      closed s' /\
      (forall v, inactive_at s v -> inactive_at s' v) /\
      ((forall d, descendant s' vm d -> inactive_at s' d) \/
       (direct = true /\ exists a, ancestor s' vm a /\ inactive_at s' a))
  | Exn _ => False
  | Stuck => True
  end /\
  (forall height depth,
     shaped height depth s -> is_Some (instances s !! vm) ->
     height vm < n -> depth vm < n ->
     exists s', deactivateChildComponent fns efuel n vm direct s = Ok tt s').
Proof.
  intros Hcl. split; cycle 1.
  { intros height depth Hsh Hvm Hh Hd.
    destruct (deactivate_returns height depth n (fun _ => True) (fun k => k = vm)
                vm direct children_only_true eq_refl Hh (fun _ => Hd) s)
      as ([] & s' & H & _).
    - split; [|done]. split; [done|]. by intros k ->.
    - by exists s'. }
  assert (match deactivateChildComponent fns efuel n vm direct s with
          | Ok _ s' => closed s'
          | Exn _ => False
          | Stuck => True
          end) as H1.
  { destruct direct.
    - by apply (deactivate_closes_direct n vm (fun _ => False) s).
    - apply (deactivate_closes n vm (fun _ => False) s).
      revert Hcl. apply closed_except_weaken. by left. }
  pose proof (deactivate_marks n vm direct s I) as H2.
  assert (forall v, inactive_at s v ->
            match deactivateChildComponent fns efuel n vm direct s with
            | Ok _ s' => inactive_at s' v
            | Exn _ => False
            | Stuck => True
            end) as H3.
  { intros v Hv. by apply (inactive_at_deactivate v n vm direct s). }
  destruct (deactivateChildComponent fns efuel n vm direct s) as [u s'| |];
    [|done..].
  split; [done|]. split; [exact H3|].
  destruct H2 as [Hin|Hanc]; [left|by right].
  intros d Hd. by apply (closed_descendants s' vm d).
Qed.

(** ** The flags of parent and child agree *)

(** A child is inactive exactly when its parent is inactive or it was
    deactivated directly. *)
Definition agrees (xp xc : instance) : Prop :=
  truthy (_inactive xc) = truthy (_inactive xp) || _directInactive xc.

(** Every child listed in [$children] is there and points back with
    [$parent], and its flags agree with those of the parent, except for
    the children in [pending], which satisfy [G]. *)
Definition edges_ok (G : instance -> Prop) (pending : vmid -> Prop) (s : world)
    : Prop :=
  forall p xp c, instances s !! p = Some xp -> c ∈ S_children xp ->
    exists xc, instances s !! c = Some xc /\ S_parent xc = Some p /\
      (agrees xp xc \/ (pending c /\ G xc)).

Definition consistent (s : world) : Prop :=
  edges_ok (fun _ => True) (fun _ => False) s.

(** A directly deactivated instance is inactive. *)
Definition guarded (x : instance) : Prop :=
  _directInactive x = true -> truthy (_inactive x) = true.

Lemma edges_ok_weaken (G G' : instance -> Prop) (P Q : vmid -> Prop) s :
  (forall u, P u -> Q u) -> (forall x, G x -> G' x) ->
  edges_ok G P s -> edges_ok G' Q s.
Proof.
  intros HPQ HG H p xp c Hp Hc.
  destruct (H p xp c Hp Hc) as (xc & Hxc & Hpar & [Ha|[HP Hg]]);
    exists xc; split; [done| |done|]; (split; [done|]); [by left|right; auto].
Qed.

Lemma edges_ok_same G P s s' :
  instances s' = instances s -> edges_ok G P s -> edges_ok G P s'.
Proof. intros Heq H p xp c. rewrite Heq. apply H. Qed.

Lemma edges_ok_update G P f v s :
  (forall x, _inactive (f x) = _inactive x) ->
  (forall x, _directInactive (f x) = _directInactive x) ->
  (forall x, S_children (f x) = S_children x) ->
  (forall x, S_parent (f x) = S_parent x) ->
  (forall x, G x -> G (f x)) ->
  edges_ok G P s ->
  edges_ok G P (set_instances (alter f v (instances s)) s).
Proof.
  intros Hi Hd Hc Hp HG H p xp' c. simpl. intros Hlk Hin.
  assert (exists xp, instances s !! p = Some xp /\ _inactive xp' = _inactive xp /\
            S_children xp' = S_children xp) as (xp & Hxp & Hixp & Hcxp).
  { destruct (decide (v = p)) as [->|Hne].
    - rewrite lookup_alter_eq in Hlk. destruct (instances s !! p) as [x|]; [|done].
      injection Hlk as <-. exists x. by rewrite Hi, Hc.
    - rewrite lookup_alter_ne in Hlk by done. by exists xp'. }
  rewrite Hcxp in Hin. destruct (H p xp c Hxp Hin) as (xc & Hxc & Hpar & Hag).
  destruct (decide (v = c)) as [->|Hne].
  - exists (f xc). rewrite lookup_alter_eq, Hxc. split; [done|].
    rewrite Hp. split; [done|]. unfold agrees in *. rewrite Hi, Hd, Hixp.
    destruct Hag as [?|[? ?]]; [by left|right; auto].
  - exists xc. rewrite lookup_alter_ne by done. split; [done|]. split; [done|].
    unfold agrees in *. by rewrite Hixp.
Qed.

(** The pending child [vm] is done once every edge into it agrees. *)
Lemma edges_ok_done G P vm s :
  (forall p xp xc, instances s !! p = Some xp -> vm ∈ S_children xp ->
     instances s !! vm = Some xc -> agrees xp xc) ->
  edges_ok G (fun u => P u \/ u = vm) s -> edges_ok G P s.
Proof.
  intros Hag H p xp c Hp Hc.
  destruct (H p xp c Hp Hc) as (xc & Hxc & Hpar & [Ha|[[HP| ->] Hg]]);
    exists xc; split; [done| |done| |done|]; (split; [done|]);
    [by left|right; auto|left].
  by apply (Hag p xp xc).
Qed.

(** The parent is unique. *)
Lemma edges_ok_parent G P s p xp vm x :
  edges_ok G P s -> instances s !! p = Some xp -> vm ∈ S_children xp ->
  instances s !! vm = Some x -> S_parent x = Some p.
Proof.
  intros H Hp Hc Hx. destruct (H p xp vm Hp Hc) as (xc & Hxc & Hpar & _).
  congruence.
Qed.

(** Writing [_directInactive] of [vm] leaves the edges into [vm] to be
    checked. *)
Lemma edges_ok_flag G b vm s :
  edges_ok G (fun _ => False) s ->
  edges_ok (fun x => _directInactive x = b) (fun u => u = vm)
    (set_instances (alter (with_directInactive b) vm (instances s)) s).
Proof.
  intros H p xp' c. simpl. intros Hlk Hin.
  assert (exists xp, instances s !! p = Some xp /\ _inactive xp' = _inactive xp /\
            S_children xp' = S_children xp) as (xp & Hxp & Hixp & Hcxp).
  { destruct (decide (vm = p)) as [->|Hne].
    - rewrite lookup_alter_eq in Hlk. destruct (instances s !! p) as [x|]; [|done].
      injection Hlk as <-. by exists x.
    - rewrite lookup_alter_ne in Hlk by done. by exists xp'. }
  rewrite Hcxp in Hin.
  destruct (H p xp c Hxp Hin) as (xc & Hxc & Hpar & [Hag|[[] _]]).
  destruct (decide (vm = c)) as [->|Hne].
  - exists (with_directInactive b xc). rewrite lookup_alter_eq, Hxc.
    split; [done|]. split; [done|]. by right.
  - exists xc. rewrite lookup_alter_ne by done. split; [done|]. split; [done|].
    left. unfold agrees in *. by rewrite Hixp.
Qed.

(** An inactive ancestor makes the whole chain below it inactive, where
    the instances of the chain are listed among the children of their
    parents. *)
Lemma inactive_below G s vm a :
  edges_ok G (fun _ => False) s ->
  (forall c xc p, c = vm \/ ancestor s vm c -> instances s !! c = Some xc ->
     S_parent xc = Some p ->
     exists xp, instances s !! p = Some xp /\ c ∈ S_children xp) ->
  ancestor s vm a -> inactive_at s a -> inactive_at s vm.
Proof.
  intros H Hlink Ha Hin. revert Hlink.
  induction Ha as [v x p Hx Hp|v x p a Hx Hp Ha IH]; intros Hlink.
  - destruct (Hlink v x p (or_introl eq_refl) Hx Hp) as (xp & Hxp & Hc).
    destruct (H p xp v Hxp Hc) as (xc & Hxc & _ & [Hag|[[] _]]).
    destruct Hin as (y & Hy & Ht). rewrite Hxp in Hy. injection Hy as <-.
    exists xc. split; [done|]. unfold agrees in Hag. by rewrite Hag, Ht.
  - assert (inactive_at s p) as (y & Hy & Ht).
    { apply IH; [done|]. intros c xc q [->|Hc]; apply Hlink; right.
      - by eapply ancestor_parent.
      - by eapply ancestor_further. }
    destruct (Hlink v x p (or_introl eq_refl) Hx Hp) as (xp & Hxp & Hc).
    rewrite Hxp in Hy. injection Hy as <-.
    destruct (H p xp v Hxp Hc) as (xc & Hxc & _ & [Hag|[[] _]]).
    exists xc. split; [done|]. unfold agrees in Hag. by rewrite Hag, Ht.
Qed.

Lemma tree_inv_edges_ok G P : tree_pred G -> tree_inv (edges_ok G P).
Proof.
  intros HG s s' Ht H p xp' c Hp Hin.
  destruct (same_tree_lookup_inv s s' p xp' Ht Hp) as (xp & Hxp & Hf).
  unfold tree_fields in Hf.
  assert (c ∈ S_children xp) as Hin' by congruence.
  destruct (H p xp c Hxp Hin') as (xc & Hxc & Hpar & Hag).
  destruct (same_tree_lookup s s' c xc Ht Hxc) as (xc' & Hxc' & Hfc).
  exists xc'. split; [done|]. split.
  { unfold tree_fields in Hfc. congruence. }
  destruct Hag as [Hag|[HP Hg]]; [left|right; split; [done|by apply (HG xc)]].
  unfold agrees in *. unfold tree_fields in Hfc. congruence.
Qed.

Lemma edges_ok_callHook G P vm hook :
  tree_pred G ->
  hoare (edges_ok G P) (callHook fns efuel vm hook) (fun _ => edges_ok G P)
    (fun _ => False).
Proof. intros HG. apply tree_callHook; [done|by apply tree_inv_edges_ok]. Qed.

Lemma tree_pred_true : tree_pred (fun _ => True).
Proof. done. Qed.

Lemma tree_pred_guarded : tree_pred guarded.
Proof.
  intros x x' Hf. unfold guarded, tree_fields in *. intros Hg Hd.
  assert (_directInactive x = true) as Hd' by congruence.
  specialize (Hg Hd'). congruence.
Qed.

(** *** Deactivation *)

Let T := fun _ : instance => True.

(** Were [vm] inactive, the edges into it would agree. *)
Definition justified (s : world) (vm : vmid) : Prop :=
  forall p xp xc, instances s !! p = Some xp -> vm ∈ S_children xp ->
    instances s !! vm = Some xc ->
    truthy (_inactive xp) || _directInactive xc = true.

Lemma mark_inactive_edges P vm i s :
  instances s !! vm = Some i -> justified s vm ->
  edges_ok T (fun u => P u \/ u = vm) s ->
  edges_ok T (fun u => P u \/ u ∈ S_children i)
    (set_instances (alter (with_inactive TTrue) vm (instances s)) s).
Proof.
  intros Hi Hj H p xp' c. simpl. intros Hlk Hin.
  destruct (decide (vm = p)) as [<-|Hne].
  - rewrite lookup_alter_eq, Hi in Hlk. injection Hlk as <-. simpl in Hin.
    destruct (H vm i c Hi Hin) as (xc & Hxc & Hpar & _).
    destruct (decide (vm = c)) as [<-|Hc].
    + exists (with_inactive TTrue i). rewrite lookup_alter_eq, Hi.
      split; [done|]. rewrite Hi in Hxc. injection Hxc as <-. split; [done|].
      right. split; [by right|done].
    + exists xc. rewrite lookup_alter_ne by done. split; [done|]. split; [done|].
      right. split; [by right|done].
  - rewrite lookup_alter_ne in Hlk by done.
    destruct (H p xp' c Hlk Hin) as (xc & Hxc & Hpar & Hag).
    destruct (decide (vm = c)) as [<-|Hc].
    + exists (with_inactive TTrue i). rewrite lookup_alter_eq, Hi.
      rewrite Hi in Hxc. injection Hxc as <-. split; [done|]. split; [done|].
      left. unfold agrees. simpl. symmetry. by apply (Hj p xp' i).
    + exists xc. rewrite lookup_alter_ne by done. split; [done|]. split; [done|].
      destruct Hag as [?|[[?|?] ?]]; [by left|right; split; [by left|done]|congruence].
Qed.

Lemma justified_child G P vm c s :
  edges_ok G P s ->
  holds_at (fun x => truthy (_inactive x) = true /\ c ∈ S_children x) vm s ->
  justified s c.
Proof.
  intros H (x & Hx & Ht & Hc) p xp xc Hp Hin Hxc.
  pose proof (edges_ok_parent G P s p xp c xc H Hp Hin Hxc) as H1.
  pose proof (edges_ok_parent G P s vm x c xc H Hx Hc Hxc) as H2.
  assert (p = vm) as -> by congruence.
  rewrite Hx in Hp. injection Hp as <-. by rewrite Ht.
Qed.

Lemma deactivate_body n vm i P :
  (forall c Q,
     hoare (fun s => edges_ok T (fun u => Q u \/ u = c) s /\ justified s c)
       (deactivateChildComponent fns efuel n c false)
       (fun _ => edges_ok T Q) (fun _ => False)) ->
  hoare (fun s => edges_ok T (fun u => P u \/ u = vm) s /\ justified s vm /\
                  instances s !! vm = Some i)
    (when (negb (truthy (_inactive i)))
       (run update vm (with_inactive TTrue);
        run children_loop
              (fun c => deactivateChildComponent fns efuel n c false)
              (S (length (S_children i) + n)) vm 0;
        callHook fns efuel vm "deactivated"))
    (fun _ => edges_ok T P) (fun _ => False).
Proof.
  intros IH. unfold when. destruct (truthy (_inactive i)) eqn:Et; cbn [negb].
  { apply hoare_ret. intros s (H & Hj & Hi). apply (edges_ok_done T P vm); [|done].
    intros p xp xc Hp Hc Hxc. unfold agrees.
    rewrite (Hj p xp xc Hp Hc Hxc). rewrite Hi in Hxc. by injection Hxc as <-. }
  set (phi := fun x => truthy (_inactive x) = true /\ S_children x = S_children i).
  set (J := fun (rest : list vmid) s =>
              edges_ok T (fun u => P u \/ u ∈ rest) s /\ holds_at phi vm s).
  apply hoare_bind with (Q1 := fun _ => J (S_children i)).
  { apply hoare_modify. intros s (H & Hj & Hi). split.
    - by apply mark_inactive_edges.
    - exists (with_inactive TTrue i). simpl. by rewrite lookup_alter_eq, Hi. }
  intros _. apply hoare_bind with (Q1 := fun _ => edges_ok T P);
    [|intros _; apply edges_ok_callHook, tree_pred_true].
  apply hoare_conseq with (P' := J (S_children i)) (Q' := fun _ => J [])
    (E' := fun _ => False); [|done| |done].
  - apply (hoare_children_loop J).
    { intros rest s [_ (x & Hx & _ & Hc)]. by exists x. }
    intros done c rest Hl.
    assert (c ∈ S_children i) as Hin.
    { rewrite Hl, elem_of_app, elem_of_cons. by right; left. }
    apply hoare_conseq with
      (P' := fun s => (edges_ok T (fun u => (P u \/ u ∈ rest) \/ u = c) s /\
                       justified s c) /\ holds_at phi vm s)
      (Q' := fun _ => J rest) (E' := fun _ => False); [| |done|done].
    + apply hoare_conj; [apply IH|]. apply holds_at_deactivate.
      * intros x x' Hf [? ?]. unfold tree_fields in Hf. split; congruence.
      * by intros x [? ?].
      * by intros x [? ?].
    + intros s [H HM]. split; [|done]. split.
      * revert H. apply edges_ok_weaken; [|done]. intros u0 [?|Hu]; [by left; left|].
        apply elem_of_cons in Hu as [->|?]; [by right|by left; right].
      * apply (justified_child T _ vm c s H).
        destruct HM as (x & Hx & Ht & Hc). exists x. split; [done|].
        split; [done|]. by rewrite Hc.
  - intros _ s [H _]. revert H. apply edges_ok_weaken; [|done].
    intros u [?|Hu]; [done|by apply elem_of_nil in Hu].
Qed.

Lemma deactivate_agrees n : forall vm P,
  hoare (fun s => edges_ok T (fun u => P u \/ u = vm) s /\ justified s vm)
    (deactivateChildComponent fns efuel n vm false)
    (fun _ => edges_ok T P) (fun _ => False).
Proof.
  induction n as [|n IH]; intros vm P; [by intros s _|].
  cbn [deactivateChildComponent].
  intros s [H Hj]. unfold bind at 1. unfold ret at 1. unfold bind at 1. unfold the at 1.
  destruct (instances s !! vm) as [i|] eqn:Hi; [|done].
  by apply (deactivate_body n vm i P IH s).
Qed.

(** *** Activation *)

(** Were [vm] active and not directly deactivated, the edges into it
    would agree. *)
Definition uncovered (s : world) (vm : vmid) : Prop :=
  forall p xp, p <> vm -> instances s !! p = Some xp -> vm ∈ S_children xp ->
    truthy (_inactive xp) = false.

Lemma guarded_agrees xp xc : agrees xp xc -> guarded xc.
Proof. unfold agrees, guarded. intros -> ->. apply orb_true_r. Qed.

Lemma mark_active_edges P vm i s :
  instances s !! vm = Some i -> _directInactive i = false -> uncovered s vm ->
  edges_ok guarded (fun u => P u \/ u = vm) s ->
  edges_ok guarded (fun u => P u \/ u ∈ S_children i)
    (set_instances (alter (with_inactive TFalse) vm (instances s)) s).
Proof.
  intros Hi Hd Hu H p xp' c. simpl. intros Hlk Hin.
  destruct (decide (vm = p)) as [<-|Hne].
  - rewrite lookup_alter_eq, Hi in Hlk. injection Hlk as <-. simpl in Hin.
    destruct (H vm i c Hi Hin) as (xc & Hxc & Hpar & Hag).
    destruct (decide (vm = c)) as [<-|Hc].
    + exists (with_inactive TFalse i). rewrite lookup_alter_eq, Hi.
      rewrite Hi in Hxc. injection Hxc as <-. split; [done|]. split; [done|].
      left. unfold agrees. simpl. by rewrite Hd.
    + exists xc. rewrite lookup_alter_ne by done. split; [done|]. split; [done|].
      right. split; [by right|].
      destruct Hag as [Hag|[_ Hg]]; [by apply (guarded_agrees i)|done].
  - rewrite lookup_alter_ne in Hlk by done.
    destruct (H p xp' c Hlk Hin) as (xc & Hxc & Hpar & Hag).
    destruct (decide (vm = c)) as [<-|Hc].
    + exists (with_inactive TFalse i). rewrite lookup_alter_eq, Hi.
      rewrite Hi in Hxc. injection Hxc as <-. split; [done|]. split; [done|].
      left. unfold agrees. simpl. rewrite Hd, (Hu p xp'); [done|congruence|done..].
    + exists xc. rewrite lookup_alter_ne by done. split; [done|]. split; [done|].
      destruct Hag as [?|[[?|?] ?]]; [by left|right; split; [by left|done]|congruence].
Qed.

Lemma uncovered_child G P vm c s :
  edges_ok G P s ->
  holds_at (fun x => _inactive x = TFalse /\ c ∈ S_children x) vm s ->
  uncovered s c.
Proof.
  intros H (x & Hx & Ht & Hc) p xp Hne Hp Hin.
  destruct (H p xp c Hp Hin) as (xc & Hxc & H1 & _).
  pose proof (edges_ok_parent G P s vm x c xc H Hx Hc Hxc) as H2.
  assert (p = vm) as -> by congruence.
  rewrite Hx in Hp. injection Hp as <-. by rewrite Ht.
Qed.

Lemma activate_body n vm i P :
  (forall c Q,
     hoare (fun s => edges_ok guarded (fun u => Q u \/ u = c) s /\ uncovered s c)
       (activateChildComponent fns efuel n c false)
       (fun _ => edges_ok guarded Q) (fun _ => False)) ->
  hoare (fun s => edges_ok guarded (fun u => P u \/ u = vm) s /\ uncovered s vm /\
                  instances s !! vm = Some i /\ _directInactive i = false)
    (when (match _inactive i with TFalse => false | _ => true end)
       (run update vm (with_inactive TFalse);
        run children_loop
              (fun c => activateChildComponent fns efuel n c false)
              (S (length (S_children i) + n)) vm 0;
        callHook fns efuel vm "activated"))
    (fun _ => edges_ok guarded P) (fun _ => False).
Proof.
  intros IH. unfold when.
  destruct (match _inactive i with TFalse => false | _ => true end) eqn:Et.
  2:{ apply hoare_ret. intros s (H & Hu & Hi & Hd).
      apply (edges_ok_done guarded P vm); [|done].
      intros p xp xc Hp Hc Hxc. unfold agrees.
      rewrite Hi in Hxc. injection Hxc as <-. rewrite Hd.
      destruct (decide (p = vm)) as [->|Hne].
      - rewrite Hi in Hp. injection Hp as <-. by rewrite orb_false_r.
      - rewrite (Hu p xp Hne Hp Hc). by destruct (_inactive i). }
  set (phi := fun x => _inactive x = TFalse /\ S_children x = S_children i).
  set (J := fun (rest : list vmid) s =>
              edges_ok guarded (fun u => P u \/ u ∈ rest) s /\ holds_at phi vm s).
  apply hoare_bind with (Q1 := fun _ => J (S_children i)).
  { apply hoare_modify. intros s (H & Hu & Hi & Hd). split.
    - by apply mark_active_edges.
    - exists (with_inactive TFalse i). simpl. by rewrite lookup_alter_eq, Hi. }
  intros _. apply hoare_bind with (Q1 := fun _ => edges_ok guarded P);
    [|intros _; apply edges_ok_callHook, tree_pred_guarded].
  apply hoare_conseq with (P' := J (S_children i)) (Q' := fun _ => J [])
    (E' := fun _ => False); [|done| |done].
  - apply (hoare_children_loop J).
    { intros rest s [_ (x & Hx & _ & Hc)]. by exists x. }
    intros done c rest Hl.
    assert (c ∈ S_children i) as Hin.
    { rewrite Hl, elem_of_app, elem_of_cons. by right; left. }
    apply hoare_conseq with
      (P' := fun s => (edges_ok guarded (fun u => (P u \/ u ∈ rest) \/ u = c) s /\
                       uncovered s c) /\ holds_at phi vm s)
      (Q' := fun _ => J rest) (E' := fun _ => False); [| |done|done].
    + apply hoare_conj; [apply IH|]. apply holds_at_activate.
      * intros x x' Hf [? ?]. unfold tree_fields in Hf. split; congruence.
      * by intros x [? ?].
      * by intros x [? ?].
    + intros s [H HM]. split; [|done]. split.
      * revert H. apply edges_ok_weaken; [|done]. intros u0 [?|Hu]; [by left; left|].
        apply elem_of_cons in Hu as [->|?]; [by right|by left; right].
      * apply (uncovered_child guarded _ vm c s H).
        destruct HM as (x & Hx & Ht & Hc). exists x. split; [done|].
        split; [done|]. by rewrite Hc.
  - intros _ s [H _]. revert H. apply edges_ok_weaken; [|done].
    intros u [?|Hu]; [done|by apply elem_of_nil in Hu].
Qed.

Lemma activate_agrees n : forall vm P,
  hoare (fun s => edges_ok guarded (fun u => P u \/ u = vm) s /\ uncovered s vm)
    (activateChildComponent fns efuel n vm false)
    (fun _ => edges_ok guarded P) (fun _ => False).
Proof.
  induction n as [|n IH]; intros vm P; [by intros s _|].
  cbn [activateChildComponent].
  intros s [H Hu]. unfold bind at 1. unfold bind at 1. unfold the at 1.
  destruct (instances s !! vm) as [i|] eqn:Hi; [|done].
  unfold ret at 1. destruct (_directInactive i) eqn:Hd.
  - unfold ret. apply (edges_ok_done guarded P vm); [|done].
    intros p xp xc Hp Hc Hxc.
    destruct (H p xp vm Hp Hc) as (xc' & Hxc' & _ & [Hag|[_ Hg]]);
      rewrite Hxc in Hxc'; injection Hxc' as <-; [done|].
    rewrite Hi in Hxc. injection Hxc as <-.
    unfold agrees. rewrite Hd, (Hg Hd). by rewrite orb_true_r.
  - unfold bind at 1. unfold the at 1. rewrite Hi.
    by apply (activate_body n vm i P IH s).
Qed.

(** *** Calls from outside *)

(** [vm] and the instances above it are listed among the children of
    their parents. *)
Definition listed (s : world) (vm : vmid) : Prop :=
  forall c xc p, c = vm \/ ancestor s vm c -> instances s !! c = Some xc ->
    S_parent xc = Some p ->
    exists xp, instances s !! p = Some xp /\ c ∈ S_children xp.

Lemma inactive_above s vm a x p :
  consistent s -> listed s vm -> ancestor s vm a -> inactive_at s a ->
  instances s !! vm = Some x -> S_parent x = Some p -> inactive_at s p.
Proof.
  intros Hc Hl Ha Hin Hx Hp.
  inversion Ha as [v x' p' Hx' Hp'|v x' p' a' Hx' Hp' Ha']; subst;
    rewrite Hx in Hx'; injection Hx' as <-;
    rewrite Hp in Hp'; injection Hp' as <-; [done|].
  apply (inactive_below (fun _ => True) s p a); [done| |done..].
  intros c xc q [->|Hcc]; apply Hl; right.
  - by eapply ancestor_parent.
  - by eapply ancestor_further.
Qed.

Lemma deactivate_direct_agrees n vm s :
  consistent s -> listed s vm ->
  match deactivateChildComponent fns efuel n vm true s with
  | Ok _ s' => consistent s'
  | Exn _ => False
  | Stuck => True
  end.
Proof.
  intros Hc Hl. destruct n as [|n]; [done|].
  cbn [deactivateChildComponent]. unfold bind at 1. unfold bind at 1.
  unfold update at 1, modify at 1.
  set (s1 := set_instances (alter (with_directInactive true) vm (instances s)) s).
  pose proof (isInInactiveTree_sound (S n) vm s1) as Hw.
  destruct (isInInactiveTree (S n) vm s1) as [b s1'| |] eqn:Ew; [|done..].
  destruct Hw as (-> & Ht & Hf).
  assert (edges_ok (fun _ => True) (fun u => False \/ u = vm) s1) as H1.
  { eapply edges_ok_weaken; [| |apply (edges_ok_flag _ true vm s Hc)];
      [by right|done]. }
  assert (exists x, instances s !! vm = Some x) as [x Hx].
  { destruct (instances s !! vm) as [x|] eqn:Ex; [by exists x|].
    exfalso. cbn [isInInactiveTree] in Ew. unfold bind, the in Ew.
    unfold s1 in Ew. simpl in Ew. by rewrite lookup_alter_eq, Ex in Ew. }
  assert (instances s1 !! vm = Some (with_directInactive true x)) as Hx1.
  { unfold s1. simpl. by rewrite lookup_alter_eq, Hx. }
  assert (justified s1 vm) as Hj.
  { intros p xp xc _ _ Hxc. rewrite Hx1 in Hxc. injection Hxc as <-.
    apply orb_true_r. }
  destruct b.
  - unfold ret. destruct (Ht eq_refl) as (a & Ha & Hin).
    apply ancestor_upd_inv in Ha; [|done..]. apply inactive_upd_inv in Hin; [|done..].
    destruct (inactive_below (fun _ => True) s vm a Hc Hl Ha Hin) as (x' & Hx' & Htx).
    rewrite Hx in Hx'. injection Hx' as <-.
    apply (edges_ok_done _ _ vm s1); [|done].
    intros p xp xc Hp Hcc Hxc. rewrite Hx1 in Hxc. injection Hxc as <-.
    unfold agrees. simpl. rewrite Htx. by rewrite orb_true_r.
  - unfold bind at 1. unfold the at 1. rewrite Hx1.
    apply (deactivate_body n vm _ (fun _ => False) (deactivate_agrees n) s1).
    by split.
Qed.

Lemma activate_direct_agrees n vm s :
  consistent s -> listed s vm ->
  match activateChildComponent fns efuel n vm true s with
  | Ok _ s' => consistent s'
  | Exn _ => False
  | Stuck => True
  end.
Proof.
  intros Hc Hl. destruct n as [|n]; [done|].
  cbn [activateChildComponent]. unfold bind at 1. unfold bind at 1.
  unfold update at 1, modify at 1.
  set (s1 := set_instances (alter (with_directInactive false) vm (instances s)) s).
  pose proof (isInInactiveTree_sound (S n) vm s1) as Hw.
  destruct (isInInactiveTree (S n) vm s1) as [b s1'| |] eqn:Ew; [|done..].
  destruct Hw as (-> & Ht & Hf).
  assert (edges_ok guarded (fun u => False \/ u = vm) s1) as H1.
  { eapply edges_ok_weaken; [| |apply (edges_ok_flag _ false vm s Hc)];
      [by right|]. intros x Hx. unfold guarded. by rewrite Hx. }
  assert (exists x, instances s !! vm = Some x) as [x Hx].
  { destruct (instances s !! vm) as [x|] eqn:Ex; [by exists x|].
    exfalso. cbn [isInInactiveTree] in Ew. unfold bind, the in Ew.
    unfold s1 in Ew. simpl in Ew. by rewrite lookup_alter_eq, Ex in Ew. }
  assert (instances s1 !! vm = Some (with_directInactive false x)) as Hx1.
  { unfold s1. simpl. by rewrite lookup_alter_eq, Hx. }
  assert (match (if b then ret tt else
                 do i <- the vm;
                 when (match _inactive i with TFalse => false | _ => true end)
                   (run update vm (with_inactive TFalse);
                    run children_loop
                          (fun c => activateChildComponent fns efuel n c false)
                          (S (length (S_children i) + n)) vm 0;
                    callHook fns efuel vm "activated")) s1 with
          | Ok _ s' => edges_ok guarded (fun _ => False) s'
          | Exn _ => False
          | Stuck => True
          end) as Hres.
  { destruct b.
    - unfold ret. destruct (Ht eq_refl) as (a & Ha & Hin).
      apply ancestor_upd_inv in Ha; [|done..]. apply inactive_upd_inv in Hin; [|done..].
      destruct (inactive_below (fun _ => True) s vm a Hc Hl Ha Hin) as (x' & Hx' & Htx).
      rewrite Hx in Hx'. injection Hx' as <-.
      apply (edges_ok_done _ _ vm s1); [|done].
      intros p xp xc Hp Hcc Hxc. rewrite Hx1 in Hxc. injection Hxc as <-.
      unfold agrees. simpl. rewrite Htx, orb_false_r.
      destruct (decide (p = vm)) as [->|Hne].
      + rewrite Hx1 in Hp. injection Hp as <-. by simpl.
      + pose proof (edges_ok_parent _ _ s1 p xp vm _ H1 Hp Hcc Hx1) as Hpar.
        simpl in Hpar.
        destruct (inactive_above s vm a x p Hc Hl Ha Hin Hx Hpar) as (y & Hy & Hty).
        unfold s1 in Hp. simpl in Hp. rewrite lookup_alter_ne in Hp by done.
        rewrite Hy in Hp. injection Hp as <-. done.
    - unfold bind at 1. unfold the at 1. rewrite Hx1.
      apply (activate_body n vm _ (fun _ => False) (activate_agrees n) s1).
      split; [done|]. split; [|by split].
      intros p xp Hne Hp Hcc.
      pose proof (edges_ok_parent _ _ s1 p xp vm _ H1 Hp Hcc Hx1) as Hpar.
      destruct (truthy (_inactive xp)) eqn:Etp; [|done]. exfalso.
      apply (Hf eq_refl p).
      + by apply (ancestor_parent s1 vm (with_directInactive false x) p).
      + by exists xp. }
  destruct ((if b then ret tt else _) s1) as [u s'| |]; [|done..].
  revert Hres. by apply edges_ok_weaken.
Qed.


(** ** What activation reaches *)

(** [d] is [v], or is reached from it through [$children] lists without
    passing or arriving at a directly deactivated instance. *)
Inductive open_path (s : world) : vmid -> vmid -> Prop :=
  | open_path_self v : open_path s v v
  | open_path_child v x c xc d :
      instances s !! v = Some x -> c ∈ S_children x ->
      instances s !! c = Some xc -> _directInactive xc = false ->
      open_path s c d -> open_path s v d.

Lemma consistent_open_path s v d :
  consistent s -> open_path s v d -> ~ inactive_at s v -> ~ inactive_at s d.
Proof.
  intros Hc Hp. induction Hp as [v|v x c xc d Hx Hin Hxc Hd _ IH]; [done|].
  intros Hv. apply IH. intros (xc' & Hxc' & Ht). rewrite Hxc in Hxc'.
  injection Hxc' as <-.
  destruct (Hc v x c Hx Hin) as (y & Hy & _ & [Hag|[[] _]]).
  rewrite Hxc in Hy. injection Hy as <-. unfold agrees in Hag.
  rewrite Ht, Hd, orb_false_r in Hag. apply Hv. by exists x.
Qed.

(** Past the check of the ancestors, [vm] ends up active. *)
Lemma activate_marks n vm :
  hoare (fun _ => True)
    (activateChildComponent fns efuel n vm true)
    (fun _ s => holds_at (fun x => _inactive x = TFalse) vm s \/
                exists a, ancestor s vm a /\ inactive_at s a)
    (fun _ => False).
Proof.
  destruct n as [|n]; [by intros s _|]. cbn [activateChildComponent].
  apply hoare_bind with
    (Q1 := fun stop s => stop = true ->
             exists a, ancestor s vm a /\ inactive_at s a).
  { apply hoare_bind with (Q1 := fun _ _ => True); [by apply hoare_modify|].
    intros _ s _. pose proof (isInInactiveTree_sound (S n) vm s) as Hwalk.
    destruct (isInInactiveTree (S n) vm s) as [b s'| |]; [|done..].
    destruct Hwalk as (-> & Hwalk & _). intros Hb. by apply Hwalk. }
  intros [|].
  { apply hoare_ret. intros s H. right. by apply H. }
  apply hoare_bind with (Q1 := fun i s => instances s !! vm = Some i).
  { by apply hoare_the. }
  intros i. unfold when.
  destruct (match _inactive i with TFalse => false | _ => true end) eqn:Et.
  2:{ apply hoare_ret. intros s Hi. left. exists i. split; [done|].
      by destruct (_inactive i). }
  apply hoare_conseq with (P' := fun s => instances s !! vm = Some i)
    (Q' := fun _ s => holds_at (fun x => _inactive x = TFalse) vm s)
    (E' := fun _ => False); [|done| |done].
  2:{ intros _ s H. by left. }
  apply hoare_bind with
    (Q1 := fun _ s => holds_at (fun x => _inactive x = TFalse) vm s).
  { apply hoare_modify. intros s Hi. exists (with_inactive TFalse i).
    simpl. by rewrite lookup_alter_eq, Hi. }
  assert (tree_pred (fun x => _inactive x = TFalse)) as Hphi.
  { intros x x' Hf. unfold tree_fields in Hf. congruence. }
  intros _. apply keeps_bind; [|intros _; by apply holds_at_callHook].
  apply keeps_children_loop. intros c. by apply holds_at_activate.
Qed.

(** X25: with hook handlers and [hook:] listeners that leave the tree
    fields alone ([user_keeps_tree]), after a direct activation that was
    not stopped by an inactive ancestor, [vm] is active and so is every
    instance reached from it through [$children] without meeting a
    directly deactivated one. *)
Theorem activation_reaches_what_is_not_shielded (n : nat) (vm : vmid) (s : world) :
  consistent s ->
  listed s vm ->
  match activateChildComponent fns efuel n vm true s with
  | Ok _ s' =>
      (forall d, open_path s' vm d -> ~ inactive_at s' d) \/
      (exists a, ancestor s' vm a /\ inactive_at s' a)
  | Exn _ => False
  | Stuck => True
  end.
Proof.
  intros Hc Hl.
  pose proof (activate_direct_agrees n vm s Hc Hl) as H1.
  pose proof (activate_marks n vm s I) as H2.
  destruct (activateChildComponent fns efuel n vm true s) as [u s'| |]; [|done..].
  destruct H2 as [(x & Hx & Ht)|Ha]; [left|by right].
  intros d Hd. apply (consistent_open_path s' vm d H1 Hd).
  intros (x' & Hx' & Ht'). rewrite Hx in Hx'. injection Hx' as <-.
  by rewrite Ht in Ht'.
Qed.

End TreeWalks.

(** ** [initLifecycle] *)

(** The loop [while (parent.$options.abstract && parent.$parent)
    parent = parent.$parent], following at most [n] parent links. *)
Fixpoint skip_abstract (n : nat) (parent : vmid) : M vmid :=
  match n with
  | 0 => fun _ => Stuck
  | S n' =>
      do pi <- the parent;
      match opt_abstract pi, S_parent pi with
      | true, Some q => skip_abstract n' q
      | _, _ => ret parent
      end
  end.

(** The fields [initLifecycle] writes. *)
Definition with_lifecycle (parent : option vmid) (i : instance) : instance :=
  Instance parent [] (S_el i) (S_vnode i) (_vnode i) None (_watchers i)
    TNull false false false false (opt_abstract i) (opt_hooks i)
    (data_ob i) (events i).

(** [initLifecycle(vm)], with [options.parent] given by [parent].  The
    assignments to [$root] and [$refs], which the instance record does not
    carry, are left out. *)
Definition initLifecycle (n : nat) (vm : vmid) (parent : option vmid) : M unit :=
  do i <- the vm;
  do parent' <-
    match parent with
    | Some p =>
        if negb (opt_abstract i)
        then do q <- skip_abstract n p;
             run update q (fun x => with_children (S_children x ++ [vm]) x);
             ret (Some q)
        else ret (Some p)
    | None => ret None
    end;
  update vm (with_lifecycle parent').

(** [q] is where an instance created under [p] is attached: the first
    instance on the parent chain of [p], [p] included, that is not abstract
    or has no parent; [k] links lead to it. *)
Inductive attach_point (s : world) : vmid -> vmid -> nat -> Prop :=
  | attach_here p x :
      instances s !! p = Some x ->
      opt_abstract x = false \/ S_parent x = None ->
      attach_point s p p 0
  | attach_above p x g q k :
      instances s !! p = Some x -> opt_abstract x = true ->
      S_parent x = Some g -> attach_point s g q k ->
      attach_point s p q (S k).

Lemma skip_abstract_spec s p q k n :
  attach_point s p q k -> k < n -> skip_abstract n p s = Ok q s.
Proof.
  intros H. revert n. induction H as [p x Hx Hor|p x g q k Hx Ha Hp _ IH];
    intros n Hn; (destruct n as [|n]; [lia|]); simpl; unfold bind, the; rewrite Hx.
  - destruct Hor as [-> | ->]; [done|]. by destruct (opt_abstract x).
  - rewrite Ha, Hp. apply IH. lia.
Qed.

(** X14: [initLifecycle] makes a non-abstract instance created under [p]
    the last child of the nearest instance on the parent chain of [p] that
    is not abstract (or of the topmost one), makes that instance its
    [$parent], resets its lifecycle flags, and touches no other instance. *)
Theorem initLifecycle_attaches (n k : nat) (vm p q : vmid) (i xq : instance)
    (s : world) :
  instances s !! vm = Some i ->
  opt_abstract i = false ->
  attach_point s p q k ->
  k < n ->
  q <> vm ->
  instances s !! q = Some xq ->
  exists s',
    initLifecycle n vm (Some p) s = Ok tt s' /\
    instances s' !! vm = Some (with_lifecycle (Some q) i) /\
    instances s' !! q = Some (with_children (S_children xq ++ [vm]) xq) /\
    (opt_abstract xq = false \/ S_parent xq = None) /\
    (forall j, j <> vm -> j <> q -> instances s' !! j = instances s !! j).
Proof.
  intros Hi Ha Hat Hk Hne Hq.
  eexists. split.
  { unfold initLifecycle, bind, the. rewrite Hi, Ha. simpl.
    rewrite (skip_abstract_spec s p q k n Hat Hk). reflexivity. }
  simpl. split; [|split; [|split]].
  - rewrite lookup_alter_eq, lookup_alter_ne, Hi by done. done.
  - rewrite lookup_alter_ne, lookup_alter_eq, Hq by done. done.
  - clear Hk. induction Hat as [p x Hx Hor|p x g q k Hx Hab Hp Hat IH]; [|by apply IH].
    rewrite Hq in Hx. by injection Hx as <-.
  - intros j H1 H2. by rewrite !lookup_alter_ne.
Qed.

(** X15: an abstract instance, or one created without a parent, is added
    to no [$children] list: [initLifecycle] keeps [options.parent] as its
    [$parent] without walking up, and changes no other instance. *)
Theorem initLifecycle_abstract_not_listed (n : nat) (vm : vmid)
    (parent : option vmid) (i : instance) (s : world) :
  instances s !! vm = Some i ->
  opt_abstract i = true \/ parent = None ->
  exists s',
    initLifecycle n vm parent s = Ok tt s' /\
    instances s' !! vm = Some (with_lifecycle parent i) /\
    (forall j, j <> vm -> instances s' !! j = instances s !! j).
Proof.
  intros Hi Hor. eexists. split.
  { unfold initLifecycle, bind, the. rewrite Hi.
    destruct Hor as [-> | ->]; [destruct parent|]; reflexivity. }
  destruct Hor as [Ha | ->]; [destruct parent|]; simpl;
    (split; [by rewrite lookup_alter_eq, Hi|]);
    intros j Hj; by rewrite lookup_alter_ne.
Qed.

Section Update.

Variable patch : vmid -> patch_args -> world -> world * presult.

(** X16: when [_update] returns, [patch] was called on the instance with
    the new tree already stored and [activeInstance] naming it, with
    the element on a first render and the previous tree afterwards; [$el]
    is what [patch] returned, that element points back at the instance, the
    previous element, if another, points nowhere, and a parent whose tree is
    the placeholder of the instance has its [$el] moved along. *)
Theorem update_rebinds_element (vm : vmid) (vnode : vnid) (hydrating : bool)
    (s s' : world) (i : instance) :
  instances s !! vm = Some i ->
  _update patch vm vnode hydrating s = Ok tt s' ->
  exists el st1 st2 i',
    patch vm
      (match _vnode i with
       | None => PatchInit (S_el i) vnode hydrating
       | Some pv => Patch2 (Some pv) (Some vnode)
       end) st1 = (st2, PReturn el) /\
    activeInstance st1 = Some vm /\
    instances st1 !! vm = Some (with_vnode (Some vnode) i) /\
    instances s' !! vm = Some i' /\
    S_el i' = el /\
    (forall e, el = Some e -> el_vue s' !! e = Some (Some vm)) /\
    (forall e0, S_el i = Some e0 -> el <> Some e0 -> el_vue s' !! e0 = Some None) /\
    (forall v p xp, S_vnode i' = Some v -> S_parent i' = Some p ->
       instances s' !! p = Some xp -> _vnode xp = Some v -> S_el xp = el).
Proof.
  intros Hi H. unfold _update in H. unfold bind at 1, the at 1 in H. rewrite Hi in H.
  unfold bind at 1, setActiveInstance, bind, read, modify, ret, update, modify in H.
  simpl in H.
  set (args := match _vnode i with
               | None => PatchInit (S_el i) vnode hydrating
               | Some pv => Patch2 (Some pv) (Some vnode)
               end).
  set (s0 := set_instances (alter (with_vnode (Some vnode)) vm (instances s))
               (set_activeInstance (Some vm) s)) in H.
  assert (match _vnode i with
          | Some pv => call_patch patch vm (Patch2 (Some pv) (Some vnode))
          | None => call_patch patch vm (PatchInit (S_el i) vnode hydrating)
          end = call_patch patch vm args) as Hc by (unfold args; by destruct (_vnode i)).
  rewrite Hc in H. clear Hc. unfold call_patch in H.
  destruct (patch vm args (add_trace (TPatch vm args) s0)) as [st2 [el|]] eqn:Ep;
    [|done].
  cbv beta iota in H.
  exists el, (add_trace (TPatch vm args) s0), st2.
  set (s3 := set_activeInstance (activeInstance s)
               (set_instances (alter (with_el el) vm (instances st2)) st2)) in H.
  set (s4 := match S_el i with
             | Some e => set_el_vue (<[e:=None]> (el_vue s3)) s3
             | None => s3
             end).
  assert (match S_el i return M unit with
          | Some e => fun st : world => Ok () (set_el_vue (<[e:=None]> (el_vue st)) st)
          | None => fun st : world => Ok () st
          end s3 = Ok tt s4) as Hc by (unfold s4; by destruct (S_el i)).
  rewrite Hc in H. clear Hc.
  assert (instances s4 = alter (with_el el) vm (instances st2)) as Hi4.
  { unfold s4. by destruct (S_el i). }
  unfold the in H. rewrite Hi4, lookup_alter_eq in H.
  destruct (instances st2 !! vm) as [i2|] eqn:Hi2; [|done]. simpl in H.
  set (s5 := match el with
             | Some e => set_el_vue (<[e:=Some vm]> (el_vue s4)) s4
             | None => s4
             end).
  assert (match el return M unit with
          | Some e => fun st : world => Ok () (set_el_vue (<[e:=Some vm]> (el_vue st)) st)
          | None => fun st : world => Ok () st
          end s4 = Ok tt s5) as Hc by (unfold s5; by destruct el).
  rewrite Hc in H. clear Hc.
  assert (instances s5 = alter (with_el el) vm (instances st2)) as Hi5.
  { unfold s5. by destruct el. }
  assert (forall e, el = Some e -> el_vue s5 !! e = Some (Some vm)) as Hv1.
  { intros e ->. unfold s5. simpl. by rewrite lookup_insert_eq. }
  assert (forall e0, S_el i = Some e0 -> el <> Some e0 ->
            el_vue s5 !! e0 = Some None) as Hv2.
  { intros e0 He0 Hne. unfold s5, s4. rewrite He0. destruct el as [e|]; simpl.
    - rewrite lookup_insert_ne by congruence. by rewrite lookup_insert_eq.
    - by rewrite lookup_insert_eq. }
  assert (instances s5 !! vm = Some (with_el el i2)) as Hvm5.
  { by rewrite Hi5, lookup_alter_eq, Hi2. }
  assert (forall s6, instances s6 = instances s5 -> el_vue s6 = el_vue s5 ->
            (forall v p xp, S_vnode i2 = Some v -> S_parent i2 = Some p ->
               instances s6 !! p = Some xp -> _vnode xp = Some v -> S_el xp = el) ->
            s6 = s' ->
            exists i', patch vm args (add_trace (TPatch vm args) s0) = (st2, PReturn el) /\
              activeInstance (add_trace (TPatch vm args) s0) = Some vm /\
              instances (add_trace (TPatch vm args) s0) !! vm
              = Some (with_vnode (Some vnode) i) /\
              instances s' !! vm = Some i' /\ S_el i' = el /\
              (forall e, el = Some e -> el_vue s' !! e = Some (Some vm)) /\
              (forall e0, S_el i = Some e0 -> el <> Some e0 ->
                 el_vue s' !! e0 = Some None) /\
              (forall v p xp, S_vnode i' = Some v -> S_parent i' = Some p ->
                 instances s' !! p = Some xp -> _vnode xp = Some v -> S_el xp = el))
    as Hsame.
  { intros s6 H6 H6' Hh <-. exists (with_el el i2). split; [done|]. split; [done|].
    split; [simpl; by rewrite lookup_alter_eq, Hi|].
    split; [by rewrite H6|]. split; [done|]. rewrite H6'. split; [done|].
    split; [done|]. exact Hh. }
  simpl in H. destruct (S_vnode i2) as [v|] eqn:Ev.
  2:{ apply (Hsame s5); [done..| |congruence]. by intros. }
  destruct (S_parent i2) as [p|] eqn:Epar.
  2:{ apply (Hsame s5); [done..| |congruence]. by intros. }
  rewrite Hi5 in H.
  destruct (alter (with_el el) vm (instances st2) !! p) as [a3|] eqn:Ea3; [|done].
  unfold when in H. case_bool_decide as Hb.
  - injection H as <-. exists (with_el el i2). split; [done|]. split; [done|].
    split; [simpl; by rewrite lookup_alter_eq, Hi|].
    simpl. rewrite Hi5. split; [|split; [done|split; [done|split; [done|]]]].
    + destruct (decide (p = vm)) as [->|Hne].
      * rewrite lookup_alter_eq, lookup_alter_eq, Hi2. done.
      * by rewrite lookup_alter_ne, lookup_alter_eq, Hi2.
    + simpl. rewrite Ev, Epar. intros v' p' xp [= <-] [= <-].
      rewrite lookup_alter_eq, Ea3. simpl. by intros [= <-].
  - apply (Hsame s5); [done..| |unfold ret in H; congruence].
    intros v' p' xp [= <-] [= <-]. rewrite Hi5, Ea3. intros [= <-] Hv.
    by rewrite Hv in Hb.
Qed.

End Update.

Section DestroyEdge.

Variable fns : Events.fnid -> Events.fn_def.
Variable patch : vmid -> patch_args -> world -> world * presult.
Variable efuel : nat.


End DestroyEdge.

(** ** Destroying twice *)

(** [vm] exists and its [_isBeingDestroyed] is set. *)
Definition being_destroyed (vm : vmid) (s : world) : Prop :=
  exists x, instances s !! vm = Some x /\ _isBeingDestroyed x = true.

Lemma being_destroyed_same vm s s' :
  instances s' = instances s -> being_destroyed vm s -> being_destroyed vm s'.
Proof. intros Heq. unfold being_destroyed. by rewrite Heq. Qed.

Lemma being_destroyed_update vm v f s :
  (forall x, _isBeingDestroyed (f x) = _isBeingDestroyed x) ->
  being_destroyed vm s ->
  being_destroyed vm (set_instances (alter f v (instances s)) s).
Proof.
  intros Hf (x & Hx & Hb). unfold being_destroyed. simpl.
  destruct (decide (v = vm)) as [->|Hne].
  - exists (f x). rewrite lookup_alter_eq, Hx. split; [done|]. by rewrite Hf.
  - exists x. by rewrite lookup_alter_ne.
Qed.

Section DestroyTwice.

Variable fns : Events.fnid -> Events.fn_def.
Variable patch : vmid -> patch_args -> world -> world * presult.
Variable efuel : nat.

Lemma destroy_again vm s :
  being_destroyed vm s -> S_destroy fns patch efuel vm s = Ok tt s.
Proof.
  intros (x & Hx & Hb). unfold S_destroy, bind at 1, the at 1.
  by rewrite Hx, Hb.
Qed.

Lemma destroy_flags vm :
  (forall v args s1, being_destroyed vm s1 ->
     being_destroyed vm (fst (patch v args s1))) ->
  hoare (fun _ => True) (S_destroy fns patch efuel vm)
    (fun _ => being_destroyed vm) (being_destroyed vm).
Proof.
  intros Hpatch. set (J := being_destroyed vm).
  assert (forall st st', instances st' = instances st -> J st -> J st') as Jsame.
  { intros st st'. apply being_destroyed_same. }
  assert (forall v f st,
            (forall x, _isBeingDestroyed (f x) = _isBeingDestroyed x) ->
            J st -> J (set_instances (alter f v (instances st)) st)) as Jupd.
  { intros v f st. apply being_destroyed_update. }
  assert (forall hook, hoare J (callHook fns efuel vm hook) (fun _ => J) J) as Jhook.
  { intros hook. apply hoare_callHook.
    - intros st. by apply Jsame.
    - intros st t k. by apply Jsame.
    - intros st b. by apply Jupd. }
  assert (forall w, hoare J (teardown w) (fun _ => J) J) as Jtear.
  { intros w. apply hoare_modify. intros st. apply Jsame.
    destruct (watchers st !! w) as [x|]; [|done]. by destruct (w_active x). }
  unfold S_destroy.
  apply hoare_bind with (Q1 := fun i st => instances st !! vm = Some i).
  { by apply hoare_the. }
  intros i0. destruct (_isBeingDestroyed i0) eqn:E0.
  { apply hoare_ret. intros st Hst. by exists i0. }
  apply hoare_bind with (Q1 := fun _ _ => True).
  { apply hoare_conseq with (P' := fun _ => True) (Q' := fun _ _ => True)
      (E' := fun _ => False); [|done..]. by apply hoare_callHook. }
  intros _.
  apply hoare_bind with
    (Q1 := fun _ st => forall x, instances st !! vm = Some x ->
                       _isBeingDestroyed x = true).
  { apply hoare_modify. intros st _ x. simpl. rewrite lookup_alter_eq.
    destruct (instances st !! vm); [|done]. by intros [= <-]. }
  intros _. apply hoare_bind with (Q1 := fun _ => J).
  { apply hoare_the. intros st x H Hx. exists x. split; [done|]. by apply H. }
  intros i1. apply hoare_bind with (Q1 := fun _ => J).
  { destruct (S_parent i1) as [p|]; [|apply keeps_ret].
    apply hoare_bind with (Q1 := fun _ => J); [apply keeps_the|]. intros pi.
    unfold when. destruct (_ && _); [|apply keeps_ret].
    apply hoare_modify. intros st. by apply Jupd. }
  intros _. apply hoare_bind with (Q1 := fun _ => J).
  { destruct (_watcher i1); [apply Jtear|apply keeps_ret]. }
  intros _. apply hoare_bind with (Q1 := fun _ => J).
  { apply keeps_for_each. intros w _. apply Jtear. }
  intros _. apply hoare_bind with (Q1 := fun _ => J).
  { destruct (data_ob i1); [|apply keeps_ret]. apply hoare_modify.
    intros st. by apply Jsame. }
  intros _. apply hoare_bind with (Q1 := fun _ => J).
  { apply hoare_modify. intros st. by apply Jupd. }
  intros _. apply hoare_bind with (Q1 := fun _ => J); [apply keeps_the|].
  intros i2. apply hoare_bind with (Q1 := fun _ => J).
  { intros st HJ. unfold call_patch.
    pose proof (Hpatch vm (Patch2 (_vnode i2) None)
                  (add_trace (TPatch vm (Patch2 (_vnode i2) None)) st)) as Hp.
    destruct (patch vm _ _) as [st' [el|]]; apply Hp; by apply (Jsame st). }
  intros _. apply hoare_bind with (Q1 := fun _ => J); [apply Jhook|]. intros _.
  apply hoare_bind with (Q1 := fun _ => J).
  { unfold on_bus. apply hoare_bind with (Q1 := fun _ => J); [apply keeps_the|].
    intros x. apply hoare_modify. intros st. by apply Jupd. }
  intros _. apply hoare_bind with (Q1 := fun _ => J); [apply keeps_the|].
  intros i3. apply hoare_bind with (Q1 := fun _ => J).
  { destruct (S_el i3); [|apply keeps_ret]. apply hoare_modify.
    intros st. by apply Jsame. }
  intros _. destruct (S_vnode i3); [|apply keeps_ret]. apply hoare_modify.
  intros st. by apply Jsame.
Qed.

(** X29: [$destroy] runs at most once. Whether the first call returns or
    ends in the exception of [patch], [_isBeingDestroyed] is set
    afterwards, so a further [$destroy] returns at once and changes
    nothing; after a throwing [patch] the remaining steps ([destroyed]
    hook, [$off], releasing the element) are therefore never made up for.
    [patch] is taken not to remove the instance or clear its flag. *)
Theorem destroy_twice_does_nothing (vm : vmid) (s : world) :
  (forall v args s1, being_destroyed vm s1 ->
     being_destroyed vm (fst (patch v args s1))) ->
  match S_destroy fns patch efuel vm s with
  | Ok _ s' => S_destroy fns patch efuel vm s' = Ok tt s'
  | Exn s' => S_destroy fns patch efuel vm s' = Ok tt s'
  | Stuck => True
  end.
Proof.
  intros Hpatch. pose proof (destroy_flags vm Hpatch s I) as H.
  destruct (S_destroy fns patch efuel vm s) as [u s'|s'|]; [| |exact I];
    by apply destroy_again.
Qed.

End DestroyTwice.

(** ** The order of hook handlers *)

Section HookOrder.

Context {U : UserCode}.
Variable fns : Events.fnid -> Events.fn_def.
Variable efuel : nat.

(** X26: with user functions that leave the instances and the trace
    alone, [callHook] hands every handler of the hook over, in the order of
    the option and also after one of them threw ([b1] is the event side
    these hand-overs leave), then, when [_hasHookEvent] is set by then,
    emits the [hook:] event to every listener subscribed by then ([b'] is
    what that leaves, and what the instance holds afterwards); it touches
    no other instance, adds one entry to the trace and never throws. *)
Theorem callHook_runs_handlers_in_order (vm : vmid) (hook : string) (i : instance)
    (s : world) :
  gentle U ->
  instances s !! vm = Some i ->
  match callHook fns efuel vm hook s with
  | Ok _ s' =>
      exists b1 b' new1 new2,
        hand_over fns efuel (hook_info hook) (default [] (opt_hooks i !! hook))
          (events i) = Some b1 /\
        (if Events._hasHookEvent b1
         then Events.emit (Events.call fns efuel) 0 ("hook:" ++ hook) [] b1
         else Some b1) = Some b' /\
        instances s' !! vm = Some (with_events b' i) /\
        (forall j, j <> vm -> instances s' !! j = instances s !! j) /\
        Events.log b1 = Events.log (events i) ++ new1 /\
        List.filter (Events.at_depth 0) new1
        = map (fun h => Events.Invoked 0 (Some (Events.UserFn h)) [])
            (default [] (opt_hooks i !! hook)) /\
        Events.log b' = Events.log b1 ++ new2 /\
        List.filter (Events.at_depth 0) new2
        = (if Events._hasHookEvent b1
           then map (fun c => Events.Invoked 0 (Some c) [])
                  (Events.handlers ("hook:" ++ hook) b1)
           else []) /\
        trace s' = trace s ++ [THook vm hook]
  | Exn _ => False
  | Stuck => True
  end.
Proof.
  intros HU Hi. pose proof (callHook_spec fns efuel vm hook i s HU Hi) as H.
  destruct (callHook fns efuel vm hook s) as [u s'| |]; [|done..].
  destruct H as (b' & Hrun & Hv & Ho & Ht). unfold hook_run in Hrun.
  destruct (hand_over fns efuel (hook_info hook)
              (default [] (opt_hooks i !! hook)) (events i)) as [b1|] eqn:E1;
    [|done].
  destruct (hand_over_log fns efuel _ _ _ _ E1) as (new1 & Hl1 & Hf1).
  assert (exists new2, Events.log b' = Events.log b1 ++ new2 /\
            List.filter (Events.at_depth 0) new2
            = (if Events._hasHookEvent b1
               then map (fun c => Events.Invoked 0 (Some c) [])
                      (Events.handlers ("hook:" ++ hook) b1)
               else [])) as (new2 & Hl2 & Hf2).
  { destruct (Events._hasHookEvent b1).
    - apply (Events.emit_step (Events.call fns efuel) (Events.call_deeper fns efuel)) in Hrun
        as (new2 & Ha & Hf2). by exists new2.
    - injection Hrun as <-. exists []. by rewrite app_nil_r. }
  exists b1, b', new1, new2. by repeat split.
Qed.

End HookOrder.

(** ** Which hooks an activation or a deactivation fires *)

Section Fired.

Context {U : UserCode}.
Variable fns : Events.fnid -> Events.fn_def.
Variable efuel : nat.

(** The user functions leave the instances and the trace alone: a hook
    handler or a listener of a [hook:] event that calls [$destroy],
    [activateChildComponent] and the like is not covered. *)
Hypothesis user_gentle : gentle U.

(** What the runs of [hook] recorded in [new] made of the event sides: an
    instance of [s0] is still there in [s] with the same hook option; if
    its hook is in [new], its event side is what one run of the hook makes
    of the one it had; otherwise it still has that one. *)
Definition buses_run (hook : string) (new : list tentry) (s0 s : world) : Prop :=
  forall v x, instances s0 !! v = Some x ->
    exists x', instances s !! v = Some x' /\ opt_hooks x' = opt_hooks x /\
      (THook v hook ∈ new ->
         hook_run fns efuel hook (default [] (opt_hooks x !! hook)) (events x)
         = Some (events x')) /\
      (THook v hook ∉ new -> events x' = events x).

(** Since [s0] the trace grew by entries of [hook] only, one for each
    instance that came to satisfy [phi], and each of these had its hook
    run; the instances in [P], which satisfy [phi] already, are still to
    get theirs. *)
Definition fired (hook : string) (phi : instance -> Prop) (P : vmid -> Prop)
    (s0 s : world) : Prop :=
  exists new,
    trace s = trace s0 ++ new /\
    NoDup new /\
    (forall e, e ∈ new -> exists v, e = THook v hook) /\
    (forall v, THook v hook ∈ new ->
       holds_at phi v s /\ ~ holds_at phi v s0 /\ ~ P v) /\
    (forall v, P v -> holds_at phi v s) /\
    (forall v, holds_at phi v s -> ~ holds_at phi v s0 ->
       P v \/ THook v hook ∈ new) /\
    (forall v, holds_at phi v s0 -> holds_at phi v s) /\
    buses_run hook new s0 s.

Lemma fired_refl hook phi s : fired hook phi (fun _ => False) s s.
Proof.
  exists []. rewrite app_nil_r. split; [done|]. split; [constructor|].
  split; [by intros e He; apply elem_of_nil in He|].
  split; [by intros v Hv; apply elem_of_nil in Hv|].
  split; [done|]. split; [by intros v H1 H2|]. split; [done|].
  intros v x Hx. exists x. split; [done|]. split; [done|].
  split; [by intros Hv; apply elem_of_nil in Hv|done].
Qed.

Lemma buses_run_update hook new f v s0 s :
  (forall x, opt_hooks (f x) = opt_hooks x /\ events (f x) = events x) ->
  buses_run hook new s0 s ->
  buses_run hook new s0 (set_instances (alter f v (instances s)) s).
Proof.
  intros Hf H u x Hx. destruct (H u x Hx) as (x' & Hx' & Ho & Hin & Hout).
  simpl. destruct (decide (v = u)) as [->|Hne].
  - exists (f x'). rewrite lookup_alter_eq, Hx'. destruct (Hf x') as [-> ->].
    done.
  - exists x'. by rewrite lookup_alter_ne.
Qed.

Lemma fired_update hook phi P f v s0 s :
  (forall x, phi x <-> phi (f x)) ->
  (forall x, opt_hooks (f x) = opt_hooks x /\ events (f x) = events x) ->
  fired hook phi P s0 s ->
  fired hook phi P s0 (set_instances (alter f v (instances s)) s).
Proof.
  intros Hf Hb (new & H1 & H2 & H3 & H4 & H5 & H6 & H7 & H8).
  assert (forall u, holds_at phi u s ->
            holds_at phi u (set_instances (alter f v (instances s)) s)) as Hto.
  { intros u. apply holds_at_update. intros x. apply Hf. }
  assert (forall u, holds_at phi u (set_instances (alter f v (instances s)) s) ->
            holds_at phi u s) as Hfrom.
  { intros u. apply holds_at_update_inv. intros x. apply Hf. }
  exists new. split; [done|]. split; [done|]. split; [done|]. split.
  { intros u Hu. destruct (H4 u Hu) as (? & ? & ?). auto. }
  split; [by auto|]. split; [|split; [by auto|by apply buses_run_update]].
  intros u Hu Hn. apply H6; auto.
Qed.

(** Marking [vm], which did not satisfy [phi], leaves its hook to run. *)
Lemma fired_mark hook phi P f vm i s0 s :
  instances s !! vm = Some i -> ~ phi i -> (forall x, phi (f x)) ->
  (forall x, opt_hooks (f x) = opt_hooks x /\ events (f x) = events x) ->
  fired hook phi P s0 s ->
  fired hook phi (fun u => P u \/ u = vm) s0
    (set_instances (alter f vm (instances s)) s) /\
  ~ P vm /\ ~ holds_at phi vm s0.
Proof.
  intros Hi Hn Hf Hb (new & H1 & H2 & H3 & H4 & H5 & H6 & H7 & H8).
  assert (~ holds_at phi vm s) as Hvm.
  { intros (x & Hx & Hp). rewrite Hi in Hx. by injection Hx as <-. }
  assert (forall u, holds_at phi u s ->
            holds_at phi u (set_instances (alter f vm (instances s)) s)) as Hto.
  { intros u. apply holds_at_update. intros x _. apply Hf. }
  assert (forall u, u <> vm ->
            holds_at phi u (set_instances (alter f vm (instances s)) s) ->
            holds_at phi u s) as Hfrom.
  { intros u Hne (y & Hy & Hp). simpl in Hy. rewrite lookup_alter_ne in Hy by done.
    by exists y. }
  assert (holds_at phi vm (set_instances (alter f vm (instances s)) s)) as Hnow.
  { exists (f i). simpl. by rewrite lookup_alter_eq, Hi. }
  split; [|split; [by intros HP; apply Hvm, H5|by intros H0; apply Hvm, H7]].
  exists new. split; [done|]. split; [done|]. split; [done|]. split.
  { intros u Hu. destruct (H4 u Hu) as (Hs & Hs0 & HP).
    split; [by apply Hto|]. split; [done|]. intros [?| ->]; [done|].
    by apply Hvm. }
  split.
  { intros u [HP| ->]; [by apply Hto, H5|done]. }
  split; [|split; [by auto|by apply buses_run_update]].
  intros u Hu Hu0. destruct (decide (u = vm)) as [->|Hne]; [by left; right|].
  destruct (H6 u (Hfrom u Hne Hu) Hu0); [by left; left|by right].
Qed.

(** The hook of [vm] runs. *)
Lemma fired_callHook hook phi P vm s0 :
  (forall x b, phi x <-> phi (with_events b x)) ->
  ~ P vm -> ~ holds_at phi vm s0 ->
  hoare (fired hook phi (fun u => P u \/ u = vm) s0)
    (callHook fns efuel vm hook) (fun _ => fired hook phi P s0) (fun _ => False).
Proof.
  intros He HP H0 s (new & H1 & H2 & H3 & H4 & H5 & H6 & H7 & H8).
  destruct (H5 vm (or_intror eq_refl)) as (xs & Hxs & Hphi).
  pose proof (callHook_spec fns efuel vm hook xs s user_gentle Hxs) as H.
  destruct (callHook fns efuel vm hook s) as [u s'| |]; [|done..].
  destruct H as (b' & Hrun & Hv & Ho & Ht).
  assert (THook vm hook ∉ new) as Hnew.
  { intros Hin. destruct (H4 vm Hin) as (_ & _ & Hn). apply Hn. by right. }
  assert (forall w, holds_at phi w s' <-> holds_at phi w s) as Hsame.
  { intros w. unfold holds_at. destruct (decide (w = vm)) as [->|Hne].
    - rewrite Hv, Hxs. split.
      + intros (y & [= <-] & Hy). exists xs. split; [done|]. by apply (He xs b').
      + intros (y & [= <-] & Hy). exists (with_events b' xs). split; [done|].
        by apply He.
    - by rewrite (Ho w Hne). }
  exists (new ++ [THook vm hook]). rewrite Ht, H1, app_assoc.
  split; [done|]. split.
  { apply NoDup_app. split; [done|]. split; [|apply NoDup_singleton].
    intros e He' Hin. apply list_elem_of_singleton in Hin as ->. done. }
  split.
  { intros e He'. apply elem_of_app in He' as [He'|He']; [by apply H3|].
    apply list_elem_of_singleton in He' as ->. by exists vm. }
  split.
  { intros v Hv'. rewrite Hsame. apply elem_of_app in Hv' as [Hv'|Hv'].
    - destruct (H4 v Hv') as (? & ? & Hn). split; [done|]. split; [done|].
      intros ?. apply Hn. by left.
    - apply list_elem_of_singleton in Hv'. injection Hv' as ->.
      split; [apply H5; by right|done]. }
  split; [by intros v Hv'; apply Hsame, H5; left|]. split.
  { intros v Hv' Hv0. rewrite elem_of_app, list_elem_of_singleton.
    destruct (H6 v (proj1 (Hsame v) Hv') Hv0) as [[?| ->]|?]; auto. }
  split; [by intros v Hv'; apply Hsame, H7|].
  intros v x Hx. destruct (H8 v x Hx) as (x' & Hx' & Hopt & Hin & Hout).
  destruct (decide (v = vm)) as [->|Hne].
  - rewrite Hxs in Hx'. injection Hx' as <-. exists (with_events b' xs).
    split; [done|]. split; [done|]. split.
    + intros _. cbn [events with_events]. by rewrite <- Hopt, <- (Hout Hnew).
    + intros Hn. exfalso. apply Hn. apply elem_of_app. right.
      by apply list_elem_of_singleton.
  - exists x'. rewrite (Ho v Hne). split; [done|]. split; [done|]. split.
    + intros Hin'. apply Hin. apply elem_of_app in Hin' as [?|Hin']; [done|].
      apply list_elem_of_singleton in Hin'. by injection Hin'.
    + intros Hn. apply Hout. intros ?. apply Hn. apply elem_of_app. by left.
Qed.

(** [vm._inactive] is truthy. *)
Definition is_inactive (x : instance) : Prop := truthy (_inactive x) = true.

Lemma deactivate_fires s0 n : forall vm P,
  hoare (fired "deactivated" is_inactive P s0)
    (deactivateChildComponent fns efuel n vm false)
    (fun _ => fired "deactivated" is_inactive P s0) (fun _ => False).
Proof.
  induction n as [|n IH]; intros vm P; [by intros s _|].
  cbn [deactivateChildComponent].
  apply hoare_bind with
    (Q1 := fun stop s => stop = false /\ fired "deactivated" is_inactive P s0 s).
  { by apply hoare_ret. }
  intros stop. apply hoare_conseq with
    (P' := fun s => fired "deactivated" is_inactive P s0 s /\ stop = false)
    (Q' := fun _ => fired "deactivated" is_inactive P s0) (E' := fun _ => False);
    [|by intros s []|done..].
  intros s [Hs ->]. revert s Hs.
  apply hoare_bind with
    (Q1 := fun i s => fired "deactivated" is_inactive P s0 s /\
                      instances s !! vm = Some i).
  { by apply hoare_the. }
  intros i. unfold when. destruct (truthy (_inactive i)) eqn:Et; cbn [negb].
  { apply hoare_ret. by intros s [H _]. }
  apply hoare_bind with
    (Q1 := fun _ s =>
       fired "deactivated" is_inactive (fun u => P u \/ u = vm) s0 s /\
       ~ P vm /\ ~ holds_at is_inactive vm s0).
  { apply hoare_modify. intros s [H Hi].
    apply (fired_mark "deactivated" is_inactive P (with_inactive TTrue) vm i s0 s Hi);
      [unfold is_inactive; congruence|done|done|done]. }
  intros _ s (Hs & HP & H0). revert s Hs.
  apply hoare_bind with
    (Q1 := fun _ => fired "deactivated" is_inactive (fun u => P u \/ u = vm) s0).
  - apply keeps_children_loop. intros c. apply IH.
  - intros _. by apply fired_callHook.
Qed.

(** X27: with user functions that leave the instances and the trace
    alone, [deactivateChildComponent(vm, direct)], when it returns, has run
    the [deactivated] hook once for each instance whose [_inactive] it
    turned truthy, and has written nothing else to the trace: the new
    entries are [deactivated] hooks without repetition, an instance is
    among them exactly if it is inactive afterwards and was not before,
    the event side of such an instance is what one run of the hook (its
    handlers handed over in order, then the [hook:deactivated] event if
    [_hasHookEvent] is set by then) makes of the one it had, and the event
    side of every other instance is as before. It never throws. (That it
    returns, given enough depth, is [deactivate_returns].) *)
Theorem deactivated_fires_for_what_turned_inactive (n : nat) (vm : vmid)
    (direct : bool) (s : world) :
  match deactivateChildComponent fns efuel n vm direct s with
  | Ok _ s' =>
      exists new,
        trace s' = trace s ++ new /\
        NoDup new /\
        (forall e, e ∈ new -> exists v, e = THook v "deactivated") /\
        (forall v, THook v "deactivated" ∈ new <->
           inactive_at s' v /\ ~ inactive_at s v) /\
        (forall v x, instances s !! v = Some x ->
           exists x', instances s' !! v = Some x' /\
             (THook v "deactivated" ∈ new ->
                hook_run fns efuel "deactivated"
                  (default [] (opt_hooks x !! "deactivated")) (events x)
                = Some (events x')) /\
             (THook v "deactivated" ∉ new -> events x' = events x))
  | Exn _ => False
  | Stuck => True
  end.
Proof.
  assert (hoare (fired "deactivated" is_inactive (fun _ => False) s)
            (deactivateChildComponent fns efuel n vm direct)
            (fun _ => fired "deactivated" is_inactive (fun _ => False) s)
            (fun _ => False)) as H.
  { destruct direct; [|apply deactivate_fires].
    destruct n as [|n]; [by intros st _|]. cbn [deactivateChildComponent].
    apply hoare_bind with
      (Q1 := fun _ => fired "deactivated" is_inactive (fun _ => False) s).
    { apply keeps_bind; [|intros _; apply (keeps_isInInactiveTree _ _ (S n))].
      apply keeps_modify. intros st. by apply fired_update. }
    intros [|]; [apply keeps_ret|].
    intros st Hst. by apply (deactivate_fires s (S n) vm (fun _ => False) st). }
  specialize (H s (fired_refl _ _ s)).
  destruct (deactivateChildComponent fns efuel n vm direct s) as [u s'| |]; [|done..].
  destruct H as (new & H1 & H2 & H3 & H4 & H5 & H6 & H7 & H8).
  exists new. split; [done|]. split; [done|]. split; [done|]. split.
  - intros v. split.
    + intros Hv. destruct (H4 v Hv) as (? & ? & _). done.
    + intros [Hv Hv0]. by destruct (H6 v Hv Hv0).
  - intros v x Hx. destruct (H8 v x Hx) as (x' & Hx' & _ & Hin & Hout).
    by exists x'.
Qed.

(** [vm._inactive] is [false]: the instance has been activated. *)
Definition is_active (x : instance) : Prop := _inactive x = TFalse.

Definition active_at (s : world) (v : vmid) : Prop := holds_at is_active v s.

Lemma activate_fires_body s0 n vm P :
  (forall c Q,
     hoare (fired "activated" is_active Q s0)
       (activateChildComponent fns efuel n c false)
       (fun _ => fired "activated" is_active Q s0) (fun _ => False)) ->
  hoare (fired "activated" is_active P s0)
    (do i <- the vm;
     when (match _inactive i with TFalse => false | _ => true end)
       (run update vm (with_inactive TFalse);
        run children_loop (fun c => activateChildComponent fns efuel n c false)
              (S (length (S_children i) + n)) vm 0;
        callHook fns efuel vm "activated"))
    (fun _ => fired "activated" is_active P s0) (fun _ => False).
Proof.
  intros IH.
  apply hoare_bind with
    (Q1 := fun i s => fired "activated" is_active P s0 s /\
                      instances s !! vm = Some i).
  { by apply hoare_the. }
  intros i. unfold when.
  destruct (match _inactive i with TFalse => false | _ => true end) eqn:Et.
  2:{ apply hoare_ret. by intros s [H _]. }
  apply hoare_bind with
    (Q1 := fun _ s =>
       fired "activated" is_active (fun u => P u \/ u = vm) s0 s /\
       ~ P vm /\ ~ holds_at is_active vm s0).
  { apply hoare_modify. intros s [H Hi].
    apply (fired_mark "activated" is_active P (with_inactive TFalse) vm i s0 s Hi);
      [|done|done|done].
    unfold is_active. intros Hx. by rewrite Hx in Et. }
  intros _ s (Hs & HP & H0). revert s Hs.
  apply hoare_bind with
    (Q1 := fun _ => fired "activated" is_active (fun u => P u \/ u = vm) s0).
  - apply keeps_children_loop. intros c. apply IH.
  - intros _. by apply fired_callHook.
Qed.

Lemma activate_fires s0 n : forall vm P,
  hoare (fired "activated" is_active P s0)
    (activateChildComponent fns efuel n vm false)
    (fun _ => fired "activated" is_active P s0) (fun _ => False).
Proof.
  induction n as [|n IH]; intros vm P; [by intros s _|].
  cbn [activateChildComponent].
  apply hoare_bind with (Q1 := fun _ => fired "activated" is_active P s0).
  { apply keeps_bind; [apply keeps_the|]. intros i. apply keeps_ret. }
  intros [|]; [apply keeps_ret|]. by apply activate_fires_body.
Qed.

(** X28: with user functions that leave the instances and the trace
    alone, [activateChildComponent(vm, direct)], when it returns, has run
    the [activated] hook once for each instance whose [_inactive] it set to
    [false], and has written nothing else to the trace: the new entries
    are [activated] hooks without repetition, an instance is among them
    exactly if its [_inactive] is [false] afterwards and was not before,
    the event side of such an instance is what one run of the hook (its
    handlers handed over in order, then the [hook:activated] event if
    [_hasHookEvent] is set by then) makes of the one it had, and the event
    side of every other instance is as before. It never throws. (That it
    returns, given enough depth, is [activate_returns].) *)
Theorem activated_fires_for_what_turned_active (n : nat) (vm : vmid)
    (direct : bool) (s : world) :
  match activateChildComponent fns efuel n vm direct s with
  | Ok _ s' =>
      exists new,
        trace s' = trace s ++ new /\
        NoDup new /\
        (forall e, e ∈ new -> exists v, e = THook v "activated") /\
        (forall v, THook v "activated" ∈ new <->
           active_at s' v /\ ~ active_at s v) /\
        (forall v x, instances s !! v = Some x ->
           exists x', instances s' !! v = Some x' /\
             (THook v "activated" ∈ new ->
                hook_run fns efuel "activated"
                  (default [] (opt_hooks x !! "activated")) (events x)
                = Some (events x')) /\
             (THook v "activated" ∉ new -> events x' = events x))
  | Exn _ => False
  | Stuck => True
  end.
Proof.
  assert (hoare (fired "activated" is_active (fun _ => False) s)
            (activateChildComponent fns efuel n vm direct)
            (fun _ => fired "activated" is_active (fun _ => False) s)
            (fun _ => False)) as H.
  { destruct direct; [|apply activate_fires].
    destruct n as [|n]; [by intros st _|]. cbn [activateChildComponent].
    apply hoare_bind with
      (Q1 := fun _ => fired "activated" is_active (fun _ => False) s).
    { apply keeps_bind; [|intros _; apply (keeps_isInInactiveTree _ _ (S n))].
      apply keeps_modify. intros st. by apply fired_update. }
    intros [|]; [apply keeps_ret|].
    apply activate_fires_body. apply activate_fires. }
  specialize (H s (fired_refl _ _ s)).
  destruct (activateChildComponent fns efuel n vm direct s) as [u s'| |]; [|done..].
  destruct H as (new & H1 & H2 & H3 & H4 & H5 & H6 & H7 & H8).
  exists new. split; [done|]. split; [done|]. split; [done|]. split.
  - intros v. split.
    + intros Hv. destruct (H4 v Hv) as (? & ? & _). done.
    + intros [Hv Hv0]. by destruct (H6 v Hv Hv0).
  - intros v x Hx. destruct (H8 v x Hx) as (x' & Hx' & _ & Hin & Hout).
    by exists x'.
Qed.

End Fired.

(** ** Worked instances of the further properties *)

(** Case analysis on the instances of a concrete process. *)
Ltac cases_of H :=
  apply elem_of_map_to_list in H; vm_compute in H;
  repeat (apply elem_of_cons in H as [H|H]; [injection H as -> ->|]);
  [..|by apply elem_of_nil in H].

(** Depth of the instances of [family]. *)
Definition family_depth (v : vmid) : nat :=
  match v with
  | 0 => 0
  | 1 | 2 => 1
  | _ => 2
  end.

(** [family] after instance 1 was deactivated directly. *)
Definition family_resting : world :=
  final (deactivateChildComponent Events.handler_fns 2 3 1 true family) family.

Lemma chained_family : chained family_depth family.
Proof.
  intros v x q Hv Hq. cases_of Hv; simpl in Hq; try discriminate;
    injection Hq as <-; (split; [simpl; lia|vm_compute; by eexists]).
Qed.

Lemma chained_family_resting : chained family_depth family_resting.
Proof.
  intros v x q Hv Hq. cases_of Hv; simpl in Hq; try discriminate;
    injection Hq as <-; (split; [simpl; lia|vm_compute; by eexists]).
Qed.

Lemma consistent_family : consistent family.
Proof.
  intros p xp c Hp Hc. cases_of Hp; simpl in Hc;
    repeat (apply elem_of_cons in Hc as [->|Hc]);
    try (by apply elem_of_nil in Hc);
    (eexists; split; [vm_compute; reflexivity|]; split; [reflexivity|];
     left; reflexivity).
Qed.

Lemma listed_family vm : listed family vm.
Proof.
  intros c xc p _ Hc Hp. cases_of Hc; simpl in Hp; try discriminate;
    injection Hp as <-;
    (eexists; split; [vm_compute; reflexivity|]; simpl; repeat constructor).
Qed.

Lemma closed_family : closed family.
Proof. intros v x c Hv Ht. cases_of Hv; simpl in Ht; discriminate. Qed.

Lemma isInInactiveTree_finds_inactive_ancestor_witness :
  isInInactiveTree 3 3 family_resting = Ok true family_resting.
Proof.
  destruct (isInInactiveTree_finds_inactive_ancestor 3 3 family_resting)
    as [H1 H2].
  destruct (H2 family_depth) as [b Hb].
  - apply chained_family_resting.
  - vm_compute. by eexists.
  - simpl. lia.
  - rewrite Hb in H1. destruct H1 as [_ Hiff].
    assert (b = true) as ->; [|exact Hb].
    apply Hiff. exists 1. split.
    + eapply ancestor_parent; vm_compute; reflexivity.
    + eexists. split; vm_compute; reflexivity.
Defined.

Lemma direct_call_under_inactive_ancestor_witness :
  activateChildComponent Events.handler_fns 2 3 3 true family_resting
  = Ok tt (set_instances
             (alter (with_directInactive false) 3 (instances family_resting))
             family_resting) /\
  deactivateChildComponent Events.handler_fns 2 3 3 true family_resting
  = Ok tt (set_instances
             (alter (with_directInactive true) 3 (instances family_resting))
             family_resting).
Proof.
  apply (direct_call_under_inactive_ancestor Events.handler_fns 2 family_depth
           3 3 1 family_resting).
  - apply chained_family_resting.
  - vm_compute. by eexists.
  - simpl. lia.
  - eapply ancestor_parent; vm_compute; reflexivity.
  - eexists. split; vm_compute; reflexivity.
Defined.

Lemma deactivation_closes_the_subtree_witness :
  match deactivateChildComponent Events.handler_fns 2 3 1 true family with
  | Ok _ s' => closed s' /\ forall v, inactive_at family v -> inactive_at s' v
  | _ => False
  end.
Proof.
  pose proof (deactivation_closes_the_subtree Events.handler_fns 2
                keeps_tree_events_only 3 1 true family closed_family) as [H _].
  destruct (deactivateChildComponent Events.handler_fns 2 3 1 true family)
    as [u s'| |] eqn:E; [|done|vm_compute in E; discriminate].
  destruct H as (Hc & Hm & _). by split.
Defined.


(** A root 0, an abstract instance 1 under it, and two instances about to
    be initialised: 2, created under 1, and the abstract 3, created under
    0. *)
Definition blank (abstract : bool) : instance :=
  Instance None [] None None None None [] TNull false false false false
    abstract ∅ None Events.initEvents.

Definition nursery : world :=
  World
    (<[0 := mounted None [] None [] ∅ Events.initEvents]>
       (<[1 := with_lifecycle (Some 0) (blank true)]>
          (<[2 := blank false]> (<[3 := blank true]> ∅))))
    None None [] ∅ ∅ ∅ ∅ ∅ [].

Lemma initLifecycle_attaches_witness :
  exists s',
    initLifecycle 2 2 (Some 1) nursery = Ok tt s' /\
    (S_parent <$> instances s' !! 2) = Some (Some 0) /\
    (S_children <$> instances s' !! 0) = Some [2].
Proof.
  destruct (initLifecycle_attaches 2 1 2 1 0 (blank false)
              (mounted None [] None [] ∅ Events.initEvents) nursery)
    as (s' & Hrun & H2 & H0 & _).
  - reflexivity.
  - reflexivity.
  - eapply attach_above; [reflexivity..|].
    eapply attach_here; [reflexivity|by left].
  - lia.
  - discriminate.
  - reflexivity.
  - exists s'. split; [done|]. by rewrite H2, H0.
Defined.

Lemma initLifecycle_abstract_not_listed_witness :
  exists s',
    initLifecycle 2 3 (Some 0) nursery = Ok tt s' /\
    (S_parent <$> instances s' !! 3) = Some (Some 0) /\
    instances s' !! 0 = instances nursery !! 0.
Proof.
  destruct (initLifecycle_abstract_not_listed 2 3 (Some 0) (blank true) nursery)
    as (s' & Hrun & H3 & Hother).
  - reflexivity.
  - by left.
  - exists s'. split; [done|]. rewrite H3. split; [done|]. by apply Hother.
Defined.

(** A patch collaborator that returns element 42. *)
Definition mounting_patch (vm : vmid) (args : patch_args) (st : world)
    : world * presult := (st, PReturn (Some 42)).

Lemma update_rebinds_element_witness :
  exists i',
    instances (final (_update mounting_patch 1 7 false family) family) !! 1
    = Some i' /\
    S_el i' = Some 42 /\
    el_vue (final (_update mounting_patch 1 7 false family) family) !! 42
    = Some (Some 1).
Proof.
  destruct (update_rebinds_element mounting_patch 1 7 false family
              (final (_update mounting_patch 1 7 false family) family)
              (mounted (Some 0) [3] (Some 10) [10; 11]
                 (<["beforeDestroy"%string := [2; 0]]> ∅)
                 (Events.on (Events.One "hook:destroyed") (Events.UserFn 2)
                    (Events.on (Events.One "e") (Events.UserFn 0)
                       Events.initEvents))))
    as (el & st1 & st2 & i' & Hp & _ & _ & Hi' & Hel & Hv & _).
  - vm_compute. reflexivity.
  - vm_compute. reflexivity.
  - unfold mounting_patch in Hp. injection Hp as _ <-.
    exists i'. split; [done|]. split; [done|]. by apply Hv.
Defined.

(** A root 0 that is being destroyed and its child 1. *)
Definition dying : world :=
  World
    (<[0 := with_isBeingDestroyed true
              (mounted None [1] None [] ∅ Events.initEvents)]>
       (<[1 := mounted (Some 0) [] None [] ∅ Events.initEvents]> ∅))
    None None [] ∅ ∅ ∅ ∅ ∅ [].


Lemma destroy_twice_does_nothing_witness :
  match S_destroy Events.handler_fns throwing_patch 2 1 dying with
  | Exn s' => S_destroy Events.handler_fns throwing_patch 2 1 s' = Ok tt s'
  | _ => False
  end.
Proof.
  pose proof (destroy_twice_does_nothing Events.handler_fns throwing_patch 2 1
                dying (fun _ _ _ H => H)) as H.
  destruct (S_destroy Events.handler_fns throwing_patch 2 1 dying)
    as [u s'|s'|] eqn:E; [vm_compute in E; discriminate|exact H|
                          vm_compute in E; discriminate].
Defined.

Lemma consistent_family_resting : consistent family_resting.
Proof.
  intros p xp c Hp Hc. cases_of Hp; simpl in Hc;
    repeat (apply elem_of_cons in Hc as [->|Hc]);
    try (by apply elem_of_nil in Hc);
    (eexists; split; [vm_compute; reflexivity|]; split; [reflexivity|];
     left; reflexivity).
Qed.

Lemma listed_family_resting vm : listed family_resting vm.
Proof.
  intros c xc p _ Hc Hp. cases_of Hc; simpl in Hp; try discriminate;
    injection Hp as <-;
    (eexists; split; [vm_compute; reflexivity|]; simpl; repeat constructor).
Qed.

Lemma activation_reaches_what_is_not_shielded_witness :
  match activateChildComponent Events.handler_fns 2 3 1 true family_resting with
  | Ok _ s' =>
      (forall d, open_path s' 1 d -> ~ inactive_at s' d) \/
      (exists a, ancestor s' 1 a /\ inactive_at s' a)
  | _ => False
  end.
Proof.
  pose proof (activation_reaches_what_is_not_shielded Events.handler_fns 2
                keeps_tree_events_only 3 1
                family_resting consistent_family_resting
                (listed_family_resting 1)) as H.
  destruct (activateChildComponent Events.handler_fns 2 3 1 true family_resting)
    as [u s'| |] eqn:E; [done|done|vm_compute in E; discriminate].
Defined.

Lemma callHook_runs_handlers_in_order_witness :
  match callHook Events.handler_fns 2 1 "beforeDestroy" family with
  | Ok _ s' =>
      trace s' = trace family ++ [THook 1 "beforeDestroy"] /\
      ((fun x => entered (Events.log (events x))) <$> instances s' !! 1)
      = Some [2; 0]
  | _ => False
  end.
Proof.
  pose proof (callHook_runs_handlers_in_order Events.handler_fns 2 1
                "beforeDestroy" _ family gentle_events_only eq_refl) as H.
  assert (((fun x => entered (Events.log (events x))) <$>
             instances
               (final (callHook Events.handler_fns 2 1 "beforeDestroy" family)
                  family) !! 1)
          = Some [2; 0]) as Hc by (vm_compute; reflexivity).
  destruct (callHook Events.handler_fns 2 1 "beforeDestroy" family)
    as [u s'| |] eqn:E; [|done|vm_compute in E; discriminate].
  destruct H as (b1 & b' & new1 & new2 & _ & _ & _ & _ & _ & _ & _ & _ & Ht).
  split; [exact Ht|exact Hc].
Defined.

Lemma deactivated_fires_for_what_turned_inactive_witness :
  match deactivateChildComponent Events.handler_fns 2 3 1 true family with
  | Ok _ s' =>
      exists new, trace s' = trace family ++ new /\
        (THook 3 "deactivated" ∈ new <->
           inactive_at s' 3 /\ ~ inactive_at family 3)
  | _ => False
  end.
Proof.
  pose proof (deactivated_fires_for_what_turned_inactive Events.handler_fns 2
                gentle_events_only 3 1 true family) as H.
  destruct (deactivateChildComponent Events.handler_fns 2 3 1 true family)
    as [u s'| |] eqn:E; [|done|vm_compute in E; discriminate].
  destruct H as (new & H1 & _ & _ & H4 & _). exists new. split; [done|apply H4].
Defined.

Lemma activated_fires_for_what_turned_active_witness :
  match activateChildComponent Events.handler_fns 2 3 1 true family_resting with
  | Ok _ s' =>
      exists new, trace s' = trace family_resting ++ new /\
        (THook 3 "activated" ∈ new <->
           active_at s' 3 /\ ~ active_at family_resting 3)
  | _ => False
  end.
Proof.
  pose proof (activated_fires_for_what_turned_active Events.handler_fns 2
                gentle_events_only 3 1 true family_resting) as H.
  destruct (activateChildComponent Events.handler_fns 2 3 1 true family_resting)
    as [u s'| |] eqn:E; [|done|vm_compute in E; discriminate].
  destruct H as (new & H1 & _ & _ & H4 & _). exists new. split; [done|apply H4].
Defined.

(** ** A hook that destroys its instance *)

(** User function 0 calls [this.$destroy()]; the other user functions do
    nothing beyond their event statements. *)
Definition destroys_itself : UserCode := fun f vm st =>
  if decide (f = 0)
  then match S_destroy (U := events_only) Events.handler_fns quiet_patch 2 vm st with
       | Ok _ st' => Some st'
       | _ => None
       end
  else Some st.

(** A root 0 with the children 1 and 2, each with user function 0 as its
    [deactivated] hook. *)
Definition siblings : world :=
  World
    (<[0 := mounted None [1; 2] None [] ∅ Events.initEvents]>
       (<[1 := mounted (Some 0) [] None [] (<["deactivated"%string := [0]]> ∅)
                 Events.initEvents]>
          (<[2 := mounted (Some 0) [] None [] (<["deactivated"%string := [0]]> ∅)
                    Events.initEvents]> ∅)))
    None None [] ∅ ∅ ∅ ∅ ∅ [].

(** X30: the loop of [deactivateChildComponent] reads [vm.$children] anew
    at every turn.  When the [deactivated] hook of the first child calls
    [$destroy], which takes that child out of [$children], the second child
    has moved to the index the loop has already passed: it is skipped, stays
    active under its deactivated parent and gets no [deactivated] hook. *)
Theorem deactivation_skips_the_sibling_of_a_destroyed_child :
  match deactivateChildComponent (U := destroys_itself) Events.handler_fns 2 3 0
          true siblings with
  | Ok _ s' =>
      (_inactive <$> instances s' !! 0) = Some TTrue /\
      (S_children <$> instances s' !! 0) = Some [2] /\
      (_inactive <$> instances s' !! 2) = Some TFalse /\
      trace s'
      = [THook 1 "deactivated"; THook 1 "beforeDestroy";
         TPatch 1 (Patch2 (Some 5) None); THook 1 "destroyed";
         THook 0 "deactivated"]
  | _ => False
  end.
Proof. vm_compute. by repeat split. Qed.

End Lifecycle.

(** * Ancestor value resolution ([inject.js]) *)

Module Inject.

(** ** Data *)

(** Values that can be provided or declared as defaults; [VFun f] is a
    function. *)
Inductive jsval : Type :=
  | VUndefined
  | VNull
  | VNum (n : Z)
  | VStr (s : string)
  | VFun (f : nat).

(** An instance as [resolveInject] sees it: its identity, [_provided]
    (absent when the component has no [provide] option), and [$parent],
    which a [Root] does not have. *)
Inductive component : Type :=
  | Root (uid : nat) (provided : option (gmap string jsval))
  | Child (uid : nat) (provided : option (gmap string jsval)) (parent : component).

Definition uid (c : component) : nat :=
  match c with
  | Root u _ => u
  | Child u _ _ => u
  end.

Definition _provided (c : component) : option (gmap string jsval) :=
  match c with
  | Root _ p => p
  | Child _ p _ => p
  end.

Definition S_parent (c : component) : option component :=
  match c with
  | Root _ _ => None
  | Child _ _ p => Some p
  end.

(** A normalised inject declaration [{ from, default }]; [default_] is
    [None] when the declaration has no [default] property. *)
Record declaration : Type := Declaration {
  from : string;
  default_ : option jsval
}.

(** [warn(`Injection "${key}" not found`, vm)] *)
Inductive warning : Type :=
  | NotFound (key : string).

(** [source._provided && hasOwn(source._provided, provideKey)], with the
    value [source._provided[provideKey]]. *)
Definition provides (provideKey : string) (source : component) : option jsval :=
  match _provided source with
  | Some m => m !! provideKey
  | None => None
  end.

(** The loop [while (source) { ... source = source.$parent }]: the value
    found, or [None] when [source] ran out. *)
Fixpoint lookup_provided (source : component) (provideKey : string) : option jsval :=
  match provides provideKey source with
  | Some v => Some v
  | None =>
      match source with
      | Root _ _ => None
      | Child _ _ parent => lookup_provided parent provideKey
      end
  end.

(** The instances from [vm] up to the root. *)
Fixpoint chain (vm : component) : list component :=
  match vm with
  | Root _ _ => [vm]
  | Child _ _ p => vm :: chain p
  end.

Section Resolve.

(** [process.env.NODE_ENV === "production"] *)
Variable production : bool.

(** What a default-producing function returns when called with the
    instance of the given identity as [this]. *)
Variable call_default : nat -> nat -> jsval.

(** [typeof provideDefault === "function" ? provideDefault.call(vm)
    : provideDefault] *)
Definition eval_default (provideDefault : jsval) (vm : component) : jsval :=
  match provideDefault with
  | VFun f => call_default f (uid vm)
  | v => v
  end.

(** One iteration of the loop over the keys, on the result object and the
    warnings reported so far. *)
Definition resolve_key (vm : component) (key : string) (d : declaration)
    (acc : gmap string jsval * list warning) : gmap string jsval * list warning :=
  if bool_decide (key = "__ob__"%string) then acc else
  match lookup_provided vm (from d) with
  | Some v => (<[key := v]> acc.1, acc.2)
  | None =>
      match default_ d with
      | Some provideDefault => (<[key := eval_default provideDefault vm]> acc.1, acc.2)
      | None => if production then acc else (acc.1, acc.2 ++ [NotFound key])
      end
  end.

(** [resolveInject(inject, vm)]: the result object and the warnings, or
    [None] for the [undefined] returned when there is no inject option.  The
    keys of [inject] come in the order of [Reflect.ownKeys]. *)
Definition resolveInject (inject : option (list (string * declaration)))
    (vm : component) : option (gmap string jsval * list warning) :=
  match inject with
  | Some decls =>
      Some (fold_left (fun acc kd => resolve_key vm kd.1 kd.2 acc) decls (∅, []))
  | None => None
  end.

(** ** The nearest provider wins *)

Lemma lookup_provided_nearest vm key pre src post v :
  chain vm = pre ++ src :: post ->
  (forall c, c ∈ pre -> provides key c = None) ->
  provides key src = Some v ->
  lookup_provided vm key = Some v.
Proof.
  revert pre. induction vm as [u p|u p parent IH]; intros pre Hch Hpre Hsrc.
  - destruct pre as [|c pre]; simpl in Hch.
    + injection Hch as <- _. simpl. by rewrite Hsrc.
    + injection Hch as _ Hch. by destruct pre.
  - destruct pre as [|c pre]; simpl in Hch.
    + injection Hch as <- _. simpl. by rewrite Hsrc.
    + injection Hch as <- Hch. simpl.
      rewrite (Hpre _ (list_elem_of_here _ _)). apply (IH pre); [done| |done].
      intros c Hc. apply Hpre. by apply list_elem_of_further.
Qed.

Lemma lookup_provided_none vm key :
  (forall c, c ∈ chain vm -> provides key c = None) ->
  lookup_provided vm key = None.
Proof.
  induction vm as [u p|u p parent IH]; intros H; simpl.
  - by rewrite (H _ (list_elem_of_here _ _)).
  - rewrite (H _ (list_elem_of_here _ _)). apply IH.
    intros c Hc. apply H. simpl. by apply list_elem_of_further.
Qed.

(** What the loop leaves under [key], by the declaration of [key]. *)
Definition resolved (vm : component) (d : declaration) : option jsval :=
  match lookup_provided vm (from d) with
  | Some v => Some v
  | None => (fun dv => eval_default dv vm) <$> default_ d
  end.

Lemma resolve_key_other vm key d acc k :
  k <> key ->
  (resolve_key vm key d acc).1 !! k = acc.1 !! k /\
  (NotFound k ∈ (resolve_key vm key d acc).2 <-> NotFound k ∈ acc.2).
Proof.
  intros Hne. unfold resolve_key. case_bool_decide; [done|].
  destruct (lookup_provided vm (from d)); simpl.
  { by rewrite lookup_insert_ne. }
  destruct (default_ d); simpl.
  { by rewrite lookup_insert_ne. }
  destruct production; [done|]. simpl. split; [done|].
  rewrite elem_of_app, list_elem_of_singleton. split; [|by left].
  intros [?|?]; [done|congruence].
Qed.

Lemma resolve_key_same vm key d acc :
  key <> "__ob__"%string ->
  acc.1 !! key = None ->
  NotFound key ∉ acc.2 ->
  (resolve_key vm key d acc).1 !! key = resolved vm d /\
  (NotFound key ∈ (resolve_key vm key d acc).2 <->
   resolved vm d = None /\ production = false).
Proof.
  intros Hob Hacc Hw. unfold resolve_key, resolved.
  rewrite bool_decide_eq_false_2 by done.
  destruct (lookup_provided vm (from d)); simpl.
  { rewrite lookup_insert_eq. split; [done|]. split; [done|by intros [? _]]. }
  destruct (default_ d); simpl.
  { rewrite lookup_insert_eq. split; [done|]. split; [done|by intros [? _]]. }
  destruct production; simpl.
  - split; [done|]. split; [done|by intros [_ ?]].
  - split; [done|]. rewrite elem_of_app, list_elem_of_singleton.
    split; [done|]. intros _. by right.
Qed.

Lemma fold_resolve_other vm decls acc k :
  k ∉ decls.*1 ->
  (fold_left (fun a kd => resolve_key vm kd.1 kd.2 a) decls acc).1 !! k = acc.1 !! k /\
  (NotFound k ∈ (fold_left (fun a kd => resolve_key vm kd.1 kd.2 a) decls acc).2
   <-> NotFound k ∈ acc.2).
Proof.
  revert acc. induction decls as [|[key d] decls IH]; intros acc Hk; simpl; [done|].
  simpl in Hk. apply not_elem_of_cons in Hk as [Hne Hk].
  destruct (IH (resolve_key vm key d acc) Hk) as [-> ->].
  by apply resolve_key_other.
Qed.

Lemma fold_resolve_key vm decls acc k d :
  NoDup decls.*1 ->
  (k, d) ∈ decls ->
  k <> "__ob__"%string ->
  acc.1 !! k = None ->
  NotFound k ∉ acc.2 ->
  (fold_left (fun a kd => resolve_key vm kd.1 kd.2 a) decls acc).1 !! k
  = resolved vm d /\
  (NotFound k ∈ (fold_left (fun a kd => resolve_key vm kd.1 kd.2 a) decls acc).2
   <-> resolved vm d = None /\ production = false).
Proof.
  revert acc. induction decls as [|[key d'] decls IH]; intros acc Hnd Hin Hob Hacc Hw.
  { by apply elem_of_nil in Hin. }
  simpl in Hnd. apply NoDup_cons in Hnd as [Hkey Hnd].
  apply elem_of_cons in Hin as [[= <- <-]|Hin]; simpl.
  - destruct (fold_resolve_other vm decls (resolve_key vm k d acc) k Hkey) as [-> ->].
    by apply resolve_key_same.
  - assert (k <> key) as Hne.
    { intros ->. apply Hkey. apply list_elem_of_fmap. by exists (key, d). }
    destruct (resolve_key_other vm key d' acc k Hne) as [H1 H2].
    apply IH; [done..| |]; [by rewrite H1|by rewrite H2].
Qed.


End Resolve.

(** ** Worked instances *)

(** A child of a middle instance providing a dark theme, itself under a
    root providing a light theme. *)
Definition themed : component :=
  Child 2 None
    (Child 1 (Some {[ "theme"%string := VStr "dark" ]})
       (Root 0 (Some {[ "theme"%string := VStr "light" ]}))).



(** ** [initProvide] and the keys of the result *)

(** [$options.provide]: an object, or a function returning one. *)
Inductive provide_option : Type :=
  | ProvideObject (m : gmap string jsval)
  | ProvideFunction (f : nat).

(** Assignment to [vm._provided]. *)
Definition set_provided (p : option (gmap string jsval)) (vm : component)
    : component :=
  match vm with
  | Root u _ => Root u p
  | Child u _ parent => Child u p parent
  end.

Section Provide.

Variable production : bool.
Variable call_default : nat -> nat -> jsval.

(** What a [provide] function returns when called with the instance of the
    given identity as [this]: an object, or [None] for a value that owns no
    keys. *)
Variable call_provide : nat -> nat -> option (gmap string jsval).

(** [initProvide(vm)], with [vm.$options.provide] given by [provide]. *)
Definition initProvide (provide : option provide_option) (vm : component)
    : component :=
  match provide with
  | Some (ProvideObject m) => set_provided (Some m) vm
  | Some (ProvideFunction f) => set_provided (call_provide f (uid vm)) vm
  | None => vm
  end.

Lemma provides_set_provided key p vm :
  provides key (set_provided p vm) = p ≫= (fun m => m !! key).
Proof. destruct vm, p; reflexivity. Qed.

Lemma lookup_provided_here vm key v :
  provides key vm = Some v -> lookup_provided vm key = Some v.
Proof. intros H. destruct vm; simpl; by rewrite H. Qed.

(** X19: what [initProvide] stores from an object or from the result of a
    [provide] function is what [resolveInject] finds from a child that
    provides nothing itself; without a [provide] option the instance is
    passed over by the lookup. *)
Theorem initProvide_feeds_inject (provide : provide_option) (p : component)
    (u : nat) (k : string) (d : declaration) (m : gmap string jsval) (v : jsval) :
  k <> "__ob__"%string ->
  provide = ProvideObject m \/
    (exists f, provide = ProvideFunction f /\ call_provide f (uid p) = Some m) ->
  m !! from d = Some v ->
  resolveInject production call_default (Some [(k, d)])
    (Child u None (initProvide (Some provide) p))
  = Some ({[ k := v ]}, []) /\
  lookup_provided (Child u None (initProvide None p)) (from d)
  = lookup_provided p (from d).
Proof.
  intros Hk Hor Hm. split; [|done].
  assert (provides (from d) (initProvide (Some provide) p) = Some v) as Hp.
  { destruct Hor as [->|(f & -> & Hf)]; simpl; rewrite provides_set_provided;
      [|rewrite Hf]; simpl; exact Hm. }
  unfold resolveInject. cbn [fold_left fst snd]. unfold resolve_key.
  rewrite bool_decide_eq_false_2 by done.
  change (lookup_provided (Child u None (initProvide (Some provide) p)) (from d))
    with (lookup_provided (initProvide (Some provide) p) (from d)).
  by rewrite (lookup_provided_here _ _ _ Hp).
Qed.

(** The keys of the result and of the warnings are declared keys. *)
Lemma fold_resolve_keys vm decls : forall acc (D : string -> Prop),
  (forall k, is_Some (acc.1 !! k) -> D k /\ k <> "__ob__"%string) ->
  (forall k, NotFound k ∈ acc.2 ->
     D k /\ k <> "__ob__"%string /\ production = false) ->
  let r := fold_left (fun a kd => resolve_key production call_default vm kd.1 kd.2 a)
             decls acc in
  (forall k, is_Some (r.1 !! k) ->
     (D k \/ k ∈ decls.*1) /\ k <> "__ob__"%string) /\
  (forall k, NotFound k ∈ r.2 ->
     (D k \/ k ∈ decls.*1) /\ k <> "__ob__"%string /\ production = false).
Proof.
  induction decls as [|[key d] decls IH]; intros acc D H1 H2; simpl.
  { split; intros k Hk; [destruct (H1 k Hk)|destruct (H2 k Hk) as (? & ? & ?)];
      auto. }
  destruct (IH (resolve_key production call_default vm key d acc)
              (fun k => D k \/ k = key)) as [IH1 IH2].
  - intros k. unfold resolve_key. case_bool_decide as Hob.
    { intros Hk. destruct (H1 k Hk). auto. }
    assert (forall v, is_Some (<[key := v]> acc.1 !! k) ->
              (D k \/ k = key) /\ k <> "__ob__"%string) as Hins.
    { intros v. destruct (decide (k = key)) as [->|Hne].
      - intros _. auto.
      - rewrite lookup_insert_ne by done. intros Hk. destruct (H1 k Hk). auto. }
    destruct (lookup_provided vm (from d)); simpl; [apply Hins|].
    destruct (default_ d); simpl; [apply Hins|].
    destruct production; simpl; intros Hk; destruct (H1 k Hk); auto.
  - intros k. unfold resolve_key. case_bool_decide as Hob.
    { intros Hk. destruct (H2 k Hk) as (? & ? & ?). auto. }
    assert (NotFound k ∈ acc.2 ->
              (D k \/ k = key) /\ k <> "__ob__"%string /\ production = false)
      as Hold.
    { intros Hk. destruct (H2 k Hk) as (? & ? & ?). auto. }
    destruct (lookup_provided vm (from d)); simpl; [apply Hold|].
    destruct (default_ d); simpl; [apply Hold|].
    destruct production eqn:Eprod; simpl; [apply Hold|].
    rewrite elem_of_app, list_elem_of_singleton. intros [Hk|Heq]; [by apply Hold|]. injection Heq as ->.
    auto.
  - split; intros k Hk.
    + destruct (IH1 k Hk) as [[[?| ->]|?] ?]; (split; [|done]); auto.
      right. apply list_elem_of_here.
      right. by apply list_elem_of_further.
    + destruct (IH2 k Hk) as ([[?| ->]|?] & ? & ?); (split; [|done]); auto.
      right. apply list_elem_of_here.
      right. by apply list_elem_of_further.
Qed.


End Provide.

Lemma initProvide_feeds_inject_witness :
  resolveInject false (fun _ _ => VUndefined)
    (Some [("theme"%string, Declaration "colour" None)])
    (Child 1 None
       (initProvide (fun _ _ => None)
          (Some (ProvideObject {[ "colour"%string := VStr "dark" ]}))
          (Root 0 None)))
  = Some ({[ "theme"%string := VStr "dark" ]}, []).
Proof.
  refine (proj1 (initProvide_feeds_inject false (fun _ _ => VUndefined)
                   (fun _ _ => None)
                   (ProvideObject {[ "colour"%string := VStr "dark" ]})
                   (Root 0 None) 1 "theme" (Declaration "colour" None)
                   {[ "colour"%string := VStr "dark" ]} (VStr "dark") _ _ _)).
  - discriminate.
  - by left.
  - vm_compute. reflexivity.
Defined.

End Inject.

(** * Rendering ([render.js]) *)

Module Render.

(** ** Data *)

(** Modelled from the spec: [VNode] and [createEmptyVNode] of
    [core/vdom/vnode.js] are not among the sources; section 6 speaks of tree
    nodes and of an empty placeholder node.  A node is a tree a render
    function built, known by its identity, or the empty placeholder; its
    [parent] field refers to the placeholder node in the parent tree. *)
Inductive vkind : Type :=
  | Tree (id : nat)
  | Empty.

Record VNode : Type := MkVNode {
  node : vkind;
  parent : option nat
}.

Definition createEmptyVNode : VNode := {| node := Empty; parent := None |}.

(** What a render function can hand back: a tree node, an array of such
    values, or anything else ([undefined], [null], a string, ...). *)
Inductive rvalue : Type :=
  | RNode (v : VNode)
  | RArray (l : list rvalue)
  | ROther.

(** How a call of user code ends. *)
Inductive outcome : Type :=
  | Returns (v : rvalue)
  | Throws (e : nat).

(** The fields of an instance that [_render] uses: what calling
    [$options.render] does, what calling [$options.renderError] with an
    error does (when the option is there), [$options._parentVnode],
    [_vnode] and [$vnode]. *)
Record instance : Type := Instance {
  render : outcome;
  renderError : option (nat -> outcome);
  _parentVnode : option nat;
  _vnode : option VNode;
  S_vnode : option nat
}.

Inductive entry : Type :=
  | Handled (info : string)
  | Warned (msg : string).

#[global] Instance entry_eq_dec : EqDecision entry.
Proof. solve_decision. Defined.

(** The module-level [currentRenderingInstance] and the reports made
    through [handleError] and [warn], newest last. *)
Record state : Type := State {
  currentRenderingInstance : option nat;
  log : list entry
}.

Definition setCurrentRenderingInstance (vm : option nat) (st : state) : state :=
  {| currentRenderingInstance := vm; log := log st |}.

(** Modelled from the spec: [handleError] and [warn] of [core/util] are not
    among the sources; by section 7 an error caught at a boundary is routed
    to a reporting sink. *)
Definition handleError (info : string) (st : state) : state :=
  {| currentRenderingInstance := currentRenderingInstance st;
     log := log st ++ [Handled info] |}.

Definition warn (msg : string) (st : state) : state :=
  {| currentRenderingInstance := currentRenderingInstance st;
     log := log st ++ [Warned msg] |}.

Definition multiple_roots : string :=
  "Multiple root nodes returned from render function. Render function should return a single root node.".

(** [Array.isArray(vnode)] *)
Definition isArray (v : rvalue) : bool :=
  match v with
  | RArray _ => true
  | _ => false
  end.

(** The value of [vm._vnode], which is [null] before the first update. *)
Definition of_vnode (v : option VNode) : rvalue :=
  match v with
  | Some n => RNode n
  | None => ROther
  end.

(** ** [_render] *)

Section RenderFn.

(** [process.env.NODE_ENV === "production"] *)
Variable production : bool.

(** The [try]/[catch] of [_render]: the value left in [vnode], and
    whether it was taken from [vm._vnode].  A value that user code handed
    back is taken to be a new object. *)
Definition render_or_recover (vm : instance) (st : state)
    : rvalue * bool * state :=
  match render vm with
  | Returns v => (v, false, st)
  | Throws e =>
      let st1 := handleError "render" st in
      match (if production then None else renderError vm) with
      | Some f =>
          match f e with
          | Returns v => (v, false, st1)
          | Throws _ =>
              (of_vnode (_vnode vm), true, handleError "renderError" st1)
          end
      | None => (of_vnode (_vnode vm), true, st1)
      end
  end.

(** [if (Array.isArray(vnode) && vnode.length === 1) vnode = vnode[0]] *)
Definition unwrap (vnode : rvalue) : rvalue :=
  match vnode with
  | RArray [x] => x
  | _ => vnode
  end.

(** [if (!(vnode instanceof VNode)) { ...; vnode = createEmptyVNode() }] *)
Definition ensure_node (vnode : rvalue) (st : state) : VNode * state :=
  match vnode with
  | RNode v => (v, st)
  | _ =>
      (createEmptyVNode,
       if negb production && isArray vnode then warn multiple_roots st else st)
  end.

(** [Vue.prototype._render], for the instance of identity [uid]; the update
    of [$scopedSlots] from the parent's scoped slots is left out.  It
    returns the node, the instance with [$vnode] set, and the state.  The
    final [vnode.parent = _parentVnode] writes to the object that is
    returned: when that is the previous tree [vm._vnode] itself, the write
    shows in [vm._vnode]. *)
Definition _render (uid : nat) (vm : instance) (st : state)
    : VNode * instance * state :=
  let '(vnode, reused, st1) :=
    render_or_recover vm (setCurrentRenderingInstance (Some uid) st) in
  let st2 := setCurrentRenderingInstance None st1 in
  let '(v, st3) := ensure_node (unwrap vnode) st2 in
  let result := {| node := node v; parent := _parentVnode vm |} in
  let vm1 :=
    {| render := render vm; renderError := renderError vm;
       _parentVnode := _parentVnode vm;
       _vnode := match _vnode vm with
                 | Some _ => if reused then Some result else _vnode vm
                 | None => None
                 end;
       S_vnode := _parentVnode vm |} in
  (result, vm1, st3).

(** C8: when the render function throws, no [renderError] option is in
    play, and [_vnode] holds the previously rendered tree, [_render]
    reports the error through [handleError] and returns that tree, its
    [parent] set to the current placeholder; [currentRenderingInstance] is
    reset. *)
Theorem render_error_reuses_last_tree (uid e : nat) (vm : instance) (st : state)
    (prev : VNode) :
  render vm = Throws e ->
  (if production then None else renderError vm) = None ->
  _vnode vm = Some prev ->
  (_render uid vm st).1.1 = {| node := node prev; parent := _parentVnode vm |} /\
  log (_render uid vm st).2 = log st ++ [Handled "render"] /\
  currentRenderingInstance (_render uid vm st).2 = None.
Proof.
  intros Hr He Hv. unfold _render, render_or_recover. rewrite Hr, He, Hv. simpl.
  done.
Qed.

(** C9, as the code has it: an array of length exactly 1 is unwrapped to
    its sole element, which is returned when it is a tree node; every other
    array, and every other value that is not a tree node, is replaced by the
    empty placeholder; and the replacement of an array, in particular of a
    multi-root array, is reported unless the build is a production build. *)
Theorem render_single_root (uid : nat) (vm : instance) (st : state) (r : rvalue) :
  render vm = Returns r ->
  (forall n, r = RArray [RNode n] ->
     node (_render uid vm st).1.1 = node n /\ log (_render uid vm st).2 = log st) /\
  (forall l, r = RArray l -> length l <> 1 ->
     node (_render uid vm st).1.1 = Empty /\
     log (_render uid vm st).2
     = if production then log st else log st ++ [Warned multiple_roots]) /\
  (forall x, r = RArray [x] -> (forall n, x <> RNode n) ->
     node (_render uid vm st).1.1 = Empty /\
     log (_render uid vm st).2
     = if negb production && isArray x
       then log st ++ [Warned multiple_roots] else log st) /\
  (r = ROther ->
     node (_render uid vm st).1.1 = Empty /\ log (_render uid vm st).2 = log st).
Proof.
  intros Hr. unfold _render, render_or_recover. rewrite Hr.
  split; [|split; [|split]].
  - intros n ->. done.
  - intros l -> Hl. destruct l as [|x [|y l]]; simpl in *; [|lia|];
      by destruct production.
  - intros x -> Hx. simpl. destruct x as [n| |]; simpl.
    + by destruct (Hx n).
    + by destruct production.
    + by destruct production.
  - intros ->. simpl. by destruct production.
Qed.

End RenderFn.

(** ** Worked instances *)

(** An instance whose render function returns two roots. *)
Definition two_roots : instance :=
  {| render := Returns (RArray [RNode (MkVNode (Tree 1) None);
                                RNode (MkVNode (Tree 2) None)]);
     renderError := None; _parentVnode := Some 9;
     _vnode := Some (MkVNode (Tree 0) (Some 9)); S_vnode := Some 9 |}.

(** An instance whose render function throws after an earlier render. *)
Definition failing : instance :=
  {| render := Throws 3; renderError := None; _parentVnode := Some 9;
     _vnode := Some (MkVNode (Tree 0) (Some 8)); S_vnode := Some 8 |}.

(** C9 fails as stated: in a production build a multi-root array is
    replaced by the empty placeholder without any report. *)
Lemma multi_root_silent_in_production :
  node (_render true 0 two_roots (State None [])).1.1 = Empty /\
  log (_render true 0 two_roots (State None [])).2 = [].
Proof. split; reflexivity. Qed.

Lemma render_error_reuses_last_tree_witness :
  (_render false 0 failing (State None [])).1.1 = MkVNode (Tree 0) (Some 9) /\
  log (_render false 0 failing (State None [])).2 = [Handled "render"] /\
  currentRenderingInstance (_render false 0 failing (State None [])).2 = None.
Proof.
  exact (render_error_reuses_last_tree false 0 3 failing (State None [])
           (MkVNode (Tree 0) (Some 8)) eq_refl eq_refl eq_refl).
Defined.

Lemma render_single_root_witness :
  node (_render false 0 two_roots (State None [])).1.1 = Empty /\
  log (_render false 0 two_roots (State None [])).2 = [Warned multiple_roots].
Proof.
  refine (proj1 (proj2 (render_single_root false 0 two_roots (State None []) _
                          eq_refl)) _ eq_refl _).
  simpl. lia.
Defined.

(** ** Further properties of [_render] *)

Section RenderMore.

Variable production : bool.

(** X23: in a development build with a [renderError] option, a throwing
    render function is reported and [renderError] is called with the error:
    the tree it returns is the result, and when it throws in turn that
    second error is reported too and the previous tree is used, an empty
    placeholder when there is none.  A production build never calls
    [renderError]. *)
Theorem renderError_takes_over (uid e : nat) (vm : instance) (st : state)
    (f : nat -> outcome) :
  render vm = Throws e ->
  renderError vm = Some f ->
  (production = false ->
   (forall n, f e = Returns (RNode n) ->
      (_render production uid vm st).1.1
      = {| node := node n; parent := _parentVnode vm |} /\
      log (_render production uid vm st).2 = log st ++ [Handled "render"]) /\
   (forall e', f e = Throws e' ->
      node (_render production uid vm st).1.1
      = match _vnode vm with Some prev => node prev | None => Empty end /\
      log (_render production uid vm st).2
      = log st ++ [Handled "render"; Handled "renderError"])) /\
  (production = true ->
   node (_render production uid vm st).1.1
   = match _vnode vm with Some prev => node prev | None => Empty end /\
   log (_render production uid vm st).2 = log st ++ [Handled "render"]).
Proof.
  intros Hr Hf. split.
  - intros ->. split.
    + intros n Hn. unfold _render, render_or_recover. rewrite Hr. simpl.
      rewrite Hf, Hn. simpl. split; reflexivity.
    + intros e' He'. unfold _render, render_or_recover. rewrite Hr. simpl.
      rewrite Hf, He'. destruct (_vnode vm); simpl; by rewrite <- app_assoc.
  - intros ->. unfold _render, render_or_recover. simpl. rewrite Hr.
    by destruct (_vnode vm).
Qed.

(** X24: on every path [_render] hands back a tree node whose [parent] is
    the placeholder of the instance, stores the placeholder in [$vnode],
    leaves [currentRenderingInstance] empty, and only adds to the reports:
    at most two, none when the render function returns a tree node, and
    never a warning in a production build. *)
Theorem render_always_returns_a_node (uid : nat) (vm : instance) (st : state) :
  parent (_render production uid vm st).1.1 = _parentVnode vm /\
  S_vnode (_render production uid vm st).1.2 = _parentVnode vm /\
  currentRenderingInstance (_render production uid vm st).2 = None /\
  (exists new, log (_render production uid vm st).2 = log st ++ new /\
     length new <= 2 /\
     (production = true -> forall msg, Warned msg ∉ new) /\
     (forall n, render vm = Returns (RNode n) -> new = [])) /\
  (forall e, _vnode vm = None -> render vm = Throws e ->
     (if production then None else renderError vm) = None ->
     node (_render production uid vm st).1.1 = Empty).
Proof.
  unfold _render.
  destruct (render_or_recover production vm
              (setCurrentRenderingInstance (Some uid) st)) as [[vnode reused] st1] eqn:E1.
  destruct (ensure_node production (unwrap vnode)
              (setCurrentRenderingInstance None st1)) as [v st3] eqn:E3.
  simpl.
  assert (exists new1, log st1 = log st ++ new1 /\
            (forall msg, Warned msg ∉ new1) /\
            ((new1 = []) \/
             (length new1 = 1 /\ render vm <> Returns vnode) \/
             (length new1 = 2 /\ vnode = of_vnode (_vnode vm) /\
              forall r, render vm <> Returns r))) as (new1 & Hl1 & Hw1 & Hn1).
  { unfold render_or_recover in E1. destruct (render vm) as [r|e] eqn:Er.
    - injection E1 as <- <- <-. exists []. simpl. rewrite app_nil_r.
      split; [done|]. split; [|by left]. intros msg H. by apply elem_of_nil in H.
    - destruct (if production then None else renderError vm) as [f|].
      + destruct (f e) as [r|e'].
        * injection E1 as <- <- <-. exists [Handled "render"]. split; [done|].
          split; [|right; left; by split].
          intros msg H. apply list_elem_of_singleton in H. discriminate.
        * injection E1 as <- <- <-. exists [Handled "render"; Handled "renderError"].
          simpl. rewrite <- app_assoc. split; [done|]. split.
          -- intros msg H. repeat (apply elem_of_cons in H as [H|H]; [discriminate|]).
             by apply elem_of_nil in H.
          -- right; right. by repeat split.
      + injection E1 as <- <- <-. exists [Handled "render"]. split; [done|].
        split; [|right; left; by split].
        intros msg H. apply list_elem_of_singleton in H. discriminate. }
  assert (currentRenderingInstance st3 = None /\
          (log st3 = log st1 \/
           (log st3 = log st1 ++ [Warned multiple_roots] /\ production = false /\
            isArray (unwrap vnode) = true))) as [Hc3 Hl3].
  { unfold ensure_node in E3. destruct (unwrap vnode) as [n|l|] eqn:Eu.
    - injection E3 as <- <-. split; [done|by left].
    - destruct production; simpl in E3; injection E3 as <- <-;
        (split; [done|]); [by left|right; by repeat split].
    - destruct production; simpl in E3; injection E3 as <- <-;
        (split; [done|]); by left. }
  split; [done|]. split; [done|]. split; [done|]. split.
  - destruct Hl3 as [Hl3|(Hl3 & Hp & Harr)].
    + exists new1. rewrite Hl3. split; [done|]. split.
      { destruct Hn1 as [->|[[-> _]|[-> _]]]; simpl; lia. }
      split; [by intros _|].
      intros n Hn. destruct Hn1 as [?|[[_ H]|[_ [_ H]]]]; [done| |by destruct (H _ Hn)].
      unfold render_or_recover in E1. rewrite Hn in E1. injection E1 as <- _ _.
      by destruct H.
    + exists (new1 ++ [Warned multiple_roots]). rewrite Hl3, Hl1, app_assoc.
      split; [done|]. split.
      { rewrite length_app. simpl.
        destruct Hn1 as [->|[[-> _]|[_ [Hv _]]]]; simpl; try lia.
        subst vnode. by destruct (_vnode vm). }
      split; [intros ->; discriminate|].
      intros n Hn. unfold render_or_recover in E1. rewrite Hn in E1.
      injection E1 as <- _ _. discriminate.
  - intros e Hv Hr He. unfold render_or_recover in E1. rewrite Hr, He, Hv in E1.
    injection E1 as <- _ _. simpl in E3.
    destruct production; simpl in E3; by injection E3 as <- _.
Qed.

(** On the paths that fall back to the previous tree, [_render] rewrites
    the [parent] of that tree: what the instance holds in [_vnode]
    afterwards is the node that was returned.  When the render function
    returns, [_vnode] is as it was. *)
Lemma render_fallback_rewrites_last_tree (uid : nat) (vm : instance) (st : state) :
  (forall e prev, render vm = Throws e ->
     (if production then None else renderError vm) = None ->
     _vnode vm = Some prev ->
     _vnode (_render production uid vm st).1.2
     = Some {| node := node prev; parent := _parentVnode vm |} /\
     (_render production uid vm st).1.1
     = {| node := node prev; parent := _parentVnode vm |}) /\
  (forall r, render vm = Returns r ->
     _vnode (_render production uid vm st).1.2 = _vnode vm).
Proof.
  split.
  - intros e prev Hr He Hv. unfold _render, render_or_recover.
    rewrite Hr, He, Hv. done.
  - intros r Hr. unfold _render, render_or_recover. rewrite Hr.
    destruct (ensure_node production (unwrap r)
                (setCurrentRenderingInstance None
                   (setCurrentRenderingInstance (Some uid) st))) as [v st3].
    simpl. by destruct (_vnode vm).
Qed.

End RenderMore.

(** An instance whose first render throws, with a [renderError] option
    that builds a tree from the error. *)
Definition recovering : instance :=
  {| render := Throws 3;
     renderError := Some (fun e => Returns (RNode (MkVNode (Tree e) None)));
     _parentVnode := Some 9; _vnode := None; S_vnode := None |}.

Lemma renderError_takes_over_witness :
  (_render false 0 recovering (State None [])).1.1 = MkVNode (Tree 3) (Some 9) /\
  log (_render false 0 recovering (State None [])).2 = [Handled "render"].
Proof.
  exact (proj1 (proj1 (renderError_takes_over false 0 3 recovering (State None [])
                         _ eq_refl eq_refl) eq_refl)
           (MkVNode (Tree 3) None) eq_refl).
Defined.

End Render.

(** * The render proxy ([proxy.js]) *)

Module Proxy.

(** ** Data *)

(** A property key: a string or a symbol. *)
Inductive key : Type :=
  | KString (s : string)
  | KSymbol (id : nat).

#[global] Instance key_eq_dec : EqDecision key.
Proof. solve_decision. Defined.

(** The instance behind the proxy, as the traps see it: whether
    [key in target], the value [target[key]], and whether
    [key in target.$data]. *)
Record target : Type := Target {
  in_target : key -> bool;
  get_target : key -> Z;
  in_data : key -> bool
}.

(** The two warnings of the traps. *)
Inductive warning : Type :=
  | NonPresent (k : key)
  | ReservedPrefix (k : key).

(** [typeof key === "string" && key.charAt(0) === "_"] *)
Definition underscored (k : key) : bool :=
  match k with
  | KString (String c _) => bool_decide (String c EmptyString = "_"%string)
  | _ => false
  end.

(** [typeof key === "string"] *)
Definition is_string (k : key) : bool :=
  match k with
  | KString _ => true
  | KSymbol _ => false
  end.

Section Traps.

(** The predicate [makeMap] builds from the list of allowed globals;
    [makeMap] itself is not among the sources. *)
Variable allowedGlobals : key -> bool.

(** [if (key in target.$data) warnReservedPrefix(target, key);
     else warnNonPresent(target, key)] *)
Definition warn_missing (t : target) (k : key) (log : list warning)
    : list warning :=
  if in_data t k then log ++ [ReservedPrefix k] else log ++ [NonPresent k].

(** [hasHandler.has(target, key)].  Both warnings interpolate the key
    into their message before they call [warn], and interpolating a symbol
    throws a [TypeError]: for a symbol that is to be warned about the trap
    ends by that exception ([None]), with nothing logged. *)
Definition has (t : target) (k : key) (log : list warning)
    : option (bool * list warning) :=
  let has := in_target t k in
  let isAllowed := allowedGlobals k || (underscored k && negb (in_data t k)) in
  if negb has && negb isAllowed
  then if is_string k
       then Some (has || negb isAllowed, warn_missing t k log)
       else None
  else Some (has || negb isAllowed, log).

(** [getHandler.get(target, key)]; the warnings are reached with a string
    key only. *)
Definition get (t : target) (k : key) (log : list warning) : Z * list warning :=
  (get_target t k,
   if is_string k && negb (in_target t k) then warn_missing t k log else log).

(** X20: the [has] trap throws a [TypeError], before anything is logged,
    exactly for a symbol that is not on the instance and is not an allowed
    global.  Otherwise it answers [false], sending the name on to the
    enclosing scope, exactly for names that are not on the instance and
    are allowed globals or underscored names outside [$data]; it warns
    exactly when it answers [true] for a name that is not on the instance,
    with the reserved-prefix warning exactly when the name is in [$data];
    and it never reports an underscored name as not defined. *)
Theorem has_warns_when_it_claims_a_missing_name (t : target) (k : key)
    (log : list warning) :
  (has t k log = None <->
   is_string k = false /\ in_target t k = false /\ allowedGlobals k = false) /\
  (forall b log', has t k log = Some (b, log') ->
     (b = false <->
      in_target t k = false /\
      (allowedGlobals k = true \/ (underscored k = true /\ in_data t k = false))) /\
     (log' = log \/
      b = true /\ in_target t k = false /\
      log' = log ++ [if in_data t k then ReservedPrefix k else NonPresent k]) /\
     (b = true -> in_target t k = false -> log' <> log) /\
     (underscored k = true -> NonPresent k ∈ log' -> NonPresent k ∈ log)).
Proof.
  assert (is_string k = false -> underscored k = false) as Hsym.
  { by destruct k. }
  assert (forall w, log ++ [w] <> log) as Hgrow.
  { intros w H. apply (f_equal length) in H. rewrite length_app in H.
    simpl in H. lia. }
  unfold has, warn_missing. split.
  - destruct (is_string k) eqn:Es.
    + split; [|by intros [? _]].
      by destruct (negb (in_target t k) &&
                   negb (allowedGlobals k || underscored k && negb (in_data t k))).
    + rewrite (Hsym eq_refl). simpl. rewrite orb_false_r.
      destruct (in_target t k), (allowedGlobals k); simpl; split; try done;
        by intros (_ & ? & ?).
  - intros b log'.
    destruct (in_target t k) eqn:Et, (allowedGlobals k) eqn:Ea,
      (underscored k) eqn:Eu, (in_data t k) eqn:Ed, (is_string k) eqn:Es;
      simpl; try discriminate; intros [= <- <-];
      try (rewrite (Hsym eq_refl) in Eu; discriminate);
      (split; [|split; [|split]]);
      try (split; [intros ?|intros [? [?|[? ?]]]]; by auto);
      try (by left); try (right; by auto); try done;
      try (intros _ _; apply Hgrow).
    all: intros _; rewrite elem_of_app, list_elem_of_singleton;
      intros [?|?]; [done|discriminate].
Qed.

(** X21: the [get] trap always hands back [target[key]]; it warns exactly
    for string keys that are not on the instance, underscored ones
    included, and never for a symbol. *)
Theorem get_warns_for_missing_strings (t : target) (k : key) (log : list warning) :
  (get t k log).1 = get_target t k /\
  ((get t k log).2 = log <-> is_string k = false \/ in_target t k = true) /\
  (is_string k = true -> in_target t k = false ->
   (get t k log).2
   = log ++ [if in_data t k then ReservedPrefix k else NonPresent k]).
Proof.
  unfold get, warn_missing. simpl. split; [done|].
  destruct (is_string k), (in_target t k), (in_data t k); simpl;
    (split; [split; [intros H|intros [?|?]]|]); try done; auto;
    try (apply (f_equal length) in H; rewrite length_app in H; simpl in H; lia).
Qed.

End Traps.

(** ** The [config.keyCodes] proxy *)

Section KeyCodes.

(** The predicate [makeMap] builds from the list of built-in modifiers. *)
Variable isBuiltInModifier : string -> bool.

(** The [set] trap: the answer, the table, and whether it warned. *)
Definition keyCodes_set (table : gmap string Z) (k : string) (value : Z)
    : bool * gmap string Z * bool :=
  if isBuiltInModifier k then (false, table, true)
  else (true, <[k := value]> table, false).

(** A sequence of assignments to [config.keyCodes]. *)
Definition assign_all (table : gmap string Z) (writes : list (string * Z))
    : gmap string Z :=
  fold_left (fun t w => (keyCodes_set t w.1 w.2).1.2) writes table.

(** X22: no assignment through the proxy changes the entry of a built-in
    modifier, while the last assignment to any other key is what the table
    holds. *)
Theorem keyCodes_modifiers_are_kept (table : gmap string Z)
    (writes : list (string * Z)) (k : string) :
  (isBuiltInModifier k = true -> assign_all table writes !! k = table !! k) /\
  (forall v rest, isBuiltInModifier k = false ->
     (forall w, w ∈ rest -> w.1 <> k) ->
     assign_all table (writes ++ (k, v) :: rest) !! k = Some v).
Proof.
  assert (forall ws t, (forall w, w ∈ ws -> isBuiltInModifier w.1 = true \/ w.1 <> k) ->
            assign_all t ws !! k = t !! k) as Hkeep.
  { induction ws as [|[k' v'] ws IH]; intros t Hws; [done|].
    unfold assign_all in *. simpl. rewrite IH.
    - unfold keyCodes_set. destruct (isBuiltInModifier k') eqn:E; [done|]. simpl.
      destruct (Hws (k', v') (list_elem_of_here _ _)) as [H|H]; simpl in H;
        [congruence|]. by rewrite lookup_insert_ne.
    - intros w Hw. apply Hws. by apply list_elem_of_further. }
  split.
  - intros Hk. apply Hkeep. intros [k' v'] _. simpl.
    destruct (decide (k' = k)) as [->|?]; auto.
  - intros v rest Hk Hrest. unfold assign_all. rewrite fold_left_app. simpl.
    fold (assign_all table writes).
    fold (assign_all (keyCodes_set (assign_all table writes) k v).1.2 rest).
    rewrite Hkeep by (intros w Hw; right; by apply Hrest).
    unfold keyCodes_set. rewrite Hk. simpl. by rewrite lookup_insert_eq.
Qed.

End KeyCodes.

End Proxy.
